(** * Groove Generator: the synchronized multi-track loop playback engine

    A shallow embedding of the playback code of [GrooveApp] (the React page
    component): the loop-length computation, the Web Audio voices
    ([playTrackWebAudio], [stopTrackWebAudio], [toggleMuteWebAudio]), the
    orchestration ([playAll], [stopAll], [toggleMute], [removeTrack],
    [addTrack], [changeBPM]) and the HTML5 fallback elements.

    Conventions of the embedding:
    - a JavaScript [number] is an IEEE 754 binary64 value, Rocq's primitive
      [float]; track identifiers ([Date.now()]) are integers, modelled in [Z];
    - the React state read through a closure is a [Render] snapshot, the
      state written through a setter lives in the [World];
    - [useRef] maps are finite maps ([gmap]) and the Web Audio nodes they
      point to live in a store keyed by node identity;
    - synchronous code runs in a state-and-exception monad that also records
      the commands it issues; [await] is a suspension point at which other
      handlers may run before the awaited result is delivered. *)

From Stdlib Require Import ZArith QArith Qround Floats Lia.
From stdpp Require Import gmap strings list.

Local Open Scope Z_scope.

(** ** JavaScript numbers *)

Module JS.

(** An integer of magnitude below 2^53 as the [number] that denotes it. *)
Definition of_Z (n : Z) : float :=
  match n with
  | Z0 => 0%float
  | Zpos _ => of_uint63 (Uint63.of_Z n)
  | Zneg _ => (- of_uint63 (Uint63.of_Z (- n)))%float
  end.

(** [Math.ceil]: NaN, the infinities and integral values are returned as
    they are; a value in (-1, 0) gives -0. A finite double is
    [(-1)^s * m * 2^e]; when [e >= 0] it is integral. *)
Definition Math_ceil (x : float) : float :=
  match Prim2SF x with
  | S754_finite s m (Zneg p) =>
      let d := Z.pow_pos 2 p in
      let q := Z.pos m / d in
      let r := Z.pos m mod d in
      if s then (- of_Z q)%float
      else of_Z (if 0 <? r then q + 1 else q)
  | _ => x
  end.

(** [Math.round]: the nearest integer, a tie going towards +infinity; a
    value in [-0.5, 0) gives -0. *)
Definition Math_round (x : float) : float :=
  match Prim2SF x with
  | S754_finite s m (Zneg p) =>
      let d := Z.pow_pos 2 p in
      let n := ((if s then - (2 * Z.pos m) else 2 * Z.pos m) + d) / (2 * d) in
      if n =? 0 then (if s then (-0)%float else 0%float) else of_Z n
  | _ => x
  end.

Definition is_neg_zero (x : float) : bool :=
  match Prim2SF x with S754_zero true => true | _ => false end.

(** [Math.max] and [Math.min] of two numbers. *)
Definition Math_max (a b : float) : float :=
  if is_nan a || is_nan b then nan
  else if (a <? b)%float then b
  else if (b <? a)%float then a
  else if is_neg_zero a then b else a.

Definition Math_min (a b : float) : float :=
  if is_nan a || is_nan b then nan
  else if (a <? b)%float then a
  else if (b <? a)%float then b
  else if is_neg_zero a then a else b.

(** How a call completes: it returns a value, it throws, or (asynchronous
    code only) it is still suspended at an [await] whose promise has not
    settled. *)
Inductive Exn : Type :=
| InvalidTempo
| InvalidStateError
| Rejection.

Inductive Outcome (A : Type) : Type :=
| Normal (a : A)
| Throw (e : Exn)
| Pending.
Global Arguments Normal {A} a.
Global Arguments Throw {A} e.
Global Arguments Pending {A}.

(** Two doubles with the same decoding are the same double. *)
Definition spec_float_eqb (x y : spec_float) : bool :=
  match x, y with
  | S754_zero a, S754_zero b => Bool.eqb a b
  | S754_infinity a, S754_infinity b => Bool.eqb a b
  | S754_nan, S754_nan => true
  | S754_finite a m e, S754_finite b n f =>
      Bool.eqb a b && Pos.eqb m n && Z.eqb e f
  | _, _ => false
  end.

Definition same (x y : float) : bool :=
  spec_float_eqb (Prim2SF x) (Prim2SF y).

End JS.

Import JS.

(** ** Loop length *)

Module LoopWindow.

(** The bar count that [calculateOptimalDuration] binds to [minBars] (and
    that [getCurrentDuration] recomputes for display). *)
Definition minBars (bpm : float) : float :=
  let secondsPerBeat := (60 / bpm)%float in
  let secondsPerBar := (secondsPerBeat * 4)%float in
  Math_ceil (10 / secondsPerBar)%float.

(** [calculateOptimalDuration(bpm)] with the default 4/4 signature. *)
Definition calculateOptimalDuration (bpm : float) : float :=
  let secondsPerBeat := (60 / bpm)%float in
  let secondsPerBar := (secondsPerBeat * 4)%float in
  let minBars := Math_ceil (10 / secondsPerBar)%float in
  let durationSeconds :=
    (Math_round (minBars * secondsPerBar * 1000) / 1000)%float in
  durationSeconds.

(** The body has no [throw] and calls only arithmetic: the call always
    completes normally. *)
Definition calculateOptimalDuration_call (bpm : float) : Outcome float :=
  Normal (calculateOptimalDuration bpm).

(** *** The exact quantities the result is compared with *)

Definition secondsPerBarQ (bpm : Z) : Q := (60 / inject_Z bpm * 4)%Q.

(** [n] bars last at least the 10 second floor. *)
Definition reaches_floor (bpm n : Z) : Prop :=
  (10 <= inject_Z n * secondsPerBarQ bpm)%Q.

(** A duration in seconds to the nearest millisecond, a tie going up. *)
Definition round_ms (q : Q) : Z := Qfloor (q * 1000 + (1 # 2))%Q.

Definition smallest_bars (bpm n : Z) : Prop :=
  reaches_floor bpm n /\ forall m, reaches_floor bpm m -> n <= m.

(** The candidate bar count for a whole tempo: [ceil (bpm / 24)]. *)
Definition bars_of (bpm : Z) : Z := (bpm + 23) / 24.

Definition check_bpm (bpm : Z) : bool :=
  let n := bars_of bpm in
  same (minBars (of_Z bpm)) (of_Z n)
  && same (calculateOptimalDuration (of_Z bpm))
          (of_Z (round_ms (inject_Z n * secondsPerBarQ bpm)) / 1000)%float
  && Qle_bool 10 (inject_Z n * secondsPerBarQ bpm)
  && negb (Qle_bool 10 (inject_Z (n - 1) * secondsPerBarQ bpm))
  && Qle_bool 0 (secondsPerBarQ bpm).

Definition supported_tempi : list Z := map (fun k => 60 + Z.of_nat k) (seq 0 141).

End LoopWindow.


(** ** Data model *)

Module Track.
(** [interface Track { name; id; url: string | null; muted?: boolean }] *)
Record t : Type := mk {
  name : string;
  id : Z;
  url : option string;
  muted : option bool;
}.

(** [{ ...t, url }] and [{ ...t, muted }] *)
Definition with_url (u : option string) (x : t) : t :=
  mk (name x) (id x) u (muted x).
Definition with_muted (m : bool) (x : t) : t :=
  mk (name x) (id x) (url x) (Some m).

(** Truthiness of [t.url]: neither [null] nor the empty string. *)
Definition has_url (x : t) : bool :=
  match url x with
  | Some (String _ _) => true
  | _ => false
  end.

(** [!!t.muted] *)
Definition is_muted (x : t) : bool :=
  match muted x with Some true => true | _ => false end.
End Track.

(** Truthiness of a [string | null] or [string | undefined] value. *)
Definition truthy (s : option string) : bool :=
  match s with
  | Some (String _ _) => true
  | _ => false
  end.

(** The lines pushed on the history list, by their template. *)
Inductive HistoryEntry : Type :=
| HAdding (displayName : string)          (* "Adding <name>..." *)
| HAdded (displayName : string)           (* "<name> added successfully" *)
| HFailed (displayName : string)          (* "Failed to generate <name>" *)
| HRemoved (name : string)                (* "Removed <name>" *)
| HTempoChanged (bpm : float)             (* "Changed tempo to <bpm> BPM" *)
| HTempoSet (bpm : float).                (* "Set tempo to <bpm> BPM" *)

(** [AudioBuffer]: the decoded samples are abstract, the duration is read. *)
Record AudioBuffer : Type := { duration : float }.

(** [AudioBufferSourceNode]. [owner] is not a field of the JavaScript object:
    it records the track whose clip the node was created for. *)
Record SourceNode : Type := mkSource {
  owner : Z;
  buffer : option AudioBuffer;
  loop : bool;
  loopStart : float;
  loopEnd : float;
  output : option nat;
  started : bool;
  stopped : bool;
}.

(** [GainNode] *)
Record GainNode : Type := mkGain {
  gain : float;
  toDestination : bool;
}.

(** [HTMLAudioElement], as far as the page touches it. *)
Record AudioElement : Type := mkElement {
  src : string;
  paused : bool;
  currentTime : float;
  el_muted : bool;
  readyState : Z;
  endedListeners : list nat;
  timeupdateListeners : list nat;
}.

Inductive ContextState : Type := suspended | running | closed.

(** The page: React state, refs, and the objects the refs point to. Nodes
    and elements are referred to by their position in the store; a node is
    never deallocated. *)
Record World : Type := mkWorld {
  tracks : list Track.t;
  history : list HistoryEntry;
  currentBPM : float;
  webAudioSupported : bool;
  isPlayingAll : bool;
  audioContextRef : option ContextState;
  audioBuffersRef : gmap Z AudioBuffer;
  sourceNodesRef : gmap Z nat;
  gainNodesRef : gmap Z nat;
  audioRefs : gmap Z nat;
  loopHandlers : gmap Z nat;
  sources : list SourceNode;
  gains : list GainNode;
  elements : list AudioElement;
  nextHandler : nat;
}.

Definition set_tracks (f : list Track.t -> list Track.t) (w : World) : World :=
  mkWorld (f (tracks w)) (history w) (currentBPM w) (webAudioSupported w)
    (isPlayingAll w) (audioContextRef w) (audioBuffersRef w) (sourceNodesRef w)
    (gainNodesRef w) (audioRefs w) (loopHandlers w) (sources w) (gains w)
    (elements w) (nextHandler w).
Definition set_history (f : list HistoryEntry -> list HistoryEntry) (w : World) : World :=
  mkWorld (tracks w) (f (history w)) (currentBPM w) (webAudioSupported w)
    (isPlayingAll w) (audioContextRef w) (audioBuffersRef w) (sourceNodesRef w)
    (gainNodesRef w) (audioRefs w) (loopHandlers w) (sources w) (gains w)
    (elements w) (nextHandler w).
Definition set_currentBPM (v : float) (w : World) : World :=
  mkWorld (tracks w) (history w) v (webAudioSupported w)
    (isPlayingAll w) (audioContextRef w) (audioBuffersRef w) (sourceNodesRef w)
    (gainNodesRef w) (audioRefs w) (loopHandlers w) (sources w) (gains w)
    (elements w) (nextHandler w).
Definition set_isPlayingAll (v : bool) (w : World) : World :=
  mkWorld (tracks w) (history w) (currentBPM w) (webAudioSupported w)
    v (audioContextRef w) (audioBuffersRef w) (sourceNodesRef w)
    (gainNodesRef w) (audioRefs w) (loopHandlers w) (sources w) (gains w)
    (elements w) (nextHandler w).
Definition set_audioContextRef (v : option ContextState) (w : World) : World :=
  mkWorld (tracks w) (history w) (currentBPM w) (webAudioSupported w)
    (isPlayingAll w) v (audioBuffersRef w) (sourceNodesRef w)
    (gainNodesRef w) (audioRefs w) (loopHandlers w) (sources w) (gains w)
    (elements w) (nextHandler w).
Definition set_audioBuffersRef (f : gmap Z AudioBuffer -> gmap Z AudioBuffer) (w : World) : World :=
  mkWorld (tracks w) (history w) (currentBPM w) (webAudioSupported w)
    (isPlayingAll w) (audioContextRef w) (f (audioBuffersRef w)) (sourceNodesRef w)
    (gainNodesRef w) (audioRefs w) (loopHandlers w) (sources w) (gains w)
    (elements w) (nextHandler w).
Definition set_sourceNodesRef (f : gmap Z nat -> gmap Z nat) (w : World) : World :=
  mkWorld (tracks w) (history w) (currentBPM w) (webAudioSupported w)
    (isPlayingAll w) (audioContextRef w) (audioBuffersRef w) (f (sourceNodesRef w))
    (gainNodesRef w) (audioRefs w) (loopHandlers w) (sources w) (gains w)
    (elements w) (nextHandler w).
Definition set_gainNodesRef (f : gmap Z nat -> gmap Z nat) (w : World) : World :=
  mkWorld (tracks w) (history w) (currentBPM w) (webAudioSupported w)
    (isPlayingAll w) (audioContextRef w) (audioBuffersRef w) (sourceNodesRef w)
    (f (gainNodesRef w)) (audioRefs w) (loopHandlers w) (sources w) (gains w)
    (elements w) (nextHandler w).
Definition set_audioRefs (f : gmap Z nat -> gmap Z nat) (w : World) : World :=
  mkWorld (tracks w) (history w) (currentBPM w) (webAudioSupported w)
    (isPlayingAll w) (audioContextRef w) (audioBuffersRef w) (sourceNodesRef w)
    (gainNodesRef w) (f (audioRefs w)) (loopHandlers w) (sources w) (gains w)
    (elements w) (nextHandler w).
Definition set_loopHandlers (f : gmap Z nat -> gmap Z nat) (w : World) : World :=
  mkWorld (tracks w) (history w) (currentBPM w) (webAudioSupported w)
    (isPlayingAll w) (audioContextRef w) (audioBuffersRef w) (sourceNodesRef w)
    (gainNodesRef w) (audioRefs w) (f (loopHandlers w)) (sources w) (gains w)
    (elements w) (nextHandler w).
Definition set_sources (f : list SourceNode -> list SourceNode) (w : World) : World :=
  mkWorld (tracks w) (history w) (currentBPM w) (webAudioSupported w)
    (isPlayingAll w) (audioContextRef w) (audioBuffersRef w) (sourceNodesRef w)
    (gainNodesRef w) (audioRefs w) (loopHandlers w) (f (sources w)) (gains w)
    (elements w) (nextHandler w).
Definition set_gains (f : list GainNode -> list GainNode) (w : World) : World :=
  mkWorld (tracks w) (history w) (currentBPM w) (webAudioSupported w)
    (isPlayingAll w) (audioContextRef w) (audioBuffersRef w) (sourceNodesRef w)
    (gainNodesRef w) (audioRefs w) (loopHandlers w) (sources w) (f (gains w))
    (elements w) (nextHandler w).
Definition set_elements (f : list AudioElement -> list AudioElement) (w : World) : World :=
  mkWorld (tracks w) (history w) (currentBPM w) (webAudioSupported w)
    (isPlayingAll w) (audioContextRef w) (audioBuffersRef w) (sourceNodesRef w)
    (gainNodesRef w) (audioRefs w) (loopHandlers w) (sources w) (gains w)
    (f (elements w)) (nextHandler w).
Definition set_nextHandler (v : nat) (w : World) : World :=
  mkWorld (tracks w) (history w) (currentBPM w) (webAudioSupported w)
    (isPlayingAll w) (audioContextRef w) (audioBuffersRef w) (sourceNodesRef w)
    (gainNodesRef w) (audioRefs w) (loopHandlers w) (sources w) (gains w)
    (elements w) v.

(** What a function body sees of the React state: the values of the render
    in which the function was created. *)
Record Render : Type := mkRender {
  r_tracks : list Track.t;
  r_currentBPM : float;
  r_webAudioSupported : bool;
  r_isPlayingAll : bool;
}.

(** The render that is current in a world: what a handler wired to a button
    sees when the button is pressed. *)
Definition render (w : World) : Render :=
  mkRender (tracks w) (currentBPM w) (webAudioSupported w) (isPlayingAll w).

(** The first render: [useState] initial values. The speech recognition
    callback is installed once, by an effect with an empty dependency list,
    and keeps the functions of this render. *)
Definition first_render : Render := mkRender [] 120%float false false.

(** ** Commands, messages and the monad of handler code *)

(** The promises the page awaits. *)
Inductive Awaited : Type :=
| AwResume                                  (* audioContext.resume() *)
| AwFetch (trackId : Z) (url : string)      (* fetch(url) *)
| AwArrayBuffer (trackId : Z)               (* response.arrayBuffer() *)
| AwDecode (trackId : Z)                    (* decodeAudioData(arrayBuffer) *)
| AwGenerate (inst : string) (style : option string)
                                            (* generateTrack(inst, style) *)
| AwReady (els : list nat)                  (* Promise.all, canplaythrough *)
| AwPlaying (els : list nat).               (* Promise.all of play() *)

(** Console lines. [console.log] progress lines are not modelled, except the
    line with which [loadAudioBuffer] reports a successful load. *)
Inductive Message : Type :=
| MsgNoTracks                     (* warn: No tracks available to play *)
| MsgBufferLoaded (trackId : Z)   (* log: Audio buffer loaded for track *)
| MsgLoadFailed (trackId : Z)     (* error: Failed to load audio buffer *)
| MsgCannotPlay (name : string)   (* warn: Cannot play <name>: buffer not loaded *)
| MsgSyncPlayback                 (* error: Sync playback error *)
| MsgPlayAll.                     (* error: PlayAll error *)

(** What the code does to the outside, in the order it does it. *)
Inductive Event : Type :=
| SourceStart (node : nat) (track : Z)    (* source.start() *)
| SourceStop (node : nat)                 (* source.stop() *)
| ElementPlay (el : nat)                  (* audio.play() *)
| ElementPause (el : nat)                 (* audio.pause() *)
| Suspend (what : Awaited)                (* control leaves at an await *)
| Resume (what : Awaited) (fulfilled : bool)
                                          (* the awaited promise settled *)
| ConsoleLog (m : Message)
| ConsoleWarn (m : Message)
| ConsoleError (m : Message)
| Alert
| RevokeObjectURL (url : string).

(** State, issued commands, and how the code completed. State changes made
    before a throw stay made. *)
Definition M (S A : Type) : Type := S -> S * list Event * Outcome A.

Definition ret {S A} (a : A) : M S A := fun s => (s, [], Normal a).

Definition bind {S A B} (m : M S A) (k : A -> M S B) : M S B :=
  fun s =>
    let '(s1, t1, o1) := m s in
    match o1 with
    | Normal a => let '(s2, t2, o2) := k a s1 in (s2, t1 ++ t2, o2)
    | Throw e => (s1, t1, Throw e)
    | Pending => (s1, t1, Pending)
    end.

Notation "x <~ y ; z" := (bind y (fun x => z))
  (at level 20, y at level 100, z at level 200, only parsing).

Definition get {S} : M S S := fun s => (s, [], Normal s).
Definition modify {S} (f : S -> S) : M S unit := fun s => (f s, [], Normal tt).
Definition emit {S} (e : Event) : M S unit := fun s => (s, [e], Normal tt).
Definition throw {S A} (e : Exn) : M S A := fun s => (s, [], Throw e).

(** [try { m } catch { h }]: a suspended body stays suspended. *)
Definition try_catch {S A} (m : M S A) (h : Exn -> M S A) : M S A :=
  fun s =>
    let '(s1, t1, o1) := m s in
    match o1 with
    | Throw e => let '(s2, t2, o2) := h e s1 in (s2, t1 ++ t2, o2)
    | _ => (s1, t1, o1)
    end.

(** [for (const x of l) f(x)] and [l.forEach(f)] *)
Fixpoint forEach {S A} (l : list A) (f : A -> M S unit) : M S unit :=
  match l with
  | [] => ret tt
  | x :: rest => _ <~ f x; forEach rest f
  end.

Definition when {S} (b : bool) (m : M S unit) : M S unit :=
  if b then m else ret tt.

Definition world_of {S A} (r : S * list Event * Outcome A) : S := r.1.1.
Definition trace_of {S A} (r : S * list Event * Outcome A) : list Event := r.1.2.
Definition outcome_of {S A} (r : S * list Event * Outcome A) : Outcome A := r.2.

(** ** Web Audio objects *)

Definition update_source (n : nat) (f : SourceNode -> SourceNode) : M World unit :=
  modify (set_sources (alter f n)).
Definition update_gain (n : nat) (f : GainNode -> GainNode) : M World unit :=
  modify (set_gains (alter f n)).
Definition update_element (n : nat) (f : AudioElement -> AudioElement) : M World unit :=
  modify (set_elements (alter f n)).

Definition set_buffer (b : AudioBuffer) (nd : SourceNode) : SourceNode :=
  mkSource (owner nd) (Some b) (loop nd) (loopStart nd) (loopEnd nd)
    (output nd) (started nd) (stopped nd).
Definition set_loop (v : bool) (nd : SourceNode) : SourceNode :=
  mkSource (owner nd) (buffer nd) v (loopStart nd) (loopEnd nd)
    (output nd) (started nd) (stopped nd).
Definition set_loopStart (v : float) (nd : SourceNode) : SourceNode :=
  mkSource (owner nd) (buffer nd) (loop nd) v (loopEnd nd)
    (output nd) (started nd) (stopped nd).
Definition set_loopEnd (v : float) (nd : SourceNode) : SourceNode :=
  mkSource (owner nd) (buffer nd) (loop nd) (loopStart nd) v
    (output nd) (started nd) (stopped nd).
Definition set_output (g : nat) (nd : SourceNode) : SourceNode :=
  mkSource (owner nd) (buffer nd) (loop nd) (loopStart nd) (loopEnd nd)
    (Some g) (started nd) (stopped nd).
Definition set_started (nd : SourceNode) : SourceNode :=
  mkSource (owner nd) (buffer nd) (loop nd) (loopStart nd) (loopEnd nd)
    (output nd) true (stopped nd).
Definition set_stopped (nd : SourceNode) : SourceNode :=
  mkSource (owner nd) (buffer nd) (loop nd) (loopStart nd) (loopEnd nd)
    (output nd) (started nd) true.

Definition set_gain (v : float) (g : GainNode) : GainNode :=
  mkGain v (toDestination g).
Definition set_toDestination (g : GainNode) : GainNode :=
  mkGain (gain g) true.

Definition set_paused (v : bool) (e : AudioElement) : AudioElement :=
  mkElement (src e) v (currentTime e) (el_muted e) (readyState e)
    (endedListeners e) (timeupdateListeners e).
Definition set_currentTime (v : float) (e : AudioElement) : AudioElement :=
  mkElement (src e) (paused e) v (el_muted e) (readyState e)
    (endedListeners e) (timeupdateListeners e).
Definition set_el_muted (v : bool) (e : AudioElement) : AudioElement :=
  mkElement (src e) (paused e) (currentTime e) v (readyState e)
    (endedListeners e) (timeupdateListeners e).
Definition set_endedListeners (f : list nat -> list nat) (e : AudioElement) : AudioElement :=
  mkElement (src e) (paused e) (currentTime e) (el_muted e) (readyState e)
    (f (endedListeners e)) (timeupdateListeners e).
Definition set_timeupdateListeners (f : list nat -> list nat) (e : AudioElement) : AudioElement :=
  mkElement (src e) (paused e) (currentTime e) (el_muted e) (readyState e)
    (endedListeners e) (f (timeupdateListeners e)).

(** [audioContext.createBufferSource()]: a fresh node, not started. *)
Definition createBufferSource (track : Z) : M World nat :=
  w <~ get;
  _ <~ modify (set_sources
         (fun l => l ++ [mkSource track None false 0%float 0%float None false false]));
  ret (length (sources w)).

(** [audioContext.createGain()]: a fresh gain node of gain 1. *)
Definition createGain : M World nat :=
  w <~ get;
  _ <~ modify (set_gains (fun l => l ++ [mkGain 1%float false]));
  ret (length (gains w)).

(** [source.start()]: a node can be started once. *)
Definition source_start (n : nat) : M World unit :=
  w <~ get;
  match sources w !! n with
  | Some nd =>
      if started nd then throw InvalidStateError
      else _ <~ update_source n set_started; emit (SourceStart n (owner nd))
  | None => throw InvalidStateError
  end.

(** [source.stop()]: throws on a node that was never started. *)
Definition source_stop (n : nat) : M World unit :=
  w <~ get;
  match sources w !! n with
  | Some nd =>
      if started nd
      then _ <~ update_source n set_stopped; emit (SourceStop n)
      else throw InvalidStateError
  | None => throw InvalidStateError
  end.

(** A node sounds from [start()] until [stop()]. *)
Definition active (nd : SourceNode) : bool := started nd && negb (stopped nd).

(** The region a looping node repeats, as the Web Audio playback algorithm
    has it: the whole buffer unless [0 <= loopStart < loopEnd] with
    [loopEnd > 0], in which case [loopStart .. min(loopEnd, duration)]. *)
Definition loopRegion (nd : SourceNode) : option (float * float) :=
  match buffer nd with
  | Some b =>
      if loop nd then
        if ((0 <=? loopStart nd) && (0 <? loopEnd nd)
            && (loopStart nd <? loopEnd nd))%float
        then Some (loopStart nd,
                   if (duration b <? loopEnd nd)%float then duration b else loopEnd nd)
        else Some (0%float, duration b)
      else None
  | None => None
  end.

Definition MAX_LOOP_DURATION : float := 10%float.
Definition MIN_LOOP_DURATION : float := 8%float.

(** [playTrackWebAudio(trackId, muted)] *)
Definition playTrackWebAudio (r : Render) (trackId : Z) (muted : bool) : M World unit :=
  w <~ get;
  if negb (bool_decide (is_Some (audioContextRef w))) || negb (r_webAudioSupported r)
  then ret tt
  else
    match audioBuffersRef w !! trackId with
    | None => ret tt
    | Some audioBuffer =>
        _ <~ match sourceNodesRef w !! trackId with
             | Some existingSource =>
                 _ <~ source_stop existingSource;
                 modify (set_sourceNodesRef (delete trackId))
             | None => ret tt
             end;
        source <~ createBufferSource trackId;
        _ <~ update_source source (set_buffer audioBuffer);
        _ <~ update_source source (set_loop true);
        _ <~ when (MAX_LOOP_DURATION <? duration audioBuffer)%float
               (_ <~ update_source source (set_loopStart 0%float);
                update_source source (set_loopEnd MAX_LOOP_DURATION));
        gainNode <~ createGain;
        _ <~ update_gain gainNode (set_gain (if muted then 0%float else 1%float));
        _ <~ update_source source (set_output gainNode);
        _ <~ update_gain gainNode set_toDestination;
        _ <~ modify (set_sourceNodesRef (<[trackId := source]>));
        _ <~ modify (set_gainNodesRef (<[trackId := gainNode]>));
        source_start source
    end.

(** [stopTrackWebAudio(trackId)] *)
Definition stopTrackWebAudio (trackId : Z) : M World unit :=
  w <~ get;
  match sourceNodesRef w !! trackId with
  | Some source =>
      _ <~ source_stop source;
      _ <~ modify (set_sourceNodesRef (delete trackId));
      modify (set_gainNodesRef (delete trackId))
  | None => ret tt
  end.

(** [toggleMuteWebAudio(trackId, muted)] *)
Definition toggleMuteWebAudio (trackId : Z) (muted : bool) : M World unit :=
  w <~ get;
  match gainNodesRef w !! trackId with
  | Some gainNode => update_gain gainNode (set_gain (if muted then 0%float else 1%float))
  | None => ret tt
  end.

(** ** HTML5 audio elements *)

(** [audio.pause()], [audio.play()] (the call itself; its promise is awaited
    separately) and [audio.removeEventListener('ended', handler)]. *)
Definition element_pause (el : nat) : M World unit :=
  _ <~ update_element el (set_paused true); emit (ElementPause el).

Definition element_play (el : nat) : M World unit :=
  _ <~ update_element el (set_paused false); emit (ElementPlay el).

Definition removeEndedListener (el handler : nat) : M World unit :=
  update_element el (set_endedListeners (filter (fun h => h <> handler))).

(** The [ref] callback of a track's [<audio>] element, called with the
    element: it registers the element and, unless a loop handler is already
    stored for the track, installs the ['ended'] restart handler and the
    ['timeupdate'] handler that rewinds at 10 seconds. *)
Definition audioRef_attach (track : Track.t) (el : nat) : M World unit :=
  _ <~ modify (set_audioRefs (<[Track.id track := el]>));
  w <~ get;
  when (negb (bool_decide (is_Some (loopHandlers w !! Track.id track))))
    (let loopHandler := nextHandler w in
     let timeUpdateHandler := S (nextHandler w) in
     _ <~ modify (set_nextHandler (S (S (nextHandler w))));
     _ <~ modify (set_loopHandlers (<[Track.id track := loopHandler]>));
     _ <~ update_element el (set_endedListeners (fun l => l ++ [loopHandler]));
     update_element el (set_timeupdateListeners (fun l => l ++ [timeUpdateHandler]))).

(** The same callback called with [null], when the element goes away. *)
Definition audioRef_detach (track : Track.t) : M World unit :=
  w <~ get;
  _ <~ match loopHandlers w !! Track.id track with
       | Some handler =>
           _ <~ match audioRefs w !! Track.id track with
                | Some audio => removeEndedListener audio handler
                | None => ret tt
                end;
           modify (set_loopHandlers (delete (Track.id track)))
       | None => ret tt
       end;
  modify (set_audioRefs (delete (Track.id track))).

(** React creating the [<audio src=url muted=...>] element of a track. *)
Definition createAudioElement (track : Track.t) (ready : Z) : M World nat :=
  w <~ get;
  _ <~ modify (set_elements (fun l => l ++
         [mkElement (default "" (Track.url track)) true 0%float
            (Track.is_muted track) ready [] []]));
  ret (length (elements w)).

(** ** Orchestration: the synchronous handlers *)

Definition find_track (trackId : Z) (l : list Track.t) : option Track.t :=
  List.find (fun t => Track.id t =? trackId) l.

(** [stopAll()] *)
Definition stopAll (r : Render) : M World unit :=
  _ <~ modify (set_isPlayingAll false);
  _ <~ when (r_webAudioSupported r)
         (forEach (r_tracks r) (fun track => stopTrackWebAudio (Track.id track)));
  forEach (r_tracks r) (fun t =>
    w <~ get;
    let audio := audioRefs w !! Track.id t in
    let handler := loopHandlers w !! Track.id t in
    match audio with
    | Some audio =>
        when (Track.has_url t)
          (_ <~ element_pause audio;
           _ <~ update_element audio (set_currentTime 0%float);
           match handler with
           | Some handler =>
               _ <~ removeEndedListener audio handler;
               modify (set_loopHandlers (delete (Track.id t)))
           | None => ret tt
           end)
    | None => ret tt
    end).

(** [toggleMute(trackId)] *)
Definition toggleMute (r : Render) (trackId : Z) : M World unit :=
  let track := find_track trackId (r_tracks r) in
  let newMutedState :=
    negb (match track with Some t => Track.is_muted t | None => false end) in
  _ <~ modify (set_tracks (map (fun t =>
         if Track.id t =? trackId then Track.with_muted newMutedState t else t)));
  if r_isPlayingAll r && r_webAudioSupported r
  then toggleMuteWebAudio trackId newMutedState
  else
    w <~ get;
    match audioRefs w !! trackId with
    | Some audio => update_element audio (set_el_muted newMutedState)
    | None => ret tt
    end.

(** [removeTrack(trackId)] *)
Definition removeTrack (r : Render) (trackId : Z) : M World unit :=
  match find_track trackId (r_tracks r) with
  | Some track =>
      _ <~ when (r_webAudioSupported r)
             (_ <~ stopTrackWebAudio trackId;
              modify (set_audioBuffersRef (delete trackId)));
      w <~ get;
      let audio := audioRefs w !! trackId in
      let handler := loopHandlers w !! trackId in
      _ <~ match audio with
           | Some audio =>
               _ <~ element_pause audio;
               _ <~ update_element audio (set_currentTime 0%float);
               _ <~ match handler with
                    | Some handler =>
                        _ <~ removeEndedListener audio handler;
                        modify (set_loopHandlers (delete trackId))
                    | None => ret tt
                    end;
               match Track.url track with
               | Some u => when (Track.has_url track) (emit (RevokeObjectURL u))
               | None => ret tt
               end
           | None => ret tt
           end;
      _ <~ modify (set_audioRefs (delete trackId));
      _ <~ modify (set_tracks (filter (fun t => Track.id t <> trackId)));
      modify (set_history (fun prev => prev ++ [HRemoved (Track.name track)]))
  | None => ret tt
  end.

(** [changeBPM(newBPM)]; [confirmed] is the user's answer to [confirm(...)],
    asked only when some track already has audio. *)
Definition changeBPM (r : Render) (newBPM : float) (confirmed : bool) : M World unit :=
  if (0 <? length (filter (fun t => Track.has_url t = true) (r_tracks r)))%nat
  then
    when confirmed
      (_ <~ modify (set_currentBPM newBPM);
       modify (set_history (fun prev => prev ++ [HTempoChanged newBPM])))
  else
    _ <~ modify (set_currentBPM newBPM);
    modify (set_history (fun prev => prev ++ [HTempoSet newBPM])).

(** [clearAllTracks()] *)
Definition clearAllTracks (confirmed : bool) : M World unit :=
  when confirmed
    (_ <~ modify (set_tracks (fun _ => []));
     modify (set_history (fun _ => []))).

(** The tempo controls of the page and the argument each passes to
    [changeBPM]: the minus and plus buttons, the quick presets, and the
    select box over [bpmPresets]. *)
Definition bpmPresets : list float :=
  [80; 90; 100; 110; 120; 130; 140; 150]%float.
Definition quickPresets : list float := [80; 100; 120; 140]%float.

Inductive TempoControl : Type :=
| TempoMinus
| TempoPlus
| TempoQuick (i : nat)
| TempoSelect (i : nat).

Definition requested_tempo (r : Render) (c : TempoControl) : option float :=
  match c with
  | TempoMinus => Some (Math_max 60 (r_currentBPM r - 10))%float
  | TempoPlus => Some (Math_min 200 (r_currentBPM r + 10))%float
  | TempoQuick i => quickPresets !! i
  | TempoSelect i => bpmPresets !! i
  end.

Definition useTempoControl (c : TempoControl) (confirmed : bool) : M World unit :=
  w <~ get;
  match requested_tempo (render w) c with
  | Some newBPM => changeBPM (render w) newBPM confirmed
  | None => ret tt
  end.

(** ** Asynchronous code

    JavaScript runs one handler at a time; an [async] function gives up
    control at each [await] and continues when the awaited promise has
    settled. What happens in between is given by a schedule: per suspension,
    the synchronous handlers the user triggers meanwhile, and how the promise
    settles. A schedule that ends leaves the function suspended for good
    ([Pending]). Other asynchronous functions do not run inside a
    suspension of the one under study. *)

(** What a fulfilled promise carries: the component the awaiting code asks
    for is read, the other is ignored. *)
Record Payload : Type := {
  decoded : AudioBuffer;              (* of decodeAudioData *)
  generated : option string;          (* of generateTrack: a blob URL or null *)
}.

Inductive Answer : Type :=
| Fulfilled (v : Payload)
| Rejected.

(** Handlers a user can trigger while a function is suspended. *)
Inductive Action : Type :=
| ARemoveTrack (trackId : Z)
| AToggleMute (trackId : Z)
| AStopAll
| ATempo (c : TempoControl) (confirmed : bool)
| AClearAll (confirmed : bool)
| AMountAudio (trackId : Z) (ready : Z).

Record Turn : Type := {
  meanwhile : list Action;
  answer : Answer;
}.

Record Task : Type := mkTask {
  world : World;
  schedule : list Turn;
}.

(** React rendering the [<audio>] element of a track that has a URL and no
    registered element yet: the element is created and its [ref] callback is
    called with it. The calls of the callbacks at every later commit are
    [commitRefs]. *)
Definition mountAudio (trackId : Z) (ready : Z) : M World unit :=
  w <~ get;
  match find_track trackId (tracks w), audioRefs w !! trackId with
  | Some track, None =>
      when (Track.has_url track)
        (el <~ createAudioElement track ready; audioRef_attach track el)
  | _, _ => ret tt
  end.

(** A commit of a render. The [ref] callback of an [<audio>] element is an
    inline arrow function, a new one in every render: when a render is
    committed, React calls the previous callback with [null] and then the
    new one with the element, for every track whose element stays mounted;
    all the calls with [null] come first. *)
Definition commitRefs : M World unit :=
  w <~ get;
  let mounted :=
    omap (fun t => if Track.has_url t
                   then pair t <$> audioRefs w !! Track.id t
                   else None) (tracks w) in
  _ <~ forEach mounted (fun p => audioRef_detach p.1);
  forEach mounted (fun p => audioRef_attach p.1 p.2).

(** A handler run from the page: it sees the current render, and an
    exception it lets escape ends that handler only. *)
Definition perform (a : Action) : M World unit :=
  w <~ get;
  try_catch
    match a with
    | ARemoveTrack trackId => removeTrack (render w) trackId
    | AToggleMute trackId => toggleMute (render w) trackId
    | AStopAll => stopAll (render w)
    | ATempo c confirmed => useTempoControl c confirmed
    | AClearAll confirmed => clearAllTracks confirmed
    | AMountAudio trackId ready => mountAudio trackId ready
    end
    (fun _ => ret tt).

(** Synchronous code inside an asynchronous function. *)
Definition lift {A} (m : M World A) : M Task A :=
  fun s =>
    let '(w, t, o) := m (world s) in (mkTask w (schedule s), t, o).

Definition getW : M Task World := lift get.

Definition no_payload : Payload :=
  {| decoded := {| duration := 0%float |}; generated := None |}.

(** [await p]. With [cannot_reject], [p] is a promise that fulfils whatever
    happens (its failures are caught before it is awaited). *)
Definition await_promise (what : Awaited) (cannot_reject : bool) : M Task Payload :=
  fun s =>
    match schedule s with
    | [] => (s, [Suspend what], Pending)
    | turn :: rest =>
        let '(w, t, _) := forEach (meanwhile turn) perform (world s) in
        match answer turn with
        | Fulfilled v =>
            (mkTask w rest, Suspend what :: t ++ [Resume what true], Normal v)
        | Rejected =>
            if cannot_reject
            then (mkTask w rest, Suspend what :: t ++ [Resume what true],
                  Normal no_payload)
            else (mkTask w rest, Suspend what :: t ++ [Resume what false],
                  Throw Rejection)
        end
    end.

Definition await (what : Awaited) : M Task Payload := await_promise what false.

(** [loadAudioBuffer(trackId, url)] *)
Definition loadAudioBuffer (r : Render) (trackId : Z) (url : string) : M Task unit :=
  w <~ getW;
  if negb (bool_decide (is_Some (audioContextRef w))) || negb (r_webAudioSupported r)
  then ret tt
  else
    try_catch
      (_ <~ await (AwFetch trackId url);
       _ <~ await (AwArrayBuffer trackId);
       audioBuffer <~ await (AwDecode trackId);
       _ <~ lift (modify (set_audioBuffersRef (<[trackId := decoded audioBuffer]>)));
       emit (ConsoleLog (MsgBufferLoaded trackId)))
      (fun _ => emit (ConsoleError (MsgLoadFailed trackId))).

(** [style ? `${style} ${inst}` : inst] *)
Definition displayName (inst : string) (style : option string) : string :=
  match style with
  | Some s => if truthy style then s +:+ " " +:+ inst else inst
  | None => inst
  end.

(** [generateTrack(inst, style)], as its caller sees it: one request to the
    generation service, answered by a blob URL, or [null] when anything in
    it failed (the function catches every error). *)
Definition generateTrack (inst : string) (style : option string) : M Task (option string) :=
  try_catch
    (p <~ await (AwGenerate inst style); ret (generated p))
    (fun _ => ret None).

(** [addTrack(inst, style)]; [now] is the value of [Date.now()]. *)
Definition addTrack (r : Render) (now : Z) (inst : string) (style : option string) : M Task unit :=
  let displayName := displayName inst style in
  match List.find (fun t => String.eqb (Track.name t) displayName) (r_tracks r) with
  | Some _ => ret tt
  | None =>
      let loadingTrack := Track.mk displayName now None (Some false) in
      _ <~ lift (modify (set_tracks (fun prev => prev ++ [loadingTrack])));
      _ <~ lift (modify (set_history (fun prev => prev ++ [HAdding displayName])));
      url <~ generateTrack inst style;
      _ <~ lift (modify (set_tracks (map (fun t =>
             if Track.id t =? Track.id loadingTrack then Track.with_url url t else t))));
      _ <~ match url with
           | Some u =>
               if truthy url && r_webAudioSupported r
               then loadAudioBuffer r (Track.id loadingTrack) u
               else ret tt
           | None => ret tt
           end;
      lift (modify (set_history (fun prev =>
        removelast prev ++ [if truthy url then HAdded displayName else HFailed displayName])))
  end.

(** The loading loop of [playAll]: for each playable track without a cached
    buffer, load it and wait for the load to settle. Returns
    [buffersLoaded]. *)
Fixpoint load_missing (r : Render) (l : list Track.t) (buffersLoaded : nat) : M Task nat :=
  match l with
  | [] => ret buffersLoaded
  | track :: rest =>
      w <~ getW;
      if bool_decide (is_Some (audioBuffersRef w !! Track.id track))
      then load_missing r rest (S buffersLoaded)
      else
        match Track.url track with
        | Some u =>
            if Track.has_url track then
              _ <~ loadAudioBuffer r (Track.id track) u;
              w' <~ getW;
              load_missing r rest
                (if bool_decide (is_Some (audioBuffersRef w' !! Track.id track))
                 then S buffersLoaded else buffersLoaded)
            else load_missing r rest buffersLoaded
        | None => load_missing r rest buffersLoaded
        end
  end.

(** The start step of the Web Audio branch: [playableTracks.forEach(...)]. *)
Definition start_loaded (r : Render) (playableTracks : list Track.t) : M World unit :=
  forEach playableTracks (fun track =>
    w <~ get;
    if Track.has_url track && bool_decide (is_Some (audioBuffersRef w !! Track.id track))
    then playTrackWebAudio r (Track.id track) (Track.is_muted track)
    else emit (ConsoleWarn (MsgCannotPlay (Track.name track)))).

(** The fallback branch, first step: rewind each playable track's element,
    copy the track's mute flag to it, and collect the elements. *)
Fixpoint prepare_elements (l : list Track.t) : M World (list nat) :=
  match l with
  | [] => ret []
  | t :: rest =>
      w <~ get;
      match audioRefs w !! Track.id t with
      | Some audio =>
          if Track.has_url t then
            _ <~ update_element audio (set_currentTime 0%float);
            _ <~ update_element audio (set_el_muted (Track.is_muted t));
            more <~ prepare_elements rest;
            ret (audio :: more)
          else prepare_elements rest
      | None => prepare_elements rest
      end
  end.

Definition ready_now (w : World) (el : nat) : bool :=
  match elements w !! el with
  | Some e => 4 <=? readyState e
  | None => false
  end.

(** The fallback branch: wait until every element can play through; each
    wait gives up after 5 seconds, and one that gives up rejects the
    [Promise.all]. Then call [play()] on all of them and wait for the calls
    to settle. When every element is ready already, nothing can reject. *)
Definition play_fallback (playableTracks : list Track.t) : M Task unit :=
  audioElements <~ lift (prepare_elements playableTracks);
  when (0 <? length audioElements)%nat
    (try_catch
       (w <~ getW;
        _ <~ await_promise (AwReady audioElements)
               (forallb (ready_now w) audioElements);
        _ <~ lift (forEach audioElements element_play);
        _ <~ await_promise (AwPlaying audioElements) true;
        ret tt)
       (fun _ => emit (ConsoleError MsgSyncPlayback))).

(** [playAll()] *)
Definition playAll (r : Render) : M Task unit :=
  try_catch
    (let playableTracks := List.filter Track.has_url (r_tracks r) in
     if (length playableTracks =? 0)%nat
     then _ <~ emit (ConsoleWarn MsgNoTracks); emit Alert
     else
       _ <~ lift (forEach (r_tracks r) (fun t =>
              w <~ get;
              match audioRefs w !! Track.id t with
              | Some audio =>
                  when (Track.has_url t)
                    (_ <~ element_pause audio;
                     update_element audio (set_currentTime 0%float))
              | None => ret tt
              end));
       w <~ getW;
       _ <~ match audioContextRef w with
            | Some suspended =>
                _ <~ await AwResume;
                lift (modify (set_audioContextRef (Some running)))
            | _ => ret tt
            end;
       _ <~ lift (modify (set_isPlayingAll true));
       w <~ getW;
       if r_webAudioSupported r && bool_decide (is_Some (audioContextRef w))
       then
         buffersLoaded <~ load_missing r playableTracks 0;
         lift (start_loaded r playableTracks)
       else play_fallback playableTracks)
    (fun _ =>
       _ <~ emit (ConsoleError MsgPlayAll);
       lift (modify (set_isPlayingAll false))).

(** The call the speech recognition callback makes for a recognised
    instrument: [addTrack] of the first render, whatever the page shows by
    then. *)
Definition voice_addTrack (now : Z) (inst : string) (style : option string) : M Task unit :=
  addTrack first_render now inst style.

(** * Properties *)

(** ** Vocabulary *)

(** The tempi the page can be at: 60, 70, ..., 200. *)
Definition tempo_grid : list float :=
  map (fun k => of_Z (10 * Z.of_nat k)) (seq 6 15).

Definition supported_tempo (bpm : float) : Prop := In bpm tempo_grid.

(** The page after its mount effect: tracks restored from local storage, an
    audio context created (suspended until a user gesture) where the browser
    has one, nothing playing. *)
Definition page_loaded (saved : list Track.t) (supported : bool) : World :=
  mkWorld saved [] 120%float supported false
    (if supported then Some suspended else None)
    ∅ ∅ ∅ ∅ ∅ [] [] [] 0.

(** Every sounding node is the one registered for its track: at most one
    node sounds per track. *)
Definition one_voice_per_track (w : World) : Prop :=
  forall n nd,
    sources w !! n = Some nd -> active nd = true ->
    sourceNodesRef w !! owner nd = Some n.

(** The refs and the audio graph agree. *)
Record wf (w : World) : Prop := {
  wf_active : one_voice_per_track w;
  wf_source : forall t n,
    sourceNodesRef w !! t = Some n ->
    exists nd g,
      sources w !! n = Some nd /\ owner nd = t /\
      started nd = true /\ stopped nd = false /\
      output nd = Some g /\ gainNodesRef w !! t = Some g;
  wf_gain : forall t g,
    gainNodesRef w !! t = Some g -> (g < length (gains w))%nat;
  wf_gain_inj : forall t1 t2 g,
    gainNodesRef w !! t1 = Some g -> gainNodesRef w !! t2 = Some g -> t1 = t2;
}.

(** A computation keeps [I] when, from a state in [I], it ends in [I]
    however it completes; it is safe in [I] when in addition it completes
    normally; it says only [P] when every command it issues is in [P]. *)
Definition keeps {S A} (I : S -> Prop) (m : M S A) : Prop :=
  forall s, I s -> I (world_of (m s)).

Definition safe {S A} (I : S -> Prop) (m : M S A) : Prop :=
  forall s, I s -> I (world_of (m s)) /\ exists a, outcome_of (m s) = Normal a.

Definition says {S A} (P : Event -> Prop) (m : M S A) : Prop :=
  forall s, Forall P (trace_of (m s)).

(** The node and the gain node that [playTrackWebAudio] builds. *)
Definition new_voice (t : Z) (b : AudioBuffer) (g : nat) : SourceNode :=
  mkSource t (Some b) true 0%float
    (if (MAX_LOOP_DURATION <? duration b)%float then MAX_LOOP_DURATION else 0%float)
    (Some g) true false.

Definition new_gain (muted : bool) : GainNode :=
  mkGain (if muted then 0%float else 1%float) true.

(** The world with a fresh voice registered for track [t]. *)
Definition with_voice (t : Z) (b : AudioBuffer) (muted : bool) (w : World) : World :=
  set_gainNodesRef (<[t := length (gains w)]>)
    (set_sourceNodesRef (<[t := length (sources w)]>)
       (set_gains (fun l => l ++ [new_gain muted])
          (set_sources (fun l => l ++ [new_voice t b (length (gains w))]) w))).

(** The world with node [n], registered for track [t], stopped and
    unregistered. *)
Definition with_stopped (t : Z) (n : nat) (w : World) : World :=
  set_sourceNodesRef (delete t) (set_sources (alter set_stopped n) w).

Definition task_wf (s : Task) : Prop := wf (world s).

(** The worlds the page can be in: from the loaded page, by handlers run
    from the page and by [playAll] and [addTrack] run under any schedule (a
    schedule that ends early gives the world at a suspension), from any
    render a closure may hold. *)
Inductive step : World -> World -> Prop :=
| step_handler a w :
    step w (world_of (perform a w))
| step_playAll r sched w :
    step w (world (world_of (playAll r (mkTask w sched))))
| step_addTrack r now inst style sched w :
    step w (world (world_of (addTrack r now inst style (mkTask w sched)))).

Inductive reachable : World -> Prop :=
| reach_loaded saved supported : reachable (page_loaded saved supported)
| reach_step w w' : reachable w -> step w w' -> reachable w'.

(** No two sounding nodes play the same track. *)
Definition no_overlap (w : World) : Prop :=
  forall n1 n2 nd1 nd2,
    sources w !! n1 = Some nd1 -> sources w !! n2 = Some nd2 ->
    active nd1 = true -> active nd2 = true ->
    owner nd1 = owner nd2 -> n1 = n2.

(** ** Sample data for the worked instances *)

Definition piano : Track.t := Track.mk "Piano" 1 (Some "blob:piano") (Some false).
Definition drums : Track.t := Track.mk "Drum Set" 2 (Some "blob:drums") (Some true).

(** A turn in which nothing else happens and the promise fulfils with a
    clip of [d] seconds. *)
Definition fulfils (d : float) : Turn :=
  {| meanwhile := [];
     answer := Fulfilled {| decoded := {| duration := d |}; generated := None |} |}.

Definition rejects : Turn := {| meanwhile := []; answer := Rejected |}.

(** The page with the piano track, after a [playAll] whose resume, fetch,
    read and decode all succeed: the piano voice sounds. *)
Definition piano_playing : World :=
  world (world_of
    (playAll (render (page_loaded [piano] true))
       (mkTask (page_loaded [piano] true)
          [fulfils 0; fulfils 0; fulfils 0; fulfils 12]))).

(** A turn in which the generation service answers with a blob URL. *)
Definition generates (u : string) : Turn :=
  {| meanwhile := [];
     answer := Fulfilled {| decoded := {| duration := 0%float |};
                            generated := Some u |} |}.

(** The mute flag [toggleMute] computes for a track. *)
Definition toggled (t : Z) (w : World) : bool :=
  negb (match find_track t (tracks w) with
        | Some x => Track.is_muted x
        | None => false
        end).

(** The tracks after [toggleMute]: the flag of track [t] set, all else as
    it was. *)
Definition with_mute_flag (t : Z) (m : bool) (l : list Track.t) : list Track.t :=
  map (fun x => if Track.id x =? t then Track.with_muted m x else x) l.

(** The level at which a track's voice sounds: the gain of the gain node
    registered for it. *)
Definition level_of (w : World) (t : Z) : option float :=
  match gainNodesRef w !! t with
  | Some g => gain <$> gains w !! g
  | None => None
  end.

(** Everything [toggleMute] leaves alone: all of the world except the track
    list, the gain nodes and the audio elements. *)
Definition rest_untouched (w w' : World) : Prop :=
  history w' = history w /\ currentBPM w' = currentBPM w /\
  webAudioSupported w' = webAudioSupported w /\
  isPlayingAll w' = isPlayingAll w /\
  audioContextRef w' = audioContextRef w /\
  audioBuffersRef w' = audioBuffersRef w /\
  sourceNodesRef w' = sourceNodesRef w /\ gainNodesRef w' = gainNodesRef w /\
  audioRefs w' = audioRefs w /\ loopHandlers w' = loopHandlers w /\
  sources w' = sources w /\ nextHandler w' = nextHandler w.

(** An audio element that is paused at position zero. *)
Definition element_at_rest (w : World) (e : nat) : Prop :=
  forall el, elements w !! e = Some el ->
    paused el = true /\ currentTime el = 0%float.

(** Nothing of the tracks of render [r] is playing or set to restart. *)
Definition at_rest (r : Render) (w : World) : Prop :=
  isPlayingAll w = false /\
  (r_webAudioSupported r = true ->
   forall t, In t (r_tracks r) -> sourceNodesRef w !! Track.id t = None) /\
  (forall t e,
     In t (r_tracks r) -> Track.has_url t = true ->
     audioRefs w !! Track.id t = Some e ->
     element_at_rest w e /\ loopHandlers w !! Track.id t = None).

(** Classes of commands. A start command makes a track audible. *)
Definition not_start (e : Event) : Prop :=
  match e with
  | SourceStart _ _ | ElementPlay _ => False
  | _ => True
  end.

Definition not_suspend (e : Event) : Prop :=
  match e with
  | Suspend _ => False
  | _ => True
  end.

(** No source node is started for track [t]. *)
Definition not_start_of (t : Z) (e : Event) : Prop :=
  forall n, e <> SourceStart n t.

(** Source nodes are started for tracks among [ids] only. *)
Definition starts_within (ids : list Z) (e : Event) : Prop :=
  forall n t, e = SourceStart n t -> In t ids.

(** No track of the list has identifier [t]. *)
Definition absent (t : Z) (w : World) : Prop :=
  forall x, In x (tracks w) -> Track.id x <> t.

(** On normal completion the computation ends in [Q]. *)
Definition ensures {S A} (m : M S A) (Q : S -> Prop) : Prop :=
  forall s a, outcome_of (m s) = Normal a -> Q (world_of (m s)).

(** A turn in which the user removes a track before the promise fulfils
    with a clip of [d] seconds. *)
Definition removes_then_fulfils (t : Z) (d : float) : Turn :=
  {| meanwhile := [ARemoveTrack t];
     answer := Fulfilled {| decoded := {| duration := d |}; generated := None |} |}.

(** A turn in which the user removes a track before the generation
    service answers with a blob URL. *)
Definition removes_then_generates (t : Z) (u : string) : Turn :=
  {| meanwhile := [ARemoveTrack t];
     answer := Fulfilled {| decoded := {| duration := 0%float |};
                            generated := Some u |} |}.

(** The load of track [t] has settled in [tr]: [loadAudioBuffer] reported
    the buffer loaded, or the load failed. *)
Definition load_settled_in (tr : list Event) (t : Z) : Prop :=
  In (ConsoleLog (MsgBufferLoaded t)) tr \/
  In (ConsoleError (MsgLoadFailed t)) tr.

(** Every suspension in [tr] has been resumed in [tr], and every load begun
    in [tr] has settled in [tr]. *)
Definition settled (tr : list Event) : Prop :=
  (forall what, In (Suspend what) tr -> exists b, In (Resume what b) tr) /\
  (forall t u, In (Suspend (AwFetch t u)) tr -> load_settled_in tr t).

(** On normal completion, what the computation awaited has settled. *)
Definition balanced {A} (m : M Task A) : Prop :=
  forall s a, outcome_of (m s) = Normal a -> settled (trace_of (m s)).

(** The computation gets through with [k] turns of the schedule. *)
Definition needs (k : nat) {A} (m : M Task A) : Prop :=
  forall s, (k <= length (schedule s))%nat ->
    outcome_of (m s) <> Pending /\
    (length (schedule s) <= length (schedule (world_of (m s))) + k)%nat.

Definition never_pending {S A} (m : M S A) : Prop :=
  forall s, outcome_of (m s) <> Pending.

Definition never_throws {S A} (m : M S A) : Prop :=
  forall s e, outcome_of (m s) <> Throw e.

(** The tracks for which a source node is started, in order, and the names
    in the "cannot play" warnings, in order. *)
Definition started_tracks (tr : list Event) : list Z :=
  omap (fun e => match e with SourceStart _ t => Some t | _ => None end) tr.

Definition cannot_play_warnings (tr : list Event) : list string :=
  omap (fun e => match e with
                 | ConsoleWarn (MsgCannotPlay n) => Some n
                 | _ => None
                 end) tr.

(** The console lines that report a failure. *)
Definition failure_reports (tr : list Event) : list Message :=
  omap (fun e => match e with
                 | ConsoleError m | ConsoleWarn m => Some m
                 | _ => None
                 end) tr.

Definition element_plays (tr : list Event) : list nat :=
  omap (fun e => match e with ElementPlay el => Some el | _ => None end) tr.

(** A decoded clip is cached for the track. *)
Definition buffered (w : World) (t : Track.t) : bool :=
  bool_decide (is_Some (audioBuffersRef w !! Track.id t)).

(** Neither a start command nor a "cannot play" warning. *)
Definition before_start (e : Event) : Prop :=
  match e with
  | SourceStart _ _ | ElementPlay _ | ConsoleWarn (MsgCannotPlay _) => False
  | _ => True
  end.

(** The page without Web Audio, with the audio elements of the piano and
    drums tracks mounted: the piano element has not buffered enough to play
    through ([readyState] 2), the drums element has ([readyState] 4). *)
Definition fallback_page : World :=
  world_of (forEach [AMountAudio 1 2; AMountAudio 2 4] perform
              (page_loaded [piano; drums] false)).

(** The page with the piano and drums tracks, Web Audio available. *)
Definition band : World := page_loaded [piano; drums] true.

(** The band after a [playAll] in which the context resumes, the piano clip
    loads and the drums clip cannot be fetched: the audio context runs, the
    piano voice sounds, and there is no clip for the drums. *)
Definition piano_without_drums : World :=
  world (world_of
    (playAll (render band)
       (mkTask band [fulfils 0; fulfils 0; fulfils 0; fulfils 12; rejects]))).

(** ** Parts of the handlers, named for the proofs *)

(** The part of [playTrackWebAudio] after the previous node is dealt with. *)
Definition start_voice (trackId : Z) (audioBuffer : AudioBuffer) (muted : bool) : M World unit :=
  source <~ createBufferSource trackId;
  _ <~ update_source source (set_buffer audioBuffer);
  _ <~ update_source source (set_loop true);
  _ <~ when (MAX_LOOP_DURATION <? duration audioBuffer)%float
         (_ <~ update_source source (set_loopStart 0%float);
          update_source source (set_loopEnd MAX_LOOP_DURATION));
  gainNode <~ createGain;
  _ <~ update_gain gainNode (set_gain (if muted then 0%float else 1%float));
  _ <~ update_source source (set_output gainNode);
  _ <~ update_gain gainNode set_toDestination;
  _ <~ modify (set_sourceNodesRef (<[trackId := source]>));
  _ <~ modify (set_gainNodesRef (<[trackId := gainNode]>));
  source_start source.

(** The two passes of [stopAll]. *)
Definition stop_voice (track : Track.t) : M World unit :=
  stopTrackWebAudio (Track.id track).

Definition stop_element (t : Track.t) : M World unit :=
  w <~ get;
  let audio := audioRefs w !! Track.id t in
  let handler := loopHandlers w !! Track.id t in
  match audio with
  | Some audio =>
      when (Track.has_url t)
        (_ <~ element_pause audio;
         _ <~ update_element audio (set_currentTime 0%float);
         match handler with
         | Some handler =>
             _ <~ removeEndedListener audio handler;
             modify (set_loopHandlers (delete (Track.id t)))
         | None => ret tt
         end)
  | None => ret tt
  end.

(** What [stop_element] does, in closed form. *)
Definition element_stopped (t : Track.t) (w : World) : World :=
  match audioRefs w !! Track.id t with
  | Some e =>
      if Track.has_url t then
        match loopHandlers w !! Track.id t with
        | Some h =>
            set_loopHandlers (delete (Track.id t))
              (set_elements
                 (fun l => alter (set_endedListeners (filter (fun h' => h' <> h))) e
                             (alter (set_currentTime 0%float) e
                                (alter (set_paused true) e l))) w)
        | None =>
            set_elements
              (fun l => alter (set_currentTime 0%float) e
                          (alter (set_paused true) e l)) w
        end
      else w
  | None => w
  end.

(** The stored loop handler of a track is either still registered, or it is
    unregistered and no longer listens on the track's element. *)
Definition handler_gone (k : Z) (e h : nat) (s : World) : Prop :=
  loopHandlers s !! k = Some h \/
  (loopHandlers s !! k = None /\
   forall el, elements s !! e = Some el -> h ∉ endedListeners el).

(** The task's world is well formed and track [now] is not on its list. *)
Definition task_wf_absent (now : Z) (s : Task) : Prop :=
  wf (world s) /\ absent now (world s).

(** Every suspension in [tr] has been resumed in [tr]. *)
Definition resumed (tr : list Event) : Prop :=
  forall what, In (Suspend what) tr -> exists b, In (Resume what b) tr.

(** The fetches suspended on in [tr] are all for track [t]. *)
Definition fetches_only (t : Z) (tr : list Event) : Prop :=
  forall t' u, In (Suspend (AwFetch t' u)) tr -> t' = t.

(** The page has an audio context. *)
Definition has_context (w : World) : Prop := audioContextRef w <> None.

(** The task's world is well formed and has an audio context. *)
Definition task_ready (s : Task) : Prop :=
  wf (world s) /\ has_context (world s).

(** The steps of [playAll] before the loads. *)
Definition rewind_elements (l : list Track.t) : M World unit :=
  forEach l (fun t =>
    w <~ get;
    match audioRefs w !! Track.id t with
    | Some audio =>
        when (Track.has_url t)
          (_ <~ element_pause audio;
           update_element audio (set_currentTime 0%float))
    | None => ret tt
    end).

(** ** The cache during a [playAll] call *)

(** A decoded clip is cached under identifier [k]. *)
Definition cached (w : World) (k : Z) : Prop :=
  is_Some (audioBuffersRef w !! k).

(** Neither of the two lines with which [loadAudioBuffer] reports how a
    load ended. *)
Definition no_report (e : Event) : Prop :=
  match e with
  | ConsoleLog (MsgBufferLoaded _) | ConsoleError (MsgLoadFailed _) => False
  | _ => True
  end.

(** What handlers run from the page can do to the cache: they never add a
    clip, they delete one only when its track is removed, and a removed
    track stays off the list. *)
Definition drifts (w w' : World) : Prop :=
  (forall k, cached w' k -> cached w k) /\
  (forall k, cached w k -> cached w' k \/ absent k w') /\
  (forall k, absent k w -> absent k w').

(** How the cache of world [w], reached during a call, relates to the cache
    of the world [w0] in which the call began and to the commands [tr]
    issued since: a cached clip was cached at the call or has been reported
    loaded; a clip cached at the call or reported loaded is still cached
    unless its track is off the list; and a track whose load was reported
    failed has no clip unless a load for the same identifier succeeded. *)
Record tied (w0 w : World) (tr : list Event) : Prop := {
  tied_wf : wf w;
  tied_new : forall k,
    cached w k -> cached w0 k \/ In (ConsoleLog (MsgBufferLoaded k)) tr;
  tied_kept : forall k,
    cached w0 k \/ In (ConsoleLog (MsgBufferLoaded k)) tr ->
    cached w k \/ absent k w;
  tied_failed : forall k,
    In (ConsoleError (MsgLoadFailed k)) tr ->
    ~ cached w k \/ In (ConsoleLog (MsgBufferLoaded k)) tr;
}.

(** The state of a call in its loading phase. *)
Definition loading (w0 : World) (s : Task) (tr : list Event) : Prop :=
  tied w0 (world s) tr /\ has_context (world s).

(** A start command. *)
Definition is_start (e : Event) : Prop :=
  match e with
  | SourceStart _ _ | ElementPlay _ => True
  | _ => False
  end.

(** What may follow a start command: further commands, but no suspension
    other than the wait for the [play()] calls to settle. *)
Definition after_starts (e : Event) : Prop :=
  match e with
  | Suspend (AwPlaying _) => True
  | Suspend _ => False
  | _ => True
  end.

(** Neither a start, nor a "cannot play" warning, nor a failed resume. *)
Definition before_barrier (e : Event) : Prop :=
  match e with
  | SourceStart _ _ | ElementPlay _ | ConsoleWarn (MsgCannotPlay _)
  | Resume AwResume false => False
  | _ => True
  end.

(** ** Assertions about handler code

    [triple P m Q]: when [m] is run in a state and after a trace that
    satisfy [P], then its outcome, the state it leaves and the trace
    extended by its commands satisfy [Q]. *)
Definition triple {S A} (P : S -> list Event -> Prop) (m : M S A)
    (Q : Outcome A -> S -> list Event -> Prop) : Prop :=
  forall s tr, P s tr ->
    Q (outcome_of (m s)) (world_of (m s)) (tr ++ trace_of (m s)).

(** The call has got to its start step: the loads are over, the commands
    so far contain no start, every suspension among them has been resumed,
    every candidate had its clip at the call or has had its load reported,
    and what remains is the start step, run in the world the loads left. *)
Definition reaches_start (r : Render) (w0 : World) (s' : Task) (tr : list Event) : Prop :=
  exists sb trb,
    loading w0 sb trb /\ Forall before_barrier trb /\ settled trb /\
    (forall c, In c (List.filter Track.has_url (r_tracks r)) ->
       cached w0 (Track.id c) \/ load_settled_in trb (Track.id c)) /\
    s' = mkTask (world_of (start_loaded r (List.filter Track.has_url (r_tracks r))
                             (world sb))) (schedule sb) /\
    tr = trb ++ trace_of (start_loaded r (List.filter Track.has_url (r_tracks r))
                            (world sb)).

(** The loading phase, with what its trace shows so far. *)
Definition loading_quietly (w0 : World) (s : Task) (tr : list Event) : Prop :=
  loading w0 s tr /\ Forall before_barrier tr /\ settled tr.

(** Where the body of [playAll] can end on the Web Audio path. *)
Definition webaudio_end (r : Render) (w0 : World) (o : Outcome unit) (s : Task)
    (tr : list Event) : Prop :=
  match o with
  | Normal _ => reaches_start r w0 s tr
  | Throw _ => Forall before_start tr /\ In (Resume AwResume false) tr
  | Pending => Forall before_start tr
  end.

(** Neither a suspension nor the resumption after one. *)
Definition synchronous (e : Event) : Prop :=
  match e with
  | Suspend _ | Resume _ _ => False
  | _ => True
  end.

(** How the commands of a [playAll] call look on the fallback path: no
    start at all; or a first part without a start, in which every
    suspension has been resumed and the readiness of the elements [els] has
    been awaited with success, then one [play()] per element of [els], then
    a last part without starts in which only the [play()] promises are
    awaited. [E] says which elements [els] are. *)
Definition fallback_trace (E : list nat -> Prop) (tr : list Event) : Prop :=
  Forall not_start tr \/
  exists els tr0 post0,
    E els /\ tr = tr0 ++ map ElementPlay els ++ post0 /\
    Forall not_start tr0 /\ settled tr0 /\
    In (Resume (AwReady els) true) tr0 /\
    Forall not_start post0 /\ Forall after_starts post0.

Definition fallback_end (E : list nat -> Prop) {A} (o : Outcome A) (tr : list Event) : Prop :=
  match o with
  | Throw _ => Forall not_start tr
  | _ => fallback_trace E tr
  end.

(** ** What a load reports *)

(** Not the resumption of one of the three awaits of a load. *)
Definition no_load_resume (e : Event) : Prop :=
  match e with
  | Resume (AwFetch _ _) _ | Resume (AwArrayBuffer _) _ | Resume (AwDecode _) _ =>
      False
  | _ => True
  end.

(** The commands show that the fetch, the read or the decode of the clip of
    track [k] was rejected. *)
Definition load_rejected_in (tr : list Event) (k : Z) : Prop :=
  (exists u, In (Resume (AwFetch k u) false) tr) \/
  In (Resume (AwArrayBuffer k) false) tr \/
  In (Resume (AwDecode k) false) tr.

(** Every decode fulfilled in [tr] is reported loaded in [tr], unless it is
    for a track in [D]; and every load with a rejected promise in [tr] is
    reported failed in [tr], unless it is for a track in [F]. *)
Definition reported_but (D F : Z -> Prop) (tr : list Event) : Prop :=
  (forall k, In (Resume (AwDecode k) true) tr ->
     D k \/ In (ConsoleLog (MsgBufferLoaded k)) tr) /\
  (forall k, load_rejected_in tr k ->
     F k \/ In (ConsoleError (MsgLoadFailed k)) tr).

Definition nobody : Z -> Prop := fun _ => False.

Definition reported : list Event -> Prop := reported_but nobody nobody.

(** The await [what] is one of the load of the clip of track [k]. *)
Definition loads (what : Awaited) (k : Z) : Prop :=
  match what with
  | AwFetch t _ | AwArrayBuffer t | AwDecode t => t = k
  | _ => False
  end.

(** Where a load of the clip of track [t] stands after one of its awaits:
    when the await threw, the failure of [t] is still to be reported. *)
Definition load_goes_on (t : Z) {A} (o : Outcome A) (tr : list Event) : Prop :=
  match o with
  | Throw _ => reported_but nobody (fun k => k = t) tr
  | _ => reported tr
  end.

(** Code that leaves no load unreported. *)
Definition reports {S A} (m : M S A) : Prop :=
  triple (fun _ tr => reported tr) m (fun _ _ tr => reported tr).

(** ** Sample worlds for muting and stopping *)

(** A turn in which the user presses Stop before the promise fulfils with a
    clip of [d] seconds. *)
Definition stops_then_fulfils (d : float) : Turn :=
  {| meanwhile := [AStopAll];
     answer := Fulfilled {| decoded := {| duration := d |}; generated := None |} |}.

(** The page with the piano track and its audio element. *)
Definition piano_page : World :=
  world_of (perform (AMountAudio 1 4) (page_loaded [piano] true)).

(** The piano page after a [playAll] during whose fetch the user pressed
    Stop: the call went on, so the piano voice sounds although the page
    shows that nothing is playing. *)
Definition stopped_while_loading : World :=
  world (world_of
    (playAll (render piano_page)
       (mkTask piano_page
          [fulfils 0; stops_then_fulfils 0; fulfils 0; fulfils 12]))).

(** What of an audio element can be heard or seen: all of it but its
    listeners. *)
Definition playback (el : AudioElement) : string * bool * float * bool * Z :=
  (src el, paused el, currentTime el, el_muted el, readyState el).

(** Two worlds that differ at most in which listeners and handlers are
    installed and in which element is registered for which track. *)
Definition same_sound (w w' : World) : Prop :=
  tracks w' = tracks w /\ history w' = history w /\
  currentBPM w' = currentBPM w /\ webAudioSupported w' = webAudioSupported w /\
  isPlayingAll w' = isPlayingAll w /\ audioContextRef w' = audioContextRef w /\
  audioBuffersRef w' = audioBuffersRef w /\
  sourceNodesRef w' = sourceNodesRef w /\ gainNodesRef w' = gainNodesRef w /\
  sources w' = sources w /\ gains w' = gains w /\
  map playback (elements w') = map playback (elements w).

(** A [pause()] of an audio element. *)
Definition is_pause (e : Event) : Prop :=
  match e with
  | ElementPause _ => True
  | _ => False
  end.

(** The page with the piano and drums tracks and their audio elements. *)
Definition band_page : World :=
  world_of (forEach [AMountAudio 1 4; AMountAudio 2 4] perform band).

(** The band page after a [playAll] in which every load succeeds: both
    voices sound. *)
Definition band_playing : World :=
  world (world_of
    (playAll (render band_page)
       (mkTask band_page
          [fulfils 0; fulfils 0; fulfils 0; fulfils 12; fulfils 0; fulfils 0;
           fulfils 8]))).

(** The band page after a [playAll] during which the user removed the
    piano track while its clip was decoded: the drums are on the list, and
    both voices sound. *)
Definition piano_removed_while_decoding : World :=
  world (world_of
    (playAll (render band_page)
       (mkTask band_page
          [fulfils 0; fulfils 0; fulfils 0; removes_then_fulfils 1 12;
           fulfils 0; fulfils 0; fulfils 8]))).

(** Nothing of the tracks of render [r] is playing: no voice is registered
    and every registered element is paused at position zero. *)
Definition quiet (r : Render) (w : World) : Prop :=
  isPlayingAll w = false /\
  (r_webAudioSupported r = true ->
   forall t, In t (r_tracks r) -> sourceNodesRef w !! Track.id t = None) /\
  (forall t e,
     In t (r_tracks r) -> Track.has_url t = true ->
     audioRefs w !! Track.id t = Some e -> element_at_rest w e).

(** Element [e] is registered for track [k], the restart handler of the
    track is stored, and it listens for ['ended'] on that element. *)
Definition installed (w : World) (k : Z) (e : nat) : Prop :=
  audioRefs w !! k = Some e /\
  exists h, loopHandlers w !! k = Some h /\
    forall el, elements w !! e = Some el -> h ∈ endedListeners el.
(** ** Parts of [removeTrack], named for the proofs *)

(** The Web Audio part of [removeTrack]: stop the voice, drop the clip. *)
Definition release_voice (r : Render) (trackId : Z) : M World unit :=
  when (r_webAudioSupported r)
    (_ <~ stopTrackWebAudio trackId;
     modify (set_audioBuffersRef (delete trackId))).

(** The rest of [removeTrack], for the track found in the render. *)
Definition release_element (track : Track.t) (trackId : Z) : M World unit :=
  w <~ get;
  let audio := audioRefs w !! trackId in
  let handler := loopHandlers w !! trackId in
  _ <~ match audio with
       | Some audio =>
           _ <~ element_pause audio;
           _ <~ update_element audio (set_currentTime 0%float);
           _ <~ match handler with
                | Some handler =>
                    _ <~ removeEndedListener audio handler;
                    modify (set_loopHandlers (delete trackId))
                | None => ret tt
                end;
           match Track.url track with
           | Some u => when (Track.has_url track) (emit (RevokeObjectURL u))
           | None => ret tt
           end
       | None => ret tt
       end;
  _ <~ modify (set_audioRefs (delete trackId));
  _ <~ modify (set_tracks (filter (fun t => Track.id t <> trackId)));
  modify (set_history (fun prev => prev ++ [HRemoved (Track.name track)])).

(** ** Schedules *)

(** The world after the handlers the user triggers during one suspension,
    and after those of several suspensions in turn. *)
Definition after_turn (turn : Turn) (w : World) : World :=
  world_of (forEach (meanwhile turn) perform w).

Definition after_turns (turns : list Turn) (w : World) : World :=
  fold_left (fun w turn => after_turn turn w) turns w.

(** What the awaiting code gets from a settled promise. *)
Definition settles (turn : Turn) : Outcome Payload :=
  match answer turn with
  | Fulfilled v => Normal v
  | Rejected => Throw Rejection
  end.

Definition fulfilled (turn : Turn) : bool :=
  match answer turn with Fulfilled _ => true | Rejected => false end.

(** The URL [generateTrack] returns when its request settles as [turn]
    says. *)
Definition generated_url (turn : Turn) : option string :=
  match answer turn with
  | Fulfilled p => generated p
  | Rejected => None
  end.

(** The entry [addTrack] puts on the list while the track is generated, and
    the page as [addTrack] leaves it before its first [await]. *)
Definition loadingTrack (displayName : string) (now : Z) : Track.t :=
  Track.mk displayName now None (Some false).

Definition with_loading_track (displayName : string) (now : Z) (w : World) : World :=
  set_history (fun prev => prev ++ [HAdding displayName])
    (set_tracks (fun prev => prev ++ [loadingTrack displayName now]) w).

(** [prev.map(t => t.id === id ? { ...t, url } : t)] *)
Definition with_track_url (id : Z) (url : option string) (l : list Track.t) : list Track.t :=
  map (fun t => if Track.id t =? id then Track.with_url url t else t) l.

(** The audio elements registered for the tracks of a list that have a URL,
    in list order: the array [audioElements] of the fallback branch. *)
Definition registered_elements (refs : gmap Z nat) (l : list Track.t) : list nat :=
  omap (fun t => if Track.has_url t then refs !! Track.id t else None) l.

(** What the steps of [playAll] before the waits leave alone: which element
    is registered for which track, the audio context, the playing flag, and
    which elements can play through. *)
Definition same_readiness (w w' : World) : Prop :=
  audioRefs w' = audioRefs w /\ audioContextRef w' = audioContextRef w /\
  isPlayingAll w' = isPlayingAll w /\
  forall e, ready_now w' e = ready_now w e.

(** The page without Web Audio, with the audio elements of the piano and
    drums tracks mounted and both buffered enough to play through. *)
Definition fallback_page_ready : World :=
  world_of (forEach [AMountAudio 1 4; AMountAudio 2 4] perform
              (page_loaded [piano; drums] false)).

(** The fallback page after [stopAll]: both elements mounted, no loop
    handler stored. *)
Definition fallback_page_stopped : World :=
  world_of (stopAll (render fallback_page) fallback_page).

(** ** Voice commands

    The [onresult] callback of the speech recognition: it lower-cases the
    transcript, splits it into a style and an instrument phrase, and looks
    the phrase up in a table of instrument keywords. JavaScript strings are
    sequences of UTF-16 code units. *)

Definition jsstring : Type := list N.

(** A string literal written in ASCII. *)
Definition lit (s : string) : jsstring :=
  map Ascii.N_of_ascii (String.list_ascii_of_string s).

(** The code units [String.prototype.trim] strips: white space and line
    terminators. *)
Definition is_whitespace (c : N) : bool :=
  existsb (N.eqb c)
    [9; 10; 11; 12; 13; 32; 160; 5760; 8232; 8233; 8239; 8287; 12288; 65279]%N
  || ((8192 <=? c)%N && (c <=? 8202)%N).

Fixpoint trimStart (s : jsstring) : jsstring :=
  match s with
  | c :: rest => if is_whitespace c then trimStart rest else s
  | [] => []
  end.

(** [s.trim()] *)
Definition trim (s : jsstring) : jsstring :=
  rev (trimStart (rev (trimStart s))).

(** [s.startsWith(p)] and [s.includes(p)] *)
Fixpoint startsWith (s p : jsstring) : bool :=
  match p, s with
  | [], _ => true
  | a :: p', b :: s' => (a =? b)%N && startsWith s' p'
  | _ :: _, [] => false
  end.

Fixpoint includes (s p : jsstring) : bool :=
  startsWith s p ||
  match s with
  | [] => false
  | _ :: rest => includes rest p
  end.

(** [a || b] on strings: the empty string is falsy. *)
Definition or_else (a b : jsstring) : jsstring :=
  match a with
  | [] => b
  | _ :: _ => a
  end.

(** Musical styles, in the order the loop tries them. *)
Definition styles : list jsstring :=
  [
    lit "jazz";
    lit "rock";
    lit "blues";
    lit "funk";
    lit "funky";
    lit "classical";
    lit "acoustic";
    lit "electric";
    lit "latin";
    lit "reggae";
    lit "country";
    lit "pop";
    lit "metal";
    lit "punk";
    lit "ambient";
    lit "electronic";
    lit "hip hop";
    lit "rap";
    lit "rnb";
    lit "soul";
    lit "disco";
    lit "techno";
    lit "house";
    lit "dubstep";
    [1076; 1078; 1072; 1079]%N;  (* джаз *)
    [1088; 1086; 1082]%N;  (* рок *)
    [1073; 1083; 1102; 1079]%N;  (* блюз *)
    [1092; 1072; 1085; 1082]%N;  (* фанк *)
    [1082; 1083; 1072; 1089; 1089; 1080; 1082; 1072]%N;  (* классика *)
    [1072; 1082; 1091; 1089; 1090; 1080; 1082]%N;  (* акустик *)
    [1101; 1083; 1077; 1082; 1090; 1088; 1080; 1082]%N;  (* электрик *)
    [1084; 1077; 1090; 1072; 1083]%N  (* метал *)
  ].

(** [instrumentMap]: keyword and instrument, in insertion order (the order
    of [Object.entries], as no key is an integer index). *)
Definition instrumentMap : list (jsstring * string) :=
  [
    (lit "piano", "Piano");
    (lit "keyboard", "Piano");
    (lit "keys", "Piano");
    ([1087; 1080; 1072; 1085; 1080; 1085; 1086]%N, "Piano");  (* пианино *)
    ([1082; 1083; 1072; 1074; 1080; 1096; 1080]%N, "Piano");  (* клавиши *)
    ([1092; 1086; 1088; 1090; 1077; 1087; 1080; 1072; 1085; 1086]%N, "Piano");  (* фортепиано *)
    (lit "bass guitar", "Bass Guitar");
    (lit "electric bass", "Electric Bass");
    (lit "electric guitar", "Electric Guitar");
    (lit "acoustic guitar", "Electric Guitar");
    (lit "guitar", "Electric Guitar");
    (lit "bass", "Bass Guitar");
    ([1075; 1080; 1090; 1072; 1088; 1072]%N, "Electric Guitar");  (* гитара *)
    ([1101; 1083; 1077; 1082; 1090; 1088; 1086; 1075; 1080; 1090; 1072; 1088; 1072]%N, "Electric Guitar");  (* электрогитара *)
    ([1073; 1072; 1089]%N, "Bass Guitar");  (* бас *)
    ([1073; 1072; 1089; 1089]%N, "Bass Guitar");  (* басс *)
    ([1073; 1072; 1089; 45; 1075; 1080; 1090; 1072; 1088; 1072]%N, "Bass Guitar");  (* бас-гитара *)
    (lit "drums", "Drum Set");
    (lit "drum set", "Drum Set");
    (lit "drum", "Drum Set");
    (lit "percussion", "Drum Set");
    ([1073; 1072; 1088; 1072; 1073; 1072; 1085; 1099]%N, "Drum Set");  (* барабаны *)
    ([1073; 1072; 1088; 1072; 1073; 1072; 1085]%N, "Drum Set");  (* барабан *)
    ([1091; 1076; 1072; 1088; 1085; 1099; 1077]%N, "Drum Set");  (* ударные *)
    (lit "saxophone", "Saxophone");
    (lit "sax", "Saxophone");
    (lit "trumpet", "Trumpet");
    ([1089; 1072; 1082; 1089; 1086; 1092; 1086; 1085]%N, "Saxophone");  (* саксофон *)
    ([1089; 1072; 1082; 1089]%N, "Saxophone");  (* сакс *)
    ([1090; 1088; 1091; 1073; 1072]%N, "Trumpet");  (* труба *)
    ([1090; 1088; 1091; 1073; 1082; 1072]%N, "Trumpet");  (* трубка *)
    (lit "maracas", "Maracas");
    (lit "shaker", "Maracas");
    ([1084; 1072; 1088; 1072; 1082; 1072; 1089; 1099]%N, "Maracas");  (* маракасы *)
    ([1084; 1072; 1088; 1072; 1082; 1072; 1089]%N, "Maracas")  (* маракас *)
  ].

(** [instrumentDefs.map(i => i.name)] *)
Definition availableInstruments : list string :=
  ["Piano"; "Saxophone"; "Electric Guitar"; "Bass Guitar"; "Electric Bass";
   "Drum Set"; "Maracas"; "Trumpet"].

(** [instrumentMap] is an object literal, so [instrumentMap[key]] also finds
    what it inherits from [Object.prototype]; each of these values is a
    function or an object, hence truthy. *)
Definition object_prototype_properties : list jsstring :=
  [lit "constructor"; lit "__defineGetter__"; lit "__defineSetter__";
   lit "hasOwnProperty"; lit "__lookupGetter__"; lit "__lookupSetter__";
   lit "isPrototypeOf"; lit "propertyIsEnumerable"; lit "toString";
   lit "valueOf"; lit "__proto__"; lit "toLocaleString"].

Inductive PropertyValue : Type :=
| OwnString (instrument : string)     (* an entry of the table *)
| Inherited (property : jsstring).    (* a member of Object.prototype *)

Fixpoint own_property (m : list (jsstring * string)) (key : jsstring) : option string :=
  match m with
  | [] => None
  | (k, v) :: rest => if bool_decide (k = key) then Some v else own_property rest key
  end.

(** [instrumentMap[key]]; [None] is [undefined]. *)
Definition get_property (m : list (jsstring * string)) (key : jsstring) : option PropertyValue :=
  match own_property m key with
  | Some v => Some (OwnString v)
  | None =>
      if bool_decide (key ∈ object_prototype_properties)
      then Some (Inherited key) else None
  end.

(** The loop over [Object.entries(instrumentMap)]: the first keyword that
    occurs in the phrase. *)
Fixpoint first_keyword (m : list (jsstring * string)) (cleanedInstrument : jsstring) : option string :=
  match m with
  | [] => None
  | (keyword, instrument) :: rest =>
      if includes cleanedInstrument keyword then Some instrument
      else first_keyword rest cleanedInstrument
  end.

Definition matchInstrument (cleanedInstrument : jsstring) : option PropertyValue :=
  let matchedInstrument :=
    match cleanedInstrument with
    | [] => None
    | _ :: _ => get_property instrumentMap cleanedInstrument
    end in
  match matchedInstrument with
  | Some v => Some v
  | None => OwnString <$> first_keyword instrumentMap cleanedInstrument
  end.

Record ParsedCommand : Type := mkParsed {
  instrument : jsstring;
  style : option jsstring;
}.

(** What the callback does in the end: [addTrack(matchedInstrument,
    commandStyle)] with a "Voice added" line, or a "Couldn't understand"
    line that quotes the command. *)
Inductive VoiceResult : Type :=
| VoiceAdded (matchedInstrument : PropertyValue) (commandStyle : option jsstring)
| VoiceNotUnderstood (command : jsstring).

Section VoiceCommand.

(** [String.prototype.toLowerCase], and the case folding of one code unit
    that a regular expression with the [i] flag (and without [u]) applies
    to both sides of a comparison. Their Unicode tables are not modelled. *)
Variable toLowerCase : jsstring -> jsstring.
Variable canonicalize : N -> N.

(** Does the pattern, a word without regular expression operators, match
    at the start of [s]? *)
Fixpoint matches_here (p s : jsstring) : bool :=
  match p, s with
  | [], _ => true
  | a :: p', b :: s' => (canonicalize a =? canonicalize b)%N && matches_here p' s'
  | _ :: _, [] => false
  end.

(** [s.replace(new RegExp(p, 'gi'), '')] for such a word [p]: every match,
    found from left to right without overlap, is cut out. [skip] counts the
    code units of the current match still to drop. *)
Fixpoint cut_matches (p : jsstring) (skip : nat) (s : jsstring) : jsstring :=
  match s with
  | [] => []
  | c :: rest =>
      match skip with
      | S k => cut_matches p k rest
      | O =>
          if matches_here p s then cut_matches p (length p - 1) rest
          else c :: cut_matches p 0 rest
      end
  end.

Definition replace_all (p s : jsstring) : jsstring :=
  match p with
  | [] => s
  | _ :: _ => cut_matches p 0 s
  end.

(** The loop of [parseVoiceCommand] over the styles: [detectedStyle] and
    [remainingCommand] when it ends. *)
Fixpoint detectStyle (l : list jsstring) (command : jsstring) : jsstring * jsstring :=
  match l with
  | [] => ([], command)
  | style :: rest =>
      if includes command style
      then (style, trim (replace_all style command))
      else detectStyle rest command
  end.

(** [parseVoiceCommand(command)] *)
Definition parseVoiceCommand (command : jsstring) : ParsedCommand :=
  let '(detectedStyle, remainingCommand) := detectStyle styles command in
  {| instrument := trim (or_else remainingCommand command);
     style := match detectedStyle with [] => None | _ :: _ => Some detectedStyle end |}.

(** [rec.onresult], for the transcript of the first result. *)
Definition onresult (transcript : jsstring) : VoiceResult :=
  let command := toLowerCase transcript in
  let parsed := parseVoiceCommand command in
  let cleanedInstrument := trim (or_else (instrument parsed) []) in
  match matchInstrument cleanedInstrument with
  | Some matchedInstrument => VoiceAdded matchedInstrument (style parsed)
  | None => VoiceNotUnderstood command
  end.

End VoiceCommand.

(** Lower-casing and case folding of ASCII letters, for worked instances. *)
Definition ascii_lower (c : N) : N :=
  if ((65 <=? c) && (c <=? 90))%N then (c + 32)%N else c.
Definition ascii_upper (c : N) : N :=
  if ((97 <=? c) && (c <=? 122))%N then (c - 32)%N else c.

(** No style word occurs in the phrase. *)
Definition mentions_no_style (s : jsstring) : bool :=
  forallb (fun st => negb (includes s st)) styles.

(** The code units of the style words and keywords, and the space. *)
Definition voice_alphabet : list N :=
  32%N :: concat styles ++ concat (map fst instrumentMap).

(** The check behind the style-and-keyword property, with the identity as
    lower-casing and as case folding: the style is "funky", or the keyword
    contains a style word, or style, space, keyword gives the keyword's
    instrument in that style. *)
Definition pair_selected (st : jsstring) (entry : jsstring * string) : bool :=
  bool_decide (st = lit "funky") || negb (mentions_no_style entry.1) ||
  match onresult (fun s => s) (fun c => c) (st ++ lit " " ++ entry.1) with
  | VoiceAdded (OwnString i) (Some st') =>
      String.eqb i entry.2 && bool_decide (st' = st)
  | _ => false
  end.

(** ** Facts about numbers *)

Section NumberFacts.

Lemma spec_float_eqb_eq x y : spec_float_eqb x y = true -> x = y.
Proof.
  destruct x as [a| a| |a m e], y as [b| b| |b n f]; simpl;
    try discriminate; try reflexivity.
  - intros H. apply Bool.eqb_prop in H. congruence.
  - intros H. apply Bool.eqb_prop in H. congruence.
  - intros H. apply andb_prop in H as [H He].
    apply andb_prop in H as [Hs Hm].
    apply Bool.eqb_prop in Hs. apply Pos.eqb_eq in Hm.
    apply Z.eqb_eq in He. congruence.
Qed.

Lemma same_eq x y : same x y = true -> x = y.
Proof.
  intros H. apply Prim2SF_inj. now apply spec_float_eqb_eq.
Qed.

(** Comparing doubles the other way round gives the opposite answer. *)
Lemma SFcompare_swap a b :
  SFcompare b a = option_map CompOpp (SFcompare a b).
Proof.
  destruct a as [sa| sa| |sa ma ea], b as [sb| sb| |sb mb eb]; simpl;
    try reflexivity;
    try (destruct sa; reflexivity);
    try (destruct sb; reflexivity);
    try (destruct sa, sb; reflexivity).
  change (Pos.compare_cont Eq ma mb) with (Pos.compare ma mb).
  change (Pos.compare_cont Eq mb ma) with (Pos.compare mb ma).
  rewrite (Z.compare_antisym ea eb), (Pos.compare_antisym ma mb).
  destruct sa, sb, (ea ?= eb)%Z, (ma ?= mb)%positive; reflexivity.
Qed.

Lemma ltb_asym (a b : float) : (a <? b)%float = true -> (b <? a)%float = false.
Proof.
  rewrite !ltb_spec. unfold SFltb. rewrite (SFcompare_swap (Prim2SF a)).
  destruct (SFcompare (Prim2SF a) (Prim2SF b)) as [[]|]; simpl;
    discriminate || reflexivity.
Qed.

Lemma leb_not_ltb (a b : float) : (a <=? b)%float = true -> (b <? a)%float = false.
Proof.
  rewrite leb_spec, ltb_spec. unfold SFleb, SFltb.
  rewrite (SFcompare_swap (Prim2SF a)).
  destruct (SFcompare (Prim2SF a) (Prim2SF b)) as [[]|]; simpl;
    discriminate || reflexivity.
Qed.

End NumberFacts.

(** ** The loop length *)

Module LoopWindowFacts.
Import LoopWindow.

Lemma check_supported_tempi : forallb check_bpm supported_tempi = true.
Proof. vm_compute. reflexivity. Qed.

Lemma in_supported_tempi bpm : 60 <= bpm <= 200 -> In bpm supported_tempi.
Proof.
  intros H. unfold supported_tempi. apply in_map_iff.
  exists (Z.to_nat (bpm - 60)). split; [lia|]. apply in_seq. lia.
Qed.

Lemma check_bpm_sound bpm :
  check_bpm bpm = true ->
  minBars (of_Z bpm) = of_Z (bars_of bpm) /\
  smallest_bars bpm (bars_of bpm) /\
  calculateOptimalDuration (of_Z bpm) =
    (of_Z (round_ms (inject_Z (bars_of bpm) * secondsPerBarQ bpm)) / 1000)%float.
Proof.
  unfold check_bpm. cbv zeta. intros H.
  apply andb_prop in H as [H Hpos].
  apply andb_prop in H as [H Hbelow].
  apply andb_prop in H as [H Hreach].
  apply andb_prop in H as [Hbars Hdur].
  apply same_eq in Hbars. apply same_eq in Hdur.
  apply Qle_bool_iff in Hreach. apply Qle_bool_iff in Hpos.
  split; [exact Hbars|]. split; [|exact Hdur].
  split; [exact Hreach|].
  intros m Hm. destruct (Z_lt_le_dec m (bars_of bpm)) as [Hlt|Hle]; [|exact Hle].
  exfalso. apply negb_true_iff in Hbelow.
  assert (Hc : Qle_bool 10 (inject_Z (bars_of bpm - 1) * secondsPerBarQ bpm) = true).
  { apply Qle_bool_iff. unfold reaches_floor in Hm.
    eapply Qle_trans; [exact Hm|].
    apply Qmult_le_compat_r; [|exact Hpos].
    rewrite <- Zle_Qle. lia. }
  congruence.
Qed.

End LoopWindowFacts.

(** C2. For every whole tempo from 60 to 200 BPM in 4/4, the bar count that
    [calculateOptimalDuration] computes in double arithmetic is the smallest
    whole number of bars lasting at least 10 seconds, a bar lasting 60/bpm*4
    seconds, and the returned duration is that many bars rounded to the
    millisecond. The result is a function of the tempo alone. At 120 BPM it is
    5 bars and 10 s, at 90 BPM 4 bars and 10.667 s. *)
Theorem loop_duration_is_smallest_whole_bars :
  (forall bpm : Z, 60 <= bpm <= 200 ->
     exists bars : Z,
       LoopWindow.minBars (of_Z bpm) = of_Z bars /\
       LoopWindow.smallest_bars bpm bars /\
       LoopWindow.calculateOptimalDuration (of_Z bpm) =
         (of_Z (LoopWindow.round_ms
                  (inject_Z bars * LoopWindow.secondsPerBarQ bpm)) / 1000)%float) /\
  (LoopWindow.minBars 120 = 5%float /\
   LoopWindow.calculateOptimalDuration 120 = 10%float) /\
  (LoopWindow.minBars 90 = 4%float /\
   LoopWindow.calculateOptimalDuration 90 = (10667 / 1000)%float).
Proof.
  split.
  - intros bpm Hb. exists (LoopWindow.bars_of bpm).
    apply LoopWindowFacts.check_bpm_sound.
    pose proof LoopWindowFacts.check_supported_tempi as Hall.
    rewrite forallb_forall in Hall. apply Hall.
    now apply LoopWindowFacts.in_supported_tempi.
  - split; split; vm_compute; reflexivity.
Qed.

Lemma loop_duration_at_100_bpm :
  60 <= 100 <= 200 /\
  exists bars : Z,
    LoopWindow.minBars (of_Z 100) = of_Z bars /\
    LoopWindow.smallest_bars 100 bars /\
    LoopWindow.calculateOptimalDuration (of_Z 100) =
      (of_Z (LoopWindow.round_ms
               (inject_Z bars * LoopWindow.secondsPerBarQ 100)) / 1000)%float.
Proof.
  split; [lia|].
  apply (proj1 loop_duration_is_smallest_whole_bars 100). lia.
Defined.

(** ** Tempo *)

Section TempoFacts.

Ltac in_grid :=
  unfold supported_tempo; vm_compute;
  repeat first [left; reflexivity | right].

Ltac each_tempo H :=
  unfold supported_tempo, tempo_grid in H; cbn [map seq In] in H;
  repeat (destruct H as [<-|H]); [..|contradiction].

Lemma supported_tempo_in_range bpm :
  supported_tempo bpm ->
  (60 <=? bpm)%float = true /\ (bpm <=? 200)%float = true /\
  exists z, 60 <= z <= 200 /\ bpm = of_Z z.
Proof.
  intros H. unfold supported_tempo, tempo_grid in H.
  apply in_map_iff in H as (k & <- & Hk). apply in_seq in Hk.
  assert (Hin : In k (seq 6 15)) by (apply in_seq; lia).
  split; [|split].
  - cbn [seq In] in Hin.
    repeat (destruct Hin as [<-|Hin]); try contradiction; vm_compute; reflexivity.
  - cbn [seq In] in Hin.
    repeat (destruct Hin as [<-|Hin]); try contradiction; vm_compute; reflexivity.
  - exists (10 * Z.of_nat k). split; [lia|reflexivity].
Qed.

Lemma requested_tempo_supported r c b :
  supported_tempo (r_currentBPM r) ->
  requested_tempo r c = Some b ->
  supported_tempo b.
Proof.
  intros H Hreq. destruct c as [| |i|i]; simpl in Hreq.
  - injection Hreq as <-. each_tempo H; in_grid.
  - injection Hreq as <-. each_tempo H; in_grid.
  - do 4 (destruct i as [|i]; [injection Hreq as <-; in_grid|]).
    destruct i; discriminate.
  - do 8 (destruct i as [|i]; [injection Hreq as <-; in_grid|]).
    destruct i; discriminate.
Qed.

Lemma changeBPM_tempo r newBPM confirmed w :
  outcome_of (changeBPM r newBPM confirmed w) = Normal tt /\
  (currentBPM (world_of (changeBPM r newBPM confirmed w)) = newBPM \/
   currentBPM (world_of (changeBPM r newBPM confirmed w)) = currentBPM w).
Proof.
  unfold changeBPM.
  destruct (0 <? length _)%nat; [destruct confirmed|]; simpl; auto.
Qed.

End TempoFacts.

(** C5, as the code has it. The computation never signals an error: for
    every number, zero and negative ones included, it returns a number. The
    tempo cannot leave 60..200 through the page: each tempo control asks
    [changeBPM] for a tempo on the grid 60, 70, ..., 200 (the minus and plus
    buttons clamp, the presets lie inside), and [changeBPM] sets either that
    tempo or none. *)
Theorem tempo_is_not_validated_but_stays_in_range :
  (forall bpm, exists v, LoopWindow.calculateOptimalDuration_call bpm = Normal v) /\
  (forall w c confirmed,
     supported_tempo (currentBPM w) ->
     outcome_of (useTempoControl c confirmed w) = Normal tt /\
     supported_tempo (currentBPM (world_of (useTempoControl c confirmed w)))) /\
  (forall bpm,
     supported_tempo bpm ->
     (60 <=? bpm)%float = true /\ (bpm <=? 200)%float = true /\
     exists z, 60 <= z <= 200 /\ bpm = of_Z z).
Proof.
  split; [|split].
  - intros bpm. eexists. reflexivity.
  - intros w c confirmed H. unfold useTempoControl, bind, get.
    destruct (requested_tempo (render w) c) as [b|] eqn:Hreq.
    + pose proof (requested_tempo_supported (render w) c b H Hreq) as Hb.
      destruct (changeBPM_tempo (render w) b confirmed w) as [Ho Hw].
      destruct (changeBPM (render w) b confirmed w) as [[w' t'] o'] eqn:E.
      unfold outcome_of, world_of in *. simpl in *. subst o'.
      split; [reflexivity|]. destruct Hw as [-> | ->]; assumption.
    + simpl. auto.
  - apply supported_tempo_in_range.
Qed.

Lemma tempo_plus_at_120 :
  supported_tempo (currentBPM (page_loaded [] true)) /\
  outcome_of (useTempoControl TempoPlus false (page_loaded [] true)) = Normal tt /\
  supported_tempo
    (currentBPM (world_of (useTempoControl TempoPlus false (page_loaded [] true)))).
Proof.
  assert (H : supported_tempo (currentBPM (page_loaded [] true))).
  { unfold supported_tempo. vm_compute.
    repeat first [left; reflexivity | right]. }
  split; [exact H|].
  apply (proj1 (proj2 tempo_is_not_validated_but_stays_in_range)
           (page_loaded [] true) TempoPlus false H).
Defined.

(** C5 as stated fails: at a tempo of -120, and at 0, the computation
    returns a number instead of signalling [InvalidTempo]; and [changeBPM]
    itself takes a tempo of 300. *)
Lemma invalid_tempo_is_not_signalled :
  ((-120 <=? 0)%float = true /\
   LoopWindow.calculateOptimalDuration_call (-120) = Normal 10%float /\
   LoopWindow.calculateOptimalDuration_call (-120) <> Throw InvalidTempo) /\
  ((0 <=? 0)%float = true /\
   LoopWindow.calculateOptimalDuration_call 0 = Normal nan) /\
  currentBPM (world_of (changeBPM (render (page_loaded [] true)) 300 false
                          (page_loaded [] true))) = 300%float.
Proof.
  repeat split; try (vm_compute; reflexivity).
  vm_compute. discriminate.
Qed.

(** ** Reasoning about handler code *)

Section MonadFacts.
Context {S : Type}.

Lemma bind_unfold {A B} (m : M S A) (k : A -> M S B) s :
  bind m k s =
  match outcome_of (m s) with
  | Normal a =>
      (world_of (k a (world_of (m s))),
       trace_of (m s) ++ trace_of (k a (world_of (m s))),
       outcome_of (k a (world_of (m s))))
  | Throw e => (world_of (m s), trace_of (m s), Throw e)
  | Pending => (world_of (m s), trace_of (m s), Pending)
  end.
Proof.
  unfold bind, world_of, trace_of, outcome_of.
  destruct (m s) as [[s1 t1] [a|e|]]; simpl; try reflexivity.
  destruct (k a s1) as [[s2 t2] o2]; reflexivity.
Qed.

Lemma bind_get {B} (k : S -> M S B) s : bind get k s = k s s.
Proof.
  unfold bind, get. destruct (k s s) as [[s2 t2] o2]; reflexivity.
Qed.

Lemma bind_ret {A B} (a : A) (k : A -> M S B) s : bind (ret a) k s = k a s.
Proof.
  unfold bind, ret. destruct (k a s) as [[s2 t2] o2]; reflexivity.
Qed.

Lemma bind_modify {B} (f : S -> S) (k : unit -> M S B) s :
  bind (modify f) k s = k tt (f s).
Proof.
  unfold bind, modify. destruct (k tt (f s)) as [[s2 t2] o2]; reflexivity.
Qed.

Lemma bind_emit {B} (e : Event) (k : unit -> M S B) s :
  bind (emit e) k s =
  (world_of (k tt s), e :: trace_of (k tt s), outcome_of (k tt s)).
Proof. rewrite bind_unfold. reflexivity. Qed.

Lemma bind_throw {A B} (e : Exn) (k : A -> M S B) s :
  bind (throw e) k s = (s, [], Throw e).
Proof. reflexivity. Qed.

Lemma try_catch_unfold {A} (m : M S A) (h : Exn -> M S A) s :
  try_catch m h s =
  match outcome_of (m s) with
  | Throw e =>
      (world_of (h e (world_of (m s))),
       trace_of (m s) ++ trace_of (h e (world_of (m s))),
       outcome_of (h e (world_of (m s))))
  | _ => m s
  end.
Proof.
  unfold try_catch, world_of, trace_of, outcome_of.
  destruct (m s) as [[s1 t1] [a|e|]]; simpl; try reflexivity.
  destruct (h e s1) as [[s2 t2] o2]; reflexivity.
Qed.

(** *** Invariants *)

Variable I : S -> Prop.

Lemma keeps_ret {A} (a : A) : keeps I (ret a).
Proof. intros s H. exact H. Qed.

Lemma keeps_get : keeps I get.
Proof. intros s H. exact H. Qed.

Lemma keeps_emit e : keeps I (emit e).
Proof. intros s H. exact H. Qed.

Lemma keeps_throw {A} e : keeps I (@throw S A e).
Proof. intros s H. exact H. Qed.

Lemma keeps_modify f : (forall s, I s -> I (f s)) -> keeps I (modify f).
Proof. intros Hf s H. apply Hf, H. Qed.

Lemma keeps_bind {A B} (m : M S A) (k : A -> M S B) :
  keeps I m -> (forall a, keeps I (k a)) -> keeps I (bind m k).
Proof.
  intros Hm Hk s H. rewrite bind_unfold. specialize (Hm s H).
  destruct (outcome_of (m s)); simpl; try exact Hm.
  apply Hk, Hm.
Qed.

Lemma keeps_try_catch {A} (m : M S A) h :
  keeps I m -> (forall e, keeps I (h e)) -> keeps I (try_catch m h).
Proof.
  intros Hm Hh s H. rewrite try_catch_unfold. specialize (Hm s H).
  destruct (outcome_of (m s)); simpl; try exact Hm.
  apply Hh, Hm.
Qed.

Lemma keeps_forEach {A} (l : list A) (f : A -> M S unit) :
  (forall x, keeps I (f x)) -> keeps I (forEach l f).
Proof.
  intros Hf. induction l as [|x l IH]; simpl.
  - apply keeps_ret.
  - apply keeps_bind; [apply Hf|intros _; exact IH].
Qed.

Lemma keeps_when b (m : M S unit) : keeps I m -> keeps I (when b m).
Proof. intros Hm. destruct b; simpl; [exact Hm|apply keeps_ret]. Qed.

Lemma safe_keeps {A} (m : M S A) : safe I m -> keeps I m.
Proof. intros Hm s H. apply Hm, H. Qed.

Lemma safe_ret {A} (a : A) : safe I (ret a).
Proof. intros s H. split; [exact H|eexists; reflexivity]. Qed.

Lemma safe_get : safe I get.
Proof. intros s H. split; [exact H|eexists; reflexivity]. Qed.

Lemma safe_emit e : safe I (emit e).
Proof. intros s H. split; [exact H|eexists; reflexivity]. Qed.

Lemma safe_modify f : (forall s, I s -> I (f s)) -> safe I (modify f).
Proof. intros Hf s H. split; [apply Hf, H|eexists; reflexivity]. Qed.

Lemma safe_bind {A B} (m : M S A) (k : A -> M S B) :
  safe I m -> (forall a, safe I (k a)) -> safe I (bind m k).
Proof.
  intros Hm Hk s H. rewrite bind_unfold.
  destruct (Hm s H) as [H1 [a Ha]]. rewrite Ha. simpl.
  apply Hk, H1.
Qed.

Lemma safe_forEach {A} (l : list A) (f : A -> M S unit) :
  (forall x, safe I (f x)) -> safe I (forEach l f).
Proof.
  intros Hf. induction l as [|x l IH]; simpl.
  - apply safe_ret.
  - apply safe_bind; [apply Hf|intros _; exact IH].
Qed.

Lemma safe_when b (m : M S unit) : safe I m -> safe I (when b m).
Proof. intros Hm. destruct b; simpl; [exact Hm|apply safe_ret]. Qed.

Lemma safe_try_catch {A} (m : M S A) h : safe I m -> safe I (try_catch m h).
Proof.
  intros Hm s H. rewrite try_catch_unfold.
  destruct (Hm s H) as [H1 [a Ha]]. rewrite Ha. split; [exact H1|eauto].
Qed.

(** *** Commands *)

Variable P : Event -> Prop.

Lemma says_ret {A} (a : A) : says P (@ret S A a).
Proof. intros s. constructor. Qed.

Lemma says_get : says P (@get S).
Proof. intros s. constructor. Qed.

Lemma says_modify f : says P (@modify S f).
Proof. intros s. constructor. Qed.

Lemma says_throw {A} e : says P (@throw S A e).
Proof. intros s. constructor. Qed.

Lemma says_emit e : P e -> says P (@emit S e).
Proof. intros H s. constructor; [exact H|constructor]. Qed.

Lemma says_bind {A B} (m : M S A) (k : A -> M S B) :
  says P m -> (forall a, says P (k a)) -> says P (bind m k).
Proof.
  intros Hm Hk s. rewrite bind_unfold. specialize (Hm s).
  destruct (outcome_of (m s)); simpl; try exact Hm.
  apply Forall_app. split; [exact Hm|apply Hk].
Qed.

Lemma says_try_catch {A} (m : M S A) h :
  says P m -> (forall e, says P (h e)) -> says P (try_catch m h).
Proof.
  intros Hm Hh s. rewrite try_catch_unfold. specialize (Hm s).
  destruct (outcome_of (m s)); simpl; try exact Hm.
  apply Forall_app. split; [exact Hm|apply Hh].
Qed.

Lemma says_forEach {A} (l : list A) (f : A -> M S unit) :
  (forall x, says P (f x)) -> says P (forEach l f).
Proof.
  intros Hf. induction l as [|x l IH]; simpl.
  - apply says_ret.
  - apply says_bind; [apply Hf|intros _; exact IH].
Qed.

Lemma says_when b (m : M S unit) : says P m -> says P (when b m).
Proof. intros Hm. destruct b; simpl; [exact Hm|apply says_ret]. Qed.

End MonadFacts.

Lemma bind_assoc {S A B C} (m : M S A) (k1 : A -> M S B) (k2 : B -> M S C) s :
  bind (bind m k1) k2 s = bind m (fun a => bind (k1 a) k2) s.
Proof.
  unfold bind. destruct (m s) as [[s1 t1] [a|e|]]; try reflexivity.
  destruct (k1 a s1) as [[s2 t2] [b|e|]]; try reflexivity.
  destruct (k2 b s2) as [[s3 t3] o3]. now rewrite app_assoc.
Qed.

(** Runs straight-line handler code on a symbolic state. *)
Ltac mnorm :=
  repeat (first [rewrite bind_assoc | rewrite bind_get | rewrite bind_modify
                | rewrite bind_ret | rewrite bind_throw | rewrite bind_emit ];
          cbv beta).

(** Computes projections of updated worlds and nodes, and nothing else. *)
Ltac wsimpl :=
  cbn [tracks history currentBPM webAudioSupported isPlayingAll
       audioContextRef audioBuffersRef sourceNodesRef gainNodesRef audioRefs
       loopHandlers sources gains elements nextHandler
       set_tracks set_history set_currentBPM set_isPlayingAll
       set_audioContextRef set_audioBuffersRef set_sourceNodesRef
       set_gainNodesRef set_audioRefs set_loopHandlers set_sources set_gains
       set_elements set_nextHandler
       owner buffer loop loopStart loopEnd output started stopped
       set_buffer set_loop set_loopStart set_loopEnd set_output set_started
       set_stopped gain toDestination set_gain set_toDestination
       world schedule world_of trace_of outcome_of fst snd negb orb andb].

Ltac unfold_setters :=
  unfold set_tracks, set_history, set_currentBPM, set_isPlayingAll,
    set_audioContextRef, set_audioBuffersRef, set_sourceNodesRef,
    set_gainNodesRef, set_audioRefs, set_loopHandlers, set_sources, set_gains,
    set_elements, set_nextHandler.

Ltac wsimpl_in H :=
  cbn [tracks history currentBPM webAudioSupported isPlayingAll
       audioContextRef audioBuffersRef sourceNodesRef gainNodesRef audioRefs
       loopHandlers sources gains elements nextHandler
       set_tracks set_history set_currentBPM set_isPlayingAll
       set_audioContextRef set_audioBuffersRef set_sourceNodesRef
       set_gainNodesRef set_audioRefs set_loopHandlers set_sources set_gains
       set_elements set_nextHandler
       owner buffer loop loopStart loopEnd output started stopped
       set_buffer set_loop set_loopStart set_loopEnd set_output set_started
       set_stopped gain toDestination set_gain set_toDestination
       world schedule world_of trace_of outcome_of fst snd negb orb andb] in H.

Lemma alter_snoc {A} (f : A -> A) (l : list A) (x : A) :
  alter f (length l) (l ++ [x]) = l ++ [f x].
Proof.
  induction l as [|y l IH]; simpl; [reflexivity|]. f_equal. exact IH.
Qed.

Lemma lookup_snoc {A} (l : list A) (x : A) : (l ++ [x]) !! length l = Some x.
Proof. now apply list_lookup_middle. Qed.

Lemma world_ext w1 w2 :
  tracks w1 = tracks w2 -> history w1 = history w2 ->
  currentBPM w1 = currentBPM w2 -> webAudioSupported w1 = webAudioSupported w2 ->
  isPlayingAll w1 = isPlayingAll w2 -> audioContextRef w1 = audioContextRef w2 ->
  audioBuffersRef w1 = audioBuffersRef w2 -> sourceNodesRef w1 = sourceNodesRef w2 ->
  gainNodesRef w1 = gainNodesRef w2 -> audioRefs w1 = audioRefs w2 ->
  loopHandlers w1 = loopHandlers w2 -> sources w1 = sources w2 ->
  gains w1 = gains w2 -> elements w1 = elements w2 ->
  nextHandler w1 = nextHandler w2 -> w1 = w2.
Proof. destruct w1, w2; simpl; intros; subst; reflexivity. Qed.

Ltac world_eq :=
  apply world_ext; wsimpl; rewrite ?alter_snoc; wsimpl; try reflexivity.

(** ** The Web Audio voices *)

Section VoiceFacts.

Lemma source_stop_run n nd w :
  sources w !! n = Some nd -> started nd = true ->
  source_stop n w = (set_sources (alter set_stopped n) w, [SourceStop n], Normal tt).
Proof.
  intros Hn Hs. unfold source_stop, update_source. mnorm. rewrite Hn, Hs. mnorm.
  reflexivity.
Qed.

Lemma stopTrackWebAudio_idle t w :
  sourceNodesRef w !! t = None ->
  stopTrackWebAudio t w = (w, [], Normal tt).
Proof. intros H. unfold stopTrackWebAudio. mnorm. now rewrite H. Qed.

Lemma stopTrackWebAudio_run t n nd w :
  sourceNodesRef w !! t = Some n ->
  sources w !! n = Some nd -> started nd = true ->
  stopTrackWebAudio t w =
    (set_gainNodesRef (delete t) (with_stopped t n w), [SourceStop n], Normal tt).
Proof.
  intros Ht Hn Hs. unfold stopTrackWebAudio. mnorm. rewrite Ht.
  rewrite bind_unfold, (source_stop_run n nd w Hn Hs). simpl. mnorm.
  reflexivity.
Qed.

Lemma playTrackWebAudio_unavailable r t m w :
  audioContextRef w = None \/ r_webAudioSupported r = false \/
  audioBuffersRef w !! t = None ->
  playTrackWebAudio r t m w = (w, [], Normal tt).
Proof.
  intros H. unfold playTrackWebAudio. mnorm.
  destruct (audioContextRef w) as [c|] eqn:Hc; [|reflexivity].
  rewrite bool_decide_true by eauto.
  destruct (r_webAudioSupported r); [|reflexivity]. simpl.
  destruct (audioBuffersRef w !! t); [|reflexivity].
  destruct H as [H|[H|H]]; discriminate.
Qed.

Lemma start_voice_run t b m w :
  start_voice t b m w =
    (with_voice t b m w, [SourceStart (length (sources w)) t], Normal tt).
Proof.
  unfold start_voice, with_voice, new_voice, new_gain, source_start,
    createBufferSource, createGain, update_source, update_gain, when.
  destruct (MAX_LOOP_DURATION <? duration b)%float.
  all: mnorm; wsimpl; rewrite ?alter_snoc, ?lookup_snoc; wsimpl; mnorm;
    unfold emit; f_equal; f_equal; world_eq.
Qed.

Lemma playTrackWebAudio_available r t m b w :
  audioContextRef w <> None -> r_webAudioSupported r = true ->
  audioBuffersRef w !! t = Some b ->
  playTrackWebAudio r t m w =
    bind match sourceNodesRef w !! t with
         | Some existingSource =>
             _ <~ source_stop existingSource;
             modify (set_sourceNodesRef (delete t))
         | None => ret tt
         end
      (fun _ => start_voice t b m) w.
Proof.
  intros Hc Hs Hb. unfold playTrackWebAudio. rewrite bind_get.
  rewrite Hs. destruct (audioContextRef w) eqn:E; [|congruence].
  rewrite bool_decide_true by eauto. cbn [negb orb]. rewrite Hb.
  reflexivity.
Qed.

Lemma playTrackWebAudio_fresh r t m b w :
  audioContextRef w <> None -> r_webAudioSupported r = true ->
  audioBuffersRef w !! t = Some b -> sourceNodesRef w !! t = None ->
  playTrackWebAudio r t m w =
    (with_voice t b m w, [SourceStart (length (sources w)) t], Normal tt).
Proof.
  intros Hc Hs Hb Hn. rewrite (playTrackWebAudio_available r t m b w Hc Hs Hb).
  rewrite Hn, bind_ret. apply start_voice_run.
Qed.

Lemma playTrackWebAudio_restart r t m b n nd w :
  audioContextRef w <> None -> r_webAudioSupported r = true ->
  audioBuffersRef w !! t = Some b ->
  sourceNodesRef w !! t = Some n ->
  sources w !! n = Some nd -> started nd = true ->
  playTrackWebAudio r t m w =
    (with_voice t b m (with_stopped t n w),
     [SourceStop n; SourceStart (length (sources w)) t], Normal tt).
Proof.
  intros Hc Hs Hb Ht Hn Hst.
  rewrite (playTrackWebAudio_available r t m b w Hc Hs Hb), Ht.
  rewrite bind_assoc, bind_unfold, (source_stop_run n nd w Hn Hst).
  cbn [outcome_of world_of trace_of fst snd].
  rewrite bind_modify. fold (with_stopped t n w). rewrite start_voice_run.
  cbn [outcome_of world_of trace_of fst snd app].
  assert (El : length (sources (with_stopped t n w)) = length (sources w)).
  { unfold with_stopped. wsimpl. apply length_alter. }
  rewrite El. reflexivity.
Qed.

(** If the previous node cannot be stopped, nothing else happens. *)
Lemma playTrackWebAudio_stop_throws r t m b n w :
  audioContextRef w <> None -> r_webAudioSupported r = true ->
  audioBuffersRef w !! t = Some b ->
  sourceNodesRef w !! t = Some n ->
  (forall nd, sources w !! n = Some nd -> started nd = false) ->
  playTrackWebAudio r t m w = (w, [], Throw InvalidStateError).
Proof.
  intros Hc Hs Hb Ht Hn.
  rewrite (playTrackWebAudio_available r t m b w Hc Hs Hb), Ht.
  rewrite bind_assoc. unfold source_stop. rewrite bind_assoc, bind_get.
  destruct (sources w !! n) as [nd|]; [rewrite (Hn nd eq_refl)|]; reflexivity.
Qed.

End VoiceFacts.

(** ** The refs and the audio graph stay in agreement *)

Section WfFacts.

Lemma wf_frame w w' :
  sources w' = sources w -> length (gains w') = length (gains w) ->
  sourceNodesRef w' = sourceNodesRef w -> gainNodesRef w' = gainNodesRef w ->
  wf w -> wf w'.
Proof.
  intros Es Eg Er Egr [Ha Hs Hg Hi].
  split; unfold one_voice_per_track; rewrite ?Es, ?Eg, ?Er, ?Egr; assumption.
Qed.

Lemma wf_page_loaded saved supported : wf (page_loaded saved supported).
Proof.
  split; unfold one_voice_per_track; simpl; intros *;
    rewrite ?lookup_empty, ?lookup_nil; discriminate.
Qed.

Lemma wf_with_stopped t n w :
  wf w -> sourceNodesRef w !! t = Some n -> wf (with_stopped t n w).
Proof.
  intros [Ha Hs Hg Hi] Ht. destruct (Hs t n Ht) as (nd & g & Hn & Ho & _).
  split; unfold with_stopped, one_voice_per_track; wsimpl.
  - intros n' nd' Hn' Hact.
    destruct (decide (n' = n)) as [->|Hne].
    + rewrite list_lookup_alter_eq, Hn in Hn'. simpl in Hn'.
      injection Hn' as <-. unfold active in Hact. simpl in Hact.
      rewrite andb_false_r in Hact. discriminate.
    + rewrite list_lookup_alter_ne in Hn' by congruence.
      specialize (Ha n' nd' Hn' Hact).
      rewrite lookup_delete_ne; [exact Ha|].
      intros E. rewrite <- E in Ha. congruence.
  - intros t' n' Ht'.
    destruct (decide (t' = t)) as [->|Hne];
      [rewrite lookup_delete_eq in Ht'; discriminate|].
    rewrite lookup_delete_ne in Ht' by congruence.
    destruct (Hs t' n' Ht') as (nd' & g' & Hn' & Ho' & Hst' & Hsp' & Hout' & Hg').
    exists nd', g'. repeat split; try assumption.
    rewrite list_lookup_alter_ne; [exact Hn'|].
    intros ->. rewrite Hn in Hn'. injection Hn' as ->. congruence.
  - exact Hg.
  - exact Hi.
Qed.

Lemma wf_unregister_gain t w :
  wf w -> sourceNodesRef w !! t = None -> wf (set_gainNodesRef (delete t) w).
Proof.
  intros [Ha Hs Hg Hi] Ht. split; unfold one_voice_per_track; wsimpl.
  - exact Ha.
  - intros t' n' Ht'.
    destruct (Hs t' n' Ht') as (nd' & g' & Hn' & Ho' & Hst' & Hsp' & Hout' & Hg').
    exists nd', g'. repeat split; try assumption.
    rewrite lookup_delete_ne; [exact Hg'|]. intros <-. congruence.
  - intros t' g Hg'. destruct (decide (t' = t)) as [->|Hne];
      [rewrite lookup_delete_eq in Hg'; discriminate|].
    rewrite lookup_delete_ne in Hg' by congruence. eauto.
  - intros t1 t2 g H1 H2.
    destruct (decide (t1 = t)) as [->|Hne1];
      [rewrite lookup_delete_eq in H1; discriminate|].
    destruct (decide (t2 = t)) as [->|Hne2];
      [rewrite lookup_delete_eq in H2; discriminate|].
    rewrite lookup_delete_ne in H1, H2 by congruence. eauto.
Qed.

Lemma wf_with_voice t b m w :
  wf w -> sourceNodesRef w !! t = None -> wf (with_voice t b m w).
Proof.
  intros [Ha Hs Hg Hi] Ht. split; unfold with_voice, one_voice_per_track; wsimpl.
  - intros n' nd' Hn' Hact.
    destruct (decide (n' = length (sources w))) as [->|Hne].
    + rewrite lookup_snoc in Hn'. injection Hn' as <-. simpl.
      now rewrite lookup_insert_eq.
    + assert (Hlt : (n' < length (sources w))%nat).
      { apply lookup_lt_Some in Hn'. rewrite length_app in Hn'. simpl in Hn'. lia. }
      rewrite lookup_app_l in Hn' by exact Hlt.
      specialize (Ha n' nd' Hn' Hact).
      rewrite lookup_insert_ne; [exact Ha|].
      intros E. rewrite <- E in Ha. congruence.
  - intros t' n' Ht'.
    destruct (decide (t' = t)) as [->|Hne].
    + rewrite lookup_insert_eq in Ht'. injection Ht' as <-.
      exists (new_voice t b (length (gains w))), (length (gains w)).
      rewrite lookup_snoc, lookup_insert_eq. repeat split; reflexivity.
    + rewrite lookup_insert_ne in Ht' by congruence.
      destruct (Hs t' n' Ht') as (nd' & g' & Hn' & Ho' & Hst' & Hsp' & Hout' & Hg').
      exists nd', g'. repeat split; try assumption.
      * rewrite lookup_app_l; [exact Hn'|]. now apply lookup_lt_Some in Hn'.
      * rewrite lookup_insert_ne by congruence. exact Hg'.
  - intros t' g Hg'. rewrite length_app. simpl.
    destruct (decide (t' = t)) as [->|Hne].
    + rewrite lookup_insert_eq in Hg'. injection Hg' as <-. lia.
    + rewrite lookup_insert_ne in Hg' by congruence.
      specialize (Hg t' g Hg'). lia.
  - intros t1 t2 g H1 H2.
    destruct (decide (t1 = t)) as [->|Hne1], (decide (t2 = t)) as [->|Hne2];
      try reflexivity.
    + rewrite lookup_insert_eq in H1. injection H1 as <-.
      rewrite lookup_insert_ne in H2 by congruence.
      specialize (Hg t2 _ H2). lia.
    + rewrite lookup_insert_eq in H2. injection H2 as <-.
      rewrite lookup_insert_ne in H1 by congruence.
      specialize (Hg t1 _ H1). lia.
    + rewrite lookup_insert_ne in H1, H2 by congruence. eauto.
Qed.

Lemma wf_alter_gain f g w : wf w -> wf (set_gains (alter f g) w).
Proof.
  intros H. eapply wf_frame; [..|exact H]; simpl; try reflexivity.
  apply length_alter.
Qed.

(** The three voice operations are safe in [wf]. *)
Lemma stopTrackWebAudio_safe t : safe wf (stopTrackWebAudio t).
Proof.
  intros w H. destruct (sourceNodesRef w !! t) as [n|] eqn:Ht.
  - destruct (wf_source w H t n Ht) as (nd & g & Hn & _ & Hst & _).
    rewrite (stopTrackWebAudio_run t n nd w Ht Hn Hst). simpl.
    split; [|eauto]. apply wf_unregister_gain.
    + now apply wf_with_stopped.
    + unfold with_stopped. simpl. apply lookup_delete_eq.
  - rewrite (stopTrackWebAudio_idle t w Ht). simpl. split; [exact H|eauto].
Qed.

Lemma playTrackWebAudio_safe r t m : safe wf (playTrackWebAudio r t m).
Proof.
  intros w H.
  destruct (audioContextRef w) as [c|] eqn:Hc;
    [|rewrite playTrackWebAudio_unavailable by auto; simpl; eauto].
  destruct (r_webAudioSupported r) eqn:Hs;
    [|rewrite playTrackWebAudio_unavailable by auto; simpl; eauto].
  destruct (audioBuffersRef w !! t) as [b|] eqn:Hb;
    [|rewrite playTrackWebAudio_unavailable by auto; simpl; eauto].
  assert (Hc' : audioContextRef w <> None) by congruence.
  destruct (sourceNodesRef w !! t) as [n|] eqn:Ht.
  - destruct (wf_source w H t n Ht) as (nd & g & Hn & _ & Hst & _).
    rewrite (playTrackWebAudio_restart r t m b n nd w Hc' Hs Hb Ht Hn Hst). simpl.
    split; [|eauto]. apply wf_with_voice.
    + now apply wf_with_stopped.
    + unfold with_stopped. simpl. apply lookup_delete_eq.
  - rewrite (playTrackWebAudio_fresh r t m b w Hc' Hs Hb Ht). simpl.
    split; [|eauto]. now apply wf_with_voice.
Qed.

Lemma toggleMuteWebAudio_safe t m : safe wf (toggleMuteWebAudio t m).
Proof.
  intros w H. unfold toggleMuteWebAudio, update_gain. mnorm.
  destruct (gainNodesRef w !! t); simpl; [|eauto].
  split; [|eauto]. now apply wf_alter_gain.
Qed.

End WfFacts.

(** ** Every synchronous handler is safe in [wf] *)

Ltac safe_step :=
  match goal with
  | |- safe _ (bind _ _) => apply safe_bind; [|intros ?]
  | |- safe _ (ret _) => apply safe_ret
  | |- safe _ get => apply safe_get
  | |- safe _ (emit _) => apply safe_emit
  | |- safe _ (when _ _) => apply safe_when
  | |- safe _ (forEach _ _) => apply safe_forEach; intros ?
  | |- safe _ (try_catch _ _) => apply safe_try_catch
  | |- safe wf (stopTrackWebAudio _) => apply stopTrackWebAudio_safe
  | |- safe wf (playTrackWebAudio _ _ _) => apply playTrackWebAudio_safe
  | |- safe wf (toggleMuteWebAudio _ _) => apply toggleMuteWebAudio_safe
  | |- safe wf (modify _) =>
      apply safe_modify; intros ? ?; eapply wf_frame; [..|eassumption];
      simpl; rewrite ?length_alter; reflexivity
  | |- safe _ (match ?x with _ => _ end) => destruct x
  end.

Ltac safe_tac := cbv zeta; repeat safe_step.

Section HandlerFacts.

Lemma element_pause_safe el : safe wf (element_pause el).
Proof. unfold element_pause, update_element. safe_tac. Qed.

Lemma element_play_safe el : safe wf (element_play el).
Proof. unfold element_play, update_element. safe_tac. Qed.

Lemma stopAll_safe r : safe wf (stopAll r).
Proof.
  unfold stopAll, element_pause, removeEndedListener, update_element. safe_tac.
Qed.

Lemma toggleMute_safe r t : safe wf (toggleMute r t).
Proof. unfold toggleMute, update_element. safe_tac. Qed.

Lemma removeTrack_safe r t : safe wf (removeTrack r t).
Proof.
  unfold removeTrack, element_pause, removeEndedListener, update_element.
  safe_tac.
Qed.

Lemma changeBPM_safe r b c : safe wf (changeBPM r b c).
Proof. unfold changeBPM. safe_tac. Qed.

Lemma useTempoControl_safe c confirmed : safe wf (useTempoControl c confirmed).
Proof. unfold useTempoControl. safe_tac. apply changeBPM_safe. Qed.

Lemma clearAllTracks_safe c : safe wf (clearAllTracks c).
Proof. unfold clearAllTracks. safe_tac. Qed.

Lemma mountAudio_safe t ready : safe wf (mountAudio t ready).
Proof.
  unfold mountAudio, createAudioElement, audioRef_attach, update_element.
  safe_tac.
Qed.

Lemma perform_safe a : safe wf (perform a).
Proof.
  unfold perform. safe_tac;
    auto using removeTrack_safe, toggleMute_safe, stopAll_safe,
      useTempoControl_safe, clearAllTracks_safe, mountAudio_safe.
Qed.

Lemma start_loaded_safe r l : safe wf (start_loaded r l).
Proof. unfold start_loaded. safe_tac. Qed.

Lemma prepare_elements_safe l : safe wf (prepare_elements l).
Proof.
  induction l as [|t l IH]; simpl; unfold update_element; safe_tac; exact IH.
Qed.

End HandlerFacts.

(** ** Asynchronous code keeps [wf] *)

Ltac keeps_step :=
  match goal with
  | |- keeps _ (bind _ _) => apply keeps_bind; [|intros ?]
  | |- keeps _ (ret _) => apply keeps_ret
  | |- keeps _ get => apply keeps_get
  | |- keeps _ (emit _) => apply keeps_emit
  | |- keeps _ (throw _) => apply keeps_throw
  | |- keeps _ (when _ _) => apply keeps_when
  | |- keeps _ (forEach _ _) => apply keeps_forEach; intros ?
  | |- keeps _ (try_catch _ _) => apply keeps_try_catch; [|intros ?]
  | |- keeps _ (match ?x with _ => _ end) => destruct x
  end.

Section TaskFacts.

Lemma lift_keeps {A} (m : M World A) : keeps wf m -> keeps task_wf (lift m).
Proof.
  intros Hm s H. unfold lift, task_wf in *. specialize (Hm (world s) H).
  unfold world_of in *. destruct (m (world s)) as [[w t] o]. exact Hm.
Qed.

Lemma lift_safe_keeps {A} (m : M World A) : safe wf m -> keeps task_wf (lift m).
Proof. intros Hm. apply lift_keeps. now apply safe_keeps. Qed.

Lemma getW_keeps : keeps task_wf getW.
Proof. apply lift_keeps, keeps_get. Qed.

Lemma await_promise_keeps what force : keeps task_wf (await_promise what force).
Proof.
  intros s H. unfold await_promise, task_wf in *.
  destruct (schedule s) as [|turn rest]; [exact H|].
  pose proof (safe_keeps wf _ (safe_forEach wf (meanwhile turn) perform perform_safe)
                (world s) H) as Hw.
  unfold world_of in Hw.
  destruct (forEach (meanwhile turn) perform (world s)) as [[w t] o].
  destruct (answer turn); [exact Hw|destruct force; exact Hw].
Qed.

Ltac task_keeps :=
  cbv zeta;
  repeat first
    [ keeps_step
    | apply getW_keeps
    | apply await_promise_keeps
    | apply lift_safe_keeps;
      first [ apply start_loaded_safe | apply prepare_elements_safe
            | unfold element_pause, element_play, update_element; safe_tac ] ].

Lemma loadAudioBuffer_keeps r t u : keeps task_wf (loadAudioBuffer r t u).
Proof. unfold loadAudioBuffer, await. task_keeps. Qed.

Lemma load_missing_keeps r l n : keeps task_wf (load_missing r l n).
Proof.
  revert n. induction l as [|t l IH]; intros n; simpl.
  - apply keeps_ret.
  - task_keeps; try apply IH. apply loadAudioBuffer_keeps.
Qed.

Lemma generateTrack_keeps inst style : keeps task_wf (generateTrack inst style).
Proof. unfold generateTrack, await. task_keeps. Qed.

Lemma addTrack_keeps r now inst style : keeps task_wf (addTrack r now inst style).
Proof.
  unfold addTrack. task_keeps;
    first [apply generateTrack_keeps | apply loadAudioBuffer_keeps].
Qed.

Lemma play_fallback_keeps l : keeps task_wf (play_fallback l).
Proof. unfold play_fallback. task_keeps. Qed.

Lemma playAll_keeps r : keeps task_wf (playAll r).
Proof.
  unfold playAll, await. task_keeps;
    first [apply load_missing_keeps | apply play_fallback_keeps].
Qed.

Lemma step_wf w w' : wf w -> step w w' -> wf w'.
Proof.
  intros H Hstep. destruct Hstep as [a w|r sched w|r now inst style sched w].
  - exact (safe_keeps wf _ (perform_safe a) w H).
  - exact (playAll_keeps r (mkTask w sched) H).
  - exact (addTrack_keeps r now inst style (mkTask w sched) H).
Qed.

Lemma reachable_wf w : reachable w -> wf w.
Proof.
  induction 1 as [saved supported|w w' _ IH Hstep].
  - apply wf_page_loaded.
  - exact (step_wf w w' IH Hstep).
Qed.

Lemma wf_no_overlap w : wf w -> no_overlap w.
Proof.
  intros H n1 n2 nd1 nd2 H1 H2 A1 A2 Ho.
  pose proof (wf_active w H n1 nd1 H1 A1) as R1.
  pose proof (wf_active w H n2 nd2 H2 A2) as R2.
  rewrite Ho in R1. congruence.
Qed.

End TaskFacts.

(** C3. When a voice is started for a decoded clip, the node that sounds for
    the track plays that clip in a loop; if the clip is longer than
    [MAX_LOOP_DURATION] (10 s) the loop region is exactly 0 .. 10 s, and if
    it is at most 10 s long the region is the whole clip. *)
Theorem loop_region_is_clamped_to_ten_seconds r t m b w :
  wf w -> audioContextRef w <> None -> r_webAudioSupported r = true ->
  audioBuffersRef w !! t = Some b ->
  outcome_of (playTrackWebAudio r t m w) = Normal tt /\
  exists n nd,
    sourceNodesRef (world_of (playTrackWebAudio r t m w)) !! t = Some n /\
    sources (world_of (playTrackWebAudio r t m w)) !! n = Some nd /\
    active nd = true /\ buffer nd = Some b /\
    ((MAX_LOOP_DURATION <? duration b)%float = true ->
       loopRegion nd = Some (0%float, MAX_LOOP_DURATION)) /\
    ((duration b <=? MAX_LOOP_DURATION)%float = true ->
       loopRegion nd = Some (0%float, duration b)).
Proof.
  intros Hwf Hc Hs Hb.
  assert (Hnew : forall w0,
    exists n nd,
      sourceNodesRef (with_voice t b m w0) !! t = Some n /\
      sources (with_voice t b m w0) !! n = Some nd /\
      active nd = true /\ buffer nd = Some b /\
      ((MAX_LOOP_DURATION <? duration b)%float = true ->
         loopRegion nd = Some (0%float, MAX_LOOP_DURATION)) /\
      ((duration b <=? MAX_LOOP_DURATION)%float = true ->
         loopRegion nd = Some (0%float, duration b))).
  { intros w0. exists (length (sources w0)), (new_voice t b (length (gains w0))).
    unfold with_voice. wsimpl. rewrite lookup_insert_eq, lookup_snoc.
    repeat split.
    - intros Hlong. unfold loopRegion, new_voice. cbn [buffer loop loopStart loopEnd].
      rewrite Hlong. rewrite (ltb_asym _ _ Hlong). reflexivity.
    - intros Hshort. unfold loopRegion, new_voice. cbn [buffer loop loopStart loopEnd].
      rewrite (leb_not_ltb _ _ Hshort). reflexivity. }
  destruct (sourceNodesRef w !! t) as [n|] eqn:Ht.
  - destruct (wf_source w Hwf t n Ht) as (nd & g & Hn & _ & Hst & _).
    rewrite (playTrackWebAudio_restart r t m b n nd w Hc Hs Hb Ht Hn Hst).
    split; [reflexivity|]. apply Hnew.
  - rewrite (playTrackWebAudio_fresh r t m b w Hc Hs Hb Ht).
    split; [reflexivity|]. apply Hnew.
Qed.

Lemma loop_region_of_a_twelve_second_clip :
  wf piano_playing /\ audioContextRef piano_playing <> None /\
  audioBuffersRef piano_playing !! 1 = Some {| duration := 12 |} /\
  (MAX_LOOP_DURATION <? 12)%float = true /\
  exists n nd,
    sourceNodesRef
      (world_of (playTrackWebAudio (render piano_playing) 1 false piano_playing))
      !! 1 = Some n /\
    sources
      (world_of (playTrackWebAudio (render piano_playing) 1 false piano_playing))
      !! n = Some nd /\
    loopRegion nd = Some (0%float, MAX_LOOP_DURATION).
Proof.
  assert (Hwf : wf piano_playing).
  { apply (playAll_keeps _ (mkTask _ _)). apply wf_page_loaded. }
  assert (Hc : audioContextRef piano_playing <> None) by (vm_compute; discriminate).
  assert (Hb : audioBuffersRef piano_playing !! 1 = Some {| duration := 12 |})
    by (vm_compute; reflexivity).
  assert (Hl : (MAX_LOOP_DURATION <? 12)%float = true) by (vm_compute; reflexivity).
  repeat (split; [assumption|]).
  destruct (loop_region_is_clamped_to_ten_seconds (render piano_playing) 1 false
              {| duration := 12 |} piano_playing Hwf Hc eq_refl Hb)
    as (_ & n & nd & Hn & Hnd & _ & _ & Hlong & _).
  exists n, nd. auto.
Defined.

(** C6. In every world the page can reach, no two sounding source nodes
    belong to the same track. A call of [playTrackWebAudio] keeps it so, and
    when a node is registered for the track and a clip is there to play, the
    call stops that node and unregisters it, and only then creates, registers
    and starts the new one. *)
Theorem at_most_one_sounding_node_per_track w :
  reachable w ->
  no_overlap w /\
  (forall r t m, no_overlap (world_of (playTrackWebAudio r t m w))) /\
  (forall r t m b n,
     audioContextRef w <> None -> r_webAudioSupported r = true ->
     audioBuffersRef w !! t = Some b -> sourceNodesRef w !! t = Some n ->
     playTrackWebAudio r t m w =
       (with_voice t b m (with_stopped t n w),
        [SourceStop n; SourceStart (length (sources w)) t], Normal tt)).
Proof.
  intros Hr. pose proof (reachable_wf w Hr) as Hwf. split; [|split].
  - now apply wf_no_overlap.
  - intros r t m. apply wf_no_overlap.
    now apply (safe_keeps wf _ (playTrackWebAudio_safe r t m)).
  - intros r t m b n Hc Hs Hb Ht.
    destruct (wf_source w Hwf t n Ht) as (nd & g & Hn & _ & Hst & _).
    exact (playTrackWebAudio_restart r t m b n nd w Hc Hs Hb Ht Hn Hst).
Qed.

Lemma one_piano_voice_after_replay :
  reachable piano_playing /\
  no_overlap piano_playing /\
  no_overlap
    (world_of (playTrackWebAudio (render piano_playing) 1 false piano_playing)) /\
  trace_of (playTrackWebAudio (render piano_playing) 1 false piano_playing) =
    [SourceStop 0; SourceStart 1 1].
Proof.
  assert (Hr : reachable piano_playing).
  { unfold piano_playing. eapply reach_step; [apply reach_loaded|].
    apply step_playAll. }
  destruct (at_most_one_sounding_node_per_track piano_playing Hr) as (H1 & H2 & H3).
  split; [exact Hr|]. split; [exact H1|]. split; [apply H2|].
  rewrite (H3 (render piano_playing) 1 false {| duration := 12 |} 0%nat).
  - vm_compute. reflexivity.
  - vm_compute. discriminate.
  - reflexivity.
  - vm_compute. reflexivity.
  - vm_compute. reflexivity.
Defined.

(** ** Adding a track *)

(** From a render that shows a track of the same display name, [addTrack]
    does nothing: no track, no history line, no request. *)
Lemma addTrack_duplicate_is_noop r now inst style s x :
  In x (r_tracks r) -> Track.name x = displayName inst style ->
  addTrack r now inst style s = (s, [], Normal tt).
Proof.
  intros Hin Hname. unfold addTrack. cbv zeta.
  destruct (List.find _ (r_tracks r)) as [y|] eqn:Hfind; [reflexivity|].
  exfalso. apply (find_none _ _ Hfind) in Hin.
  rewrite Hname, String.eqb_refl in Hin. discriminate.
Qed.

(** C10 holds for a call made from the current render, the one a button
    press makes. *)
Lemma addTrack_from_button_is_noop_on_duplicate w sched now inst style x :
  In x (tracks w) -> Track.name x = displayName inst style ->
  addTrack (render w) now inst style (mkTask w sched) =
    (mkTask w sched, [], Normal tt).
Proof.
  intros Hin Hname.
  exact (addTrack_duplicate_is_noop (render w) now inst style _ x Hin Hname).
Qed.

(** C10 fails for the call a voice command makes: with a "Piano" track on
    the page, the recognised command "piano" appends a second "Piano" track
    and sends a generation request. *)
Theorem voice_command_adds_a_duplicate :
  In piano (tracks (page_loaded [piano] true)) /\
  Track.name piano = displayName "Piano" None /\
  map Track.name
    (tracks (world (world_of
       (voice_addTrack 9 "Piano" None
          (mkTask (page_loaded [piano] true) [generates "blob:second"]))))) =
    ["Piano"; "Piano"] /\
  trace_of
    (voice_addTrack 9 "Piano" None
       (mkTask (page_loaded [piano] true) [generates "blob:second"])) =
    [Suspend (AwGenerate "Piano" None); Resume (AwGenerate "Piano" None) true].
Proof.
  split; [left; reflexivity|]. split; [reflexivity|].
  split; vm_compute; reflexivity.
Qed.

(** ** Muting *)

Section MuteFacts.

Lemma toggleMute_run r t w :
  toggleMute r t w =
    let m := negb (match find_track t (r_tracks r) with
                   | Some x => Track.is_muted x
                   | None => false
                   end) in
    let w1 := set_tracks (with_mute_flag t m) w in
    (if r_isPlayingAll r && r_webAudioSupported r
     then match gainNodesRef w !! t with
          | Some g => set_gains (alter (set_gain (if m then 0%float else 1%float)) g) w1
          | None => w1
          end
     else match audioRefs w !! t with
          | Some e => set_elements (alter (set_el_muted m) e) w1
          | None => w1
          end,
     [], Normal tt).
Proof.
  unfold toggleMute, toggleMuteWebAudio, update_gain, update_element. cbv zeta.
  rewrite bind_modify. fold (with_mute_flag t
    (negb match find_track t (r_tracks r) with
          | Some x => Track.is_muted x
          | None => false
          end)).
  destruct (r_isPlayingAll r && r_webAudioSupported r); rewrite bind_get; wsimpl.
  - destruct (gainNodesRef w !! t); reflexivity.
  - destruct (audioRefs w !! t); reflexivity.
Qed.

Lemma level_of_alter_other f g w t' :
  wf w -> (forall t, gainNodesRef w !! t = Some g -> t <> t') ->
  level_of (set_gains (alter f g) w) t' = level_of w t'.
Proof.
  intros Hwf Hne. unfold level_of. wsimpl.
  destruct (gainNodesRef w !! t') as [g'|] eqn:E; [|reflexivity].
  rewrite list_lookup_alter_ne; [reflexivity|].
  intros ->. exact (Hne t' E eq_refl).
Qed.

End MuteFacts.

(** ** Stopping *)

Section StopFacts.

Lemma forEach_establish {S A} (I0 : S -> Prop) (J : A -> S -> Prop)
    (f : A -> M S unit) (l : list A) :
  (forall x, safe I0 (f x)) ->
  (forall x s, I0 s -> J x (world_of (f x s))) ->
  (forall x y s, I0 s -> J x s -> J x (world_of (f y s))) ->
  forall s, I0 s -> forall x, In x l -> J x (world_of (forEach l f s)).
Proof.
  intros Hsafe Hest Hkeep. induction l as [|a l IH]; intros s Hs x Hin.
  - destruct Hin.
  - simpl. rewrite bind_unfold.
    destruct (Hsafe a s Hs) as [Hs1 [[] Ho]]. rewrite Ho.
    cbn [world_of fst].
    destruct Hin as [<-|Hin].
    + clear IH. revert Hs1. generalize (Hest a s Hs).
      generalize (world_of (f a s)). clear s Hs Ho.
      induction l as [|b l IH]; intros s HJ Hs; [exact HJ|].
      simpl. rewrite bind_unfold.
      destruct (Hsafe b s Hs) as [Hs1 [[] Ho]]. rewrite Ho.
      cbn [world_of fst]. apply IH; [apply Hkeep; assumption|exact Hs1].
    + apply IH; assumption.
Qed.

Lemma forEach_keep {S A} (I0 J : S -> Prop) (f : A -> M S unit) (l : list A) :
  (forall x, safe I0 (f x)) ->
  (forall y s, I0 s -> J s -> J (world_of (f y s))) ->
  forall s, I0 s -> J s -> J (world_of (forEach l f s)).
Proof.
  intros Hsafe Hkeep. induction l as [|a l IH]; intros s Hs HJ; [exact HJ|].
  simpl. rewrite bind_unfold.
  destruct (Hsafe a s Hs) as [Hs1 [[] Ho]]. rewrite Ho.
  cbn [world_of fst]. apply IH; [exact Hs1|]. now apply Hkeep.
Qed.

Lemma alter_fixed {A} (f : A -> A) (i : nat) (l : list A) :
  (forall x, l !! i = Some x -> f x = x) -> alter f i l = l.
Proof.
  revert i. induction l as [|a l IH]; intros i H; [reflexivity|].
  destruct i as [|i]; simpl.
  - f_equal. apply H. reflexivity.
  - f_equal. apply IH. intros x Hx. apply H. exact Hx.
Qed.

Lemma stopAll_passes r :
  stopAll r =
    (_ <~ modify (set_isPlayingAll false);
     _ <~ when (r_webAudioSupported r) (forEach (r_tracks r) stop_voice);
     forEach (r_tracks r) stop_element).
Proof. reflexivity. Qed.

Lemma stop_voice_safe t : safe wf (stop_voice t).
Proof. apply stopTrackWebAudio_safe. Qed.

Lemma stop_element_safe t : safe wf (stop_element t).
Proof.
  unfold stop_element, element_pause, removeEndedListener, update_element.
  safe_tac.
Qed.

Lemma stop_element_world t w :
  world_of (stop_element t w) = element_stopped t w.
Proof.
  unfold stop_element, element_stopped, element_pause, removeEndedListener,
    update_element, when. cbv zeta. rewrite bind_get.
  destruct (audioRefs w !! Track.id t) as [e|]; [|reflexivity].
  destruct (Track.has_url t); [|reflexivity].
  destruct (loopHandlers w !! Track.id t) as [h|]; mnorm; wsimpl;
    unfold emit, modify; wsimpl; world_eq.
Qed.

End StopFacts.

Section StopAllFacts.

Lemma stopTrackWebAudio_frame t w :
  elements (world_of (stopTrackWebAudio t w)) = elements w /\
  audioRefs (world_of (stopTrackWebAudio t w)) = audioRefs w /\
  loopHandlers (world_of (stopTrackWebAudio t w)) = loopHandlers w /\
  isPlayingAll (world_of (stopTrackWebAudio t w)) = isPlayingAll w /\
  (forall x, sourceNodesRef w !! x = None ->
             sourceNodesRef (world_of (stopTrackWebAudio t w)) !! x = None).
Proof.
  unfold stopTrackWebAudio, source_stop, update_source. rewrite bind_get.
  destruct (sourceNodesRef w !! t) as [n|] eqn:Ht; [|wsimpl; auto].
  rewrite bind_assoc, bind_get.
  destruct (sources w !! n) as [nd|]; [|wsimpl; auto].
  destruct (started nd); [|wsimpl; auto].
  mnorm. unfold modify. wsimpl. repeat split; try reflexivity.
  intros x Hx. destruct (decide (x = t)) as [->|Hne].
  - apply lookup_delete_eq.
  - rewrite lookup_delete_ne by congruence. exact Hx.
Qed.

Lemma stopTrackWebAudio_unregisters t w :
  wf w -> sourceNodesRef (world_of (stopTrackWebAudio t w)) !! t = None.
Proof.
  intros H. destruct (sourceNodesRef w !! t) as [n|] eqn:Ht.
  - destruct (wf_source w H t n Ht) as (nd & g & Hn & _ & Hst & _).
    rewrite (stopTrackWebAudio_run t n nd w Ht Hn Hst).
    unfold with_stopped. wsimpl. apply lookup_delete_eq.
  - rewrite (stopTrackWebAudio_idle t w Ht). exact Ht.
Qed.

Lemma element_stopped_frame t w :
  sourceNodesRef (element_stopped t w) = sourceNodesRef w /\
  audioRefs (element_stopped t w) = audioRefs w /\
  isPlayingAll (element_stopped t w) = isPlayingAll w /\
  (forall k, loopHandlers w !! k = None ->
             loopHandlers (element_stopped t w) !! k = None).
Proof.
  unfold element_stopped.
  destruct (audioRefs w !! Track.id t) as [e|]; [|auto].
  destruct (Track.has_url t); [|auto].
  destruct (loopHandlers w !! Track.id t) as [h|]; wsimpl; repeat split; auto.
  intros k Hk. destruct (decide (k = Track.id t)) as [->|Hne].
  - apply lookup_delete_eq.
  - rewrite lookup_delete_ne by congruence. exact Hk.
Qed.

Lemma at_rest_alter_keep (f : AudioElement -> AudioElement) (e e' : nat)
    (l : list AudioElement) :
  (forall el, paused (f el) = paused el /\ currentTime (f el) = currentTime el) ->
  (forall el, l !! e = Some el -> paused el = true /\ currentTime el = 0%float) ->
  forall el, alter f e' l !! e = Some el ->
    paused el = true /\ currentTime el = 0%float.
Proof.
  intros Hf H el Hel. destruct (decide (e' = e)) as [->|Hne].
  - rewrite list_lookup_alter_eq in Hel.
    destruct (l !! e) as [el0|] eqn:E; [|discriminate].
    injection Hel as <-. destruct (Hf el0) as [-> ->]. now apply H.
  - rewrite list_lookup_alter_ne in Hel by exact Hne. now apply H.
Qed.

Lemma element_stopped_keeps_rest t e w :
  element_at_rest w e -> element_at_rest (element_stopped t w) e.
Proof.
  intros H. unfold element_stopped.
  destruct (audioRefs w !! Track.id t) as [e'|]; [|exact H].
  destruct (Track.has_url t); [|exact H].
  assert (Hp : forall l : list AudioElement,
    (forall el, l !! e = Some el -> paused el = true /\ currentTime el = 0%float) ->
    forall el, alter (set_currentTime 0%float) e' (alter (set_paused true) e' l) !! e = Some el ->
      paused el = true /\ currentTime el = 0%float).
  { intros l Hl el Hel. destruct (decide (e' = e)) as [->|Hne].
    - rewrite !list_lookup_alter_eq in Hel.
      destruct (l !! e) as [el0|]; [|discriminate].
      injection Hel as <-. split; reflexivity.
    - rewrite !list_lookup_alter_ne in Hel by exact Hne. now apply Hl. }
  destruct (loopHandlers w !! Track.id t) as [h|]; unfold element_at_rest; wsimpl.
  - apply at_rest_alter_keep; [intros el; split; reflexivity|]. now apply Hp.
  - now apply Hp.
Qed.

Lemma element_stopped_establishes t e w :
  Track.has_url t = true -> audioRefs w !! Track.id t = Some e ->
  element_at_rest (element_stopped t w) e /\
  loopHandlers (element_stopped t w) !! Track.id t = None.
Proof.
  intros Hu He. unfold element_stopped. rewrite He, Hu.
  assert (Hp : forall (l : list AudioElement) el,
    alter (set_currentTime 0%float) e (alter (set_paused true) e l) !! e = Some el ->
    paused el = true /\ currentTime el = 0%float).
  { intros l el Hel. rewrite !list_lookup_alter_eq in Hel.
    destruct (l !! e) as [el0|]; [|discriminate].
    injection Hel as <-. split; reflexivity. }
  destruct (loopHandlers w !! Track.id t) as [h|] eqn:Hh;
    unfold element_at_rest; wsimpl.
  - split; [|apply lookup_delete_eq].
    intros el Hel. rewrite list_lookup_alter_eq in Hel.
    destruct (alter (set_currentTime 0%float) e
                (alter (set_paused true) e (elements w)) !! e) as [el0|] eqn:E;
      [|discriminate].
    injection Hel as <-. exact (Hp _ _ E).
  - split; [apply Hp|exact Hh].
Qed.

Lemma set_paused_fixed el : paused el = true -> set_paused true el = el.
Proof. destruct el; simpl; intros ->; reflexivity. Qed.

Lemma set_currentTime_fixed el :
  currentTime el = 0%float -> set_currentTime 0%float el = el.
Proof. destruct el; simpl; intros ->; reflexivity. Qed.

Lemma element_stopped_fixed t w :
  (forall e, Track.has_url t = true -> audioRefs w !! Track.id t = Some e ->
             element_at_rest w e /\ loopHandlers w !! Track.id t = None) ->
  element_stopped t w = w.
Proof.
  intros H. unfold element_stopped.
  destruct (audioRefs w !! Track.id t) as [e|] eqn:He; [|reflexivity].
  destruct (Track.has_url t) eqn:Hu; [|reflexivity].
  destruct (H e eq_refl eq_refl) as [Hrest ->].
  apply world_ext; wsimpl; try reflexivity.
  rewrite (alter_fixed (set_paused true)).
  - apply alter_fixed. intros el Hel. apply set_currentTime_fixed.
    now apply (Hrest el).
  - intros el Hel. apply set_paused_fixed. now apply (Hrest el).
Qed.

End StopAllFacts.

Section StopAllIdempotence.

Lemma stop_voices_keep (J : World -> Prop) l :
  (forall t w, J w -> J (world_of (stopTrackWebAudio t w))) ->
  forall w, wf w -> J w -> J (world_of (forEach l stop_voice w)).
Proof.
  intros HJ. apply (forEach_keep wf J); [apply stop_voice_safe|].
  intros y s _. apply HJ.
Qed.

Lemma stop_elements_keep (J : World -> Prop) l :
  (forall t w, J w -> J (element_stopped t w)) ->
  forall w, wf w -> J w -> J (world_of (forEach l stop_element w)).
Proof.
  intros HJ. apply (forEach_keep wf J); [apply stop_element_safe|].
  intros y s _ Hs. rewrite stop_element_world. now apply HJ.
Qed.

Lemma stopAll_reaches_rest r w :
  wf w ->
  wf (world_of (stopAll r w)) /\ outcome_of (stopAll r w) = Normal tt /\
  at_rest r (world_of (stopAll r w)) /\
  audioRefs (world_of (stopAll r w)) = audioRefs w.
Proof.
  intros Hwf.
  destruct (stopAll_safe r w Hwf) as [Hwf' [[] Ho]].
  split; [exact Hwf'|]. split; [exact Ho|]. clear Hwf' Ho.
  rewrite stopAll_passes, bind_modify.
  set (w0 := set_isPlayingAll false w).
  assert (Hwf0 : wf w0) by (apply (wf_frame w); try reflexivity; exact Hwf).
  rewrite bind_unfold.
  pose proof (safe_when wf (r_webAudioSupported r) _
                (safe_forEach wf (r_tracks r) stop_voice stop_voice_safe) w0 Hwf0)
    as [Hwf1 [[] Ho1]].
  rewrite Ho1. cbn [world_of fst].
  set (w1 := world_of (when (r_webAudioSupported r)
                         (forEach (r_tracks r) stop_voice) w0)) in *.
  assert (Hplay1 : isPlayingAll w1 = false).
  { subst w1. destruct (r_webAudioSupported r); [|reflexivity].
    apply (stop_voices_keep (fun w => isPlayingAll w = false)); auto.
    intros t w' Hw'. destruct (stopTrackWebAudio_frame t w') as (_ & _ & _ & -> & _).
    exact Hw'. }
  assert (Hrefs1 : audioRefs w1 = audioRefs w).
  { subst w1. destruct (r_webAudioSupported r); [|reflexivity].
    apply (stop_voices_keep (fun w' => audioRefs w' = audioRefs w)); auto.
    intros t w' Hw'. destruct (stopTrackWebAudio_frame t w') as (_ & -> & _).
    exact Hw'. }
  assert (Hsrc1 : r_webAudioSupported r = true ->
            forall t, In t (r_tracks r) -> sourceNodesRef w1 !! Track.id t = None).
  { intros Hs. subst w1. rewrite Hs. cbn [when].
    apply (forEach_establish wf (fun t w' => sourceNodesRef w' !! Track.id t = None));
      [apply stop_voice_safe| |  |exact Hwf0].
    - intros x s Hs0. now apply stopTrackWebAudio_unregisters.
    - intros x y s _ Hx.
      destruct (stopTrackWebAudio_frame (Track.id y) s) as (_ & _ & _ & _ & Hk).
      now apply Hk. }
  split; [split; [|split]|].
  - apply (stop_elements_keep (fun w => isPlayingAll w = false)); auto.
    intros t w' Hw'. destruct (element_stopped_frame t w') as (_ & _ & -> & _).
    exact Hw'.
  - intros Hs t Ht.
    apply (stop_elements_keep (fun w => sourceNodesRef w !! Track.id t = None)); auto.
    intros t' w' Hw'. destruct (element_stopped_frame t' w') as (-> & _).
    exact Hw'.
  - intros t e Ht Hu He.
    apply (forEach_establish wf
             (fun t w' => forall e, Track.has_url t = true ->
                audioRefs w' !! Track.id t = Some e ->
                element_at_rest w' e /\ loopHandlers w' !! Track.id t = None)
             stop_element (r_tracks r)) with (s := w1) (x := t);
      [apply stop_element_safe| | |exact Hwf1|exact Ht|exact Hu|exact He].
    + intros x s _ e0 Hu0. rewrite stop_element_world.
      destruct (element_stopped_frame x s) as (_ & -> & _).
      now apply element_stopped_establishes.
    + intros x y s _ HJ e0 Hu0. rewrite stop_element_world.
      destruct (element_stopped_frame y s) as (_ & -> & _ & Hk).
      intros He0. destruct (HJ e0 Hu0 He0) as [Hr Hl].
      split; [now apply element_stopped_keeps_rest|now apply Hk].
  - rewrite <- Hrefs1.
    apply (stop_elements_keep (fun w' => audioRefs w' = audioRefs w1)); auto.
    intros t w' Hw'. destruct (element_stopped_frame t w') as (_ & -> & _).
    exact Hw'.
Qed.

Lemma set_isPlayingAll_fixed w :
  isPlayingAll w = false -> set_isPlayingAll false w = w.
Proof. intros H. apply world_ext; wsimpl; auto. Qed.

Lemma stop_voices_at_rest l w :
  (forall t, In t l -> sourceNodesRef w !! Track.id t = None) ->
  forEach l stop_voice w = (w, [], Normal tt).
Proof.
  induction l as [|a l IH]; intros H; [reflexivity|].
  simpl. rewrite bind_unfold.
  change (stop_voice a w) with (stopTrackWebAudio (Track.id a) w).
  rewrite (stopTrackWebAudio_idle (Track.id a) w) by (apply H; now left).
  cbn [outcome_of world_of trace_of fst snd app].
  rewrite IH by (intros t Ht; apply H; now right). reflexivity.
Qed.

Lemma stop_elements_at_rest l w :
  wf w ->
  (forall t e, In t l -> Track.has_url t = true ->
     audioRefs w !! Track.id t = Some e ->
     element_at_rest w e /\ loopHandlers w !! Track.id t = None) ->
  world_of (forEach l stop_element w) = w /\
  outcome_of (forEach l stop_element w) = Normal tt.
Proof.
  intros Hwf. induction l as [|a l IH]; intros H; [split; reflexivity|].
  simpl. rewrite bind_unfold.
  destruct (stop_element_safe a w Hwf) as [_ [[] Ho]]. rewrite Ho.
  cbn [world_of outcome_of fst snd].
  assert (E : world_of (stop_element a w) = w).
  { rewrite stop_element_world. apply element_stopped_fixed.
    intros e Hu He. apply (H a e); auto. now left. }
  rewrite E. apply IH. intros t e Ht. apply H. now right.
Qed.

Lemma stopAll_at_rest_is_fixed r w :
  wf w -> at_rest r w ->
  world_of (stopAll r w) = w /\ outcome_of (stopAll r w) = Normal tt.
Proof.
  intros Hwf (Hplay & Hsrc & Hel).
  rewrite stopAll_passes, bind_modify, (set_isPlayingAll_fixed w Hplay).
  rewrite bind_unfold.
  assert (E : when (r_webAudioSupported r) (forEach (r_tracks r) stop_voice) w =
              (w, [], Normal tt)).
  { destruct (r_webAudioSupported r); [|reflexivity].
    apply stop_voices_at_rest. now apply Hsrc. }
  rewrite E. cbn [outcome_of world_of trace_of fst snd app].
  now apply stop_elements_at_rest.
Qed.

Lemma at_rest_same_render r r' w :
  r_tracks r' = r_tracks r -> r_webAudioSupported r' = r_webAudioSupported r ->
  at_rest r w -> at_rest r' w.
Proof. unfold at_rest. intros -> ->. auto. Qed.

Lemma stopAll_frame r w :
  tracks (world_of (stopAll r w)) = tracks w /\
  webAudioSupported (world_of (stopAll r w)) = webAudioSupported w.
Proof.
  assert (H : keeps (fun w' => tracks w' = tracks w /\
                               webAudioSupported w' = webAudioSupported w)
                (stopAll r)).
  { unfold stopAll, stopTrackWebAudio, source_stop, element_pause,
      removeEndedListener, update_element, update_source.
    cbv zeta.
    repeat first [keeps_step | apply keeps_modify; intros ? ?; assumption]. }
  now apply H.
Qed.

Lemma lookup_stopped_element (fs : AudioElement -> AudioElement) (e e2 : nat)
    (l : list AudioElement) el :
  alter fs e2 (alter (set_currentTime 0%float) e2 (alter (set_paused true) e2 l))
    !! e = Some el ->
  exists el0, l !! e = Some el0 /\
    (e2 <> e /\ el = el0 \/
     e2 = e /\ el = fs (set_currentTime 0%float (set_paused true el0))).
Proof.
  intros H. destruct (decide (e2 = e)) as [->|Hne].
  - rewrite !list_lookup_alter_eq in H.
    destruct (l !! e) as [el0|]; [|discriminate].
    injection H as <-. exists el0. split; [reflexivity|]. right. auto.
  - rewrite !list_lookup_alter_ne in H by exact Hne.
    exists el. split; [exact H|]. left. auto.
Qed.

Lemma element_stopped_keeps_handler y k e h s :
  audioRefs s !! k = Some e ->
  handler_gone k e h s -> handler_gone k e h (element_stopped y s).
Proof.
  intros He HK. unfold element_stopped.
  destruct (audioRefs s !! Track.id y) as [e2|] eqn:He2; [|exact HK].
  destruct (Track.has_url y); [|exact HK].
  destruct (loopHandlers s !! Track.id y) as [h2|] eqn:Hh2;
    unfold handler_gone; wsimpl.
  - destruct (decide (Track.id y = k)) as [Hk|Hk].
    + subst k. right. split; [apply lookup_delete_eq|].
      rewrite He in He2. injection He2 as <-.
      assert (h2 = h) as ->.
      { destruct HK as [HK|[HK _]]; congruence. }
      intros el Hel. apply lookup_stopped_element in Hel as (el0 & _ & [[Hne _]|[_ ->]]).
      * congruence.
      * cbn [endedListeners set_endedListeners]. rewrite list_elem_of_filter.
        intros [Hneq _]. now apply Hneq.
    + rewrite lookup_delete_ne by exact Hk.
      destruct HK as [HK|[HK Hl]]; [left; exact HK|right].
      split; [exact HK|]. intros el Hel.
      apply lookup_stopped_element in Hel as (el0 & Hel0 & [[_ ->]|[_ ->]]).
      * now apply Hl.
      * cbn [endedListeners set_endedListeners]. rewrite list_elem_of_filter.
        intros [_ Hin]. now apply (Hl el0 Hel0).
  - destruct HK as [HK|[HK Hl]]; [left; exact HK|right].
    split; [exact HK|]. intros el Hel.
    destruct (decide (e2 = e)) as [->|Hne].
    + rewrite !list_lookup_alter_eq in Hel.
      destruct (elements s !! e) as [el0|] eqn:E0; [|discriminate].
      injection Hel as <-. exact (Hl el0 eq_refl).
    + rewrite !list_lookup_alter_ne in Hel by exact Hne. now apply Hl.
Qed.

Lemma stopAll_removes_handler r w k e h :
  wf w -> audioRefs w !! k = Some e -> loopHandlers w !! k = Some h ->
  handler_gone k e h (world_of (stopAll r w)).
Proof.
  intros Hwf He Hh.
  assert (H : keeps (fun s => wf s /\ audioRefs s !! k = Some e /\
                              handler_gone k e h s) (stopAll r)).
  { rewrite stopAll_passes.
    apply keeps_bind; [|intros _; apply keeps_bind; [apply keeps_when|intros _]].
    - apply keeps_modify. intros s (Hs & Ha & HK). split; [|split; assumption].
      apply (wf_frame s); try reflexivity. exact Hs.
    - apply keeps_forEach. intros t s (Hs & Ha & HK).
      destruct (stopTrackWebAudio_frame (Track.id t) s) as (Eel & Ear & Elh & _).
      split; [apply (stop_voice_safe t s Hs)|].
      unfold stop_voice. rewrite Ear. split; [exact Ha|].
      unfold handler_gone. rewrite Elh, Eel. exact HK.
    - apply keeps_forEach. intros t s (Hs & Ha & HK).
      split; [apply (stop_element_safe t s Hs)|].
      rewrite stop_element_world.
      destruct (element_stopped_frame t s) as (_ & -> & _).
      split; [exact Ha|]. now apply element_stopped_keeps_handler. }
  apply H. split; [exact Hwf|]. split; [exact He|]. left. exact Hh.
Qed.

End StopAllIdempotence.

(** ** What the handlers say *)

Ltac says_step :=
  match goal with
  | |- says _ (bind _ _) => apply says_bind; [|intros ?]
  | |- says _ (ret _) => apply says_ret
  | |- says _ get => apply says_get
  | |- says _ (modify _) => apply says_modify
  | |- says _ (throw _) => apply says_throw
  | |- says _ (emit _) => apply says_emit
  | |- says _ (when _ _) => apply says_when
  | |- says _ (forEach _ _) => apply says_forEach; intros ?
  | |- says _ (try_catch _ _) => apply says_try_catch; [|intros ?]
  | |- says _ (match ?x with _ => _ end) => destruct x
  end.

Ltac says_tac := cbv zeta; repeat says_step.

Ltac unfold_handlers :=
  unfold perform, removeTrack, toggleMute, stopAll, useTempoControl, changeBPM,
    clearAllTracks, mountAudio, createAudioElement, audioRef_attach,
    stopTrackWebAudio, toggleMuteWebAudio, source_stop, element_pause,
    removeEndedListener, update_element, update_source, update_gain.

Section SaysFacts.

Lemma says_weaken {S A} (P Q : Event -> Prop) (m : M S A) :
  (forall e, P e -> Q e) -> says P m -> says Q m.
Proof. intros H Hm s. eapply Forall_impl; [apply Hm|exact H]. Qed.

(** No handler of the page starts a voice or an element. *)
Lemma perform_no_start a : says not_start (perform a).
Proof. unfold_handlers. says_tac; exact I. Qed.

Lemma perform_no_suspend a : says not_suspend (perform a).
Proof. unfold_handlers. says_tac; exact I. Qed.

Lemma lift_says {A} P (m : M World A) : says P m -> says P (lift m).
Proof.
  intros Hm s. unfold lift, trace_of. specialize (Hm (world s)).
  unfold trace_of in Hm. destruct (m (world s)) as [[w t] o]. exact Hm.
Qed.

Lemma await_promise_says (P : Event -> Prop) what force :
  (forall a, says P (perform a)) ->
  P (Suspend what) -> (forall b, P (Resume what b)) ->
  says P (await_promise what force).
Proof.
  intros Hp Hs Hr s. unfold await_promise, trace_of.
  destruct (schedule s) as [|turn rest]; [repeat constructor; exact Hs|].
  pose proof (says_forEach P (meanwhile turn) perform Hp (world s)) as Hf.
  unfold trace_of in Hf.
  destruct (forEach (meanwhile turn) perform (world s)) as [[w t] o].
  assert (Hall : forall b, Forall P (Suspend what :: t ++ [Resume what b])).
  { intros b. constructor; [exact Hs|]. apply Forall_app. split; [exact Hf|].
    repeat constructor. apply Hr. }
  destruct (answer turn); [apply Hall|destruct force; apply Hall].
Qed.

Ltac task_says :=
  cbv zeta;
  repeat first
    [ says_step
    | apply lift_says
    | apply await_promise_says;
      [intros ?; first [apply perform_no_start | eassumption]
      | try exact I | intros ?; try exact I] ].

Lemma loadAudioBuffer_no_start r t u : says not_start (loadAudioBuffer r t u).
Proof. unfold loadAudioBuffer, await, getW. task_says; exact I. Qed.

Lemma load_missing_no_start r l n : says not_start (load_missing r l n).
Proof.
  revert n. induction l as [|t l IH]; intros n; simpl.
  - apply says_ret.
  - unfold getW. task_says; try apply IH. apply loadAudioBuffer_no_start.
Qed.

Lemma addTrack_no_start r now inst style : says not_start (addTrack r now inst style).
Proof.
  unfold addTrack, generateTrack, await. task_says;
    try exact I; apply loadAudioBuffer_no_start.
Qed.

(** [playTrackWebAudio] starts a node for its own track only. *)
Lemma playTrackWebAudio_starts_own r t m :
  says (starts_within [t]) (playTrackWebAudio r t m).
Proof.
  intros w.
  destruct (audioContextRef w) as [c|] eqn:Hc;
    [|rewrite playTrackWebAudio_unavailable by auto; constructor].
  destruct (r_webAudioSupported r) eqn:Hs;
    [|rewrite playTrackWebAudio_unavailable by auto; constructor].
  destruct (audioBuffersRef w !! t) as [b|] eqn:Hb;
    [|rewrite playTrackWebAudio_unavailable by auto; constructor].
  rewrite (playTrackWebAudio_available r t m b w) by congruence.
  match goal with
  | |- Forall _ (trace_of (bind ?m0 ?k0 w)) => apply (says_bind _ m0 k0)
  end.
  - unfold source_stop, update_source.
    says_tac; unfold starts_within; intros n0 t' E; discriminate.
  - intros _ w'. rewrite start_voice_run. cbn [trace_of fst snd].
    constructor; [|constructor].
    unfold starts_within. intros n1 t' E. injection E as _ <-. now left.
Qed.

Lemma playTrackWebAudio_no_suspend r t m : says not_suspend (playTrackWebAudio r t m).
Proof.
  unfold playTrackWebAudio, source_stop, source_start, createBufferSource,
    createGain, update_source, update_gain.
  says_tac; exact I.
Qed.

Lemma start_loaded_no_suspend r l : says not_suspend (start_loaded r l).
Proof.
  unfold start_loaded. says_tac; [apply playTrackWebAudio_no_suspend|exact I].
Qed.

Lemma says_forEach_in {S A} (P : Event -> Prop) (l : list A) (f : A -> M S unit) :
  (forall x, In x l -> says P (f x)) -> says P (forEach l f).
Proof.
  induction l as [|x l IH]; intros Hf; simpl.
  - apply says_ret.
  - apply says_bind; [apply Hf; now left|].
    intros _. apply IH. intros y Hy. apply Hf. now right.
Qed.

Lemma start_loaded_starts_within r l :
  says (starts_within (map Track.id l)) (start_loaded r l).
Proof.
  unfold start_loaded. apply says_forEach_in. intros x Hx.
  apply says_bind; [apply says_get|]. intros w.
  destruct (_ && _).
  - eapply says_weaken; [|apply playTrackWebAudio_starts_own].
    intros e He n t E. specialize (He n t E). destruct He as [<-|[]].
    now apply in_map.
  - apply says_emit. intros n t E. discriminate.
Qed.

End SaysFacts.

(** ** A removed track stays out *)

Section RemovalFacts.
Variable now : Z.

Lemma keeps_conj {S A} (I J : S -> Prop) (m : M S A) :
  keeps I m -> keeps J m -> keeps (fun s => I s /\ J s) m.
Proof. intros HI HJ s [H1 H2]. split; [now apply HI|now apply HJ]. Qed.

Lemma ensures_bind {S A B} (m : M S A) (k : A -> M S B) Q :
  (forall a, ensures (k a) Q) -> ensures (bind m k) Q.
Proof.
  intros Hk s b. rewrite bind_unfold.
  destruct (outcome_of (m s)) as [a|e|]; cbn [outcome_of world_of fst snd];
    try discriminate.
  apply Hk.
Qed.

Lemma absent_same_tracks w w' :
  tracks w' = tracks w -> absent now w -> absent now w'.
Proof. unfold absent. intros ->. auto. Qed.

Lemma absent_map f w :
  (forall x, Track.id (f x) = Track.id x) ->
  absent now w -> absent now (set_tracks (map f) w).
Proof.
  intros Hf H x Hx. wsimpl_in Hx. apply in_map_iff in Hx as (y & <- & Hy).
  rewrite Hf. now apply H.
Qed.

Lemma absent_filter (P : Track.t -> Prop) `{forall x, Decision (P x)} w :
  absent now w -> absent now (set_tracks (filter P) w).
Proof.
  intros Hw x Hx. wsimpl_in Hx. apply list_elem_of_In in Hx.
  apply list_elem_of_filter in Hx as [_ Hx]. apply list_elem_of_In in Hx.
  now apply Hw.
Qed.

Lemma with_mute_id t m x :
  Track.id (if Track.id x =? t then Track.with_muted m x else x) = Track.id x.
Proof. destruct (Track.id x =? t); reflexivity. Qed.

Lemma with_url_id t u x :
  Track.id (if Track.id x =? t then Track.with_url u x else x) = Track.id x.
Proof. destruct (Track.id x =? t); reflexivity. Qed.

Ltac absent_modify :=
  apply keeps_modify; intros ? ?;
  first [ apply absent_map; [intros ?; apply with_mute_id|assumption]
        | apply absent_filter; assumption
        | intros ? []
        | eapply absent_same_tracks; [|eassumption]; reflexivity ].

Lemma perform_keeps_absent a : keeps (absent now) (perform a).
Proof.
  unfold_handlers. cbv zeta.
  repeat first [keeps_step | absent_modify].
Qed.

Lemma perform_keeps_wf_absent a :
  keeps (fun w => wf w /\ absent now w) (perform a).
Proof.
  apply keeps_conj; [apply safe_keeps, perform_safe|apply perform_keeps_absent].
Qed.

Lemma removeTrack_found_ensures_absent r track :
  find_track now (r_tracks r) = Some track ->
  ensures (removeTrack r now) (absent now).
Proof.
  intros Hfind. unfold removeTrack. rewrite Hfind.
  apply ensures_bind. intros _. apply ensures_bind. intros w0. cbv zeta.
  apply ensures_bind. intros _. apply ensures_bind. intros _.
  intros s a _. rewrite bind_modify. unfold modify. wsimpl.
  intros x Hx. apply list_elem_of_In, list_elem_of_filter in Hx as [Hx _].
  exact Hx.
Qed.

Lemma perform_remove_absent w :
  wf w -> absent now (world_of (perform (ARemoveTrack now) w)).
Proof.
  intros Hwf. unfold perform. rewrite bind_get, try_catch_unfold.
  destruct (removeTrack_safe (render w) now w Hwf) as [_ [[] Ho]]. rewrite Ho.
  destruct (find_track now (r_tracks (render w))) as [track|] eqn:Hfind.
  - exact (removeTrack_found_ensures_absent (render w) track Hfind w tt Ho).
  - unfold removeTrack. rewrite Hfind. cbn [world_of ret fst].
    intros x Hx. pose proof (find_none _ _ Hfind x Hx) as Hne.
    apply Z.eqb_neq. exact Hne.
Qed.

Lemma meanwhile_remove_absent acts w :
  wf w -> In (ARemoveTrack now) acts ->
  wf (world_of (forEach acts perform w)) /\
  absent now (world_of (forEach acts perform w)).
Proof.
  intros Hwf Hin. split.
  - apply (safe_keeps wf _ (safe_forEach wf acts perform perform_safe)). exact Hwf.
  - apply (forEach_establish wf
             (fun a w' => a = ARemoveTrack now -> absent now w') perform acts)
      with (x := ARemoveTrack now); auto using perform_safe.
    + intros x s Hs ->. now apply perform_remove_absent.
    + intros x y s _ HJ Hx. apply perform_keeps_absent. now apply HJ.
Qed.

Lemma await_promise_keeps_absent what force :
  keeps (task_wf_absent now) (await_promise what force).
Proof.
  intros s H. unfold await_promise, task_wf_absent in *.
  destruct (schedule s) as [|turn rest]; [exact H|].
  pose proof (keeps_forEach _ (meanwhile turn) perform perform_keeps_wf_absent
                (world s) H) as Hw.
  unfold world_of in Hw.
  destruct (forEach (meanwhile turn) perform (world s)) as [[w t] o].
  destruct (answer turn); [exact Hw|destruct force; exact Hw].
Qed.

Lemma lift_modify_keeps_absent f :
  (forall w, wf w -> wf (f w)) -> (forall w, absent now w -> absent now (f w)) ->
  keeps (task_wf_absent now) (lift (modify f)).
Proof. intros H1 H2 s [Hw Ha]. split; [now apply H1|now apply H2]. Qed.

Lemma loadAudioBuffer_keeps_absent r t u :
  keeps (task_wf_absent now) (loadAudioBuffer r t u).
Proof.
  unfold loadAudioBuffer, await, getW.
  repeat first
    [ keeps_step | apply await_promise_keeps_absent
    | apply lift_modify_keeps_absent;
      [intros w Hw; apply (wf_frame w); try reflexivity; exact Hw
      |intros w Hw; eapply absent_same_tracks; [|exact Hw]; reflexivity]
    | intros ? H; exact H ].
Qed.

End RemovalFacts.

Section StartFacts.

Lemma not_start_starts_within ids e : not_start e -> starts_within ids e.
Proof. intros H n t ->. destruct H. Qed.

Lemma perform_starts_within ids a : says (starts_within ids) (perform a).
Proof.
  eapply says_weaken; [apply not_start_starts_within|apply perform_no_start].
Qed.

Lemma await_starts_within ids what force :
  says (starts_within ids) (await_promise what force).
Proof.
  apply await_promise_says.
  - apply perform_starts_within.
  - intros ? ? E; discriminate.
  - intros ? ? ? E; discriminate.
Qed.

Lemma play_fallback_starts_within ids l : says (starts_within ids) (play_fallback l).
Proof.
  unfold play_fallback.
  assert (Hp : says (starts_within ids) (prepare_elements l)).
  { induction l as [|t l IH]; simpl; unfold update_element; says_tac; exact IH. }
  apply says_bind; [apply lift_says, Hp|]. intros els.
  apply says_when. apply says_try_catch.
  - unfold getW, element_play, update_element.
    repeat first
      [ says_step | apply lift_says | apply await_starts_within
      | intros ? ? E; discriminate ].
  - intros _. apply says_emit. intros ? ? E; discriminate.
Qed.

Lemma playAll_starts_within r :
  says (starts_within (map Track.id (r_tracks r))) (playAll r).
Proof.
  unfold playAll. cbv zeta. apply says_try_catch.
  - destruct (length _ =? 0)%nat.
    + says_tac; intros ? ? E; discriminate.
    + apply says_bind.
      { apply lift_says. unfold element_pause, update_element.
        says_tac. intros ? ? E; discriminate. }
      intros _. apply says_bind; [apply lift_says, says_get|]. intros w.
      apply says_bind.
      { unfold await. destruct (audioContextRef w) as [[]|];
          repeat first [says_step | apply lift_says | apply await_starts_within]. }
      intros _. apply says_bind; [apply lift_says, says_modify|]. intros _.
      apply says_bind; [apply lift_says, says_get|]. intros w'.
      destruct (_ && _).
      * apply says_bind.
        { eapply says_weaken; [apply not_start_starts_within|].
          apply load_missing_no_start. }
        intros _. apply lift_says.
        eapply says_weaken; [|apply start_loaded_starts_within].
        intros e He n0 t0 E. specialize (He n0 t0 E).
        apply in_map_iff in He as (x & <- & Hx). apply in_map.
        apply filter_In in Hx. tauto.
      * apply play_fallback_starts_within.
  - intros _. apply says_bind; [|intros _; apply lift_says, says_modify].
    apply says_emit. intros ? ? E; discriminate.
Qed.

Lemma generateTrack_world inst style s turn rest :
  schedule s = turn :: rest ->
  world (world_of (generateTrack inst style s)) =
    world_of (forEach (meanwhile turn) perform (world s)).
Proof.
  intros Hs. unfold generateTrack, await, await_promise.
  rewrite try_catch_unfold, bind_unfold. rewrite Hs.
  unfold world_of, outcome_of, trace_of.
  destruct (forEach (meanwhile turn) perform (world s)) as [[w t] o].
  destruct (answer turn); reflexivity.
Qed.

Lemma bind_lift_modify {B} f (k : unit -> M Task B) s :
  bind (lift (modify f)) k s = k tt (mkTask (f (world s)) (schedule s)).
Proof.
  unfold bind, lift, modify.
  destruct (k tt (mkTask (f (world s)) (schedule s))) as [[s2 t2] o2].
  reflexivity.
Qed.

End StartFacts.

(** C9, as the code has it. A track removed while its generation is in
    flight stays out of the track list when the generation resolves;
    [addTrack] starts nothing, and no [playAll] called afterwards starts a
    source node for it. (Whether its decoded clip is kept is not part of
    this statement.) *)
Theorem removed_while_generating_stays_out r now inst style w acts ans rest :
  wf w ->
  List.find (fun t => String.eqb (Track.name t) (displayName inst style))
    (r_tracks r) = None ->
  In (ARemoveTrack now) acts ->
  absent now
    (world (world_of (addTrack r now inst style
       (mkTask w ({| meanwhile := acts; answer := ans |} :: rest))))) /\
  Forall not_start
    (trace_of (addTrack r now inst style
       (mkTask w ({| meanwhile := acts; answer := ans |} :: rest)))) /\
  forall sched',
    Forall (not_start_of now)
      (trace_of
         (playAll
            (render (world (world_of (addTrack r now inst style
               (mkTask w ({| meanwhile := acts; answer := ans |} :: rest))))))
            (mkTask
               (world (world_of (addTrack r now inst style
                  (mkTask w ({| meanwhile := acts; answer := ans |} :: rest)))))
               sched'))).
Proof.
  intros Hwf Hfind Hin.
  set (res := addTrack r now inst style
                (mkTask w ({| meanwhile := acts; answer := ans |} :: rest))).
  assert (Habs : task_wf_absent now (world_of res)).
  { subst res. unfold addTrack. rewrite Hfind. cbv zeta.
    rewrite !bind_lift_modify. cbn [world schedule].
    match goal with
    | |- context [bind (generateTrack inst style) ?k0 ?s0] =>
        set (k := k0); set (s := s0)
    end.
    assert (Hs3 : task_wf_absent now (world_of (generateTrack inst style s))).
    { unfold task_wf_absent.
      rewrite (generateTrack_world inst style s _ rest eq_refl).
      apply meanwhile_remove_absent; [|exact Hin].
      subst s. cbn [world]. apply (wf_frame w); try reflexivity. exact Hwf. }
    rewrite bind_unfold.
    destruct (outcome_of (generateTrack inst style s)) as [url|e|];
      cbn [world_of fst]; try exact Hs3.
    subst k. cbv beta.
    revert Hs3. generalize (world_of (generateTrack inst style s)).
    apply keeps_bind; [|intros _; apply keeps_bind; [|intros _]].
    - apply lift_modify_keeps_absent.
      + intros w0 Hw0. apply (wf_frame w0); try reflexivity. exact Hw0.
      + intros w0. apply absent_map. intros x. apply with_url_id.
    - destruct url as [u|]; [destruct (_ && _)|];
        first [apply loadAudioBuffer_keeps_absent | apply keeps_ret].
    - apply lift_modify_keeps_absent.
      + intros w0 Hw0. apply (wf_frame w0); try reflexivity. exact Hw0.
      + intros w0 Hw0. eapply absent_same_tracks; [|exact Hw0]. reflexivity. }
  split; [exact (proj2 Habs)|]. split; [apply addTrack_no_start|].
  intros sched'.
  eapply Forall_impl; [apply playAll_starts_within|].
  intros e He n ->. specialize (He n now eq_refl).
  cbn [render r_tracks] in He. apply in_map_iff in He as (x & Hid & Hx).
  exact (proj2 Habs x Hx Hid).
Qed.

Lemma piano_removed_while_generating :
  wf (page_loaded [] true) /\
  absent 7
    (world (world_of (addTrack (render (page_loaded [] true)) 7 "Piano" None
       (mkTask (page_loaded [] true)
          [removes_then_generates 7 "blob:piano"; fulfils 0; fulfils 0;
           fulfils 12])))) /\
  Forall not_start
    (trace_of (addTrack (render (page_loaded [] true)) 7 "Piano" None
       (mkTask (page_loaded [] true)
          [removes_then_generates 7 "blob:piano"; fulfils 0; fulfils 0;
           fulfils 12]))).
Proof.
  split; [apply wf_page_loaded|].
  destruct (removed_while_generating_stays_out (render (page_loaded [] true)) 7
              "Piano" None (page_loaded [] true) [ARemoveTrack 7]
              (Fulfilled {| decoded := {| duration := 0%float |};
                            generated := Some "blob:piano" |})
              [fulfils 0; fulfils 0; fulfils 12]
              (wf_page_loaded [] true) eq_refl (or_introl eq_refl))
    as (H1 & H2 & _).
  split; [exact H1|exact H2].
Defined.

(** C9 as stated fails. A track removed while its generation is in flight
    is off the list when the generation resolves, yet its clip is decoded
    and cached under its identifier. And a track removed while [playAll]
    waits for its decode is started when the decode resolves, although it
    is no longer on the list. *)
Lemma removed_track_is_cached_and_started :
  (tracks (world (world_of
     (addTrack (render (page_loaded [] true)) 7 "Piano" None
        (mkTask (page_loaded [] true)
           [removes_then_generates 7 "blob:piano"; fulfils 0; fulfils 0;
            fulfils 12])))) = [] /\
   audioBuffersRef (world (world_of
     (addTrack (render (page_loaded [] true)) 7 "Piano" None
        (mkTask (page_loaded [] true)
           [removes_then_generates 7 "blob:piano"; fulfils 0; fulfils 0;
            fulfils 12])))) !! 7 = Some {| duration := 12 |}) /\
  (tracks (world (world_of
     (playAll (render (page_loaded [piano] true))
        (mkTask (page_loaded [piano] true)
           [fulfils 0; fulfils 0; fulfils 0; removes_then_fulfils 1 12])))) = [] /\
   In (SourceStart 0 1)
     (trace_of
        (playAll (render (page_loaded [piano] true))
           (mkTask (page_loaded [piano] true)
              [fulfils 0; fulfils 0; fulfils 0; removes_then_fulfils 1 12])))).
Proof.
  split; split; vm_compute; try reflexivity.
  do 9 right. left. reflexivity.
Qed.

(** ** What [playAll] has awaited *)

Section SettledFacts.

Lemma settled_nil : settled [].
Proof. split; intros *; intros []. Qed.

Lemma settled_app t1 t2 : settled t1 -> settled t2 -> settled (t1 ++ t2).
Proof.
  intros [R1 L1] [R2 L2]. split.
  - intros what H. apply in_app_or in H as [H|H].
    + destruct (R1 what H) as [b Hb]. exists b. apply in_or_app. now left.
    + destruct (R2 what H) as [b Hb]. exists b. apply in_or_app. now right.
  - intros t u H. unfold load_settled_in. apply in_app_or in H as [H|H].
    + destruct (L1 t u H) as [Hl|Hl]; [left|right]; apply in_or_app; now left.
    + destruct (L2 t u H) as [Hl|Hl]; [left|right]; apply in_or_app; now right.
Qed.

Lemma no_suspend_settled tr : Forall not_suspend tr -> settled tr.
Proof.
  intros H. rewrite Forall_forall in H.
  split; intros *; intros Hin; apply list_elem_of_In, H in Hin; destruct Hin.
Qed.

(** *** Code whose awaits have settled when it returns *)

Lemma balanced_no_suspend {A} (m : M Task A) : says not_suspend m -> balanced m.
Proof. intros Hm s a _. apply no_suspend_settled, Hm. Qed.

Lemma balanced_bind {A B} (m : M Task A) (k : A -> M Task B) :
  balanced m -> (forall a, balanced (k a)) -> balanced (bind m k).
Proof.
  intros Hm Hk s b. rewrite bind_unfold.
  destruct (outcome_of (m s)) as [a|e|] eqn:Ho; cbn [outcome_of trace_of fst snd];
    try discriminate.
  intros Hb. apply settled_app; [exact (Hm s a Ho)|exact (Hk a _ b Hb)].
Qed.

Lemma in_no_suspend what tr : Forall not_suspend tr -> ~ In (Suspend what) tr.
Proof.
  intros H Hin. rewrite Forall_forall in H.
  apply list_elem_of_In, H in Hin. destruct Hin.
Qed.

Lemma meanwhile_no_suspend acts w :
  Forall not_suspend (trace_of (forEach acts perform w)).
Proof. apply (says_forEach not_suspend acts perform perform_no_suspend). Qed.

(** An awaited promise other than a fetch: once it fulfils, it is settled. *)
Lemma balanced_await what force :
  (forall t u, what <> AwFetch t u) -> balanced (await_promise what force).
Proof.
  intros Hw s a. unfold await_promise.
  destruct (schedule s) as [|turn rest]; [discriminate|].
  pose proof (meanwhile_no_suspend (meanwhile turn) (world s)) as Hq.
  unfold trace_of in Hq.
  destruct (forEach (meanwhile turn) perform (world s)) as [[w t] o].
  assert (Hok : forall b, settled (Suspend what :: t ++ [Resume what b])).
  { intros b. split.
    - intros what' [E|Hin].
      + injection E as <-. exists b. right. apply in_or_app. right. now left.
      + apply in_app_or in Hin as [Hin|[E|[]]]; [|discriminate].
        now apply in_no_suspend in Hin.
    - intros t0 u [E|Hin].
      + injection E as ->. now destruct (Hw t0 u).
      + apply in_app_or in Hin as [Hin|[E|[]]]; [|discriminate].
        now apply in_no_suspend in Hin. }
  destruct (answer turn); [intros _; apply Hok|].
  destruct force; [intros _; apply Hok|discriminate].
Qed.

End SettledFacts.

Section LoadFacts.

Lemma resumed_app t1 t2 : resumed t1 -> resumed t2 -> resumed (t1 ++ t2).
Proof.
  intros R1 R2 what H. apply in_app_or in H as [H|H].
  - destruct (R1 what H) as [b Hb]. exists b. apply in_or_app. now left.
  - destruct (R2 what H) as [b Hb]. exists b. apply in_or_app. now right.
Qed.

Lemma resumed_no_suspend tr : Forall not_suspend tr -> resumed tr.
Proof. intros H what Hin. now apply in_no_suspend in Hin. Qed.

Lemma resumed_await what t b :
  Forall not_suspend t -> resumed (Suspend what :: t ++ [Resume what b]).
Proof.
  intros Ht what' [E|Hin].
  - injection E as <-. exists b. right. apply in_or_app. right. now left.
  - apply in_app_or in Hin as [Hin|[E|[]]]; [|discriminate].
    now apply in_no_suspend in Hin.
Qed.

Lemma fetches_only_app t t1 t2 :
  fetches_only t t1 -> fetches_only t t2 -> fetches_only t (t1 ++ t2).
Proof.
  intros H1 H2 t' u H. apply in_app_or in H as [H|H]; eauto.
Qed.

Lemma fetches_only_no_suspend t tr : Forall not_suspend tr -> fetches_only t tr.
Proof. intros H t' u Hin. now apply in_no_suspend in Hin. Qed.

Lemma fetches_only_await t what tr b :
  (forall t' u, what = AwFetch t' u -> t' = t) ->
  Forall not_suspend tr ->
  fetches_only t (Suspend what :: tr ++ [Resume what b]).
Proof.
  intros Hw Ht t' u [E|Hin].
  - injection E as E. now apply (Hw t' u).
  - apply in_app_or in Hin as [Hin|[E|[]]]; [|discriminate].
    now apply in_no_suspend in Hin.
Qed.

Lemma settled_load t tr :
  resumed tr -> fetches_only t tr -> load_settled_in tr t -> settled tr.
Proof.
  intros Hr Hf Hl. split; [exact Hr|].
  intros t' u Hin. now rewrite (Hf t' u Hin).
Qed.

(** How an [await] goes: the schedule has run out, or the promise settles
    after handlers that neither suspend nor start anything. *)
Lemma await_cases what s :
  await what s = (s, [Suspend what], Pending) \/
  exists w rest t,
    Forall not_suspend t /\
    ((exists v, await what s =
        (mkTask w rest, Suspend what :: t ++ [Resume what true], Normal v)) \/
     await what s =
        (mkTask w rest, Suspend what :: t ++ [Resume what false], Throw Rejection)).
Proof.
  unfold await, await_promise.
  destruct (schedule s) as [|turn rest]; [now left|right].
  pose proof (meanwhile_no_suspend (meanwhile turn) (world s)) as Hq.
  unfold trace_of in Hq.
  destruct (forEach (meanwhile turn) perform (world s)) as [[w t] o].
  exists w, rest, t. split; [exact Hq|].
  destruct (answer turn) as [v|]; [left; now exists v|now right].
Qed.

(** [loadAudioBuffer] never throws, and when it returns, what it awaited
    has settled: the buffer is reported loaded or the failure is reported. *)
Lemma loadAudioBuffer_returns r t u s :
  outcome_of (loadAudioBuffer r t u s) = Pending \/
  (outcome_of (loadAudioBuffer r t u s) = Normal tt /\
   settled (trace_of (loadAudioBuffer r t u s))).
Proof.
  destruct s as [w0 sched0].
  unfold loadAudioBuffer, getW. rewrite bind_unfold.
  cbn [lift get outcome_of world_of trace_of fst snd app world schedule].
  destruct (_ || _); [right; split; [reflexivity|apply settled_nil]|].
  rewrite try_catch_unfold.
  assert (Hfail : forall tr (s' : Task),
    resumed tr -> fetches_only t tr ->
    settled (tr ++ trace_of (emit (ConsoleError (MsgLoadFailed t)) s'))).
  { intros tr s' Hr Hf. apply (settled_load t).
    - apply resumed_app; [exact Hr|]. apply resumed_no_suspend. repeat constructor.
    - apply fetches_only_app; [exact Hf|].
      apply fetches_only_no_suspend. repeat constructor.
    - right. apply in_or_app. right. now left. }
  rewrite bind_unfold.
  destruct (await_cases (AwFetch t u) (mkTask w0 sched0))
    as [E1|(w1 & rest1 & t1 & Hq1 & [[v1 E1]|E1])]; rewrite E1;
    cbn [outcome_of world_of trace_of fst snd]; [now left| |].
  2:{ right. split; [reflexivity|]. apply Hfail.
      - now apply resumed_await.
      - apply fetches_only_await; [|exact Hq1]. intros t' u' E. now injection E. }
  rewrite bind_unfold.
  destruct (await_cases (AwArrayBuffer t) (mkTask w1 rest1))
    as [E2|(w2 & rest2 & t2 & Hq2 & [[v2 E2]|E2])]; rewrite E2;
    cbn [outcome_of world_of trace_of fst snd]; [now left| |].
  2:{ right. split; [reflexivity|]. apply Hfail.
      - apply resumed_app; now apply resumed_await.
      - apply fetches_only_app; apply fetches_only_await; auto;
          intros t' u' E; [now injection E|discriminate]. }
  rewrite bind_unfold.
  destruct (await_cases (AwDecode t) (mkTask w2 rest2))
    as [E3|(w3 & rest3 & t3 & Hq3 & [[v3 E3]|E3])]; rewrite E3;
    cbn [outcome_of world_of trace_of fst snd]; [now left| |].
  2:{ right. split; [reflexivity|]. rewrite !app_assoc. apply Hfail.
      - rewrite <- app_assoc. repeat apply resumed_app; now apply resumed_await.
      - rewrite <- app_assoc.
        repeat apply fetches_only_app; apply fetches_only_await; auto;
          intros t' u' E; [now injection E|discriminate..]. }
  rewrite bind_lift_modify.
  cbn [emit outcome_of world_of trace_of fst snd].
  right. split; [reflexivity|]. apply (settled_load t).
  - repeat apply resumed_app;
      first [now apply resumed_await
            |apply resumed_no_suspend; repeat constructor].
  - repeat apply fetches_only_app;
      first [apply fetches_only_await; [intros t' u' E; now inversion E|assumption]
            |apply fetches_only_no_suspend; repeat constructor].
  - left. rewrite !in_app_iff. do 3 right. cbn. auto.
Qed.

End LoadFacts.

(** ** [playAll] gets through *)

Section Progress.

Lemma np_ret {S A} (a : A) : never_pending (@ret S A a).
Proof. intros s. discriminate. Qed.

Lemma np_get {S} : never_pending (@get S).
Proof. intros s. discriminate. Qed.

Lemma np_modify {S} f : never_pending (@modify S f).
Proof. intros s. discriminate. Qed.

Lemma np_emit {S} e : never_pending (@emit S e).
Proof. intros s. discriminate. Qed.

Lemma np_throw {S A} e : never_pending (@throw S A e).
Proof. intros s. discriminate. Qed.

Lemma np_bind {S A B} (m : M S A) (k : A -> M S B) :
  never_pending m -> (forall a, never_pending (k a)) -> never_pending (bind m k).
Proof.
  intros Hm Hk s. rewrite bind_unfold. specialize (Hm s).
  destruct (outcome_of (m s)) as [a|e|];
    [apply Hk|discriminate|now destruct Hm].
Qed.

Lemma np_try_catch {S A} (m : M S A) h :
  never_pending m -> (forall e, never_pending (h e)) ->
  never_pending (try_catch m h).
Proof.
  intros Hm Hh s. rewrite try_catch_unfold. specialize (Hm s).
  destruct (outcome_of (m s)) as [a|e|] eqn:E;
    [congruence|apply Hh|congruence].
Qed.

Lemma np_forEach {S A} (l : list A) (f : A -> M S unit) :
  (forall x, never_pending (f x)) -> never_pending (forEach l f).
Proof.
  intros Hf. induction l as [|x l IH]; simpl; [apply np_ret|].
  apply np_bind; [apply Hf|intros _; exact IH].
Qed.

Lemma np_when {S} b (m : M S unit) : never_pending m -> never_pending (when b m).
Proof. intros Hm. destruct b; [exact Hm|apply np_ret]. Qed.

End Progress.

Ltac np_step :=
  match goal with
  | |- never_pending (bind _ _) => apply np_bind; [|intros ?]
  | |- never_pending (ret _) => apply np_ret
  | |- never_pending get => apply np_get
  | |- never_pending (modify _) => apply np_modify
  | |- never_pending (throw _) => apply np_throw
  | |- never_pending (emit _) => apply np_emit
  | |- never_pending (when _ _) => apply np_when
  | |- never_pending (forEach _ _) => apply np_forEach; intros ?
  | |- never_pending (try_catch _ _) => apply np_try_catch; [|intros ?]
  | |- never_pending (match ?x with _ => _ end) => destruct x
  end.

Section Needs.

Lemma needs_lift {A} (m : M World A) : never_pending m -> needs 0 (lift m).
Proof.
  intros Hm s _. specialize (Hm (world s)).
  unfold lift, outcome_of, world_of in *.
  destruct (m (world s)) as [[w t] o]. cbn [fst snd schedule] in *.
  split; [exact Hm|lia].
Qed.

Lemma needs_ret {A} (a : A) : needs 0 (@ret Task A a).
Proof. intros s ?. split; [discriminate|cbn; lia]. Qed.

Lemma needs_emit e : needs 0 (@emit Task e).
Proof. intros s ?. split; [discriminate|cbn; lia]. Qed.

Lemma needs_weaken {A} k k' (m : M Task A) :
  (k <= k')%nat -> needs k m -> needs k' m.
Proof.
  intros Hk Hm s Hs. destruct (Hm s) as [H1 H2]; [lia|]. split; [exact H1|lia].
Qed.

Lemma needs_bind {A B} k1 k2 (m : M Task A) (k : A -> M Task B) :
  needs k1 m -> (forall a, needs k2 (k a)) -> needs (k1 + k2) (bind m k).
Proof.
  intros Hm Hk s Hs. rewrite bind_unfold.
  destruct (Hm s) as [H1 H2]; [lia|].
  destruct (outcome_of (m s)) as [a|e|]; cbn [outcome_of world_of fst snd];
    [|split; [discriminate|lia]|congruence].
  destruct (Hk a (world_of (m s))) as [H3 H4]; [lia|]. split; [exact H3|lia].
Qed.

Lemma needs_try_catch {A} k1 k2 (m : M Task A) h :
  needs k1 m -> (forall e, needs k2 (h e)) -> needs (k1 + k2) (try_catch m h).
Proof.
  intros Hm Hh s Hs. rewrite try_catch_unfold.
  destruct (Hm s) as [H1 H2]; [lia|].
  destruct (outcome_of (m s)) as [a|e|] eqn:E;
    [split; [congruence|lia]| |congruence].
  cbn [outcome_of world_of fst snd].
  destruct (Hh e (world_of (m s))) as [H3 H4]; [lia|]. split; [exact H3|lia].
Qed.

Lemma needs_await what force : needs 1 (await_promise what force).
Proof.
  intros s Hs. unfold await_promise.
  destruct (schedule s) as [|turn rest] eqn:E; [simpl in Hs; lia|].
  destruct (forEach (meanwhile turn) perform (world s)) as [[w t] o].
  destruct (answer turn); [|destruct force];
    cbn [outcome_of world_of fst snd schedule length]; split;
    try discriminate; lia.
Qed.

Lemma needs_loadAudioBuffer r t u : needs 3 (loadAudioBuffer r t u).
Proof.
  unfold loadAudioBuffer, getW, await.
  apply (needs_bind 0 3); [apply needs_lift, np_get|]. intros w.
  destruct (_ || _); [apply (needs_weaken 0); [lia|apply needs_ret]|].
  apply (needs_try_catch 3 0); [|intros ?; apply needs_emit].
  apply (needs_bind 1 2); [apply needs_await|]. intros ?.
  apply (needs_bind 1 1); [apply needs_await|]. intros ?.
  apply (needs_bind 1 0); [apply needs_await|]. intros ?.
  apply (needs_bind 0 0); [apply needs_lift, np_modify|]. intros ?.
  apply needs_emit.
Qed.

Lemma needs_load_missing r l n : needs (3 * length l) (load_missing r l n).
Proof.
  revert n. induction l as [|t l IH]; intros n; [apply needs_ret|].
  cbn [load_missing]. unfold getW.
  apply (needs_weaken (0 + (3 + 3 * length l))); [simpl; lia|].
  apply needs_bind; [apply needs_lift, np_get|]. intros w.
  destruct (bool_decide _).
  { apply (needs_weaken (3 * length l)); [lia|apply IH]. }
  destruct (Track.url t) as [u|];
    [|apply (needs_weaken (3 * length l)); [lia|apply IH]].
  destruct (Track.has_url t);
    [|apply (needs_weaken (3 * length l)); [lia|apply IH]].
  apply needs_bind; [apply needs_loadAudioBuffer|]. intros ?.
  apply (needs_weaken (0 + 3 * length l)); [lia|].
  apply needs_bind; [apply needs_lift, np_get|]. intros w'. apply IH.
Qed.

Lemma np_playTrackWebAudio r t m : never_pending (playTrackWebAudio r t m).
Proof.
  unfold playTrackWebAudio, source_stop, source_start, createBufferSource,
    createGain, update_source, update_gain.
  cbv zeta. repeat np_step.
Qed.

Lemma np_start_loaded r l : never_pending (start_loaded r l).
Proof. unfold start_loaded. repeat np_step. apply np_playTrackWebAudio. Qed.

Lemma np_prepare_elements l : never_pending (prepare_elements l).
Proof.
  induction l as [|t l IH]; simpl; unfold update_element; repeat np_step;
    exact IH.
Qed.

Lemma needs_play_fallback l : needs 2 (play_fallback l).
Proof.
  unfold play_fallback, getW.
  apply (needs_bind 0 2); [apply needs_lift, np_prepare_elements|]. intros els.
  destruct (0 <? length els)%nat; cbn [when];
    [|apply (needs_weaken 0); [lia|apply needs_ret]].
  apply (needs_try_catch 2 0); [|intros ?; apply needs_emit].
  apply (needs_bind 0 2); [apply needs_lift, np_get|]. intros w.
  apply (needs_bind 1 1); [apply needs_await|]. intros ?.
  apply (needs_bind 0 1);
    [apply needs_lift; unfold element_play, update_element; repeat np_step|].
  intros ?. apply (needs_bind 1 0); [apply needs_await|]. intros ?.
  apply needs_ret.
Qed.

Lemma needs_playAll r : needs (3 + 3 * length (r_tracks r)) (playAll r).
Proof.
  unfold playAll, getW, await. cbv zeta.
  apply (needs_weaken ((3 + 3 * length (r_tracks r)) + 0)); [lia|].
  apply needs_try_catch.
  2:{ intros ?. apply (needs_bind 0 0); [apply needs_emit|].
      intros ?. apply needs_lift, np_modify. }
  destruct (length _ =? 0)%nat.
  { apply (needs_weaken (0 + 0)); [lia|].
    apply needs_bind; [apply needs_emit|intros ?; apply needs_emit]. }
  apply (needs_weaken (0 + (0 + (1 + (0 + (0 + (2 + 3 * length (r_tracks r))))))));
    [lia|].
  apply needs_bind.
  { apply needs_lift. unfold element_pause, update_element. repeat np_step. }
  intros ?. apply needs_bind; [apply needs_lift, np_get|]. intros w.
  apply needs_bind.
  { destruct (audioContextRef w) as [[]|];
      try (apply (needs_weaken 0); [lia|apply needs_ret]).
    apply (needs_bind 1 0); [apply needs_await|].
    intros ?. apply needs_lift, np_modify. }
  intros ?. apply needs_bind; [apply needs_lift, np_modify|]. intros ?.
  apply needs_bind; [apply needs_lift, np_get|]. intros w'.
  destruct (_ && _).
  - apply (needs_weaken (3 * length (List.filter Track.has_url (r_tracks r)) + 0)).
    { pose proof (filter_length_le Track.has_url (r_tracks r)). lia. }
    apply needs_bind; [apply needs_load_missing|].
    intros ?. apply needs_lift, np_start_loaded.
  - apply (needs_weaken 2); [lia|apply needs_play_fallback].
Qed.

(** [playAll] catches whatever is thrown inside it. *)
Lemma playAll_never_throws r : never_throws (playAll r).
Proof.
  intros s e. unfold playAll. cbv zeta.
  match goal with
  | |- outcome_of (try_catch ?b ?h s) <> _ => set (body := b)
  end.
  rewrite try_catch_unfold.
  destruct (outcome_of (body s)) as [a|e0|] eqn:E; try congruence.
  rewrite bind_emit. cbn [outcome_of snd]. unfold lift, modify. discriminate.
Qed.

Lemma playAll_completes r s :
  (3 + 3 * length (r_tracks r) <= length (schedule s))%nat ->
  outcome_of (playAll r s) = Normal tt.
Proof.
  intros Hs. destruct (needs_playAll r s Hs) as [Hp _].
  pose proof (playAll_never_throws r s) as Ht.
  destruct (outcome_of (playAll r s)) as [[]|e|]; [reflexivity| |];
    [now destruct (Ht e)|now destruct Hp].
Qed.

End Needs.

Section PlayAllSettled.

Lemma balanced_lift {A} (m : M World A) : says not_suspend m -> balanced (lift m).
Proof. intros Hm. apply balanced_no_suspend, lift_says, Hm. Qed.

Lemma balanced_ret {A} (a : A) : balanced (@ret Task A a).
Proof. intros s b _. apply settled_nil. Qed.

Lemma balanced_loadAudioBuffer r t u : balanced (loadAudioBuffer r t u).
Proof.
  intros s a Ho. destruct (loadAudioBuffer_returns r t u s) as [Hp|[_ Hs]].
  - congruence.
  - exact Hs.
Qed.

Lemma balanced_load_missing r l n : balanced (load_missing r l n).
Proof.
  revert n. induction l as [|t l IH]; intros n; [apply balanced_ret|].
  cbn [load_missing]. unfold getW.
  apply balanced_bind; [apply balanced_lift, says_get|]. intros w.
  destruct (bool_decide _); [apply IH|].
  destruct (Track.url t) as [u|]; [|apply IH].
  destruct (Track.has_url t); [|apply IH].
  apply balanced_bind; [apply balanced_loadAudioBuffer|]. intros _.
  apply balanced_bind; [apply balanced_lift, says_get|]. intros w'. apply IH.
Qed.

End PlayAllSettled.

(** ** What [playAll] starts on the Web Audio path *)

Section StartedFacts.

Lemma before_start_nothing tr :
  Forall before_start tr ->
  started_tracks tr = [] /\ cannot_play_warnings tr = [].
Proof.
  induction 1 as [|e tr He _ [IH1 IH2]]; [split; reflexivity|].
  unfold started_tracks, cannot_play_warnings in *. cbn [omap list_omap].
  rewrite IH1, IH2. destruct e as [| | | | | |m|m|m| |]; try destruct m;
    try destruct He; split; reflexivity.
Qed.

Lemma perform_before_start a : says before_start (perform a).
Proof. unfold_handlers. says_tac; exact I. Qed.

Lemma await_before_start what force : says before_start (await_promise what force).
Proof.
  apply await_promise_says; [apply perform_before_start|exact I|intros b; exact I].
Qed.

Lemma loadAudioBuffer_before_start r t u : says before_start (loadAudioBuffer r t u).
Proof.
  unfold loadAudioBuffer, await, getW.
  repeat first [says_step | apply lift_says | apply await_before_start]; exact I.
Qed.

Lemma load_missing_before_start r l n : says before_start (load_missing r l n).
Proof.
  revert n. induction l as [|t l IH]; intros n; simpl; [apply says_ret|].
  unfold getW.
  repeat first [says_step | apply lift_says | apply IH
               | apply loadAudioBuffer_before_start].
Qed.

Lemma perform_keeps_context a : keeps has_context (perform a).
Proof.
  unfold_handlers. cbv zeta.
  repeat first [keeps_step | apply keeps_modify; intros ? H; exact H].
Qed.

Lemma await_keeps_ready what force : keeps task_ready (await_promise what force).
Proof.
  intros s H. unfold await_promise, task_ready in *.
  destruct (schedule s) as [|turn rest]; [exact H|].
  assert (Hk : keeps (fun w => wf w /\ has_context w) (forEach (meanwhile turn) perform)).
  { apply keeps_forEach. intros a. apply keeps_conj;
      [apply safe_keeps, perform_safe|apply perform_keeps_context]. }
  specialize (Hk (world s) H). unfold world_of in Hk.
  destruct (forEach (meanwhile turn) perform (world s)) as [[w t] o].
  destruct (answer turn); [exact Hk|destruct force; exact Hk].
Qed.

Lemma lift_modify_keeps_ready f :
  (forall w, wf w -> wf (f w)) ->
  (forall w, audioContextRef (f w) = audioContextRef w) ->
  keeps task_ready (lift (modify f)).
Proof.
  intros H1 H2 s [Hw Hc]. split; [now apply H1|].
  unfold has_context. cbn [lift modify world_of fst world]. now rewrite H2.
Qed.

Lemma loadAudioBuffer_keeps_ready r t u : keeps task_ready (loadAudioBuffer r t u).
Proof.
  unfold loadAudioBuffer, await, getW.
  repeat first
    [ keeps_step | apply await_keeps_ready
    | apply lift_modify_keeps_ready;
      [intros w Hw; apply (wf_frame w); try reflexivity; exact Hw
      |intros w; reflexivity]
    | intros ? H; exact H ].
Qed.

Lemma load_missing_keeps_ready r l n : keeps task_ready (load_missing r l n).
Proof.
  revert n. induction l as [|t l IH]; intros n; simpl; [apply keeps_ret|].
  unfold getW.
  repeat first
    [ keeps_step | apply IH | apply loadAudioBuffer_keeps_ready
    | intros ? H; exact H ].
Qed.

Lemma load_missing_never_throws r l n : never_throws (load_missing r l n).
Proof.
  revert n. induction l as [|t l IH]; intros n s e; [discriminate|].
  cbn [load_missing]. unfold getW. rewrite bind_unfold.
  cbn [lift get outcome_of world_of trace_of fst snd].
  destruct (bool_decide _); [apply IH|].
  destruct (Track.url t) as [u|]; [|apply IH].
  destruct (Track.has_url t); [|apply IH].
  rewrite bind_unfold.
  destruct (loadAudioBuffer_returns r (Track.id t) u (mkTask (world s) (schedule s)))
    as [Hp|[Hn _]]; [rewrite Hp; discriminate|rewrite Hn].
  cbn [outcome_of snd]. rewrite bind_unfold.
  cbn [lift get outcome_of world_of trace_of fst snd]. apply IH.
Qed.

(** The start step: every candidate with a cached clip is started, every
    other is skipped with a warning, and none stops the loop. *)
Lemma start_loaded_trace r l w :
  wf w -> has_context w -> r_webAudioSupported r = true ->
  (forall t, In t l -> Track.has_url t = true) ->
  outcome_of (start_loaded r l w) = Normal tt /\
  started_tracks (trace_of (start_loaded r l w)) =
    map Track.id (List.filter (buffered w) l) /\
  cannot_play_warnings (trace_of (start_loaded r l w)) =
    map Track.name (List.filter (fun t => negb (buffered w t)) l) /\
  audioBuffersRef (world_of (start_loaded r l w)) = audioBuffersRef w.
Proof.
  intros Hwf Hc Hs. revert w Hwf Hc.
  induction l as [|t l IH]; intros w Hwf Hc Hu; [repeat split; reflexivity|].
  unfold start_loaded in *. cbn [forEach List.filter].
  rewrite bind_unfold, bind_get, (Hu t (or_introl eq_refl)). cbn [andb].
  fold (buffered w t).
  assert (Hu' : forall t0, In t0 l -> Track.has_url t0 = true)
    by (intros t0 H0; apply Hu; now right).
  destruct (buffered w t) eqn:Hb; cbn [negb].
  - unfold buffered in Hb. apply bool_decide_eq_true in Hb as [b Hb].
    assert (Hplay : exists w' tr,
      playTrackWebAudio r (Track.id t) (Track.is_muted t) w = (w', tr, Normal tt) /\
      wf w' /\ has_context w' /\ audioBuffersRef w' = audioBuffersRef w /\
      started_tracks tr = [Track.id t] /\ cannot_play_warnings tr = []).
    { destruct (sourceNodesRef w !! Track.id t) as [n|] eqn:Hn.
      - destruct (wf_source w Hwf _ n Hn) as (nd & g & Hnd & _ & Hst & _).
        rewrite (playTrackWebAudio_restart r _ _ b n nd w Hc Hs Hb Hn Hnd Hst).
        eexists _, _. split; [reflexivity|].
        split; [|split; [exact Hc|repeat split]].
        apply wf_with_voice; [now apply wf_with_stopped|].
        unfold with_stopped. wsimpl. apply lookup_delete_eq.
      - rewrite (playTrackWebAudio_fresh r _ _ b w Hc Hs Hb Hn).
        eexists _, _. split; [reflexivity|].
        split; [now apply wf_with_voice|split; [exact Hc|repeat split]]. }
    destruct Hplay as (w' & tr & E & Hwf' & Hc' & Hbuf & Hst & Hwarn).
    rewrite E. cbn [outcome_of world_of trace_of fst snd].
    destruct (IH w' Hwf' Hc' Hu') as (Ho & H1 & H2 & H3).
    split; [exact Ho|].
    assert (Hsame : forall x, buffered w' x = buffered w x)
      by (intros x; unfold buffered; now rewrite Hbuf).
    unfold started_tracks, cannot_play_warnings in *.
    rewrite !omap_app, Hst, Hwarn, H1, H2, H3.
    rewrite (filter_ext _ _ Hsame).
    rewrite (filter_ext (fun x => negb (buffered w' x))
               (fun x => negb (buffered w x)))
      by (intros x; now rewrite Hsame).
    repeat split; try reflexivity. exact Hbuf.
  - cbn [emit outcome_of world_of trace_of fst snd].
    destruct (IH w Hwf Hc Hu') as (Ho & H1 & H2 & H3).
    split; [exact Ho|]. unfold started_tracks, cannot_play_warnings in *.
    cbn [app omap list_omap map]. rewrite H1, H2. repeat split. exact H3.
Qed.

Lemma rewind_elements_safe l : safe wf (rewind_elements l).
Proof. unfold rewind_elements, element_pause, update_element. safe_tac. Qed.

Lemma rewind_elements_before_start l : says before_start (rewind_elements l).
Proof.
  unfold rewind_elements, element_pause, update_element. says_tac; exact I.
Qed.

Lemma rewind_elements_keeps_context c l :
  keeps (fun w => audioContextRef w = c) (rewind_elements l).
Proof.
  unfold rewind_elements, element_pause, update_element. cbv zeta.
  repeat first [keeps_step | apply keeps_modify; intros ? H; exact H].
Qed.

Lemma lift_run {A} (m : M World A) s :
  lift m s =
  (mkTask (world_of (m (world s))) (schedule s), trace_of (m (world s)),
   outcome_of (m (world s))).
Proof.
  unfold lift, world_of, trace_of, outcome_of.
  destruct (m (world s)) as [[w t] o]. reflexivity.
Qed.

Lemma bind_getW {B} (k : World -> M Task B) w sched :
  bind getW k (mkTask w sched) = k w (mkTask w sched).
Proof.
  unfold getW. rewrite bind_unfold, lift_run.
  cbn [get outcome_of world_of trace_of fst snd world schedule app].
  destruct (k w (mkTask w sched)) as [[s2 t2] o2]. reflexivity.
Qed.

(** With the audio context running and enough answers for the loads,
    [playAll] on the Web Audio path comes down to the start step, run in the
    world that the loads leave, after a trace without a start or a skip. *)
Lemma playAll_webaudio_run r s :
  wf (world s) -> audioContextRef (world s) = Some running ->
  r_webAudioSupported r = true ->
  List.filter Track.has_url (r_tracks r) <> [] ->
  (3 * length (List.filter Track.has_url (r_tracks r)) <= length (schedule s))%nat ->
  exists s1 tr1,
    task_ready s1 /\ Forall before_start tr1 /\
    playAll r s =
      (mkTask (world_of (start_loaded r (List.filter Track.has_url (r_tracks r))
                           (world s1))) (schedule s1),
       tr1 ++ trace_of (start_loaded r (List.filter Track.has_url (r_tracks r))
                          (world s1)),
       Normal tt).
Proof.
  intros Hwf Hc Hs Hne Hlen. destruct s as [w sched].
  cbn [world schedule] in *.
  set (playable := List.filter Track.has_url (r_tracks r)) in *.
  destruct (rewind_elements_safe (r_tracks r) w Hwf) as [Hwf1 [[] Ho1]].
  pose proof (rewind_elements_keeps_context _ (r_tracks r) w Hc) as Hc1.
  pose proof (rewind_elements_before_start (r_tracks r) w) as Ht1.
  set (w1 := world_of (rewind_elements (r_tracks r) w)) in *.
  set (tr1 := trace_of (rewind_elements (r_tracks r) w)) in *.
  set (s2 := mkTask (set_isPlayingAll true w1) sched).
  assert (Hr2 : task_ready s2).
  { split; [apply (wf_frame w1); try reflexivity; exact Hwf1|].
    unfold has_context, s2. cbn [world]. change (audioContextRef w1 <> None).
    rewrite Hc1. discriminate. }
  pose proof (load_missing_keeps_ready r playable 0 s2 Hr2) as Hr3.
  pose proof (load_missing_before_start r playable 0 s2) as Ht3.
  destruct (needs_load_missing r playable 0 s2) as [Hp3 _]; [exact Hlen|].
  pose proof (load_missing_never_throws r playable 0 s2) as Hn3.
  destruct (outcome_of (load_missing r playable 0 s2)) as [n| e |] eqn:Ho3;
    [|now destruct (Hn3 e)|now destruct Hp3].
  set (s3 := world_of (load_missing r playable 0 s2)) in *.
  set (tr3 := trace_of (load_missing r playable 0 s2)) in *.
  destruct Hr3 as [Hwf3 Hc3].
  assert (Hu : forall t, In t playable -> Track.has_url t = true).
  { intros t Ht. apply filter_In in Ht. tauto. }
  destruct (start_loaded_trace r playable (world s3) Hwf3 Hc3 Hs Hu)
    as (Ho4 & _).
  assert (K3 :
    bind (load_missing r playable 0) (fun _ => lift (start_loaded r playable)) s2 =
    (mkTask (world_of (start_loaded r playable (world s3))) (schedule s3),
     tr3 ++ trace_of (start_loaded r playable (world s3)), Normal tt)).
  { rewrite bind_unfold, Ho3. fold s3 tr3. rewrite lift_run, Ho4. reflexivity. }
  exists s3, (tr1 ++ tr3). split; [split; assumption|].
  split; [apply Forall_app; split; assumption|].
  assert (Hbody :
    (_ <~ lift (rewind_elements (r_tracks r));
     w0 <~ getW;
     _ <~ match audioContextRef w0 with
          | Some suspended =>
              _ <~ await AwResume;
              lift (modify (set_audioContextRef (Some running)))
          | _ => ret tt
          end;
     _ <~ lift (modify (set_isPlayingAll true));
     w' <~ getW;
     if r_webAudioSupported r && bool_decide (is_Some (audioContextRef w'))
     then
       buffersLoaded <~ load_missing r playable 0;
       lift (start_loaded r playable)
     else play_fallback playable) (mkTask w sched) =
    (mkTask (world_of (start_loaded r playable (world s3))) (schedule s3),
     (tr1 ++ tr3) ++ trace_of (start_loaded r playable (world s3)),
     Normal tt)).
  { rewrite bind_unfold, lift_run.
    cbn [outcome_of world_of trace_of fst snd world schedule].
    rewrite Ho1. fold w1 tr1.
    rewrite bind_getW, Hc1, bind_ret, bind_lift_modify.
    cbn [world schedule]. rewrite bind_getW.
    change (audioContextRef (set_isPlayingAll true w1)) with (audioContextRef w1).
    rewrite Hs, Hc1. cbn [andb].
    rewrite bool_decide_eq_true_2 by (eexists; reflexivity).
    fold s2. rewrite K3.
    cbn [outcome_of world_of trace_of fst snd]. rewrite app_assoc.
    reflexivity. }
  unfold playAll. cbv zeta. fold playable.
  destruct (length playable =? 0)%nat eqn:E.
  { apply Nat.eqb_eq, length_zero_iff_nil in E. now destruct Hne. }
  rewrite try_catch_unfold.
  change (forEach (r_tracks r) _) with (rewind_elements (r_tracks r)).
  rewrite Hbody. reflexivity.
Qed.

End StartedFacts.

(** ** Assertions about handler code *)

Section Hoare.
Context {S : Type}.

Lemma triple_conseq {A} (P P' : S -> list Event -> Prop) (m : M S A)
    (Q Q' : Outcome A -> S -> list Event -> Prop) :
  triple P m Q -> (forall s tr, P' s tr -> P s tr) ->
  (forall o s tr, Q o s tr -> Q' o s tr) -> triple P' m Q'.
Proof. intros Hm HP HQ s tr H. apply HQ, Hm, HP, H. Qed.

Lemma triple_bind {A B} (P : S -> list Event -> Prop) (m : M S A)
    (k : A -> M S B) (R : Outcome A -> S -> list Event -> Prop)
    (Q : Outcome B -> S -> list Event -> Prop) :
  triple P m R ->
  (forall a, triple (R (Normal a)) (k a) Q) ->
  (forall e s tr, R (Throw e) s tr -> Q (Throw e) s tr) ->
  (forall s tr, R Pending s tr -> Q Pending s tr) ->
  triple P (bind m k) Q.
Proof.
  intros Hm Hk Ht Hp s tr HP. specialize (Hm s tr HP). rewrite bind_unfold.
  destruct (outcome_of (m s)) as [a|e|];
    cbn [outcome_of world_of trace_of fst snd].
  - rewrite app_assoc. exact (Hk a _ _ Hm).
  - apply Ht, Hm.
  - apply Hp, Hm.
Qed.

Lemma triple_try_catch {A} (P : S -> list Event -> Prop) (m : M S A)
    (h : Exn -> M S A) (R Q : Outcome A -> S -> list Event -> Prop) :
  triple P m R ->
  (forall e, triple (R (Throw e)) (h e) Q) ->
  (forall a s tr, R (Normal a) s tr -> Q (Normal a) s tr) ->
  (forall s tr, R Pending s tr -> Q Pending s tr) ->
  triple P (try_catch m h) Q.
Proof.
  intros Hm Hh Hn Hp s tr HP. specialize (Hm s tr HP). rewrite try_catch_unfold.
  destruct (outcome_of (m s)) as [a|e|] eqn:Ho.
  - rewrite Ho. apply Hn, Hm.
  - cbn [outcome_of world_of trace_of fst snd]. rewrite app_assoc.
    exact (Hh e _ _ Hm).
  - rewrite Ho. apply Hp, Hm.
Qed.

End Hoare.

Lemma triple_getW {B} (P : Task -> list Event -> Prop) (k : World -> M Task B)
    (Q : Outcome B -> Task -> list Event -> Prop) :
  (forall w, triple (fun s tr => P s tr /\ world s = w) (k w) Q) ->
  triple P (bind getW k) Q.
Proof.
  intros Hk [w sched] tr HP. rewrite bind_getW.
  apply (Hk w). split; [exact HP|reflexivity].
Qed.

(** ** The cache during a call *)

Section CacheFacts.

Lemma drifts_refl w : drifts w w.
Proof. split; [|split]; auto. Qed.

Lemma drifts_trans w1 w2 w3 : drifts w1 w2 -> drifts w2 w3 -> drifts w1 w3.
Proof.
  intros (A1 & B1 & C1) (A2 & B2 & C2). split; [|split].
  - auto.
  - intros k Hk. destruct (B1 k Hk) as [H|H]; [apply B2, H|right; apply C2, H].
  - auto.
Qed.

Lemma drifts_frame w w' :
  audioBuffersRef w' = audioBuffersRef w -> tracks w' = tracks w -> drifts w w'.
Proof.
  intros Eb Et. unfold drifts, cached, absent. rewrite Eb, Et. auto.
Qed.

Lemma perform_keeps_uncached k a :
  keeps (fun w => audioBuffersRef w !! k = None) (perform a).
Proof.
  unfold_handlers. cbv zeta.
  repeat first
    [ keeps_step
    | apply keeps_modify; intros ? H; cbv beta; wsimpl;
      first [exact H | apply lookup_delete_None; right; exact H] ].
Qed.

Lemma perform_keeps_clip k v a :
  (forall t, a = ARemoveTrack t -> t <> k) ->
  keeps (fun w => audioBuffersRef w !! k = v) (perform a).
Proof.
  intros Hne. destruct a as [t| | | | |];
    [specialize (Hne t eq_refl)|..]; unfold_handlers; cbv zeta;
    repeat first
      [ keeps_step
      | apply keeps_modify; intros ? H; cbv beta; wsimpl;
        first [exact H | rewrite lookup_delete_ne by congruence; exact H] ].
Qed.

Lemma perform_no_report a : says no_report (perform a).
Proof. unfold_handlers. says_tac; exact I. Qed.

Lemma perform_drifts a w : wf w -> drifts w (world_of (perform a w)).
Proof.
  intros Hwf. split; [|split].
  - intros k Hk. unfold cached in *.
    destruct (audioBuffersRef w !! k) as [b|] eqn:E; [eauto|].
    rewrite (perform_keeps_uncached k a w E) in Hk. exact Hk.
  - intros k [b Hb].
    assert (Hcase : (exists t, a = ARemoveTrack t /\ t = k) \/
                    (forall t, a = ARemoveTrack t -> t <> k)).
    { destruct a as [t| | | | |]; try (right; intros ? E; discriminate).
      destruct (decide (t = k)) as [->|Hne]; [left; eauto|].
      right. intros t' E. injection E as <-. exact Hne. }
    destruct Hcase as [(t & -> & ->)|Hne].
    + right. now apply perform_remove_absent.
    + left. unfold cached.
      rewrite (perform_keeps_clip k (Some b) a Hne w Hb). eauto.
  - intros k. apply perform_keeps_absent.
Qed.

Lemma meanwhile_drifts acts : forall w,
  wf w ->
  wf (world_of (forEach acts perform w)) /\
  drifts w (world_of (forEach acts perform w)).
Proof.
  induction acts as [|a acts IH]; intros w Hwf.
  - split; [exact Hwf|apply drifts_refl].
  - cbn [forEach]. rewrite bind_unfold.
    destruct (perform_safe a w Hwf) as [Hwf1 [[] Ho]]. rewrite Ho.
    cbn [world_of fst]. destruct (IH _ Hwf1) as [Hwf2 Hd].
    split; [exact Hwf2|].
    eapply drifts_trans; [apply perform_drifts, Hwf|exact Hd].
Qed.

Lemma meanwhile_no_report acts w :
  Forall no_report (trace_of (forEach acts perform w)).
Proof. apply (says_forEach no_report acts perform perform_no_report). Qed.

Lemma meanwhile_keeps_context acts w :
  has_context w -> has_context (world_of (forEach acts perform w)).
Proof. apply (keeps_forEach has_context acts perform perform_keeps_context). Qed.

Lemma in_no_report tr e : Forall no_report tr -> ~ no_report e -> ~ In e tr.
Proof.
  intros H He Hin. rewrite Forall_forall in H.
  apply list_elem_of_In, H in Hin. now apply He.
Qed.

Lemma tied_refl w : wf w -> tied w w [].
Proof.
  intros Hwf. split; [exact Hwf|auto|auto|intros k []].
  intros k [H|[]]. now left.
Qed.

(** Handlers run from the page, and code that reports no load, keep the
    cache tied. *)
Lemma tied_drift w0 w w' tr t :
  tied w0 w tr -> wf w' -> drifts w w' -> Forall no_report t ->
  tied w0 w' (tr ++ t).
Proof.
  intros [_ Hn Hk Hf] Hwf (Da & Db & Dc) Ht.
  assert (Hlog : forall k, In (ConsoleLog (MsgBufferLoaded k)) (tr ++ t) ->
                           In (ConsoleLog (MsgBufferLoaded k)) tr).
  { intros k H. apply in_app_or in H as [H|H]; [exact H|].
    exfalso. revert H. apply in_no_report; [exact Ht|auto]. }
  assert (Herr : forall k, In (ConsoleError (MsgLoadFailed k)) (tr ++ t) ->
                           In (ConsoleError (MsgLoadFailed k)) tr).
  { intros k H. apply in_app_or in H as [H|H]; [exact H|].
    exfalso. revert H. apply in_no_report; [exact Ht|auto]. }
  split; [exact Hwf| | |].
  - intros k H. destruct (Hn k (Da k H)) as [H0|H0]; [now left|right].
    apply in_or_app. now left.
  - intros k H.
    assert (H' : cached w0 k \/ In (ConsoleLog (MsgBufferLoaded k)) tr)
      by (destruct H as [H|H]; [now left|right; now apply Hlog]).
    destruct (Hk k H') as [H1|H1]; [apply Db, H1|right; apply Dc, H1].
  - intros k H. destruct (Hf k (Herr k H)) as [H1|H1].
    + left. intros H2. apply H1, Da, H2.
    + right. apply in_or_app. now left.
Qed.

(** A successful load. *)
Lemma tied_loaded w0 w tr t d :
  tied w0 w tr ->
  tied w0 (set_audioBuffersRef (<[t := d]>) w)
    (tr ++ [ConsoleLog (MsgBufferLoaded t)]).
Proof.
  intros [Hwf Hn Hk Hf]. split; unfold cached, absent in *; wsimpl.
  - apply (wf_frame w); try reflexivity. exact Hwf.
  - intros k H. destruct (decide (k = t)) as [->|Hne].
    + right. apply in_or_app. right. now left.
    + rewrite lookup_insert_ne in H by congruence.
      destruct (Hn k H) as [H0|H0]; [now left|right].
      apply in_or_app. now left.
  - intros k H. destruct (decide (k = t)) as [->|Hne].
    + left. rewrite lookup_insert_eq. eauto.
    + rewrite lookup_insert_ne by congruence. apply Hk.
      destruct H as [H|H]; [now left|right].
      apply in_app_or in H as [H|[H|[]]]; [exact H|congruence].
  - intros k H. apply in_app_or in H as [H|[H|[]]]; [|discriminate].
    destruct (decide (k = t)) as [->|Hne].
    + right. apply in_or_app. right. now left.
    + rewrite lookup_insert_ne by congruence.
      destruct (Hf k H) as [H1|H1]; [now left|right].
      apply in_or_app. now left.
Qed.

(** A failed load of a track that has no clip. *)
Lemma tied_failed_load w0 w tr t :
  tied w0 w tr -> ~ cached w t ->
  tied w0 w (tr ++ [ConsoleError (MsgLoadFailed t)]).
Proof.
  intros [Hwf Hn Hk Hf] Hnone. split.
  - exact Hwf.
  - intros k H. destruct (Hn k H) as [H0|H0]; [now left|right].
    apply in_or_app. now left.
  - intros k H. apply Hk. destruct H as [H|H]; [now left|right].
    apply in_app_or in H as [H|[H|[]]]; [exact H|discriminate].
  - intros k H. apply in_app_or in H as [H|[H|[]]].
    + destruct (Hf k H) as [H1|H1]; [now left|right].
      apply in_or_app. now left.
    + injection H as <-. now left.
Qed.

End CacheFacts.

(** ** Awaiting during the loading phase *)

Section AwaitLoading.

Lemma await_promise_run what force w turn rest :
  await_promise what force (mkTask w (turn :: rest)) =
    (mkTask (after_turn turn w) rest,
     Suspend what :: trace_of (forEach (meanwhile turn) perform w)
       ++ [Resume what (fulfilled turn || force)],
     match answer turn with
     | Fulfilled v => Normal v
     | Rejected => if force then Normal no_payload else Throw Rejection
     end).
Proof.
  unfold await_promise, after_turn, fulfilled.
  cbn [schedule world]. unfold world_of, trace_of.
  destruct (forEach (meanwhile turn) perform w) as [[w' t] o].
  destruct (answer turn); [reflexivity|destruct force; reflexivity].
Qed.

Lemma await_promise_idle what force w :
  await_promise what force (mkTask w []) = (mkTask w [], [Suspend what], Pending).
Proof. reflexivity. Qed.

(** Whatever the answer, an [await] leaves the world as the user's handlers
    made it, and reports no load. *)
Lemma await_drifts what force s :
  wf (world s) ->
  wf (world (world_of (await_promise what force s))) /\
  drifts (world s) (world (world_of (await_promise what force s))) /\
  Forall no_report (trace_of (await_promise what force s)) /\
  (has_context (world s) ->
   has_context (world (world_of (await_promise what force s)))).
Proof.
  intros Hwf. destruct s as [w [|turn rest]].
  - rewrite await_promise_idle. cbn [world_of trace_of world fst snd].
    split; [exact Hwf|]. split; [apply drifts_refl|].
    split; [repeat constructor|auto].
  - rewrite await_promise_run. cbn [world_of trace_of world fst snd].
    destruct (meanwhile_drifts (meanwhile turn) w Hwf) as [Hwf' Hd].
    split; [exact Hwf'|]. split; [exact Hd|]. split.
    + constructor; [exact I|]. apply Forall_app.
      split; [apply meanwhile_no_report|repeat constructor].
    + apply meanwhile_keeps_context.
Qed.

Lemma await_loading w0 k what force :
  triple (fun s tr => loading w0 s tr /\ ~ cached (world s) k)
    (await_promise what force)
    (fun _ s tr => loading w0 s tr /\ ~ cached (world s) k).
Proof.
  intros s tr [[Ht Hc] Hk].
  destruct (await_drifts what force s (tied_wf _ _ _ Ht)) as (Hwf & Hd & Hq & Hc').
  split; [split|].
  - exact (tied_drift _ _ _ _ _ Ht Hwf Hd Hq).
  - exact (Hc' Hc).
  - intros H. apply Hk. destruct Hd as (Da & _). now apply Da.
Qed.

End AwaitLoading.

Section LoadingFacts.
Variable r : Render.
Variable w0 : World.
Hypothesis Hs : r_webAudioSupported r = true.

(** [loadAudioBuffer], called for a track without a clip: when it returns,
    the load has been reported, as loaded or as failed. *)
Lemma loadAudioBuffer_loading t u :
  triple (fun s tr => loading w0 s tr /\ ~ cached (world s) t)
    (loadAudioBuffer r t u)
    (fun o s tr =>
       loading w0 s tr /\
       (o = Pending \/ (o = Normal tt /\ load_settled_in tr t))).
Proof.
  intros [w sched] tr [[Ht Hc] Hn]. unfold loadAudioBuffer.
  rewrite bind_getW, Hs. cbn [world] in *.
  unfold has_context in Hc.
  destruct (audioContextRef w) as [c|] eqn:Ec; [|congruence].
  rewrite bool_decide_eq_true_2 by (eexists; reflexivity). cbn [negb orb].
  refine (triple_try_catch
            (fun s tr => loading w0 s tr /\ ~ cached (world s) t) _ _
            (fun o s tr =>
               match o with
               | Normal _ =>
                   loading w0 s tr /\ In (ConsoleLog (MsgBufferLoaded t)) tr
               | _ => loading w0 s tr /\ ~ cached (world s) t
               end)
            (fun o s tr =>
               loading w0 s tr /\
               (o = Pending \/ (o = Normal tt /\ load_settled_in tr t)))
            _ _ _ _ (mkTask w sched) tr _).
  - unfold await.
    apply (triple_bind _ _ _ (fun _ s tr => loading w0 s tr /\ ~ cached (world s) t));
      [apply await_loading| |auto|auto]. intros _.
    apply (triple_bind _ _ _ (fun _ s tr => loading w0 s tr /\ ~ cached (world s) t));
      [apply await_loading| |auto|auto]. intros _.
    apply (triple_bind _ _ _ (fun _ s tr => loading w0 s tr /\ ~ cached (world s) t));
      [apply await_loading| |auto|auto]. intros audioBuffer.
    intros s1 tr1 [[Ht1 Hc1] _]. rewrite bind_lift_modify.
    cbn [emit outcome_of world_of trace_of fst snd world].
    split; [split|].
    + now apply tied_loaded.
    + exact Hc1.
    + apply in_or_app. right. now left.
  - intros e s1 tr1 [[Ht1 Hc1] Hn1].
    cbn [emit outcome_of world_of trace_of fst snd].
    split; [split; [now apply tied_failed_load|exact Hc1]|].
    right. split; [reflexivity|]. right. apply in_or_app. right. now left.
  - intros [] s1 tr1 [H1 H2]. split; [exact H1|].
    right. split; [reflexivity|now left].
  - intros s1 tr1 [H1 _]. split; [exact H1|now left].
  - cbn [world]. split; [split|]; [exact Ht|unfold has_context; cbn [world]; rewrite Ec; discriminate|exact Hn].
Qed.

Lemma load_settled_more tr t k :
  load_settled_in tr k -> load_settled_in (tr ++ t) k.
Proof. intros [H|H]; [left|right]; apply in_or_app; now left. Qed.

(** The loading loop: when it is through, the cache is still tied, and
    every candidate either had its clip when the call began or has had its
    load reported. *)
Lemma load_missing_loading l : forall n,
  triple (loading w0) (load_missing r l n)
    (fun o s tr =>
       loading w0 s tr /\ (forall e, o <> Throw e) /\
       (forall a, o = Normal a ->
        forall c, In c l -> Track.has_url c = true ->
          cached w0 (Track.id c) \/ load_settled_in tr (Track.id c))).
Proof.
  induction l as [|c l IH]; intros n [w sched] tr HL.
  - cbn [load_missing ret outcome_of world_of trace_of fst snd].
    rewrite app_nil_r. split; [exact HL|]. split; [discriminate|].
    intros _ _ c [].
  - cbn [load_missing]. rewrite bind_getW.
    destruct (bool_decide (is_Some (audioBuffersRef w !! Track.id c))) eqn:E.
    { apply bool_decide_eq_true in E.
      destruct (IH (S n) (mkTask w sched) tr HL) as (H1 & H2 & H3).
      split; [exact H1|]. split; [exact H2|].
      intros a Ho c0 [<-|Hin] Hu; [|now apply (H3 a)].
      destruct (tied_new _ _ _ (proj1 HL) _ E) as [H0|H0]; [now left|right].
      left. apply in_or_app. now left. }
    apply bool_decide_eq_false in E.
    assert (Hskip : forall n',
      Track.has_url c = false ->
      let res := load_missing r l n' (mkTask w sched) in
      loading w0 (world_of res) (tr ++ trace_of res) /\
      (forall e, outcome_of res <> Throw e) /\
      (forall a, outcome_of res = Normal a ->
       forall c0, In c0 (c :: l) -> Track.has_url c0 = true ->
         cached w0 (Track.id c0) \/
         load_settled_in (tr ++ trace_of res) (Track.id c0))).
    { intros n' Hu. destruct (IH n' (mkTask w sched) tr HL) as (H1 & H2 & H3).
      split; [exact H1|]. split; [exact H2|].
      intros a Ho c0 [<-|Hin] Hu0; [congruence|now apply (H3 a)]. }
    destruct (Track.url c) as [u|] eqn:Eu.
    2:{ apply Hskip. unfold Track.has_url. now rewrite Eu. }
    destruct (Track.has_url c) eqn:Hu; [|now apply Hskip].
    rewrite bind_unfold.
    destruct (loadAudioBuffer_loading (Track.id c) u (mkTask w sched) tr
                (conj HL E)) as [HL1 Hout].
    destruct (outcome_of (loadAudioBuffer r (Track.id c) u (mkTask w sched)))
      as [[]|e|] eqn:Ho.
    + cbn [outcome_of world_of trace_of fst snd].
      destruct Hout as [Hout|[_ Hset]]; [discriminate|].
      revert HL1 Hset.
      generalize (trace_of (loadAudioBuffer r (Track.id c) u (mkTask w sched))).
      generalize (world_of (loadAudioBuffer r (Track.id c) u (mkTask w sched))).
      intros [w1 sched1] t1 HL1 Hset. rewrite bind_getW.
      match goal with
      | |- context [load_missing r l ?n1 _] =>
          destruct (IH n1 (mkTask w1 sched1) (tr ++ t1) HL1) as (H1 & H2 & H3)
      end.
      rewrite app_assoc. split; [exact H1|]. split; [exact H2|].
      intros a Ha c0 [<-|Hin] Hu0; [|now apply (H3 a)].
      right. now apply load_settled_more.
    + destruct Hout as [Hout|[Hout _]]; discriminate.
    + cbn [outcome_of world_of trace_of fst snd].
      split; [exact HL1|]. split; [discriminate|]. discriminate.
Qed.

End LoadingFacts.

(** ** [playAll] on the Web Audio path *)

Section WebAudioRun.
Variable r : Render.
Variable w0 : World.
Hypothesis Hs : r_webAudioSupported r = true.

Lemma before_barrier_start e : before_barrier e -> before_start e.
Proof.
  destruct e as [n t|n|el|el|what|what b|m|m|m| |u]; try (intros _; exact I);
    try (intros []); destruct m; auto.
Qed.

Lemma before_barrier_starts tr : Forall before_barrier tr -> Forall before_start tr.
Proof. intros H. eapply Forall_impl; [exact H|apply before_barrier_start]. Qed.

Lemma perform_before_barrier a : says before_barrier (perform a).
Proof. unfold_handlers. says_tac; exact I. Qed.

Lemma loadAudioBuffer_before_barrier t u : says before_barrier (loadAudioBuffer r t u).
Proof.
  unfold loadAudioBuffer, await, getW.
  repeat first
    [ says_step | apply lift_says
    | apply await_promise_says;
      [apply perform_before_barrier|exact I|intros b; exact I] ]; exact I.
Qed.

Lemma load_missing_before_barrier l n : says before_barrier (load_missing r l n).
Proof.
  revert n. induction l as [|t l IH]; intros n; simpl; [apply says_ret|].
  unfold getW.
  repeat first [says_step | apply lift_says | apply IH
               | apply loadAudioBuffer_before_barrier].
Qed.

Lemma rewind_elements_quiet l w :
  audioBuffersRef (world_of (rewind_elements l w)) = audioBuffersRef w /\
  tracks (world_of (rewind_elements l w)) = tracks w /\
  audioContextRef (world_of (rewind_elements l w)) = audioContextRef w /\
  Forall before_barrier (trace_of (rewind_elements l w)) /\
  Forall not_suspend (trace_of (rewind_elements l w)) /\
  Forall no_report (trace_of (rewind_elements l w)).
Proof.
  assert (H : keeps (fun w' => audioBuffersRef w' = audioBuffersRef w /\
                               tracks w' = tracks w /\
                               audioContextRef w' = audioContextRef w)
                (rewind_elements l)).
  { unfold rewind_elements, element_pause, update_element. cbv zeta.
    repeat first [keeps_step | apply keeps_modify; intros ? H; exact H]. }
  destruct (H w) as (H1 & H2 & H3); [auto|].
  split; [exact H1|]. split; [exact H2|]. split; [exact H3|].
  split; [|split]; unfold rewind_elements, element_pause, update_element;
    apply says_forEach; intros t; says_tac; exact I.
Qed.

(** Synchronous code that leaves the cache, the list and the context alone
    and reports nothing keeps the loading phase as it is. *)
Lemma loading_quietly_frame s tr w' t :
  loading_quietly w0 s tr -> wf w' ->
  audioBuffersRef w' = audioBuffersRef (world s) -> tracks w' = tracks (world s) ->
  has_context w' ->
  Forall before_barrier t -> Forall not_suspend t -> Forall no_report t ->
  loading_quietly w0 (mkTask w' (schedule s)) (tr ++ t).
Proof.
  intros ([Ht Hc] & Hb & Hst) Hwf Eb Et Hc' H1 H2 H3.
  split; [split|split].
  - cbn [world]. apply (tied_drift _ _ _ _ _ Ht Hwf); [|exact H3].
    now apply drifts_frame.
  - exact Hc'.
  - apply Forall_app. now split.
  - apply settled_app; [exact Hst|now apply no_suspend_settled].
Qed.

Lemma rewind_loading l :
  triple (loading_quietly w0) (lift (rewind_elements l))
    (fun o s tr => match o with Normal _ => loading_quietly w0 s tr | _ => False end).
Proof.
  intros s tr HL. rewrite lift_run.
  pose proof HL as ([Ht Hc] & _).
  destruct (rewind_elements_safe l (world s) (tied_wf _ _ _ Ht)) as [Hwf1 [[] Ho]].
  rewrite Ho. cbn [outcome_of world_of trace_of fst snd].
  destruct (rewind_elements_quiet l (world s)) as (E1 & E2 & E3 & Q1 & Q2 & Q3).
  apply loading_quietly_frame; try assumption.
  unfold has_context in *. now rewrite E3.
Qed.

Lemma lift_modify_loading f :
  (forall w, wf w -> wf (f w)) ->
  (forall w, audioBuffersRef (f w) = audioBuffersRef w) ->
  (forall w, tracks (f w) = tracks w) ->
  (forall w, has_context w -> has_context (f w)) ->
  triple (loading_quietly w0) (lift (modify f))
    (fun o s tr => match o with Normal _ => loading_quietly w0 s tr | _ => False end).
Proof.
  intros H1 H2 H3 H4 s tr HL.
  cbn [lift modify outcome_of world_of trace_of fst snd].
  pose proof HL as ([Ht Hc] & _).
  apply loading_quietly_frame; auto. apply H1, (tied_wf _ _ _ Ht).
Qed.

(** The resume of a suspended context: fulfilled, the loading phase goes
    on; rejected or unanswered, nothing has been started. *)
Lemma resume_loading :
  triple (loading_quietly w0) (await AwResume)
    (fun o s tr =>
       match o with
       | Normal _ => loading_quietly w0 s tr
       | Throw _ => Forall before_start tr /\ In (Resume AwResume false) tr
       | Pending => Forall before_start tr
       end).
Proof.
  intros s tr HL. pose proof HL as ([Ht Hc] & Hb & Hst).
  destruct (await_drifts AwResume false s (tied_wf _ _ _ Ht)) as (Hwf & Hd & Hq & Hc').
  pose proof (await_before_start AwResume false s) as Hbs.
  pose proof (balanced_await AwResume false) as Hbal.
  unfold await in *.
  assert (Hstart : Forall before_start (tr ++ trace_of (await_promise AwResume false s))).
  { apply Forall_app. split; [now apply before_barrier_starts|exact Hbs]. }
  destruct (outcome_of (await_promise AwResume false s)) as [v|e|] eqn:Ho.
  - split; [split|split].
    + exact (tied_drift _ _ _ _ _ Ht Hwf Hd Hq).
    + exact (Hc' Hc).
    + apply Forall_app. split; [exact Hb|].
      destruct s as [w [|turn rest]]; [discriminate|].
      rewrite await_promise_run in *. cbn [outcome_of trace_of fst snd] in *.
      unfold fulfilled. destruct (answer turn); [|discriminate].
      constructor; [exact I|]. apply Forall_app.
      split; [|repeat constructor].
      apply (says_forEach before_barrier _ perform perform_before_barrier).
    + apply settled_app; [exact Hst|].
      apply (Hbal (fun t u E => ltac:(discriminate)) s v Ho).
  - split; [exact Hstart|].
    destruct s as [w [|turn rest]]; [discriminate|].
    rewrite await_promise_run in *. cbn [outcome_of trace_of fst snd] in *.
    unfold fulfilled. destruct (answer turn); [discriminate|].
    apply in_or_app. right. right. apply in_or_app. right. now left.
  - exact Hstart.
Qed.

(** The loads and the start step. *)
Lemma load_then_start_loading :
  triple (loading_quietly w0)
    (buffersLoaded <~ load_missing r (List.filter Track.has_url (r_tracks r)) 0;
     lift (start_loaded r (List.filter Track.has_url (r_tracks r))))
    (webaudio_end r w0).
Proof.
  intros s tr (HL & Hb & Hst). rewrite bind_unfold.
  destruct (load_missing_loading r w0 Hs (List.filter Track.has_url (r_tracks r))
              0 s tr HL) as (H1 & H2 & H3).
  pose proof (load_missing_before_barrier (List.filter Track.has_url (r_tracks r)) 0 s)
    as Hq.
  pose proof (balanced_load_missing r (List.filter Track.has_url (r_tracks r)) 0 s)
    as Hbal.
  assert (Hb1 : Forall before_barrier
                  (tr ++ trace_of (load_missing r
                     (List.filter Track.has_url (r_tracks r)) 0 s)))
    by (apply Forall_app; now split).
  destruct (outcome_of (load_missing r (List.filter Track.has_url (r_tracks r)) 0 s))
    as [n|e|] eqn:Ho.
  - cbn [outcome_of world_of trace_of fst snd]. rewrite lift_run.
    cbn [outcome_of world_of trace_of fst snd].
    destruct (start_loaded_safe r (List.filter Track.has_url (r_tracks r)) _
                (tied_wf _ _ _ (proj1 H1))) as [_ [[] Hos]].
    rewrite Hos. cbn [webaudio_end]. rewrite app_assoc.
    eexists _, _. split; [exact H1|]. split; [exact Hb1|].
    split; [apply settled_app; [exact Hst|exact (Hbal n eq_refl)]|].
    split; [|split; reflexivity].
    intros c Hc. apply (H3 n eq_refl c Hc). apply filter_In in Hc. tauto.
  - now destruct (H2 e).
  - cbn [outcome_of world_of trace_of fst snd webaudio_end].
    now apply before_barrier_starts.
Qed.

Lemma playAll_body_webaudio :
  triple (loading_quietly w0)
    (_ <~ lift (rewind_elements (r_tracks r));
     w <~ getW;
     _ <~ match audioContextRef w with
          | Some suspended =>
              _ <~ await AwResume;
              lift (modify (set_audioContextRef (Some running)))
          | _ => ret tt
          end;
     _ <~ lift (modify (set_isPlayingAll true));
     w' <~ getW;
     if r_webAudioSupported r && bool_decide (is_Some (audioContextRef w'))
     then
       buffersLoaded <~ load_missing r (List.filter Track.has_url (r_tracks r)) 0;
       lift (start_loaded r (List.filter Track.has_url (r_tracks r)))
     else play_fallback (List.filter Track.has_url (r_tracks r)))
    (webaudio_end r w0).
Proof.
  apply (triple_bind _ _ _ _ _ (rewind_loading _)); [|intros e s tr []|intros s tr []].
  intros _. apply triple_getW. intros w.
  apply (triple_bind _ _ _
           (fun o s tr =>
              match o with
              | Normal _ => loading_quietly w0 s tr
              | Throw _ => Forall before_start tr /\ In (Resume AwResume false) tr
              | Pending => Forall before_start tr
              end)); [| |auto|auto].
  { assert (Hret : triple (fun s tr => loading_quietly w0 s tr /\ world s = w)
                     (ret tt)
                     (fun o s tr =>
                        match o with
                        | Normal _ => loading_quietly w0 s tr
                        | Throw _ => Forall before_start tr /\
                                     In (Resume AwResume false) tr
                        | Pending => Forall before_start tr
                        end)).
    { intros s tr [H _]. cbn [ret outcome_of world_of trace_of fst snd].
      now rewrite app_nil_r. }
    destruct (audioContextRef w) as [[]|]; try exact Hret.
    apply (triple_bind _ _ _
             (fun o s tr =>
                match o with
                | Normal _ => loading_quietly w0 s tr
                | Throw _ => Forall before_start tr /\ In (Resume AwResume false) tr
                | Pending => Forall before_start tr
                end)); [| |auto|auto].
    - eapply triple_conseq; [apply resume_loading|intros s tr [H _]; exact H|auto].
    - intros _. eapply triple_conseq;
        [apply (lift_modify_loading (set_audioContextRef (Some running)))
        |intros s tr H; exact H
        |intros [a|e|] s tr H; [exact H|destruct H|destruct H]]; try reflexivity.
      + intros w1 Hw1. apply (wf_frame w1); try reflexivity. exact Hw1.
      + intros w1 _. discriminate. }
  intros _.
  apply (triple_bind _ _ _
           (fun o s tr =>
              match o with Normal _ => loading_quietly w0 s tr | _ => False end));
    [| |intros e s tr []|intros s tr []].
  { apply lift_modify_loading; try reflexivity; [|auto].
    intros w1 Hw1. apply (wf_frame w1); try reflexivity. exact Hw1. }
  intros _. apply triple_getW. intros w' s tr [HL Hw]. subst w'.
  rewrite Hs. cbn [andb].
  rewrite bool_decide_eq_true_2.
  - now apply load_then_start_loading.
  - destruct HL as ([_ Hc] & _). unfold has_context in Hc.
    destruct (audioContextRef (world s)); [eauto|congruence].
Qed.

End WebAudioRun.

(** Where a [playAll] call can end on the Web Audio path: suspended with
    nothing started; given up because the context could not be resumed,
    with nothing started; or through its start step. *)
Lemma playAll_webaudio_shape r s :
  wf (world s) -> has_context (world s) -> r_webAudioSupported r = true ->
  List.filter Track.has_url (r_tracks r) <> [] ->
  (outcome_of (playAll r s) = Pending /\
   Forall before_start (trace_of (playAll r s))) \/
  (outcome_of (playAll r s) = Normal tt /\
   Forall before_start (trace_of (playAll r s)) /\
   In (Resume AwResume false) (trace_of (playAll r s))) \/
  (outcome_of (playAll r s) = Normal tt /\
   reaches_start r (world s) (world_of (playAll r s)) (trace_of (playAll r s))).
Proof.
  intros Hwf Hc Hs Hne.
  assert (H0 : loading_quietly (world s) s []).
  { split; [split; [now apply tied_refl|exact Hc]|].
    split; [constructor|apply settled_nil]. }
  pose proof (playAll_body_webaudio r (world s) Hs s [] H0) as HB.
  cbn [app] in HB.
  unfold playAll. cbv zeta.
  destruct (length (List.filter Track.has_url (r_tracks r)) =? 0)%nat eqn:E.
  { apply Nat.eqb_eq, length_zero_iff_nil in E. now destruct Hne. }
  change (forEach (r_tracks r) _) with (rewind_elements (r_tracks r)).
  rewrite try_catch_unfold.
  match type of HB with
  | webaudio_end _ _ (outcome_of ?x) _ _ => destruct (outcome_of x) as [[]|e|] eqn:Ho
  end.
  - right. right. rewrite Ho. split; [reflexivity|exact HB].
  - right. left. destruct HB as [HB1 HB2]. rewrite bind_emit.
    cbn [lift modify outcome_of world_of trace_of fst snd].
    split; [reflexivity|]. split.
    + apply Forall_app. split; [exact HB1|repeat constructor].
    + apply in_or_app. now left.
  - left. rewrite Ho. split; [reflexivity|exact HB].
Qed.

(** ** What [playAll] starts on the Web Audio path, in general *)

Section StartStepFacts.

Lemma playTrackWebAudio_keeps_tracks r t m l :
  keeps (fun w => tracks w = l) (playTrackWebAudio r t m).
Proof.
  unfold playTrackWebAudio, source_stop, source_start, createBufferSource,
    createGain, update_source, update_gain. cbv zeta.
  repeat first [keeps_step | apply keeps_modify; intros ? H; exact H].
Qed.

Lemma start_loaded_keeps_tracks r l w :
  tracks (world_of (start_loaded r l w)) = tracks w.
Proof.
  assert (H : keeps (fun w' => tracks w' = tracks w) (start_loaded r l)).
  { unfold start_loaded. apply keeps_forEach. intros x.
    apply keeps_bind; [apply keeps_get|]. intros w1.
    destruct (_ && _); [apply playTrackWebAudio_keeps_tracks|apply keeps_emit]. }
  now apply H.
Qed.

Lemma playTrackWebAudio_synchronous r t m :
  says (fun e => synchronous e /\ no_report e /\ forall el, e <> ElementPlay el)
    (playTrackWebAudio r t m).
Proof.
  unfold playTrackWebAudio, source_stop, source_start, createBufferSource,
    createGain, update_source, update_gain.
  says_tac; (split; [exact I|split; [exact I|discriminate]]).
Qed.

Lemma start_loaded_synchronous r l :
  says (fun e => synchronous e /\ no_report e /\ forall el, e <> ElementPlay el)
    (start_loaded r l).
Proof.
  unfold start_loaded. says_tac;
    [apply playTrackWebAudio_synchronous
    |split; [exact I|split; [exact I|discriminate]]].
Qed.

Lemma start_loaded_reports_nothing r l w e :
  In e (trace_of (start_loaded r l w)) ->
  synchronous e /\ no_report e /\ forall el, e <> ElementPlay el.
Proof.
  intros H. pose proof (start_loaded_synchronous r l w) as Hq.
  rewrite Forall_forall in Hq. apply Hq, list_elem_of_In, H.
Qed.

Lemma in_before_barrier tr e : Forall before_barrier tr -> ~ before_barrier e -> ~ In e tr.
Proof.
  intros H He Hin. rewrite Forall_forall in H.
  apply list_elem_of_In, H in Hin. now apply He.
Qed.

Lemma buffered_cached w c : buffered w c = true <-> cached w (Track.id c).
Proof. unfold buffered, cached. apply bool_decide_eq_true. Qed.

Lemma buffered_uncached w c : buffered w c = false <-> ~ cached w (Track.id c).
Proof. unfold buffered, cached. apply bool_decide_eq_false. Qed.

End StartStepFacts.

(** ** Every load is reported *)

Section ReportFacts.

Lemma perform_synchronous a : says synchronous (perform a).
Proof. unfold_handlers. says_tac; exact I. Qed.

Lemma synchronous_no_load_resume e : synchronous e -> no_load_resume e.
Proof. destruct e; try (intros _; exact I). intros []. Qed.

Lemma quiet_no_decode tr k b :
  Forall no_load_resume tr -> ~ In (Resume (AwDecode k) b) tr.
Proof.
  intros H Hin. rewrite Forall_forall in H.
  apply list_elem_of_In, H in Hin. destruct Hin.
Qed.

Lemma quiet_not_rejected tr k :
  Forall no_load_resume tr -> ~ load_rejected_in tr k.
Proof.
  intros H Hr. rewrite Forall_forall in H.
  destruct Hr as [[u Hin]|[Hin|Hin]]; apply list_elem_of_In, H in Hin; destruct Hin.
Qed.

Lemma load_rejected_in_app t1 t2 k :
  load_rejected_in (t1 ++ t2) k <-> load_rejected_in t1 k \/ load_rejected_in t2 k.
Proof.
  unfold load_rejected_in. split.
  - intros [[u H]|[H|H]]; apply in_app_or in H as [H|H];
      first [left; left; exists u; exact H | right; left; exists u; exact H
            |left; right; left; exact H | right; right; left; exact H
            |left; right; right; exact H | right; right; right; exact H].
  - intros [[[u H]|[H|H]]|[[u H]|[H|H]]];
      first [left; exists u; apply in_or_app; first [left; exact H|right; exact H]
            |right; left; apply in_or_app; first [left; exact H|right; exact H]
            |right; right; apply in_or_app; first [left; exact H|right; exact H]].
Qed.

Lemma reported_but_weaken (D D' F F' : Z -> Prop) tr :
  (forall k, D k -> D' k) -> (forall k, F k -> F' k) ->
  reported_but D F tr -> reported_but D' F' tr.
Proof.
  intros HD HF [H1 H2]. split; intros k H.
  - destruct (H1 k H); auto.
  - destruct (H2 k H); auto.
Qed.

Lemma reported_but_quiet D F tr t :
  reported_but D F tr -> Forall no_load_resume t -> reported_but D F (tr ++ t).
Proof.
  intros [H1 H2] Hq. split; intros k H.
  - apply in_app_or in H as [H|H]; [|now destruct (quiet_no_decode _ _ _ Hq H)].
    destruct (H1 k H); [now left|right; apply in_or_app; now left].
  - apply load_rejected_in_app in H as [H|H];
      [|now destruct (quiet_not_rejected _ _ Hq H)].
    destruct (H2 k H); [now left|right; apply in_or_app; now left].
Qed.

Lemma reported_but_resume D F tr what b :
  reported_but D F tr ->
  reported_but (fun k => D k \/ (what = AwDecode k /\ b = true))
    (fun k => F k \/ (loads what k /\ b = false)) (tr ++ [Resume what b]).
Proof.
  intros [H1 H2]. split; intros k H.
  - apply in_app_or in H as [H|[H|[]]].
    + destruct (H1 k H); [left; now left|right; apply in_or_app; now left].
    + injection H as -> ->. left. right. now split.
  - apply load_rejected_in_app in H as [H|H].
    + destruct (H2 k H); [left; now left|right; apply in_or_app; now left].
    + left. right.
      destruct H as [[u [H|[]]]|[[H|[]]|[H|[]]]]; injection H as -> ->;
        split; reflexivity.
Qed.

Lemma reported_after_log t tr :
  reported_but (fun k => k = t) nobody tr ->
  reported (tr ++ [ConsoleLog (MsgBufferLoaded t)]).
Proof.
  intros [H1 H2]. split; intros k H.
  - right. apply in_or_app. apply in_app_or in H as [H|[H|[]]]; [|discriminate].
    destruct (H1 k H) as [->|Hin]; [right; now left|now left].
  - apply load_rejected_in_app in H as [H|H].
    + destruct (H2 k H) as [[]|Hin]. right. apply in_or_app. now left.
    + destruct H as [[u [H|[]]]|[[H|[]]|[H|[]]]]; discriminate.
Qed.

Lemma reported_after_error t tr :
  reported_but nobody (fun k => k = t) tr ->
  reported (tr ++ [ConsoleError (MsgLoadFailed t)]).
Proof.
  intros [H1 H2]. split; intros k H.
  - apply in_app_or in H as [H|[H|[]]]; [|discriminate].
    destruct (H1 k H) as [[]|Hin]. right. apply in_or_app. now left.
  - right. apply in_or_app. apply load_rejected_in_app in H as [H|H].
    + destruct (H2 k H) as [->|Hin]; [right; now left|now left].
    + destruct H as [[u [H|[]]]|[[H|[]]|[H|[]]]]; discriminate.
Qed.

(** An await, whatever it is for. *)
Lemma await_reports D F what force :
  triple (fun (_ : Task) tr => reported_but D F tr) (await_promise what force)
    (fun o _ tr =>
       match o with
       | Normal _ => reported_but (fun k => D k \/ what = AwDecode k) F tr
       | Throw _ => reported_but D (fun k => F k \/ loads what k) tr
       | Pending => reported_but D F tr
       end).
Proof.
  intros [w [|turn rest]] tr H.
  - rewrite await_promise_idle. cbn [outcome_of world_of trace_of fst snd].
    apply reported_but_quiet; [exact H|repeat constructor].
  - rewrite await_promise_run. cbn [outcome_of world_of trace_of fst snd].
    assert (Hq : Forall no_load_resume
                   (Suspend what :: trace_of (forEach (meanwhile turn) perform w))).
    { constructor; [exact I|].
      eapply Forall_impl; [apply (says_forEach synchronous), perform_synchronous|].
      apply synchronous_no_load_resume. }
    pose proof (reported_but_resume D F _ what (fulfilled turn || force)
                  (reported_but_quiet D F tr _ H Hq)) as Hr.
    rewrite <- app_assoc in Hr. cbn [app] in Hr.
    unfold fulfilled in *.
    destruct (answer turn) as [v|]; [|destruct force]; cbn [orb] in Hr;
      (eapply reported_but_weaken; [| |exact Hr]); cbv beta;
      intros k [Hk|[Hk1 Hk2]]; auto; discriminate.
Qed.

Lemma reports_says {S A} (m : M S A) : says no_load_resume m -> reports m.
Proof. intros Hm s tr H. apply reported_but_quiet; [exact H|apply Hm]. Qed.

Lemma reports_bind {S A B} (m : M S A) (k : A -> M S B) :
  reports m -> (forall a, reports (k a)) -> reports (bind m k).
Proof.
  intros Hm Hk.
  apply (triple_bind _ _ _ (fun _ _ tr => reported tr)); auto.
Qed.

Lemma reports_try_catch {S A} (m : M S A) h :
  reports m -> (forall e, reports (h e)) -> reports (try_catch m h).
Proof.
  intros Hm Hh.
  apply (triple_try_catch _ _ _ (fun _ _ tr => reported tr)
           (fun _ _ tr => reported tr)); auto.
Qed.

Lemma reports_lift {A} (m : M World A) : says no_load_resume m -> reports (lift m).
Proof. intros Hm. apply reports_says, lift_says, Hm. Qed.

(** An await that belongs to no load. *)
Lemma reports_await what force :
  (forall k, ~ loads what k) -> reports (await_promise what force).
Proof.
  intros Hw. apply reports_says.
  apply await_promise_says.
  - intros a. eapply says_weaken; [apply synchronous_no_load_resume|].
    apply perform_synchronous.
  - exact I.
  - intros b. destruct what; try exact I; now destruct (Hw trackId).
Qed.

(** The fetch and the read of a load. *)
Lemma await_load_goes_on t what :
  loads what t -> (forall k, what <> AwDecode k) ->
  triple (fun (_ : Task) tr => reported tr) (await_promise what false)
    (fun o _ tr => load_goes_on t o tr).
Proof.
  intros Hl Hd.
  eapply triple_conseq;
    [apply (await_reports nobody nobody what false)|auto|].
  intros [v|e|] _ tr H; unfold load_goes_on, reported; cbv beta in H;
    [| |exact H].
  - eapply reported_but_weaken; [| |exact H]; cbv beta; [|auto].
    intros k [Hk|Hk]; [exact Hk|now destruct (Hd k)].
  - eapply reported_but_weaken; [| |exact H]; cbv beta; [auto|].
    intros k [[]|Hk]. destruct what; try destruct Hl; cbn [loads] in *; congruence.
Qed.

Lemma loadAudioBuffer_reports r t u : reports (loadAudioBuffer r t u).
Proof.
  intros [w sched] tr H. unfold loadAudioBuffer. rewrite bind_getW.
  destruct (_ || _).
  { cbn [ret outcome_of world_of trace_of fst snd]. now rewrite app_nil_r. }
  refine (triple_try_catch (fun _ tr => reported tr) _ _
            (fun o _ tr => load_goes_on t o tr)
            (fun _ _ tr => reported tr) _ _ _ _ (mkTask w sched) tr H).
  - unfold await.
    apply (triple_bind _ _ _ (fun o _ tr => load_goes_on t o tr));
      [apply await_load_goes_on; [reflexivity|discriminate]| |auto|auto].
    intros response. change (fun (_ : Task) tr => load_goes_on t (Normal response) tr)
      with (fun (_ : Task) tr => reported tr).
    apply (triple_bind _ _ _ (fun o _ tr => load_goes_on t o tr));
      [apply await_load_goes_on; [reflexivity|discriminate]| |auto|auto].
    intros arrayBuffer.
    change (fun (_ : Task) tr => load_goes_on t (Normal arrayBuffer) tr)
      with (fun (_ : Task) tr => reported tr).
    apply (triple_bind _ _ _
             (fun o _ tr =>
                match o with
                | Normal _ => reported_but (fun k => k = t) nobody tr
                | _ => load_goes_on t o tr
                end)); [| |auto|auto].
    + eapply triple_conseq;
        [apply (await_reports nobody nobody (AwDecode t) false)|auto|].
      intros [v|e|] _ tr1 H1; cbv beta in H1; unfold load_goes_on; [| |exact H1];
        (eapply reported_but_weaken; [| |exact H1]); cbv beta.
      * intros k [[]|Hk]. now injection Hk.
      * auto.
      * auto.
      * intros k [[]|Hk]. exact (eq_sym Hk).
    + intros audioBuffer s1 tr1 H1. rewrite bind_lift_modify.
      cbn [emit outcome_of world_of trace_of fst snd]. unfold load_goes_on.
      now apply reported_after_log.
  - intros e s1 tr1 H1. cbn [emit outcome_of world_of trace_of fst snd].
    now apply reported_after_error.
  - intros a s1 tr1 H1. exact H1.
  - intros s1 tr1 H1. exact H1.
Qed.

Lemma load_missing_reports r l : forall n, reports (load_missing r l n).
Proof.
  induction l as [|t l IH]; intros n.
  - apply reports_says, says_ret.
  - cbn [load_missing]. unfold getW.
    apply reports_bind; [apply reports_lift, says_get|]. intros w.
    destruct (bool_decide _); [apply IH|].
    destruct (Track.url t) as [u|]; [|apply IH].
    destruct (Track.has_url t); [|apply IH].
    apply reports_bind; [apply loadAudioBuffer_reports|]. intros _.
    apply reports_bind; [apply reports_lift, says_get|]. intros w'. apply IH.
Qed.

Lemma play_fallback_reports l : reports (play_fallback l).
Proof.
  unfold play_fallback.
  apply reports_bind.
  { apply reports_lift. clear. induction l as [|t l IH]; simpl;
      unfold update_element; says_tac; exact IH. }
  intros els. destruct (0 <? length els)%nat; cbn [when];
    [|apply reports_says, says_ret].
  apply reports_try_catch;
    [|intros _; apply reports_says, says_emit; exact I].
  unfold getW.
  apply reports_bind; [apply reports_lift, says_get|]. intros w.
  apply reports_bind; [apply reports_await; intros k []|]. intros _.
  apply reports_bind.
  { apply reports_lift. unfold element_play, update_element. says_tac. exact I. }
  intros _.
  apply reports_bind; [apply reports_await; intros k []|]. intros _.
  apply reports_says, says_ret.
Qed.

Lemma playAll_reports r : reports (playAll r).
Proof.
  unfold playAll. cbv zeta.
  apply reports_try_catch.
  2:{ intros _. apply reports_says.
      apply says_bind; [apply says_emit; exact I|].
      intros _. apply lift_says, says_modify. }
  destruct (length _ =? 0)%nat.
  { apply reports_says. says_tac; exact I. }
  apply reports_bind.
  { apply reports_lift. unfold element_pause, update_element. says_tac. exact I. }
  intros _. unfold getW.
  apply reports_bind; [apply reports_lift, says_get|]. intros w.
  apply reports_bind.
  { unfold await. destruct (audioContextRef w) as [[]|];
      try (apply reports_says, says_ret).
    apply reports_bind; [apply reports_await; intros k []|].
    intros _. apply reports_lift, says_modify. }
  intros _.
  apply reports_bind; [apply reports_lift, says_modify|]. intros _.
  apply reports_bind; [apply reports_lift, says_get|]. intros w'.
  destruct (_ && _).
  - apply reports_bind; [apply load_missing_reports|].
    intros _. apply reports_lift.
    eapply says_weaken; [|apply start_loaded_synchronous].
    intros e [He _]. now apply synchronous_no_load_resume.
  - apply play_fallback_reports.
Qed.

(** In the commands of a [playAll] call, every fulfilled decode is reported
    loaded and every load with a rejected promise is reported failed. *)
Lemma playAll_reports_every_load r s :
  (forall k, In (Resume (AwDecode k) true) (trace_of (playAll r s)) ->
     In (ConsoleLog (MsgBufferLoaded k)) (trace_of (playAll r s))) /\
  (forall k, load_rejected_in (trace_of (playAll r s)) k ->
     In (ConsoleError (MsgLoadFailed k)) (trace_of (playAll r s))).
Proof.
  assert (H0 : reported []) by (split; intros k H; [destruct H|];
    destruct H as [[u []]|[[]|[]]]).
  destruct (playAll_reports r s [] H0) as [H1 H2]. cbn [app] in H1, H2.
  split; intros k H; [destruct (H1 k H) as [[]|Hin]|destruct (H2 k H) as [[]|Hin]];
    exact Hin.
Qed.

End ReportFacts.

(** C4, as the code has it. On the Web Audio path [playAll] never throws,
    and with enough answers it returns. Every load whose decode is
    fulfilled is reported loaded, and every load whose fetch, read or decode
    is rejected is reported failed. While an awaited load has not settled
    nothing is started, however long that takes: there is no timer on this
    path. When the context cannot be resumed nothing is started either.
    Otherwise, when the call returns, it has started exactly the
    playable tracks whose clip is in the cache, in list order, and warned
    "cannot play" for exactly the others. A clip that was cached at the call
    or decoded by it is started unless the user removed its track
    meanwhile; a started track had its clip at the call or had it decoded by
    the call; and a track whose load failed is reported twice, by the
    [console.error] of the load and by the "cannot play" warning, and is not
    started (unless another load for the same identifier succeeded). A
    failed load stops no other track. *)
Theorem playAll_starts_exactly_the_decoded_tracks r s :
  wf (world s) -> has_context (world s) -> r_webAudioSupported r = true ->
  List.filter Track.has_url (r_tracks r) <> [] ->
  (forall e, outcome_of (playAll r s) <> Throw e) /\
  ((3 + 3 * length (r_tracks r) <= length (schedule s))%nat ->
   outcome_of (playAll r s) = Normal tt) /\
  ((forall k, In (Resume (AwDecode k) true) (trace_of (playAll r s)) ->
      In (ConsoleLog (MsgBufferLoaded k)) (trace_of (playAll r s))) /\
   (forall k, load_rejected_in (trace_of (playAll r s)) k ->
      In (ConsoleError (MsgLoadFailed k)) (trace_of (playAll r s)))) /\
  (outcome_of (playAll r s) = Pending ->
   started_tracks (trace_of (playAll r s)) = []) /\
  (In (Resume AwResume false) (trace_of (playAll r s)) ->
   started_tracks (trace_of (playAll r s)) = []) /\
  (outcome_of (playAll r s) = Normal tt ->
   ~ In (Resume AwResume false) (trace_of (playAll r s)) ->
   started_tracks (trace_of (playAll r s)) =
     map Track.id
       (List.filter (buffered (world (world_of (playAll r s))))
          (List.filter Track.has_url (r_tracks r))) /\
   cannot_play_warnings (trace_of (playAll r s)) =
     map Track.name
       (List.filter (fun t => negb (buffered (world (world_of (playAll r s))) t))
          (List.filter Track.has_url (r_tracks r))) /\
   forall c, In c (List.filter Track.has_url (r_tracks r)) ->
     (buffered (world s) c = true \/
      In (ConsoleLog (MsgBufferLoaded (Track.id c))) (trace_of (playAll r s)) ->
      In (Track.id c) (started_tracks (trace_of (playAll r s))) \/
      absent (Track.id c) (world (world_of (playAll r s)))) /\
     (In (Track.id c) (started_tracks (trace_of (playAll r s))) ->
      buffered (world s) c = true \/
      In (ConsoleLog (MsgBufferLoaded (Track.id c))) (trace_of (playAll r s))) /\
     (In (ConsoleError (MsgLoadFailed (Track.id c))) (trace_of (playAll r s)) ->
      In (ConsoleLog (MsgBufferLoaded (Track.id c))) (trace_of (playAll r s)) \/
      (~ In (Track.id c) (started_tracks (trace_of (playAll r s))) /\
       In (Track.name c) (cannot_play_warnings (trace_of (playAll r s)))))).
Proof.
  intros Hwf Hc Hs Hne.
  split; [apply playAll_never_throws|]. split; [apply playAll_completes|].
  split; [apply playAll_reports_every_load|].
  destruct (playAll_webaudio_shape r s Hwf Hc Hs Hne)
    as [[Ho Hq]|[(Ho & Hq & Hr)|(Ho & sb & trb & [Ht Hcb] & Hb & Hst & _ & Ew & Etr)]].
  - destruct (before_start_nothing _ Hq) as [E _].
    split; [auto|]. split; [auto|]. rewrite Ho. discriminate.
  - destruct (before_start_nothing _ Hq) as [E _].
    split; [auto|]. split; [auto|]. intros _ Hn. now destruct Hn.
  - set (playable := List.filter Track.has_url (r_tracks r)) in *.
    set (tr := trace_of (playAll r s)) in *.
    set (final := world (world_of (playAll r s))) in *.
    assert (Hu : forall t, In t playable -> Track.has_url t = true).
    { intros t Hin. apply filter_In in Hin. tauto. }
    destruct (start_loaded_trace r playable (world sb) (tied_wf _ _ _ Ht) Hcb Hs Hu)
      as (_ & S1 & S2 & S3).
    destruct (before_start_nothing trb (before_barrier_starts trb Hb)) as [B1 B2].
    assert (Ebuf : forall x, buffered final x = buffered (world sb) x).
    { intros x. unfold final, buffered. rewrite Ew. cbn [world]. now rewrite S3. }
    assert (Est : started_tracks tr =
                  map Track.id (List.filter (buffered (world sb)) playable)).
    { rewrite Etr. unfold started_tracks in *. now rewrite omap_app, B1, S1. }
    assert (Ewn : cannot_play_warnings tr =
                  map Track.name
                    (List.filter (fun t => negb (buffered (world sb) t)) playable)).
    { rewrite Etr. unfold cannot_play_warnings in *. now rewrite omap_app, B2, S2. }
    assert (Hrep : forall e, ~ no_report e -> In e tr -> In e trb).
    { intros e He Hin. rewrite Etr in Hin. apply in_app_or in Hin as [Hin|Hin];
        [exact Hin|]. apply start_loaded_reports_nothing in Hin. tauto. }
    assert (Habs : forall k, absent k (world sb) -> absent k final).
    { intros k Hk. unfold final, absent. rewrite Ew. cbn [world].
      now rewrite start_loaded_keeps_tracks. }
    assert (Hin_st : forall c, In c playable -> cached (world sb) (Track.id c) ->
                               In (Track.id c) (started_tracks tr)).
    { intros c Hin Hcc. rewrite Est. apply in_map. apply filter_In.
      split; [exact Hin|now apply buffered_cached]. }
    assert (Hst_in : forall k, In k (started_tracks tr) -> cached (world sb) k).
    { intros k Hk. rewrite Est in Hk. apply in_map_iff in Hk as (x & <- & Hx).
      apply filter_In in Hx as [_ Hx]. now apply buffered_cached. }
    split; [rewrite Ho; discriminate|]. split.
    { intros Hin. exfalso. rewrite Etr in Hin. apply in_app_or in Hin as [Hin|Hin].
      - revert Hin. apply in_before_barrier; [exact Hb|auto].
      - apply start_loaded_reports_nothing in Hin. now destruct Hin as [[] _]. }
    intros _ _. split; [|split].
    + rewrite Est. f_equal. apply filter_ext. intros x. now rewrite Ebuf.
    + rewrite Ewn. f_equal. apply filter_ext. intros x. now rewrite Ebuf.
    + intros c Hin. split; [|split].
      * intros H.
        assert (H' : cached (world s) (Track.id c) \/
                     In (ConsoleLog (MsgBufferLoaded (Track.id c))) trb).
        { destruct H as [H|H]; [left; now apply buffered_cached|right].
          apply Hrep; [auto|exact H]. }
        destruct (tied_kept _ _ _ Ht _ H') as [Hk|Hk];
          [left; now apply Hin_st|right; now apply Habs].
      * intros H. apply Hst_in in H.
        destruct (tied_new _ _ _ Ht _ H) as [H0|H0].
        -- left. now apply buffered_cached.
        -- right. rewrite Etr. apply in_or_app. now left.
      * intros H. apply Hrep in H; [|auto].
        destruct (tied_failed _ _ _ Ht _ H) as [H0|H0].
        -- right. split; [intros H1; apply H0, Hst_in, H1|].
           rewrite Ewn. apply in_map. apply filter_In. split; [exact Hin|].
           apply negb_true_iff. now apply buffered_uncached.
        -- left. rewrite Etr. apply in_or_app. now left.
Qed.

(** A run of [playAll]: the band, where the piano's clip is decoded and the
    drums' fetch is rejected. *)
Lemma playAll_of_the_band_with_the_drums_failing :
  outcome_of (playAll (render band)
    (mkTask band [fulfils 0; fulfils 0; fulfils 0; fulfils 12; rejects])) = Normal tt /\
  ~ In (Resume AwResume false) (trace_of (playAll (render band)
    (mkTask band [fulfils 0; fulfils 0; fulfils 0; fulfils 12; rejects]))) /\
  started_tracks (trace_of (playAll (render band)
    (mkTask band [fulfils 0; fulfils 0; fulfils 0; fulfils 12; rejects]))) = [1] /\
  cannot_play_warnings (trace_of (playAll (render band)
    (mkTask band [fulfils 0; fulfils 0; fulfils 0; fulfils 12; rejects]))) =
    ["Drum Set"] /\
  In (Track.id piano) (started_tracks (trace_of (playAll (render band)
    (mkTask band [fulfils 0; fulfils 0; fulfils 0; fulfils 12; rejects])))) /\
  ~ In (Track.id drums) (started_tracks (trace_of (playAll (render band)
    (mkTask band [fulfils 0; fulfils 0; fulfils 0; fulfils 12; rejects])))) /\
  In (Track.name drums) (cannot_play_warnings (trace_of (playAll (render band)
    (mkTask band [fulfils 0; fulfils 0; fulfils 0; fulfils 12; rejects])))).
Proof.
  assert (Hne : List.filter Track.has_url (r_tracks (render band)) <> [])
    by (vm_compute; discriminate).
  assert (Hc : has_context (world (mkTask band
    [fulfils 0; fulfils 0; fulfils 0; fulfils 12; rejects])))
    by (vm_compute; discriminate).
  assert (Ho : outcome_of (playAll (render band)
    (mkTask band [fulfils 0; fulfils 0; fulfils 0; fulfils 12; rejects])) = Normal tt)
    by (vm_compute; reflexivity).
  assert (Hr : ~ In (Resume AwResume false) (trace_of (playAll (render band)
    (mkTask band [fulfils 0; fulfils 0; fulfils 0; fulfils 12; rejects])))).
  { vm_compute. intros H. repeat (destruct H as [H|H]; [discriminate H|]). exact H. }
  assert (Hwf : wf (world (mkTask band
    [fulfils 0; fulfils 0; fulfils 0; fulfils 12; rejects])))
    by apply wf_page_loaded.
  assert (Hs : r_webAudioSupported (render band) = true) by reflexivity.
  destruct (playAll_starts_exactly_the_decoded_tracks (render band)
              (mkTask band [fulfils 0; fulfils 0; fulfils 0; fulfils 12; rejects])
              Hwf Hc Hs Hne) as (_ & _ & _ & _ & _ & H5).
  destruct (H5 Ho Hr) as (E1 & E2 & H6).
  split; [exact Ho|]. split; [exact Hr|].
  split; [rewrite E1; vm_compute; reflexivity|].
  split; [rewrite E2; vm_compute; reflexivity|].
  assert (Hp : In piano (List.filter Track.has_url (r_tracks (render band))))
    by (vm_compute; auto).
  assert (Hd : In drums (List.filter Track.has_url (r_tracks (render band))))
    by (vm_compute; auto).
  destruct (H6 piano Hp) as (P1 & _).
  destruct (H6 drums Hd) as (_ & _ & D3).
  assert (Hl : buffered (world (mkTask band
      [fulfils 0; fulfils 0; fulfils 0; fulfils 12; rejects])) piano = true \/
    In (ConsoleLog (MsgBufferLoaded (Track.id piano))) (trace_of (playAll (render band)
      (mkTask band [fulfils 0; fulfils 0; fulfils 0; fulfils 12; rejects]))))
    by (right; vm_compute; auto 20).
  assert (Hf : In (ConsoleError (MsgLoadFailed (Track.id drums)))
    (trace_of (playAll (render band)
      (mkTask band [fulfils 0; fulfils 0; fulfils 0; fulfils 12; rejects]))))
    by (vm_compute; auto 20).
  assert (Hn : ~ In (ConsoleLog (MsgBufferLoaded (Track.id drums)))
    (trace_of (playAll (render band)
      (mkTask band [fulfils 0; fulfils 0; fulfils 0; fulfils 12; rejects])))).
  { vm_compute. intros H. repeat (destruct H as [H|H]; [discriminate H|]). exact H. }
  split.
  - destruct (P1 Hl) as [P|P]; [exact P|].
    exfalso. apply (P piano); [vm_compute; auto|reflexivity].
  - destruct (D3 Hf) as [D|D]; [destruct (Hn D)|exact D].
Defined.

(** C4 as stated fails. With the piano clip decoded and the drums' fetch
    rejected, [playAll] starts the one piano voice but reports the drums'
    failure twice, once from the load and once from the start step. While
    the drums' fetch has not settled nothing is started, and no timer runs
    on this path. When the user removes the piano track while the drums
    load, both decodes succeed and are reported, but one voice is started.
    Without Web Audio, one element that does not become ready within its 5
    seconds keeps every element from playing, the ready one too. *)
Lemma one_failure_is_reported_twice_or_stops_all :
  (started_tracks (trace_of (playAll (render band)
     (mkTask band [fulfils 0; fulfils 0; fulfils 0; fulfils 12; rejects]))) = [1] /\
   failure_reports (trace_of (playAll (render band)
     (mkTask band [fulfils 0; fulfils 0; fulfils 0; fulfils 12; rejects]))) =
     [MsgLoadFailed 2; MsgCannotPlay "Drum Set"]) /\
  (outcome_of (playAll (render band)
     (mkTask band [fulfils 0; fulfils 0; fulfils 0; fulfils 12])) = Pending /\
   started_tracks (trace_of (playAll (render band)
     (mkTask band [fulfils 0; fulfils 0; fulfils 0; fulfils 12]))) = []) /\
  (In (ConsoleLog (MsgBufferLoaded 1)) (trace_of (playAll (render band)
     (mkTask band [fulfils 0; fulfils 0; fulfils 0; fulfils 12;
                   removes_then_fulfils 1 0; fulfils 0; fulfils 8]))) /\
   In (ConsoleLog (MsgBufferLoaded 2)) (trace_of (playAll (render band)
     (mkTask band [fulfils 0; fulfils 0; fulfils 0; fulfils 12;
                   removes_then_fulfils 1 0; fulfils 0; fulfils 8]))) /\
   started_tracks (trace_of (playAll (render band)
     (mkTask band [fulfils 0; fulfils 0; fulfils 0; fulfils 12;
                   removes_then_fulfils 1 0; fulfils 0; fulfils 8]))) = [2] /\
   failure_reports (trace_of (playAll (render band)
     (mkTask band [fulfils 0; fulfils 0; fulfils 0; fulfils 12;
                   removes_then_fulfils 1 0; fulfils 0; fulfils 8]))) =
     [MsgCannotPlay "Piano"]) /\
  (map readyState (elements fallback_page) = [2; 4] /\
   outcome_of (playAll (render fallback_page) (mkTask fallback_page [rejects])) =
     Normal tt /\
   element_plays (trace_of (playAll (render fallback_page)
     (mkTask fallback_page [rejects]))) = []).
Proof.
  split; [split; vm_compute; reflexivity|].
  split; [split; vm_compute; reflexivity|].
  split; [|repeat split; vm_compute; reflexivity].
  split; [vm_compute; auto 20|]. split; [vm_compute; auto 20|].
  split; vm_compute; reflexivity.
Qed.

(** ** [playAll] on the fallback path *)

Section FallbackRun.

Lemma prepare_elements_result l : forall w,
  exists w',
    prepare_elements l w = (w', [], Normal (registered_elements (audioRefs w) l)).
Proof.
  induction l as [|t l IH]; intros w.
  - exists w. reflexivity.
  - cbn [prepare_elements]. rewrite bind_get.
    unfold registered_elements. cbn [omap list_omap].
    fold (registered_elements (audioRefs w) l).
    destruct (audioRefs w !! Track.id t) as [e|] eqn:He.
    + destruct (Track.has_url t).
      * unfold update_element. rewrite !bind_modify.
        destruct (IH (set_elements (alter (set_el_muted (Track.is_muted t)) e)
                        (set_elements (alter (set_currentTime 0%float) e) w)))
          as (w' & Hrun).
        exists w'. rewrite bind_unfold, Hrun. reflexivity.
      * destruct (IH w) as (w' & Hrun). exists w'. exact Hrun.
    + destruct (IH w) as (w' & Hrun). exists w'. rewrite Hrun.
      destruct (Track.has_url t); reflexivity.
Qed.

Lemma play_elements_trace els : forall w,
  trace_of (forEach els element_play w) = map ElementPlay els /\
  outcome_of (forEach els element_play w) = Normal tt.
Proof.
  induction els as [|e els IH]; intros w; [split; reflexivity|].
  cbn [forEach]. unfold element_play at 1 3, update_element.
  rewrite bind_assoc, bind_modify, bind_emit.
  cbn [trace_of outcome_of fst snd map].
  destruct (IH (set_elements (alter (set_paused false) e) w)) as [-> ->].
  split; reflexivity.
Qed.

Lemma not_suspend_after_starts e : not_suspend e -> after_starts e.
Proof. destruct e; try (intros _; exact I). intros []. Qed.

Lemma meanwhile_not_start acts w :
  Forall not_start (trace_of (forEach acts perform w)).
Proof. apply (says_forEach not_start acts perform perform_no_start). Qed.

Lemma map_play_no_suspend els : Forall not_suspend (map ElementPlay els).
Proof. induction els; constructor; [exact I|assumption]. Qed.

Lemma settled_await what t b :
  (forall k u, what <> AwFetch k u) -> Forall not_suspend t ->
  settled (Suspend what :: t ++ [Resume what b]).
Proof.
  intros Hw Ht. split.
  - now apply resumed_await.
  - intros k u [X|Hin].
    + injection X as ->. now destruct (Hw k u).
    + apply in_app_or in Hin as [Hin|[X|[]]]; [|discriminate].
      now apply in_no_suspend in Hin.
Qed.

(** How an [await] shows in the trace. *)
Lemma await_promise_trace what force s :
  (outcome_of (await_promise what force s) = Pending /\
   trace_of (await_promise what force s) = [Suspend what]) \/
  exists mw b,
    trace_of (await_promise what force s) = Suspend what :: mw ++ [Resume what b] /\
    Forall not_start mw /\ Forall not_suspend mw /\
    ((exists v, outcome_of (await_promise what force s) = Normal v) /\ b = true \/
     outcome_of (await_promise what force s) = Throw Rejection /\ b = false).
Proof.
  destruct s as [w [|turn rest]]; [left; split; reflexivity|right].
  rewrite await_promise_run. cbn [outcome_of trace_of fst snd].
  eexists _, _. split; [reflexivity|].
  split; [apply meanwhile_not_start|]. split; [apply meanwhile_no_suspend|].
  unfold fulfilled. destruct (answer turn) as [v|]; [left; eauto|].
  destruct force; [left; eauto|right; auto].
Qed.

Variable E : list nat -> Prop.

(** The wait for the elements to be ready. *)
Lemma await_ready_triple els force :
  triple (fun (_ : Task) tr => Forall not_start tr /\ settled tr)
    (await_promise (AwReady els) force)
    (fun o _ tr =>
       match o with
       | Normal _ =>
           Forall not_start tr /\ settled tr /\ In (Resume (AwReady els) true) tr
       | _ => Forall not_start tr
       end).
Proof.
  intros s tr [Hq Hst].
  destruct (await_promise_trace (AwReady els) force s)
    as [[-> ->]|(mw & b & -> & H1 & H2 & [[[v ->] ->]|[-> ->]])].
  - apply Forall_app. split; [exact Hq|repeat constructor].
  - split; [|split].
    + apply Forall_app. split; [exact Hq|]. constructor; [exact I|].
      apply Forall_app. split; [exact H1|repeat constructor].
    + apply settled_app; [exact Hst|]. apply settled_await; [|exact H2].
      intros k u X. discriminate.
    + apply in_or_app. right. right. apply in_or_app. right. now left.
  - apply Forall_app. split; [exact Hq|]. constructor; [exact I|].
    apply Forall_app. split; [exact H1|repeat constructor].
Qed.

(** The [play()] calls, and the wait for them to settle. *)
Lemma play_and_wait_triple els :
  E els ->
  triple (fun (_ : Task) tr =>
            Forall not_start tr /\ settled tr /\ In (Resume (AwReady els) true) tr)
    (_ <~ lift (forEach els element_play);
     _ <~ await_promise (AwPlaying els) true;
     ret tt)
    (fun o _ tr => fallback_trace E tr /\ forall e, o <> Throw e).
Proof.
  intros HE s tr (Hq & Hst & Hin). rewrite bind_unfold, lift_run.
  destruct (play_elements_trace els (world s)) as [Etr Eo].
  rewrite Eo, Etr. cbn [outcome_of world_of trace_of fst snd].
  rewrite bind_unfold.
  match goal with
  | |- context [await_promise ?what ?force ?s1] =>
      destruct (await_promise_trace what force s1)
        as [[Ho Ht]|(mw & b & Ht & H1 & H2 & [[[v Ho] ->]|[Ho ->]])];
      rewrite Ho, Ht
  end; cbn [outcome_of world_of trace_of fst snd ret]; rewrite ?app_nil_r.
  - split; [|discriminate]. right. exists els, tr, [Suspend (AwPlaying els)].
    split; [exact HE|]. split; [reflexivity|]. split; [exact Hq|].
    split; [exact Hst|]. split; [exact Hin|].
    split; repeat constructor.
  - split; [|discriminate]. right.
    exists els, tr, (Suspend (AwPlaying els) :: mw ++ [Resume (AwPlaying els) true]).
    split; [exact HE|]. split; [reflexivity|]. split; [exact Hq|].
    split; [exact Hst|]. split; [exact Hin|]. split.
    + constructor; [exact I|]. apply Forall_app. split; [exact H1|repeat constructor].
    + constructor; [exact I|]. apply Forall_app. split; [|repeat constructor].
      eapply Forall_impl; [exact H2|apply not_suspend_after_starts].
  - exfalso.
    match type of Ho with
    | outcome_of (await_promise ?what true ?s1) = _ =>
        destruct s1 as [w1 [|t1 rest1]]; [discriminate|];
        rewrite await_promise_run in Ho; cbn [outcome_of snd] in Ho;
        destruct (answer t1); discriminate
    end.
Qed.

(** The fallback branch. *)
Lemma play_fallback_triple l :
  triple (fun s tr => Forall not_start tr /\ settled tr /\
                      E (registered_elements (audioRefs (world s)) l))
    (play_fallback l)
    (fun o _ tr => fallback_trace E tr /\ forall e, o <> Throw e).
Proof.
  intros s tr (Hq & Hst & HE). unfold play_fallback.
  rewrite bind_unfold, lift_run.
  destruct (prepare_elements_result l (world s)) as (w' & ->).
  cbn [outcome_of world_of trace_of fst snd app].
  set (els := registered_elements (audioRefs (world s)) l) in *.
  destruct (0 <? length els)%nat; cbn [when].
  2:{ cbn [ret outcome_of trace_of fst snd]. rewrite app_nil_r.
      split; [now left|discriminate]. }
  set (s1 := mkTask w' (schedule s)).
  refine (triple_try_catch
            (fun (_ : Task) tr => Forall not_start tr /\ settled tr) _ _
            (fun o _ tr =>
               match o with
               | Throw _ => Forall not_start tr
               | _ => fallback_trace E tr
               end)
            (fun o _ tr => fallback_trace E tr /\ forall e, o <> Throw e)
            _ _ _ _ s1 tr (conj Hq Hst)).
  - apply triple_getW. intros w.
    apply (triple_bind _ _ _
             (fun o _ tr =>
                match o with
                | Normal _ =>
                    Forall not_start tr /\ settled tr /\
                    In (Resume (AwReady els) true) tr
                | _ => Forall not_start tr
                end)).
    + eapply triple_conseq;
        [apply await_ready_triple|intros s2 tr2 [H _]; exact H|auto].
    + intros _. eapply triple_conseq;
        [apply (play_and_wait_triple els HE)|auto|].
      intros [a|e|] s2 tr2 [H1 H2]; [exact H1|now destruct (H2 e)|exact H1].
    + auto.
    + intros s2 tr2 H. now left.
  - intros e s2 tr2 H. cbn [emit outcome_of world_of trace_of fst snd].
    split; [|discriminate]. left. apply Forall_app.
    split; [exact H|repeat constructor].
  - intros a s2 tr2 H. split; [exact H|discriminate].
  - intros s2 tr2 H. split; [exact H|discriminate].
Qed.

End FallbackRun.

Section FallbackBody.
Variable r : Render.
Variable w0 : World.
Hypothesis Hpath : r_webAudioSupported r = false \/ audioContextRef w0 = None.

Lemma before_barrier_not_start e : before_barrier e -> not_start e.
Proof. destruct e; try (intros _; exact I); intros []. Qed.

Lemma rewind_elements_keeps_refs l w :
  audioRefs (world_of (rewind_elements l w)) = audioRefs w.
Proof.
  assert (H : keeps (fun w' => audioRefs w' = audioRefs w) (rewind_elements l)).
  { unfold rewind_elements, element_pause, update_element. cbv zeta.
    repeat first [keeps_step | apply keeps_modify; intros ? H; exact H]. }
  now apply H.
Qed.

Lemma playAll_body_fallback :
  triple (fun s tr =>
            Forall not_start tr /\ settled tr /\
            (audioContextRef w0 = None ->
             audioRefs (world s) = audioRefs w0 /\ audioContextRef (world s) = None))
    (_ <~ lift (rewind_elements (r_tracks r));
     w <~ getW;
     _ <~ match audioContextRef w with
          | Some suspended =>
              _ <~ await AwResume;
              lift (modify (set_audioContextRef (Some running)))
          | _ => ret tt
          end;
     _ <~ lift (modify (set_isPlayingAll true));
     w' <~ getW;
     if r_webAudioSupported r && bool_decide (is_Some (audioContextRef w'))
     then
       buffersLoaded <~ load_missing r (List.filter Track.has_url (r_tracks r)) 0;
       lift (start_loaded r (List.filter Track.has_url (r_tracks r)))
     else play_fallback (List.filter Track.has_url (r_tracks r)))
    (fun o _ tr =>
       fallback_end
         (fun els =>
            audioContextRef w0 = None ->
            els = registered_elements (audioRefs w0)
                    (List.filter Track.has_url (r_tracks r)))
         o tr).
Proof.
  set (F := fun (s : Task) (tr : list Event) =>
            Forall not_start tr /\ settled tr /\
            (audioContextRef w0 = None ->
             audioRefs (world s) = audioRefs w0 /\ audioContextRef (world s) = None)).
  set (R := fun (A : Type) (o : Outcome A) (s : Task) (tr : list Event) =>
            match o with Normal _ => F s tr | _ => Forall not_start tr end).
  apply (triple_bind _ _ _ (R unit)); [| |auto|intros s tr H; now left].
  { intros s tr (Hq & Hst & Hinv). rewrite lift_run.
    destruct (rewind_elements_quiet (r_tracks r) (world s))
      as (_ & _ & E3 & Q1 & Q2 & _).
    assert (Hq' : Forall not_start (tr ++ trace_of (rewind_elements (r_tracks r) (world s)))).
    { apply Forall_app. split; [exact Hq|].
      eapply Forall_impl; [exact Q1|apply before_barrier_not_start]. }
    cbn [outcome_of world_of trace_of fst snd].
    destruct (outcome_of (rewind_elements (r_tracks r) (world s)));
      cbn [R]; try exact Hq'.
    split; [exact Hq'|]. split.
    - apply settled_app; [exact Hst|now apply no_suspend_settled].
    - cbn [world]. rewrite rewind_elements_keeps_refs, E3. exact Hinv. }
  intros []. apply triple_getW. intros w.
  apply (triple_bind _ _ _ (R unit)); [| |auto|intros s tr H; now left].
  { intros s tr [HF Hw]. destruct Hw.
    destruct (audioContextRef (world s)) as [[]|] eqn:Ec;
      try (cbn [ret outcome_of world_of trace_of fst snd R]; rewrite app_nil_r;
           exact HF).
    destruct HF as (Hq & Hst & Hinv).
    assert (Hctx : audioContextRef w0 <> None).
    { intros H0. destruct (Hinv H0) as [_ H1]. congruence. }
    rewrite bind_unfold. unfold await.
    destruct (await_promise_trace AwResume false s)
      as [[Ho Ht]|(mw & b & Ht & H1 & H2 & [[[v Ho] ->]|[Ho ->]])];
      rewrite Ho, Ht; cbn [outcome_of world_of trace_of fst snd lift modify R].
    - apply Forall_app. split; [exact Hq|repeat constructor].
    - rewrite app_nil_r. split; [|split].
      + apply Forall_app. split; [exact Hq|]. constructor; [exact I|].
        apply Forall_app. split; [exact H1|repeat constructor].
      + apply settled_app; [exact Hst|]. apply settled_await; [|exact H2].
        intros k u X. discriminate.
      + intros H0. now destruct Hctx.
    - apply Forall_app. split; [exact Hq|]. constructor; [exact I|].
      apply Forall_app. split; [exact H1|repeat constructor]. }
  intros [].
  apply (triple_bind _ _ _ (R unit)); [| |auto|intros s tr H; now left].
  { intros s tr H. cbn [lift modify outcome_of world_of trace_of fst snd R].
    rewrite app_nil_r. exact H. }
  intros []. apply triple_getW. intros w' s tr [(Hq & Hst & Hinv) Hw]. destruct Hw.
  assert (Hcond : r_webAudioSupported r &&
                  bool_decide (is_Some (audioContextRef (world s))) = false).
  { destruct Hpath as [->|H0]; [reflexivity|].
    destruct (Hinv H0) as [_ ->]. rewrite bool_decide_eq_false_2.
    - apply andb_false_r.
    - intros [x Hx]. discriminate. }
  rewrite Hcond.
  pose proof (play_fallback_triple
                (fun els =>
                   audioContextRef w0 = None ->
                   els = registered_elements (audioRefs w0)
                           (List.filter Track.has_url (r_tracks r)))
                (List.filter Track.has_url (r_tracks r)) s tr) as [HF Hnt].
  { split; [exact Hq|]. split; [exact Hst|].
    intros H0. now destruct (Hinv H0) as [-> _]. }
  destruct (outcome_of (play_fallback (List.filter Track.has_url (r_tracks r)) s))
    as [a|e|]; [exact HF|now destruct (Hnt e)|exact HF].
Qed.

End FallbackBody.

(** Where a [playAll] call can end on the fallback path. *)
Lemma playAll_fallback_shape r s :
  List.filter Track.has_url (r_tracks r) <> [] ->
  r_webAudioSupported r = false \/ audioContextRef (world s) = None ->
  fallback_trace
    (fun els =>
       audioContextRef (world s) = None ->
       els = registered_elements (audioRefs (world s))
               (List.filter Track.has_url (r_tracks r)))
    (trace_of (playAll r s)).
Proof.
  intros Hne Hpath.
  pose proof (playAll_body_fallback r (world s) Hpath s []) as HB.
  cbn [app] in HB.
  unfold playAll. cbv zeta.
  destruct (length (List.filter Track.has_url (r_tracks r)) =? 0)%nat eqn:E.
  { apply Nat.eqb_eq, length_zero_iff_nil in E. now destruct Hne. }
  change (forEach (r_tracks r) _) with (rewind_elements (r_tracks r)).
  rewrite try_catch_unfold.
  match type of HB with
  | _ -> fallback_end _ (outcome_of ?x) _ => destruct (outcome_of x) as [[]|e|] eqn:Ho
  end.
  - apply HB. split; [constructor|]. split; [apply settled_nil|auto].
  - rewrite bind_emit. cbn [lift modify outcome_of world_of trace_of fst snd].
    left. apply Forall_app. split; [|repeat constructor].
    apply HB. split; [constructor|]. split; [apply settled_nil|auto].
  - apply HB. split; [constructor|]. split; [apply settled_nil|auto].
Qed.

(** ** Every start comes after the barrier *)

Section BarrierFacts.

Lemma is_start_not_start e : is_start e -> ~ not_start e.
Proof. destruct e; intros H; try destruct H; auto. Qed.

Lemma split_at_first {A} (P : A -> Prop) (l1 l2 pre : list A) e post :
  l1 ++ l2 = pre ++ e :: post -> Forall P l1 -> ~ P e ->
  exists x, pre = l1 ++ x /\ l2 = x ++ e :: post.
Proof.
  revert pre. induction l1 as [|a l1 IH]; intros pre Heq Hall He.
  - exists pre. auto.
  - inversion Hall as [|? ? Ha Hall']; subst. destruct pre as [|b pre].
    + cbn in Heq. injection Heq as -> _. now destruct He.
    + cbn in Heq. injection Heq as -> Heq.
      destruct (IH pre Heq Hall' He) as (x & -> & ->). exists x. auto.
Qed.

Lemma split_at_last {A} (P : A -> Prop) (l1 l2 pre : list A) e post :
  l1 ++ l2 = pre ++ e :: post -> Forall P l2 -> ~ P e ->
  exists y, post = y ++ l2 /\ l1 = pre ++ e :: y.
Proof.
  revert pre. induction l1 as [|a l1 IH]; intros pre Heq Hall He.
  - cbn in Heq. subst l2. exfalso. apply He.
    rewrite Forall_forall in Hall. apply Hall, list_elem_of_In.
    apply in_or_app. right. now left.
  - destruct pre as [|b pre].
    + cbn in Heq. injection Heq as -> Heq. exists l1. auto.
    + cbn in Heq. injection Heq as -> Heq.
      destruct (IH pre Heq Hall He) as (y & -> & ->). exists y. auto.
Qed.

(** A start command found in a trace of three parts, of which the first
    and the last contain no start, lies in the middle part. *)
Lemma start_in_the_middle pre0 block post0 pre e post :
  pre0 ++ block ++ post0 = pre ++ e :: post -> is_start e ->
  Forall not_start pre0 -> Forall not_start post0 ->
  exists b1 b2, block = b1 ++ e :: b2 /\ pre = pre0 ++ b1 /\ post = b2 ++ post0.
Proof.
  intros Heq He H1 H2.
  destruct (split_at_first not_start _ _ _ _ _ Heq H1 (is_start_not_start e He))
    as (b1 & -> & Heq').
  destruct (split_at_last not_start _ _ _ _ _ Heq' H2 (is_start_not_start e He))
    as (b2 & -> & ->).
  exists b1, b2. auto.
Qed.

Lemma staged_facts pre0 b1 e b2 post0 :
  settled pre0 -> Forall not_suspend (b1 ++ e :: b2) ->
  Forall not_start post0 -> Forall after_starts post0 ->
  settled (pre0 ++ b1) /\ Forall after_starts (b2 ++ post0) /\
  (forall mid e' rest,
     b2 ++ post0 = mid ++ e' :: rest -> is_start e' -> Forall not_suspend mid).
Proof.
  intros Hst Hb H1 H2.
  apply Forall_app in Hb as [Hb1 Hb2]. inversion Hb2 as [|? ? _ Hb3]; subst.
  split; [|split].
  - apply settled_app; [exact Hst|now apply no_suspend_settled].
  - apply Forall_app. split; [|exact H2].
    eapply Forall_impl; [exact Hb3|apply not_suspend_after_starts].
  - intros mid e' rest Heq He'.
    destruct (split_at_last not_start _ _ _ _ _ Heq H1 (is_start_not_start e' He'))
      as (y & _ & ->).
    apply Forall_app in Hb3. tauto.
Qed.

Lemma not_start_no_plays tr :
  Forall not_start tr -> element_plays tr = [] /\ started_tracks tr = [].
Proof.
  induction 1 as [|e tr He _ [IH1 IH2]]; [split; reflexivity|].
  unfold element_plays, started_tracks in *. cbn [omap list_omap].
  rewrite IH1, IH2. destruct e; try destruct He; split; reflexivity.
Qed.

Lemma element_plays_app t1 t2 :
  element_plays (t1 ++ t2) = element_plays t1 ++ element_plays t2.
Proof. apply omap_app. Qed.

Lemma started_tracks_app t1 t2 :
  started_tracks (t1 ++ t2) = started_tracks t1 ++ started_tracks t2.
Proof. apply omap_app. Qed.

Lemma element_plays_map els : element_plays (map ElementPlay els) = els.
Proof.
  induction els as [|e els IH]; [reflexivity|].
  unfold element_plays in *. cbn [map omap list_omap]. now rewrite IH.
Qed.

Lemma not_start_has_no_start tr pre e post :
  Forall not_start tr -> tr = pre ++ e :: post -> is_start e -> False.
Proof.
  intros H -> He. apply Forall_app in H as [_ H].
  inversion H as [|? ? H1 _]; subst. exact (is_start_not_start e He H1).
Qed.

Lemma before_start_not_start e : before_start e -> not_start e.
Proof. destruct e; try (intros _; exact I); intros []. Qed.

Lemma playAll_nothing_playable r s :
  List.filter Track.has_url (r_tracks r) = [] ->
  Forall not_start (trace_of (playAll r s)).
Proof.
  intros E. unfold playAll. cbv zeta. rewrite E. cbn [length Nat.eqb].
  rewrite try_catch_unfold, bind_emit.
  cbn [emit outcome_of world_of trace_of fst snd]. repeat constructor.
Qed.

End BarrierFacts.

(** C1. Take any start command of a [playAll] call: a [source.start()] on
    the Web Audio path, a [play()] on the fallback path. Every promise
    awaited before it has settled. If it is a source start, every playable
    track of the render had its clip in the cache when the call began or has
    had its load reported before, as loaded or as failed. If it is a
    [play()], the readiness of all the elements that the call plays has been
    awaited together and with success before, and without an audio context
    these are the elements registered for the playable tracks. After it no
    promise is awaited except the one of the [play()] calls, and between it
    and any later start command there is no suspension at all. Source nodes
    are started for tracks of the list only, and with enough answers in the
    schedule the call returns. *)
Theorem playAll_starts_after_the_barrier r s pre e post :
  wf (world s) ->
  trace_of (playAll r s) = pre ++ e :: post -> is_start e ->
  settled pre /\
  (forall n t, e = SourceStart n t ->
   forall c, In c (List.filter Track.has_url (r_tracks r)) ->
     buffered (world s) c = true \/ load_settled_in pre (Track.id c)) /\
  (forall el, e = ElementPlay el ->
   In (Resume (AwReady (element_plays (trace_of (playAll r s)))) true) pre /\
   (audioContextRef (world s) = None ->
    element_plays (trace_of (playAll r s)) =
      registered_elements (audioRefs (world s))
        (List.filter Track.has_url (r_tracks r)))) /\
  Forall after_starts post /\
  (forall mid e' rest,
     post = mid ++ e' :: rest -> is_start e' -> Forall not_suspend mid) /\
  Forall (starts_within (map Track.id (r_tracks r))) (trace_of (playAll r s)) /\
  ((3 + 3 * length (r_tracks r) <= length (schedule s))%nat ->
   outcome_of (playAll r s) = Normal tt).
Proof.
  intros Hwf Heq He.
  pose proof (playAll_completes r s) as Hdone.
  assert (Hquiet : Forall not_start (trace_of (playAll r s)) -> False).
  { intros H. exact (not_start_has_no_start _ _ _ _ H Heq He). }
  destruct (List.filter Track.has_url (r_tracks r)) as [|c0 l0] eqn:Ep.
  { exfalso. apply Hquiet. now apply playAll_nothing_playable. }
  assert (Hne : List.filter Track.has_url (r_tracks r) <> []) by (rewrite Ep; discriminate).
  rewrite <- Ep in *. clear c0 l0 Ep.
  assert (Hpath : (r_webAudioSupported r = true /\ has_context (world s)) \/
                  (r_webAudioSupported r = false \/ audioContextRef (world s) = None)).
  { destruct (r_webAudioSupported r); [|auto].
    unfold has_context. destruct (audioContextRef (world s)); [left|auto].
    split; [reflexivity|discriminate]. }
  destruct Hpath as [[Hs Hc]|Hpath].
  - destruct (playAll_webaudio_shape r s Hwf Hc Hs Hne)
      as [[_ Hq]|[(_ & Hq & _)|(_ & sb & trb & _ & Hb & Hst & Hcand & _ & Etr)]].
    + exfalso. apply Hquiet.
      eapply Forall_impl; [exact Hq|apply before_start_not_start].
    + exfalso. apply Hquiet.
      eapply Forall_impl; [exact Hq|apply before_start_not_start].
    + rewrite Etr in Heq.
      pose proof (start_loaded_synchronous r (List.filter Track.has_url (r_tracks r))
                    (world sb)) as Hsync.
      assert (Heq' : trb ++ trace_of (start_loaded r
                       (List.filter Track.has_url (r_tracks r)) (world sb)) ++ [] =
                     pre ++ e :: post) by now rewrite app_nil_r.
      destruct (start_in_the_middle _ _ _ _ _ _ Heq' He) as (b1 & b2 & Eb & -> & ->);
        [eapply Forall_impl; [exact Hb|apply before_barrier_not_start]|constructor|].
      rewrite Eb in Hsync.
      destruct (staged_facts trb b1 e b2 [] Hst) as (F1 & F2 & F3);
        [eapply Forall_impl; [exact Hsync|]|constructor|constructor|].
      { intros [] [H _]; try exact I; destruct H. }
      split; [exact F1|]. split; [|split; [|split; [exact F2|split; [exact F3|]]]].
      * intros n t _ c Hin. destruct (Hcand c Hin) as [H|H].
        -- left. now apply buffered_cached.
        -- right. now apply load_settled_more.
      * intros el ->. exfalso.
        rewrite Forall_forall in Hsync.
        assert (Hin : ElementPlay el ∈ b1 ++ ElementPlay el :: b2).
        { apply list_elem_of_In, in_or_app. right. now left. }
        destruct (Hsync _ Hin) as (_ & _ & Hno). now apply (Hno el).
      * split; [apply playAll_starts_within|exact Hdone].
  - pose proof (playAll_fallback_shape r s Hne Hpath)
      as [Hq|(els & tr0 & post0 & HE & Etr & Hq0 & Hst & Hin & Hp1 & Hp2)].
    + now destruct (Hquiet Hq).
    + assert (Eplays : element_plays (trace_of (playAll r s)) = els).
      { rewrite Etr, !element_plays_app, element_plays_map.
        rewrite (proj1 (not_start_no_plays _ Hq0)), (proj1 (not_start_no_plays _ Hp1)).
        cbn [app]. apply app_nil_r. }
      rewrite Eplays. rewrite Etr in Heq.
      destruct (start_in_the_middle _ _ _ _ _ _ Heq He Hq0 Hp1)
        as (b1 & b2 & Eb & -> & ->).
      pose proof (map_play_no_suspend els) as Hsync. rewrite Eb in Hsync.
      destruct (staged_facts tr0 b1 e b2 post0 Hst Hsync Hp1 Hp2) as (F1 & F2 & F3).
      split; [exact F1|]. split; [|split; [|split; [exact F2|split; [exact F3|]]]].
      * intros n t -> c _. exfalso.
        assert (Hin' : In (SourceStart n t) (map ElementPlay els)).
        { rewrite Eb. apply in_or_app. right. now left. }
        apply in_map_iff in Hin' as (x & X & _). discriminate.
      * intros el _. split; [apply in_or_app; now left|exact HE].
      * split; [apply playAll_starts_within|exact Hdone].
Qed.

(** A run of [playAll]: the band, where the piano's clip is decoded and the drums'
    fetch is rejected. The piano's source node is started after both loads
    have been reported, and only a warning follows. *)
Lemma playAll_of_the_band_starts_after_the_barrier :
  trace_of (playAll (render band)
    (mkTask band [fulfils 0; fulfils 0; fulfils 0; fulfils 12; rejects])) =
    [Suspend AwResume; Resume AwResume true;
     Suspend (AwFetch 1 "blob:piano"); Resume (AwFetch 1 "blob:piano") true;
     Suspend (AwArrayBuffer 1); Resume (AwArrayBuffer 1) true;
     Suspend (AwDecode 1); Resume (AwDecode 1) true;
     ConsoleLog (MsgBufferLoaded 1);
     Suspend (AwFetch 2 "blob:drums"); Resume (AwFetch 2 "blob:drums") false;
     ConsoleError (MsgLoadFailed 2)]
    ++ SourceStart 0 1 :: [ConsoleWarn (MsgCannotPlay "Drum Set")] /\
  settled
    [Suspend AwResume; Resume AwResume true;
     Suspend (AwFetch 1 "blob:piano"); Resume (AwFetch 1 "blob:piano") true;
     Suspend (AwArrayBuffer 1); Resume (AwArrayBuffer 1) true;
     Suspend (AwDecode 1); Resume (AwDecode 1) true;
     ConsoleLog (MsgBufferLoaded 1);
     Suspend (AwFetch 2 "blob:drums"); Resume (AwFetch 2 "blob:drums") false;
     ConsoleError (MsgLoadFailed 2)] /\
  (buffered band piano = true \/
   load_settled_in
     [Suspend AwResume; Resume AwResume true;
      Suspend (AwFetch 1 "blob:piano"); Resume (AwFetch 1 "blob:piano") true;
      Suspend (AwArrayBuffer 1); Resume (AwArrayBuffer 1) true;
      Suspend (AwDecode 1); Resume (AwDecode 1) true;
      ConsoleLog (MsgBufferLoaded 1);
      Suspend (AwFetch 2 "blob:drums"); Resume (AwFetch 2 "blob:drums") false;
      ConsoleError (MsgLoadFailed 2)] 1) /\
  (buffered band drums = true \/
   load_settled_in
     [Suspend AwResume; Resume AwResume true;
      Suspend (AwFetch 1 "blob:piano"); Resume (AwFetch 1 "blob:piano") true;
      Suspend (AwArrayBuffer 1); Resume (AwArrayBuffer 1) true;
      Suspend (AwDecode 1); Resume (AwDecode 1) true;
      ConsoleLog (MsgBufferLoaded 1);
      Suspend (AwFetch 2 "blob:drums"); Resume (AwFetch 2 "blob:drums") false;
      ConsoleError (MsgLoadFailed 2)] 2) /\
  Forall after_starts [ConsoleWarn (MsgCannotPlay "Drum Set")].
Proof.
  assert (E : trace_of (playAll (render band)
    (mkTask band [fulfils 0; fulfils 0; fulfils 0; fulfils 12; rejects])) =
    [Suspend AwResume; Resume AwResume true;
     Suspend (AwFetch 1 "blob:piano"); Resume (AwFetch 1 "blob:piano") true;
     Suspend (AwArrayBuffer 1); Resume (AwArrayBuffer 1) true;
     Suspend (AwDecode 1); Resume (AwDecode 1) true;
     ConsoleLog (MsgBufferLoaded 1);
     Suspend (AwFetch 2 "blob:drums"); Resume (AwFetch 2 "blob:drums") false;
     ConsoleError (MsgLoadFailed 2)]
    ++ SourceStart 0 1 :: [ConsoleWarn (MsgCannotPlay "Drum Set")])
    by (vm_compute; reflexivity).
  assert (Hwf : wf (world (mkTask band
    [fulfils 0; fulfils 0; fulfils 0; fulfils 12; rejects])))
    by apply wf_page_loaded.
  assert (Hst : is_start (SourceStart 0 1)) by exact I.
  destruct (playAll_starts_after_the_barrier (render band)
              (mkTask band [fulfils 0; fulfils 0; fulfils 0; fulfils 12; rejects])
              _ (SourceStart 0 1) [ConsoleWarn (MsgCannotPlay "Drum Set")]
              Hwf E Hst) as (H1 & H2 & _ & H4 & _).
  split; [exact E|]. split; [exact H1|].
  split; [|split; [|exact H4]].
  - apply (H2 0%nat 1 eq_refl piano). vm_compute. auto.
  - apply (H2 0%nat 1 eq_refl drums). vm_compute. auto.
Defined.

(** C7, as the code has it. Toggling a track's mute from the page never
    fails, issues no command, changes the track's record in its mute flag
    only, and leaves the source nodes, the registrations and the level of
    every other track as they were. Which of the two outputs follows the
    flag is decided by the page's playing flag, not by whether the track has
    a voice: while the page shows Web Audio playback ([isPlayingAll] and
    [webAudioSupported]) the gain of the track's gain node, if it has one,
    becomes 0 when muted and 1 when unmuted, and no audio element changes;
    otherwise no gain changes, even if the track's voice is sounding, and
    the [muted] attribute of the track's audio element, if it has one, is
    set to the new flag. *)
Theorem mute_toggle_changes_only_that_level w t :
  wf w ->
  outcome_of (toggleMute (render w) t w) = Normal tt /\
  trace_of (toggleMute (render w) t w) = [] /\
  rest_untouched w (world_of (toggleMute (render w) t w)) /\
  tracks (world_of (toggleMute (render w) t w)) =
    with_mute_flag t (toggled t w) (tracks w) /\
  (forall t', t' <> t ->
     level_of (world_of (toggleMute (render w) t w)) t' = level_of w t') /\
  (isPlayingAll w && webAudioSupported w = true ->
     elements (world_of (toggleMute (render w) t w)) = elements w /\
     level_of (world_of (toggleMute (render w) t w)) t =
       (fun _ => if toggled t w then 0%float else 1%float) <$> level_of w t) /\
  (isPlayingAll w && webAudioSupported w = false ->
     gains (world_of (toggleMute (render w) t w)) = gains w /\
     level_of (world_of (toggleMute (render w) t w)) t = level_of w t /\
     elements (world_of (toggleMute (render w) t w)) =
       match audioRefs w !! t with
       | Some e => alter (set_el_muted (toggled t w)) e (elements w)
       | None => elements w
       end).
Proof.
  intros Hwf. rewrite toggleMute_run. cbv zeta.
  change (negb match find_track t (r_tracks (render w)) with
               | Some x => Track.is_muted x
               | None => false
               end) with (toggled t w).
  cbn [render r_isPlayingAll r_webAudioSupported r_tracks].
  cbn [outcome_of trace_of world_of fst snd].
  split; [reflexivity|]. split; [reflexivity|].
  destruct (isPlayingAll w && webAudioSupported w) eqn:Hplaying.
  - destruct (gainNodesRef w !! t) as [g|] eqn:Hg.
    + split; [repeat split|]. split; [reflexivity|]. split; [|split].
      * intros t' Hne.
        rewrite level_of_alter_other.
        -- unfold level_of. reflexivity.
        -- apply (wf_frame w); try reflexivity. exact Hwf.
        -- intros t0 H0 ->. apply Hne.
           exact (wf_gain_inj w Hwf _ _ g H0 Hg).
      * intros _. split; [reflexivity|].
        unfold level_of. wsimpl. rewrite Hg, list_lookup_alter_eq.
        destruct (gains w !! g); reflexivity.
      * discriminate.
    + split; [repeat split|]. split; [reflexivity|]. split; [|split].
      * intros t' _. reflexivity.
      * intros _. split; [reflexivity|].
        unfold level_of. wsimpl. now rewrite Hg.
      * discriminate.
  - destruct (audioRefs w !! t) as [e|] eqn:He.
    + split; [repeat split|]. split; [reflexivity|]. split; [|split].
      * intros t' _. reflexivity.
      * discriminate.
      * intros _. repeat split.
    + split; [repeat split|]. split; [reflexivity|]. split; [|split].
      * intros t' _. reflexivity.
      * discriminate.
      * intros _. repeat split.
Qed.

Lemma muting_the_playing_piano :
  wf piano_playing /\
  trace_of (toggleMute (render piano_playing) 1 piano_playing) = [] /\
  level_of piano_playing 1 = Some 1%float /\
  level_of (world_of (toggleMute (render piano_playing) 1 piano_playing)) 1 =
    Some 0%float.
Proof.
  assert (Hwf : wf piano_playing).
  { apply (playAll_keeps _ (mkTask _ _)). apply wf_page_loaded. }
  destruct (mute_toggle_changes_only_that_level piano_playing 1 Hwf)
    as (_ & Htr & _ & _ & _ & Hplay & _).
  split; [exact Hwf|]. split; [exact Htr|].
  assert (Hl : level_of piano_playing 1 = Some 1%float) by (vm_compute; reflexivity).
  split; [exact Hl|].
  destruct (Hplay eq_refl) as [_ Hlevel].
  rewrite Hlevel, Hl. vm_compute. reflexivity.
Defined.

(** C7 as stated fails. When Stop is pressed while [playAll] loads, the
    call goes on and starts the voice, and the page shows that nothing is
    playing: a mute toggle then sets the stored flag and the [muted]
    attribute of the audio element, and leaves the gain of the sounding
    voice at 1. And for a track without a voice the toggle changes the
    [muted] attribute of the track's audio element besides the stored
    flag. *)
Lemma mute_toggle_misses_a_sounding_voice :
  (reachable stopped_while_loading /\
   isPlayingAll stopped_while_loading = false /\
   omap (fun nd => if active nd then Some (owner nd) else None)
     (sources stopped_while_loading) = [1] /\
   level_of stopped_while_loading 1 = Some 1%float /\
   map Track.is_muted
     (tracks (world_of (toggleMute (render stopped_while_loading) 1
                          stopped_while_loading))) = [true] /\
   level_of (world_of (toggleMute (render stopped_while_loading) 1
                         stopped_while_loading)) 1 = Some 1%float /\
   map el_muted
     (elements (world_of (toggleMute (render stopped_while_loading) 1
                            stopped_while_loading))) = [true]) /\
  (reachable piano_page /\
   sources piano_page = [] /\
   map el_muted (elements piano_page) = [false] /\
   map el_muted
     (elements (world_of (toggleMute (render piano_page) 1 piano_page))) = [true]).
Proof.
  assert (H1 : reachable piano_page).
  { apply (reach_step (page_loaded [piano] true)); [constructor|].
    apply step_handler. }
  split.
  - split.
    { apply (reach_step piano_page); [exact H1|]. apply step_playAll. }
    repeat split; vm_compute; reflexivity.
  - split; [exact H1|]. repeat split; vm_compute; reflexivity.
Qed.

(** ** Stopping again after a commit *)

Section CommitFacts.

Lemma map_playback_alter (f : AudioElement -> AudioElement) (e : nat)
    (l : list AudioElement) :
  (forall el, playback (f el) = playback el) ->
  map playback (alter f e l) = map playback l.
Proof.
  intros Hf. revert e. induction l as [|a l IH]; intros e; [reflexivity|].
  destruct e as [|e]; cbn [alter list_alter map]; [now rewrite Hf|].
  f_equal. apply IH.
Qed.

Lemma same_sound_refl w : same_sound w w.
Proof. repeat split. Qed.

Lemma same_sound_trans w1 w2 w3 :
  same_sound w1 w2 -> same_sound w2 w3 -> same_sound w1 w3.
Proof.
  unfold same_sound.
  intros (A1 & A2 & A3 & A4 & A5 & A6 & A7 & A8 & A9 & A10 & A11 & A12)
         (B1 & B2 & B3 & B4 & B5 & B6 & B7 & B8 & B9 & B10 & B11 & B12).
  repeat split; congruence.
Qed.

Lemma same_sound_at_rest w w' e :
  same_sound w w' -> element_at_rest w e -> element_at_rest w' e.
Proof.
  intros Hs Hr el' Hel'.
  assert (Hp : map playback (elements w') = map playback (elements w))
    by apply Hs.
  assert (H1 : map playback (elements w') !! e = Some (playback el')).
  { change (map playback) with (fmap (M := list) playback).
    now rewrite list_lookup_fmap, Hel'. }
  rewrite Hp in H1. change (map playback) with (fmap (M := list) playback) in H1.
  rewrite list_lookup_fmap in H1.
  destruct (elements w !! e) as [el|] eqn:Hel; [|discriminate].
  cbn in H1. unfold playback in H1. injection H1 as E1 E2 E3 E4 E5.
  destruct (Hr el Hel) as [Hpa Hct]. split; congruence.
Qed.

Lemma keeps_forEach_in {S A} (I : S -> Prop) (l : list A) (f : A -> M S unit) :
  (forall x, In x l -> keeps I (f x)) -> keeps I (forEach l f).
Proof.
  induction l as [|x l IH]; intros Hf; simpl.
  - apply keeps_ret.
  - apply keeps_bind; [apply Hf; now left|].
    intros _. apply IH. intros y Hy. apply Hf. now right.
Qed.

Lemma commitRefs_safe : safe wf commitRefs.
Proof.
  unfold commitRefs, audioRef_detach, audioRef_attach, removeEndedListener,
    update_element.
  safe_tac.
Qed.

Ltac same_sound_modify :=
  apply keeps_modify; intros ? Hs; unfold same_sound in *; wsimpl;
  rewrite ?map_playback_alter by (intros ?; reflexivity); exact Hs.

Lemma commitRefs_same_sound w : same_sound w (world_of (commitRefs w)).
Proof.
  assert (H : keeps (same_sound w) commitRefs).
  { unfold commitRefs, audioRef_detach, audioRef_attach, removeEndedListener,
      update_element. cbv zeta.
    repeat first [keeps_step | same_sound_modify]. }
  apply H, same_sound_refl.
Qed.

(** After a commit an element is registered for a track only if it was
    before. *)
Lemma commitRefs_refs w k e :
  audioRefs (world_of (commitRefs w)) !! k = Some e -> audioRefs w !! k = Some e.
Proof.
  assert (H : keeps (fun s => forall k e, audioRefs s !! k = Some e ->
                                          audioRefs w !! k = Some e)
                (fun s => forEach
                   (omap (fun t => if Track.has_url t
                                   then pair t <$> audioRefs w !! Track.id t
                                   else None) (tracks w))
                   (fun p => audioRef_detach p.1) s)).
  { apply keeps_forEach. intros p.
    unfold audioRef_detach, removeEndedListener, update_element. cbv zeta.
    repeat first
      [ keeps_step
      | apply keeps_modify; intros s Hs; cbv beta; wsimpl;
        first [exact Hs
              | intros k0 e0 H0; apply lookup_delete_Some in H0 as [_ H0];
                now apply Hs ] ]. }
  assert (H' : keeps (fun s => forall k e, audioRefs s !! k = Some e ->
                                           audioRefs w !! k = Some e)
                 (fun s => forEach
                    (omap (fun t => if Track.has_url t
                                    then pair t <$> audioRefs w !! Track.id t
                                    else None) (tracks w))
                    (fun p => audioRef_attach p.1 p.2) s)).
  { apply keeps_forEach_in. intros [t el] Hin.
    apply list_elem_of_In, list_elem_of_omap in Hin as (t0 & _ & Hin).
    assert (Hreg : audioRefs w !! Track.id t = Some el).
    { destruct (Track.has_url t0); [|discriminate].
      destruct (audioRefs w !! Track.id t0) as [el0|] eqn:E0; [|discriminate].
      cbn in Hin. injection Hin as <- <-. exact E0. }
    unfold audioRef_attach, update_element. cbv zeta. cbn [fst snd].
    repeat first
      [ keeps_step
      | apply keeps_modify; intros s Hs; cbv beta; wsimpl;
        first [exact Hs
              | intros k0 e0 H0;
                destruct (decide (k0 = Track.id t)) as [->|Hne];
                [rewrite lookup_insert_eq in H0; congruence
                |rewrite lookup_insert_ne in H0 by congruence; now apply Hs] ] ]. }
  unfold commitRefs. cbv zeta. rewrite bind_get.
  pose proof (keeps_bind _ _ _ H (fun _ : unit => H')) as HK.
  intros Hk. exact (HK w (fun k0 e0 H0 => H0) k e Hk).
Qed.

End CommitFacts.

Section QuietStop.

Lemma stop_element_pauses t : says is_pause (stop_element t).
Proof.
  unfold stop_element, element_pause, removeEndedListener, update_element.
  says_tac. exact I.
Qed.

(** Stopping an element that is at rest changes its listeners at most. *)
Lemma element_stopped_same_sound t w :
  (forall e, Track.has_url t = true -> audioRefs w !! Track.id t = Some e ->
             element_at_rest w e) ->
  same_sound w (element_stopped t w).
Proof.
  intros H. unfold element_stopped.
  destruct (audioRefs w !! Track.id t) as [e|] eqn:He; [|apply same_sound_refl].
  destruct (Track.has_url t) eqn:Hu; [|apply same_sound_refl].
  specialize (H e eq_refl eq_refl).
  assert (E : alter (set_currentTime 0%float) e
                (alter (set_paused true) e (elements w)) = elements w).
  { rewrite (alter_fixed (set_paused true)).
    - apply alter_fixed. intros el Hel. apply set_currentTime_fixed.
      now apply (H el).
    - intros el Hel. apply set_paused_fixed. now apply (H el). }
  destruct (loopHandlers w !! Track.id t) as [h|]; unfold same_sound; wsimpl;
    rewrite E, ?map_playback_alter by (intros ?; reflexivity); repeat split.
Qed.

Lemma forEach_keep_in {S A} (I0 J : S -> Prop) (f : A -> M S unit) (l : list A) :
  (forall x, safe I0 (f x)) ->
  (forall y s, In y l -> I0 s -> J s -> J (world_of (f y s))) ->
  forall s, I0 s -> J s -> J (world_of (forEach l f s)).
Proof.
  intros Hsafe. induction l as [|a l IH]; intros Hkeep s Hs HJ; [exact HJ|].
  simpl. rewrite bind_unfold.
  destruct (Hsafe a s Hs) as [Hs1 [[] Ho]]. rewrite Ho.
  cbn [world_of fst]. apply IH; [|exact Hs1|].
  - intros y s0 Hy. apply Hkeep. now right.
  - apply Hkeep; [now left|exact Hs|exact HJ].
Qed.

(** [stopAll] when nothing of the list is playing: it pauses the paused
    elements again and removes what handlers it finds; nothing that sounds
    or shows changes. *)
Lemma stopAll_when_quiet r w :
  wf w -> quiet r w ->
  same_sound w (world_of (stopAll r w)) /\
  Forall is_pause (trace_of (stopAll r w)).
Proof.
  intros Hwf (Hplay & Hsrc & Hel).
  rewrite stopAll_passes, bind_modify, (set_isPlayingAll_fixed w Hplay).
  rewrite bind_unfold.
  assert (E : when (r_webAudioSupported r) (forEach (r_tracks r) stop_voice) w =
              (w, [], Normal tt)).
  { destruct (r_webAudioSupported r); [|reflexivity].
    apply stop_voices_at_rest. now apply Hsrc. }
  rewrite E. cbn [outcome_of world_of trace_of fst snd app]. split.
  - apply (forEach_keep_in wf
             (fun s => same_sound w s /\ audioRefs s = audioRefs w)
             stop_element (r_tracks r));
      [apply stop_element_safe| |exact Hwf|split; [apply same_sound_refl|reflexivity]].
    intros y s Hy Hs [Hss Hrefs]. rewrite stop_element_world.
    destruct (element_stopped_frame y s) as (_ & Er & _).
    split; [|now rewrite Er].
    eapply same_sound_trans; [exact Hss|].
    apply element_stopped_same_sound. intros e Hu He.
    apply (same_sound_at_rest w s e Hss). apply (Hel y e Hy Hu).
    now rewrite <- Hrefs.
  - apply (says_forEach is_pause (r_tracks r) stop_element stop_element_pauses).
Qed.

End QuietStop.

(** *** A commit installs the restart handlers afresh *)

Section CommitInstalls.

Lemma audioRef_attach_run t e w :
  audioRef_attach t e w =
    (if bool_decide (is_Some (loopHandlers w !! Track.id t))
     then set_audioRefs (<[Track.id t := e]>) w
     else set_elements
            (alter (set_timeupdateListeners (fun l => l ++ [S (nextHandler w)])) e)
            (set_elements
               (alter (set_endedListeners (fun l => l ++ [nextHandler w])) e)
               (set_loopHandlers (<[Track.id t := nextHandler w]>)
                  (set_nextHandler (S (S (nextHandler w)))
                     (set_audioRefs (<[Track.id t := e]>) w)))),
     [], Normal tt).
Proof.
  unfold audioRef_attach, update_element. cbv zeta.
  rewrite bind_modify, bind_get. wsimpl.
  destruct (bool_decide (is_Some (loopHandlers w !! Track.id t)));
    cbn [negb when]; [reflexivity|].
  rewrite !bind_modify. reflexivity.
Qed.

Lemma audioRef_detach_run t w :
  audioRef_detach t w =
    (set_audioRefs (delete (Track.id t))
       match loopHandlers w !! Track.id t with
       | Some h =>
           set_loopHandlers (delete (Track.id t))
             match audioRefs w !! Track.id t with
             | Some a => set_elements (alter (set_endedListeners (filter (fun x => x <> h))) a) w
             | None => w
             end
       | None => w
       end, [], Normal tt).
Proof.
  unfold audioRef_detach, removeEndedListener, update_element.
  rewrite bind_get.
  destruct (loopHandlers w !! Track.id t) as [h|].
  - destruct (audioRefs w !! Track.id t) as [a|]; mnorm; reflexivity.
  - mnorm. reflexivity.
Qed.

Lemma forEach_run_step {A} (f : A -> M World unit) x l w w' :
  f x w = (w', [], Normal tt) ->
  world_of (forEach (x :: l) f w) = world_of (forEach l f w').
Proof.
  intros E. cbn [forEach]. rewrite bind_unfold, E. reflexivity.
Qed.

Lemma audioRef_detach_forgets t w :
  loopHandlers (world_of (audioRef_detach t w)) !! Track.id t = None.
Proof.
  rewrite audioRef_detach_run. cbn [world_of fst]. wsimpl.
  destruct (loopHandlers w !! Track.id t) as [h|] eqn:E; wsimpl;
    [apply lookup_delete_eq|exact E].
Qed.

Lemma audioRef_detach_keeps_none t w k :
  loopHandlers w !! k = None ->
  loopHandlers (world_of (audioRef_detach t w)) !! k = None.
Proof.
  intros H. rewrite audioRef_detach_run. cbn [world_of fst]. wsimpl.
  destruct (loopHandlers w !! Track.id t) as [h|]; wsimpl; [|exact H].
  apply lookup_delete_None. right.
  destruct (audioRefs w !! Track.id t); exact H.
Qed.

Lemma detach_all_forgets (l : list (Track.t * nat)) : forall w p,
  In p l ->
  loopHandlers (world_of (forEach l (fun p => audioRef_detach p.1) w))
    !! Track.id p.1 = None.
Proof.
  assert (Hk : forall (l : list (Track.t * nat)) w k,
    loopHandlers w !! k = None ->
    loopHandlers (world_of (forEach l (fun p => audioRef_detach p.1) w)) !! k = None).
  { clear l. induction l as [|q l IH]; intros w k H; [exact H|].
    rewrite (forEach_run_step _ q l w _ (audioRef_detach_run q.1 w)).
    apply IH. pose proof (audioRef_detach_keeps_none q.1 w k H) as H'.
    now rewrite audioRef_detach_run in H'. }
  induction l as [|q l IH]; intros w p Hin; [destruct Hin|].
  rewrite (forEach_run_step _ q l w _ (audioRef_detach_run q.1 w)).
  destruct Hin as [->|Hin]; [|now apply IH].
  apply Hk. pose proof (audioRef_detach_forgets p.1 w) as H'.
  now rewrite audioRef_detach_run in H'.
Qed.

Lemma detach_all_returns (l : list (Track.t * nat)) : forall w,
  outcome_of (forEach l (fun p => audioRef_detach p.1) w) = Normal tt.
Proof.
  induction l as [|q l IH]; intros w; [reflexivity|].
  cbn [forEach]. rewrite bind_unfold, audioRef_detach_run.
  cbn [outcome_of world_of trace_of fst snd]. apply IH.
Qed.

Lemma audioRef_attach_installs t e w :
  loopHandlers w !! Track.id t = None \/ installed w (Track.id t) e ->
  installed (world_of (audioRef_attach t e w)) (Track.id t) e.
Proof.
  intros H. rewrite audioRef_attach_run. cbn [world_of fst].
  destruct (loopHandlers w !! Track.id t) as [h|] eqn:Eh.
  - rewrite bool_decide_eq_true_2 by eauto.
    destruct H as [H|(_ & h' & Hh & Hel)]; [discriminate|].
    split; [wsimpl; apply lookup_insert_eq|].
    exists h'. wsimpl. split; [congruence|exact Hel].
  - rewrite bool_decide_eq_false_2 by (intros [? ?]; discriminate).
    split; [wsimpl; apply lookup_insert_eq|].
    exists (nextHandler w). wsimpl. split; [apply lookup_insert_eq|].
    intros el. rewrite !list_lookup_alter_eq.
    destruct (elements w !! e) as [el0|]; [|discriminate].
    intros [= <-]. cbn [endedListeners set_timeupdateListeners set_endedListeners].
    apply elem_of_app. right. now left.
Qed.

Lemma audioRef_attach_keeps_installed t e w k e0 :
  (Track.id t = k -> e = e0) ->
  installed w k e0 -> installed (world_of (audioRef_attach t e w)) k e0.
Proof.
  intros Hsame (Hreg & h & Hh & Hel).
  assert (Hreg' : <[Track.id t := e]> (audioRefs w) !! k = Some e0).
  { destruct (decide (Track.id t = k)) as [E|Hne].
    - rewrite (Hsame E), <- E. apply lookup_insert_eq.
    - now rewrite lookup_insert_ne. }
  rewrite audioRef_attach_run. cbn [world_of fst].
  destruct (loopHandlers w !! Track.id t) as [h0|] eqn:Eh.
  - rewrite bool_decide_eq_true_2 by eauto.
    split; [wsimpl; exact Hreg'|]. exists h. wsimpl. now split.
  - rewrite bool_decide_eq_false_2 by (intros [? ?]; discriminate).
    split; [wsimpl; exact Hreg'|]. exists h. wsimpl. split.
    + rewrite lookup_insert_ne; [exact Hh|]. intros E. congruence.
    + intros el. destruct (decide (e = e0)) as [->|Hne].
      * rewrite !list_lookup_alter_eq.
        destruct (elements w !! e0) as [el0|] eqn:E0; [|discriminate].
        intros [= <-].
        cbn [endedListeners set_timeupdateListeners set_endedListeners].
        apply elem_of_app. left. now apply Hel.
      * rewrite !list_lookup_alter_ne by exact Hne. apply Hel.
Qed.

Lemma audioRef_attach_keeps_none t e w k :
  k <> Track.id t -> loopHandlers w !! k = None ->
  loopHandlers (world_of (audioRef_attach t e w)) !! k = None.
Proof.
  intros Hne H. rewrite audioRef_attach_run. cbn [world_of fst].
  destruct (bool_decide _); wsimpl; [exact H|].
  rewrite lookup_insert_ne; [exact H|congruence].
Qed.

Lemma attach_all_keeps (l : list (Track.t * nat)) : forall w k e0,
  (forall q, In q l -> Track.id q.1 = k -> q.2 = e0) ->
  installed w k e0 ->
  installed (world_of (forEach l (fun p => audioRef_attach p.1 p.2) w)) k e0.
Proof.
  induction l as [|q l IH]; intros w k e0 Hsame H; [exact H|].
  rewrite (forEach_run_step _ q l w _ (audioRef_attach_run q.1 q.2 w)).
  apply IH; [intros a Ha; apply Hsame; now right|].
  pose proof (audioRef_attach_keeps_installed q.1 q.2 w k e0
                (Hsame q (or_introl eq_refl)) H) as H'.
  now rewrite audioRef_attach_run in H'.
Qed.

Lemma attach_all_installs (l : list (Track.t * nat)) : forall w,
  (forall p q, In p l -> In q l -> Track.id p.1 = Track.id q.1 -> p.2 = q.2) ->
  (forall p, In p l ->
     loopHandlers w !! Track.id p.1 = None \/ installed w (Track.id p.1) p.2) ->
  forall p, In p l ->
    installed (world_of (forEach l (fun p => audioRef_attach p.1 p.2) w))
      (Track.id p.1) p.2.
Proof.
  induction l as [|q l IH]; intros w Hfun Hpre p Hin; [destruct Hin|].
  rewrite (forEach_run_step _ q l w _ (audioRef_attach_run q.1 q.2 w)).
  pose proof (audioRef_attach_installs q.1 q.2 w (Hpre q (or_introl eq_refl))) as Hq.
  rewrite audioRef_attach_run in Hq. cbn [world_of fst] in Hq.
  destruct Hin as [->|Hin].
  { apply attach_all_keeps; [|exact Hq].
    intros a Ha E. exact (Hfun a p (or_intror Ha) (or_introl eq_refl) E). }
  apply IH; [intros a b Ha Hb; apply Hfun; now right| |exact Hin].
  intros a Ha. destruct (decide (Track.id a.1 = Track.id q.1)) as [E|Hne].
  - right. rewrite E, (Hfun a q (or_intror Ha) (or_introl eq_refl) E). exact Hq.
  - destruct (Hpre a (or_intror Ha)) as [H|H].
    + left. pose proof (audioRef_attach_keeps_none q.1 q.2 w _ Hne H) as H'.
      now rewrite audioRef_attach_run in H'.
    + right.
      pose proof (audioRef_attach_keeps_installed q.1 q.2 w _ _
                    (fun E => False_ind _ (Hne (eq_sym E))) H) as H'.
      now rewrite audioRef_attach_run in H'.
Qed.

(** After a commit, every listed track with a URL and a registered element
    has a restart handler again, listening on that element. *)
Lemma commitRefs_installs w t e :
  In t (tracks w) -> Track.has_url t = true ->
  audioRefs w !! Track.id t = Some e ->
  installed (world_of (commitRefs w)) (Track.id t) e.
Proof.
  intros Ht Hu He. unfold commitRefs. cbv zeta. rewrite bind_get.
  set (mounted := omap (fun t => if Track.has_url t
                                 then pair t <$> audioRefs w !! Track.id t
                                 else None) (tracks w)).
  assert (Hm : forall p, In p mounted -> audioRefs w !! Track.id p.1 = Some p.2).
  { intros [t0 e0] Hin.
    apply list_elem_of_In, list_elem_of_omap in Hin as (t1 & _ & Hin).
    destruct (Track.has_url t1); [|discriminate].
    destruct (audioRefs w !! Track.id t1) as [e1|] eqn:E1; [|discriminate].
    cbn in Hin. injection Hin as <- <-. exact E1. }
  assert (Hin : In (t, e) mounted).
  { apply list_elem_of_In, list_elem_of_omap. exists t.
    split; [now apply list_elem_of_In|]. now rewrite Hu, He. }
  assert (Hfun : forall p q, In p mounted -> In q mounted ->
                 Track.id p.1 = Track.id q.1 -> p.2 = q.2).
  { intros p q Hp Hq E. pose proof (Hm p Hp) as H1. pose proof (Hm q Hq) as H2.
    rewrite E in H1. congruence. }
  rewrite bind_unfold, detach_all_returns. cbn [world_of fst].
  apply (attach_all_installs mounted _ Hfun
           (fun p Hp => or_introl (detach_all_forgets mounted w p Hp)) (t, e) Hin).
Qed.

End CommitInstalls.

(** C8, as the code has it. [stopAll], run from the page in a world where
    the refs and the audio graph agree, never fails, also when nothing is
    playing. It ranges over the tracks of the list: afterwards the playing
    flag is off; for every track of the list no source node is registered
    and no node of that track sounds (when Web Audio is supported); and the
    audio element of every listed track with a URL is paused at position
    zero, and its stored loop handler is unregistered and no longer among
    the element's ['ended'] listeners. A second [stopAll] run at once
    leaves the world exactly as the first left it. The next commit installs
    a fresh restart handler on each of these elements; a second [stopAll]
    run after it never fails either, issues [pause()] calls only, removes
    those handlers again, and changes nothing that sounds or shows. A
    second [stopTrackWebAudio] for a track does nothing. *)
Theorem stopAll_is_idempotent w :
  wf w ->
  let w1 := world_of (stopAll (render w) w) in
  let w1c := world_of (commitRefs w1) in
  let w2 := world_of (stopAll (render w1c) w1c) in
  outcome_of (stopAll (render w) w) = Normal tt /\
  isPlayingAll w1 = false /\
  (webAudioSupported w = true ->
   forall t, In t (tracks w) ->
     sourceNodesRef w1 !! Track.id t = None /\
     forall n nd,
       sources w1 !! n = Some nd -> owner nd = Track.id t -> active nd = false) /\
  (forall t e,
     In t (tracks w) -> Track.has_url t = true ->
     audioRefs w !! Track.id t = Some e ->
     element_at_rest w1 e /\ loopHandlers w1 !! Track.id t = None /\
     forall h el,
       loopHandlers w !! Track.id t = Some h ->
       elements w1 !! e = Some el -> h ∉ endedListeners el) /\
  (world_of (stopAll (render w1) w1) = w1 /\
   outcome_of (stopAll (render w1) w1) = Normal tt) /\
  (outcome_of (commitRefs w1) = Normal tt /\
   (forall t e,
      In t (tracks w) -> Track.has_url t = true ->
      audioRefs w !! Track.id t = Some e ->
      installed w1c (Track.id t) e /\
      forall h el,
        loopHandlers w1c !! Track.id t = Some h ->
        elements w2 !! e = Some el -> h ∉ endedListeners el) /\
   outcome_of (stopAll (render w1c) w1c) = Normal tt /\
   Forall is_pause (trace_of (stopAll (render w1c) w1c)) /\
   same_sound w1 w2 /\ at_rest (render w) w2) /\
  (forall t,
     outcome_of (stopTrackWebAudio t w) = Normal tt /\
     stopTrackWebAudio t (world_of (stopTrackWebAudio t w)) =
       (world_of (stopTrackWebAudio t w), [], Normal tt)).
Proof.
  intros Hwf w1 w1c w2.
  destruct (stopAll_reaches_rest (render w) w Hwf)
    as (Hwf' & Ho & (Hplay & Hsrc & Hel) & Hrefs).
  fold w1 in Hwf', Hplay, Hsrc, Hel, Hrefs.
  destruct (stopAll_frame (render w) w) as [Et Es]. fold w1 in Et, Es.
  split; [exact Ho|]. split; [exact Hplay|].
  split; [|split; [|split; [|split]]].
  - intros Hs t Ht. split; [now apply Hsrc|].
    intros n nd Hn Hown. destruct (active nd) eqn:Hact; [|reflexivity].
    pose proof (wf_active _ Hwf' n nd Hn Hact) as Hreg.
    rewrite Hown, (Hsrc Hs t Ht) in Hreg. discriminate.
  - intros t e Ht Hu He.
    assert (He' : audioRefs w1 !! Track.id t = Some e) by now rewrite Hrefs.
    destruct (Hel t e Ht Hu He') as [Hrest Hnone].
    split; [exact Hrest|]. split; [exact Hnone|].
    intros h el Hh Hel'.
    destruct (stopAll_removes_handler (render w) w _ e h Hwf He Hh) as [Hk|[_ Hk]].
    + fold w1 in Hk. rewrite Hnone in Hk. discriminate.
    + now apply Hk.
  - apply stopAll_at_rest_is_fixed; [exact Hwf'|].
    apply (at_rest_same_render (render w)); [exact Et|exact Es|].
    split; [exact Hplay|]. split; [exact Hsrc|exact Hel].
  - destruct (commitRefs_safe w1 Hwf') as [Hwfc [[] Hoc]]. fold w1c in Hwfc.
    pose proof (commitRefs_same_sound w1) as Hss. fold w1c in Hss.
    pose proof Hss as (St & _ & _ & Ss & Sp & _ & _ & Sn & _).
    assert (Hq : quiet (render w1c) w1c).
    { split; [now rewrite Sp|]. cbn [render r_tracks r_webAudioSupported]. split.
      - intros Hs t Ht. rewrite Sn. apply Hsrc.
        + cbn [render r_webAudioSupported]. now rewrite <- Es, <- Ss.
        + cbn [render r_tracks]. now rewrite <- Et, <- St.
      - intros t e Ht Hu He.
        apply (same_sound_at_rest w1 w1c e Hss).
        apply (Hel t e); [cbn [render r_tracks]; now rewrite <- Et, <- St|exact Hu|].
        unfold w1c in He. now apply commitRefs_refs in He. }
    destruct (stopAll_when_quiet (render w1c) w1c Hwfc Hq) as [Hss2 Hp].
    destruct (stopAll_reaches_rest (render w1c) w1c Hwfc)
      as (_ & Ho2 & Hrest2 & Hrefs2).
    fold w2 in Hrest2, Hrefs2.
    split; [exact Hoc|]. split.
    { intros t e Ht Hu He.
      assert (Hi : installed w1c (Track.id t) e).
      { apply commitRefs_installs; [now rewrite Et|exact Hu|now rewrite Hrefs]. }
      split; [exact Hi|]. intros h el Hh Hel2. destruct Hi as [Hreg _].
      destruct (stopAll_removes_handler (render w1c) w1c _ e h Hwfc Hreg Hh)
        as [Hk|[_ Hk]]; [|now apply Hk].
      fold w2 in Hk. destruct Hrest2 as (_ & _ & Hel2').
      destruct (Hel2' t e) as [_ Hnone2];
        [cbn [render r_tracks]; now rewrite St, Et|exact Hu
        |now rewrite Hrefs2|].
      rewrite Hnone2 in Hk. discriminate. }
    split; [exact Ho2|]. split; [exact Hp|].
    split; [exact (same_sound_trans _ _ _ Hss Hss2)|].
    apply (at_rest_same_render (render w1c)); [| |exact Hrest2];
      cbn [render r_tracks r_webAudioSupported]; congruence.
  - intros t. destruct (stopTrackWebAudio_safe t w Hwf) as [_ [[] Ho1]].
    split; [exact Ho1|].
    apply stopTrackWebAudio_idle. now apply stopTrackWebAudio_unregisters.
Qed.

(** A run of [stopAll]: the band with both voices sounding and both [<audio>]
    elements carrying their restart handlers, stopped twice. *)
Lemma stopping_the_playing_band_twice :
  wf band_playing /\
  trace_of (stopAll (render band_playing) band_playing) =
    [SourceStop 0; SourceStop 1; ElementPause 0; ElementPause 1] /\
  map endedListeners (elements band_playing) = [[0%nat]; [2%nat]] /\
  map endedListeners
    (elements (world_of (stopAll (render band_playing) band_playing))) =
    [[]; []] /\
  world_of (stopAll (render (world_of (stopAll (render band_playing) band_playing)))
              (world_of (stopAll (render band_playing) band_playing))) =
    world_of (stopAll (render band_playing) band_playing) /\
  same_sound (world_of (stopAll (render band_playing) band_playing))
    (world_of (stopAll
       (render (world_of (commitRefs
                  (world_of (stopAll (render band_playing) band_playing)))))
       (world_of (commitRefs
                  (world_of (stopAll (render band_playing) band_playing)))))) /\
  trace_of (stopAll
       (render (world_of (commitRefs
                  (world_of (stopAll (render band_playing) band_playing)))))
       (world_of (commitRefs
                  (world_of (stopAll (render band_playing) band_playing))))) =
    [ElementPause 0; ElementPause 1].
Proof.
  assert (Hwf : wf band_playing).
  { apply (playAll_keeps _ (mkTask _ _)).
    apply (safe_keeps wf _ (safe_forEach wf _ perform perform_safe)).
    apply wf_page_loaded. }
  destruct (stopAll_is_idempotent band_playing Hwf)
    as (_ & _ & _ & _ & [Hfix _] & (_ & _ & _ & _ & Hss & _) & _).
  split; [exact Hwf|]. split; [vm_compute; reflexivity|].
  split; [vm_compute; reflexivity|]. split; [vm_compute; reflexivity|].
  split; [exact Hfix|].
  split; [exact Hss|vm_compute; reflexivity].
Defined.


Lemma reachable_meanwhile acts : forall w,
  reachable w -> reachable (world_of (forEach acts perform w)).
Proof.
  induction acts as [|a acts IH]; intros w Hw; [exact Hw|].
  cbn [forEach]. rewrite bind_unfold.
  destruct (perform_safe a w (reachable_wf w Hw)) as [_ [[] Ho]]. rewrite Ho.
  cbn [world_of fst]. apply IH.
  apply (reach_step w); [exact Hw|apply step_handler].
Qed.

(** C8 as stated fails. [stopAll] stops the voices of the listed tracks,
    not every active voice: when the piano track was removed while its clip
    was decoded, its voice was started all the same, and [stopAll] stops
    the drums and leaves the piano sounding. And a second [stopAll] is not
    always without effect on the state: after the commit that follows the
    first, it removes the ['ended'] handlers that the commit installed. *)
Lemma stopAll_leaves_a_removed_track_sounding :
  (reachable piano_removed_while_decoding /\
   map Track.id (tracks piano_removed_while_decoding) = [2] /\
   omap (fun nd => if active nd then Some (owner nd) else None)
     (sources piano_removed_while_decoding) = [1; 2] /\
   trace_of (stopAll (render piano_removed_while_decoding)
               piano_removed_while_decoding) = [SourceStop 1; ElementPause 1] /\
   omap (fun nd => if active nd then Some (owner nd) else None)
     (sources (world_of (stopAll (render piano_removed_while_decoding)
                           piano_removed_while_decoding))) = [1]) /\
  (map endedListeners
     (elements (world_of (commitRefs
        (world_of (stopAll (render band_playing) band_playing))))) =
     [[4%nat]; [6%nat]] /\
   map endedListeners
     (elements (world_of (stopAll
        (render (world_of (commitRefs
                   (world_of (stopAll (render band_playing) band_playing)))))
        (world_of (commitRefs
                   (world_of (stopAll (render band_playing) band_playing))))))) =
     [[]; []]).
Proof.
  split.
  - split.
    { apply (reach_step band_page); [|apply step_playAll].
      apply reachable_meanwhile. constructor. }
    repeat split; vm_compute; reflexivity.
  - split; vm_compute; reflexivity.
Qed.
(** * Further properties of the page's handlers *)

(** ** Removing a track *)

Section RemoveFacts.

Lemma removeTrack_found r t x :
  find_track t (r_tracks r) = Some x ->
  removeTrack r t = bind (release_voice r t) (fun _ => release_element x t).
Proof. intros H. unfold removeTrack. rewrite H. reflexivity. Qed.

Lemma release_voice_run r t w :
  wf w ->
  exists w1 tr,
    release_voice r t w = (w1, tr, Normal tt) /\ wf w1 /\
    Forall not_start tr /\
    tracks w1 = tracks w /\ history w1 = history w /\
    audioRefs w1 = audioRefs w /\ loopHandlers w1 = loopHandlers w /\
    elements w1 = elements w /\ gains w1 = gains w /\
    (forall t', t' <> t ->
       sourceNodesRef w1 !! t' = sourceNodesRef w !! t' /\
       gainNodesRef w1 !! t' = gainNodesRef w !! t' /\
       audioBuffersRef w1 !! t' = audioBuffersRef w !! t') /\
    (forall n nd, sources w !! n = Some nd -> owner nd <> t ->
       sources w1 !! n = Some nd) /\
    (r_webAudioSupported r = true ->
       sourceNodesRef w1 !! t = None /\ audioBuffersRef w1 !! t = None).
Proof.
  intros Hwf. unfold release_voice.
  destruct (r_webAudioSupported r); cbn [when].
  2:{ exists w, []. split; [reflexivity|]. split; [exact Hwf|].
      split; [constructor|]. repeat (split; [reflexivity|]).
      split; [intros; repeat split; reflexivity|].
      split; [intros n nd Hn _; exact Hn|discriminate]. }
  rewrite bind_unfold.
  destruct (sourceNodesRef w !! t) as [n|] eqn:Ht.
  - destruct (wf_source w Hwf t n Ht) as (nd & g & Hn & Ho & Hst & _).
    rewrite (stopTrackWebAudio_run t n nd w Ht Hn Hst).
    cbn [outcome_of world_of trace_of modify fst snd].
    eexists _, _. split; [reflexivity|].
    assert (Hwf1 : wf (set_gainNodesRef (delete t) (with_stopped t n w))).
    { pose proof (stopTrackWebAudio_safe t w Hwf) as [H _].
      now rewrite (stopTrackWebAudio_run t n nd w Ht Hn Hst) in H. }
    split; [apply (wf_frame (set_gainNodesRef (delete t) (with_stopped t n w)));
            try reflexivity; exact Hwf1|].
    split; [repeat constructor; exact I|].
    unfold with_stopped. wsimpl. repeat split; try reflexivity.
    + now apply lookup_delete_ne.
    + now apply lookup_delete_ne.
    + now apply lookup_delete_ne.
    + intros n' nd' Hn' Hown.
      rewrite list_lookup_alter_ne; [exact Hn'|].
      intros <-. rewrite Hn in Hn'. injection Hn' as <-. now destruct Hown.
    + apply lookup_delete_eq.
    + apply lookup_delete_eq.
  - rewrite (stopTrackWebAudio_idle t w Ht).
    cbn [outcome_of world_of trace_of modify fst snd].
    eexists _, _. split; [reflexivity|].
    split; [apply (wf_frame w); try reflexivity; exact Hwf|].
    split; [constructor|].
    wsimpl. repeat split; try reflexivity; auto.
    + now apply lookup_delete_ne.
    + apply lookup_delete_eq.
Qed.

Lemma release_element_run x t w1 :
  exists w' tr,
    release_element x t w1 = (w', tr, Normal tt) /\
    Forall not_start tr /\
    tracks w' = filter (fun y => Track.id y <> t) (tracks w1) /\
    history w' = history w1 ++ [HRemoved (Track.name x)] /\
    audioRefs w' = delete t (audioRefs w1) /\
    sources w' = sources w1 /\ gains w' = gains w1 /\
    sourceNodesRef w' = sourceNodesRef w1 /\
    gainNodesRef w' = gainNodesRef w1 /\
    audioBuffersRef w' = audioBuffersRef w1 /\
    (forall t', t' <> t -> loopHandlers w' !! t' = loopHandlers w1 !! t') /\
    (forall e : nat, audioRefs w1 !! t <> Some e ->
       elements w' !! e = elements w1 !! e) /\
    (forall (e : nat) el, audioRefs w1 !! t = Some e ->
       elements w' !! e = Some el ->
       loopHandlers w' !! t = None /\
       paused el = true /\ currentTime el = 0%float /\
       forall h, loopHandlers w1 !! t = Some h -> h ∉ endedListeners el).
Proof.
  unfold release_element, element_pause, removeEndedListener, update_element.
  rewrite bind_get. cbv zeta.
  destruct (audioRefs w1 !! t) as [e|] eqn:He.
  - destruct (loopHandlers w1 !! t) as [h|] eqn:Hh;
      destruct (Track.url x) as [u|]; try destruct (Track.has_url x);
      cbn [when]; mnorm; unfold modify; eexists _, _; (split; [reflexivity|]);
      (split; [repeat constructor; exact I|]); wsimpl;
      do 8 (split; [reflexivity|]).
    all: split; [intros t' Ht'; rewrite ?lookup_delete_ne by congruence; reflexivity|].
    all: split; [intros e' He'; rewrite ?list_lookup_alter_ne by congruence; reflexivity|].
    all: intros e' el' [= <-]; rewrite ?list_lookup_alter_eq;
      destruct (elements w1 !! e) as [el0|]; cbn [fmap option_fmap option_map];
      [intros [= <-]|discriminate].
    all: rewrite ?lookup_delete_eq; split; [try reflexivity; try exact Hh|].
    all: split; [reflexivity|]. all: split; [reflexivity|].
    all: intros h' Hh'; try discriminate.
    all: injection Hh' as <-; cbn [endedListeners set_endedListeners];
      intros Hin; apply list_elem_of_filter in Hin as [Hneq _]; now apply Hneq.
  - mnorm. unfold modify. eexists _, _. split; [reflexivity|]. split; [constructor|]. wsimpl.
    do 8 (split; [reflexivity|]).
    split; [reflexivity|]. split; [reflexivity|]. intros; discriminate.
Qed.

End RemoveFacts.

(** X1. [removeTrack] looks the track up in the list of its render. When it is
    not there nothing happens. When it is there the handler completes, takes
    every track with that identifier off the current list, appends one
    "Removed" line with the name the render shows, and unregisters the
    track's audio element; with Web Audio it also unregisters the voice and
    drops the cached clip, so that no node sounds for the track any more. *)
Theorem removeTrack_forgets_the_track r t w :
  wf w ->
  match find_track t (r_tracks r) with
  | None => removeTrack r t w = (w, [], Normal tt)
  | Some x =>
      outcome_of (removeTrack r t w) = Normal tt /\
      wf (world_of (removeTrack r t w)) /\
      tracks (world_of (removeTrack r t w)) =
        filter (fun y => Track.id y <> t) (tracks w) /\
      history (world_of (removeTrack r t w)) =
        history w ++ [HRemoved (Track.name x)] /\
      audioRefs (world_of (removeTrack r t w)) !! t = None /\
      (r_webAudioSupported r = true ->
       sourceNodesRef (world_of (removeTrack r t w)) !! t = None /\
       audioBuffersRef (world_of (removeTrack r t w)) !! t = None /\
       forall n nd,
         sources (world_of (removeTrack r t w)) !! n = Some nd ->
         owner nd = t -> active nd = false)
  end.
Proof.
  intros Hwf. destruct (find_track t (r_tracks r)) as [x|] eqn:Hfind.
  2:{ unfold removeTrack. now rewrite Hfind. }
  destruct (removeTrack_safe r t w Hwf) as [Hwf' [[] Ho]].
  split; [exact Ho|]. split; [exact Hwf'|]. revert Hwf'. clear Ho.
  rewrite (removeTrack_found r t x Hfind), bind_unfold.
  destruct (release_voice_run r t w Hwf)
    as (w1 & tr1 & -> & Hwf1 & _ & Ht1 & Hh1 & Ha1 & _ & _ & _ & _ & _ & Hs1).
  cbn [outcome_of world_of trace_of fst snd].
  destruct (release_element_run x t w1)
    as (w' & tr & -> & _ & Ht & Hh & Ha & Hsrc & _ & Hsn & _ & Hb & _).
  cbn [outcome_of world_of trace_of fst snd]. intros Hwf'.
  rewrite Ht, Hh, Ha, Ht1, Hh1, Hsn, Hb. repeat split.
  - apply lookup_delete_eq.
  - now apply Hs1.
  - now apply Hs1.
  - intros n nd Hn Hown.
    destruct (active nd) eqn:Hact; [|reflexivity].
    pose proof (wf_active w' Hwf' n nd Hn Hact) as Hreg.
    rewrite Hown, Hsn in Hreg. destruct (Hs1 H) as [Hnone _]. congruence.
Qed.

Lemma removing_the_playing_piano :
  wf piano_playing /\
  tracks (world_of (removeTrack (render piano_playing) 1 piano_playing)) = [] /\
  audioBuffersRef (world_of (removeTrack (render piano_playing) 1 piano_playing))
    !! 1 = None /\
  trace_of (removeTrack (render piano_playing) 1 piano_playing) = [SourceStop 0].
Proof.
  assert (Hwf : wf piano_playing).
  { apply (playAll_keeps _ (mkTask _ _)). apply wf_page_loaded. }
  pose proof (removeTrack_forgets_the_track (render piano_playing) 1
                piano_playing Hwf) as H.
  change (find_track 1 (r_tracks (render piano_playing))) with (Some piano) in H.
  destruct H as (_ & _ & Ht & _ & _ & Hs).
  split; [exact Hwf|]. split; [rewrite Ht; vm_compute; reflexivity|].
  split; [apply (Hs eq_refl)|vm_compute; reflexivity].
Defined.

(** X2. [removeTrack] leaves every other track alone: its voice, gain node,
    clip, audio element and loop handler stay registered, every node that
    plays another track is as it was, the gain nodes are as they were, and
    nothing is started. *)
Theorem removeTrack_leaves_the_others r t w :
  wf w ->
  Forall not_start (trace_of (removeTrack r t w)) /\
  gains (world_of (removeTrack r t w)) = gains w /\
  (forall n nd, sources w !! n = Some nd -> owner nd <> t ->
     sources (world_of (removeTrack r t w)) !! n = Some nd) /\
  (forall e : nat, audioRefs w !! t <> Some e ->
     elements (world_of (removeTrack r t w)) !! e = elements w !! e) /\
  forall t', t' <> t ->
    sourceNodesRef (world_of (removeTrack r t w)) !! t' = sourceNodesRef w !! t' /\
    gainNodesRef (world_of (removeTrack r t w)) !! t' = gainNodesRef w !! t' /\
    audioBuffersRef (world_of (removeTrack r t w)) !! t' = audioBuffersRef w !! t' /\
    audioRefs (world_of (removeTrack r t w)) !! t' = audioRefs w !! t' /\
    loopHandlers (world_of (removeTrack r t w)) !! t' = loopHandlers w !! t'.
Proof.
  intros Hwf. destruct (find_track t (r_tracks r)) as [x|] eqn:Hfind.
  2:{ unfold removeTrack. rewrite Hfind. cbn [ret world_of trace_of fst snd].
      split; [constructor|]. split; [reflexivity|]. split; [auto|].
      split; [reflexivity|]. intros; repeat split; reflexivity. }
  rewrite (removeTrack_found r t x Hfind), bind_unfold.
  destruct (release_voice_run r t w Hwf)
    as (w1 & tr1 & -> & Hwf1 & Hq1 & _ & _ & Ha1 & Hl1 & He1 & Hg1 & Ho1 & Hn1 & _).
  cbn [outcome_of world_of trace_of fst snd].
  destruct (release_element_run x t w1)
    as (w' & tr & -> & Hq & _ & _ & Ha & Hsrc & Hg & Hsn & Hgn & Hb & Hl & He & _).
  cbn [outcome_of world_of trace_of fst snd].
  split; [apply Forall_app; split; assumption|].
  split; [congruence|].
  split; [intros n nd Hn Hown; rewrite Hsrc; now apply Hn1|].
  split; [intros e Hne; rewrite He, He1; [reflexivity|now rewrite Ha1]|].
  intros t' Ht'. destruct (Ho1 t' Ht') as (H1 & H2 & H3).
  rewrite Hsn, Hgn, Hb, Ha, Ha1, (Hl t' Ht'), Hl1.
  repeat split; try assumption. now apply lookup_delete_ne.
Qed.

Lemma removing_the_drums_leaves_the_piano :
  wf piano_without_drums /\
  tracks (world_of (removeTrack (render piano_without_drums) 2 piano_without_drums)) =
    [piano] /\
  sourceNodesRef (world_of (removeTrack (render piano_without_drums) 2
                              piano_without_drums)) !! 1 = Some 0%nat /\
  Forall not_start
    (trace_of (removeTrack (render piano_without_drums) 2 piano_without_drums)).
Proof.
  assert (Hwf : wf piano_without_drums).
  { apply (playAll_keeps _ (mkTask _ _)). apply wf_page_loaded. }
  destruct (removeTrack_leaves_the_others (render piano_without_drums) 2
              piano_without_drums Hwf) as (Hq & _ & _ & _ & Hother).
  destruct (Hother 1) as (Hs & _); [lia|].
  split; [exact Hwf|]. split; [vm_compute; reflexivity|].
  split; [rewrite Hs; vm_compute; reflexivity|exact Hq].
Defined.

(** ** Clearing the list *)

(** X3. [clearAllTracks] empties the track list and the history and nothing
    else: voices that sound keep sounding and stay registered, elements stay
    as they are. As [stopAll] walks the list of its render, a [stopAll] from
    the cleared page stops none of them. *)
Theorem clearAllTracks_silences_nothing w :
  clearAllTracks false w = (w, [], Normal tt) /\
  trace_of (clearAllTracks true w) = [] /\
  tracks (world_of (clearAllTracks true w)) = [] /\
  history (world_of (clearAllTracks true w)) = [] /\
  sources (world_of (clearAllTracks true w)) = sources w /\
  sourceNodesRef (world_of (clearAllTracks true w)) = sourceNodesRef w /\
  gainNodesRef (world_of (clearAllTracks true w)) = gainNodesRef w /\
  audioBuffersRef (world_of (clearAllTracks true w)) = audioBuffersRef w /\
  audioRefs (world_of (clearAllTracks true w)) = audioRefs w /\
  elements (world_of (clearAllTracks true w)) = elements w /\
  isPlayingAll (world_of (clearAllTracks true w)) = isPlayingAll w /\
  stopAll (render (world_of (clearAllTracks true w)))
          (world_of (clearAllTracks true w)) =
    (set_isPlayingAll false (world_of (clearAllTracks true w)), [], Normal tt).
Proof.
  split; [reflexivity|].
  unfold clearAllTracks. cbn [when]. rewrite bind_modify. unfold modify at 1 2 3 4 5 6 7 8 9 10 11.
  wsimpl. repeat (split; [reflexivity|]).
  unfold stopAll. rewrite bind_modify.
  cbn [render r_tracks r_webAudioSupported tracks set_history set_tracks
       set_isPlayingAll forEach].
  destruct (webAudioSupported _); cbn [when]; mnorm; reflexivity.
Qed.

(** ** Muting twice *)

Section MuteTwiceFacts.

Lemma find_track_with_mute_flag t m l :
  find_track t (with_mute_flag t m l) = Track.with_muted m <$> find_track t l.
Proof.
  unfold find_track, with_mute_flag. induction l as [|y l IH]; [reflexivity|].
  cbn [map List.find]. destruct (Track.id y =? t) eqn:E.
  - cbn [Track.with_muted Track.id]. rewrite E. reflexivity.
  - rewrite E. exact IH.
Qed.

Lemma with_mute_flag_twice t m m' l :
  with_mute_flag t m (with_mute_flag t m' l) = with_mute_flag t m l.
Proof.
  unfold with_mute_flag. rewrite map_map. apply map_ext. intros y.
  destruct (Track.id y =? t) eqn:E.
  - cbn [Track.with_muted Track.id]. rewrite E. reflexivity.
  - rewrite E. reflexivity.
Qed.

Lemma tracks_after_toggle t w :
  tracks (world_of (toggleMute (render w) t w)) =
    with_mute_flag t (toggled t w) (tracks w).
Proof.
  rewrite toggleMute_run. cbv zeta.
  cbn [render r_tracks r_isPlayingAll r_webAudioSupported world_of fst].
  fold (toggled t w).
  destruct (isPlayingAll w && webAudioSupported w);
    [destruct (gainNodesRef w !! t)|destruct (audioRefs w !! t)]; reflexivity.
Qed.

Lemma toggled_found t w x :
  find_track t (tracks w) = Some x -> negb (toggled t w) = Track.is_muted x.
Proof. intros H. unfold toggled. rewrite H. apply negb_involutive. Qed.

Lemma is_muted_with_own_flag t l x :
  NoDup (map Track.id l) -> find_track t l = Some x ->
  map Track.is_muted (with_mute_flag t (Track.is_muted x) l) =
    map Track.is_muted l.
Proof.
  unfold find_track, with_mute_flag.
  induction l as [|y l IH]; intros Hnd Hf; [reflexivity|].
  cbn [map List.find] in *. apply NoDup_cons in Hnd as [Hy Hnd].
  destruct (Track.id y =? t) eqn:E.
  - injection Hf as <-. f_equal.
    + destruct y as [n i u [[]|]]; reflexivity.
    + rewrite map_map. apply map_ext_in. intros z Hz.
      destruct (Track.id z =? t) eqn:Ez; [|reflexivity].
      exfalso. apply Hy. apply Z.eqb_eq in E, Ez.
      apply list_elem_of_In, in_map_iff. exists z. split; [congruence|exact Hz].
  - f_equal. now apply IH.
Qed.

End MuteTwiceFacts.

(** X4. Two presses on the mute button of a listed track, each from the render
    the page then shows, put the mute flag back: every track with that
    identifier has the flag the first of them had (a flag never set counts
    as unmuted), so with distinct identifiers every track is muted exactly
    as before; and during Web Audio playback the track's voice sounds at the
    level that flag stands for. *)
Theorem toggleMute_twice_restores_the_flag w t x :
  find_track t (tracks w) = Some x ->
  tracks (world_of (toggleMute
            (render (world_of (toggleMute (render w) t w))) t
            (world_of (toggleMute (render w) t w)))) =
    with_mute_flag t (Track.is_muted x) (tracks w) /\
  (NoDup (map Track.id (tracks w)) ->
   map Track.is_muted
     (tracks (world_of (toggleMute
                (render (world_of (toggleMute (render w) t w))) t
                (world_of (toggleMute (render w) t w))))) =
     map Track.is_muted (tracks w)) /\
  (isPlayingAll w = true -> webAudioSupported w = true ->
   is_Some (level_of w t) ->
   level_of (world_of (toggleMute
               (render (world_of (toggleMute (render w) t w))) t
               (world_of (toggleMute (render w) t w)))) t =
     Some (if Track.is_muted x then 0%float else 1%float)).
Proof.
  intros Hf.
  assert (Htr :
    tracks (world_of (toggleMute
              (render (world_of (toggleMute (render w) t w))) t
              (world_of (toggleMute (render w) t w)))) =
      with_mute_flag t (Track.is_muted x) (tracks w)).
  { rewrite tracks_after_toggle.
    set (w1 := world_of (toggleMute (render w) t w)).
    assert (Ht1 : tracks w1 = with_mute_flag t (toggled t w) (tracks w))
      by apply tracks_after_toggle.
    assert (Hm : toggled t w1 = Track.is_muted x).
    { unfold toggled at 1. rewrite Ht1, find_track_with_mute_flag, Hf.
      rewrite <- (toggled_found t w x Hf). destruct (toggled t w); reflexivity. }
    rewrite Hm, Ht1. apply with_mute_flag_twice. }
  split; [exact Htr|]. split.
  - intros Hnd. rewrite Htr. now apply is_muted_with_own_flag.
  - intros Hp Hs [lv Hlv].
    rewrite !toggleMute_run. cbv zeta.
    cbn [render r_tracks r_isPlayingAll r_webAudioSupported world_of fst].
    rewrite Hp, Hs. cbn [andb]. unfold level_of in Hlv.
    destruct (gainNodesRef w !! t) as [g|] eqn:Hg; [|discriminate].
    wsimpl. rewrite Hp, Hs, Hg. cbn [andb]. unfold level_of. wsimpl.
    rewrite Hg, !list_lookup_alter_eq.
    destruct (gains w !! g) as [gn|]; [|discriminate].
    cbn [fmap option_fmap option_map gain set_gain]. f_equal.
    rewrite find_track_with_mute_flag, Hf. cbn [fmap option_fmap option_map].
    destruct x as [n i u [[]|]]; reflexivity.
Qed.

Lemma muting_and_unmuting_the_playing_piano :
  find_track 1 (tracks piano_playing) = Some piano /\
  NoDup (map Track.id (tracks piano_playing)) /\
  map Track.is_muted
    (tracks (world_of (toggleMute
               (render (world_of (toggleMute (render piano_playing) 1 piano_playing)))
               1 (world_of (toggleMute (render piano_playing) 1 piano_playing))))) =
    [false] /\
  level_of (world_of (toggleMute
              (render (world_of (toggleMute (render piano_playing) 1 piano_playing)))
              1 (world_of (toggleMute (render piano_playing) 1 piano_playing)))) 1 =
    Some 1%float.
Proof.
  assert (Hf : find_track 1 (tracks piano_playing) = Some piano)
    by (vm_compute; reflexivity).
  assert (Hnd : NoDup (map Track.id (tracks piano_playing))).
  { vm_compute. repeat constructor. intros H. inversion H. }
  destruct (toggleMute_twice_restores_the_flag piano_playing 1 piano Hf)
    as (_ & H2 & H3).
  split; [exact Hf|]. split; [exact Hnd|].
  split; [rewrite (H2 Hnd); vm_compute; reflexivity|].
  rewrite H3; [vm_compute; reflexivity|reflexivity|reflexivity|].
  vm_compute. eauto.
Defined.

(** ** Starting and stopping a voice *)

Section VoiceRoundTrip.

Lemma playTrackWebAudio_run r t m b w :
  wf w -> audioContextRef w <> None -> r_webAudioSupported r = true ->
  audioBuffersRef w !! t = Some b ->
  exists w0 pre,
    playTrackWebAudio r t m w =
      (with_voice t b m w0, pre ++ [SourceStart (length (sources w)) t], Normal tt) /\
    wf w0 /\ sourceNodesRef w0 !! t = None /\
    length (sources w0) = length (sources w) /\
    length (gains w0) = length (gains w) /\
    pre = match sourceNodesRef w !! t with Some n => [SourceStop n] | None => [] end.
Proof.
  intros Hwf Hc Hs Hb.
  destruct (sourceNodesRef w !! t) as [n|] eqn:Hn.
  - destruct (wf_source w Hwf _ n Hn) as (nd & g & Hnd & _ & Hst & _).
    rewrite (playTrackWebAudio_restart r _ _ b n nd w Hc Hs Hb Hn Hnd Hst).
    exists (with_stopped t n w), [SourceStop n]. split; [reflexivity|].
    split; [now apply wf_with_stopped|]. unfold with_stopped. wsimpl.
    split; [apply lookup_delete_eq|]. split; [apply length_alter|].
    split; reflexivity.
  - rewrite (playTrackWebAudio_fresh r _ _ b w Hc Hs Hb Hn).
    exists w, []. split; [reflexivity|]. split; [exact Hwf|].
    split; [exact Hn|]. repeat split; reflexivity.
Qed.

End VoiceRoundTrip.

(** X5. With an audio context, Web Audio and a decoded clip, [playTrackWebAudio]
    registers a fresh node for the track, at level 0 when muted and 1
    otherwise, and its last command starts that node. [stopTrackWebAudio]
    right after it stops exactly that node and unregisters the node and its
    gain node; no node sounds for the track then. *)
Theorem stopTrackWebAudio_undoes_playTrackWebAudio r t m b w :
  wf w -> audioContextRef w <> None -> r_webAudioSupported r = true ->
  audioBuffersRef w !! t = Some b ->
  outcome_of (playTrackWebAudio r t m w) = Normal tt /\
  sourceNodesRef (world_of (playTrackWebAudio r t m w)) !! t =
    Some (length (sources w)) /\
  level_of (world_of (playTrackWebAudio r t m w)) t =
    Some (if m then 0%float else 1%float) /\
  last (trace_of (playTrackWebAudio r t m w)) =
    Some (SourceStart (length (sources w)) t) /\
  outcome_of (stopTrackWebAudio t (world_of (playTrackWebAudio r t m w))) =
    Normal tt /\
  trace_of (stopTrackWebAudio t (world_of (playTrackWebAudio r t m w))) =
    [SourceStop (length (sources w))] /\
  sourceNodesRef
    (world_of (stopTrackWebAudio t (world_of (playTrackWebAudio r t m w)))) !! t =
    None /\
  gainNodesRef
    (world_of (stopTrackWebAudio t (world_of (playTrackWebAudio r t m w)))) !! t =
    None /\
  forall n nd,
    sources (world_of (stopTrackWebAudio t (world_of (playTrackWebAudio r t m w))))
      !! n = Some nd ->
    owner nd = t -> active nd = false.
Proof.
  intros Hwf Hc Hs Hb.
  destruct (playTrackWebAudio_run r t m b w Hwf Hc Hs Hb)
    as (w0 & pre & -> & Hwf0 & Hn0 & Hls & Hlg & _).
  cbn [outcome_of world_of trace_of fst snd].
  assert (Hwf1 : wf (with_voice t b m w0)) by now apply wf_with_voice.
  assert (Hreg : sourceNodesRef (with_voice t b m w0) !! t =
                 Some (length (sources w))).
  { unfold with_voice. wsimpl. rewrite lookup_insert_eq. now rewrite Hls. }
  assert (Hnode : sources (with_voice t b m w0) !! length (sources w) =
                  Some (new_voice t b (length (gains w0)))).
  { unfold with_voice. wsimpl. rewrite <- Hls. apply lookup_snoc. }
  split; [reflexivity|]. split; [exact Hreg|]. split.
  { unfold level_of, with_voice. wsimpl. rewrite lookup_insert_eq, lookup_snoc.
    reflexivity. }
  split; [apply last_snoc|].
  rewrite (stopTrackWebAudio_run t _ _ _ Hreg Hnode eq_refl).
  cbn [outcome_of world_of trace_of fst snd].
  split; [reflexivity|]. split; [reflexivity|].
  assert (Hwf2 : wf (set_gainNodesRef (delete t)
                       (with_stopped t (length (sources w)) (with_voice t b m w0)))).
  { pose proof (stopTrackWebAudio_safe t _ Hwf1) as [H _].
    now rewrite (stopTrackWebAudio_run t _ _ _ Hreg Hnode eq_refl) in H. }
  assert (Hgone : sourceNodesRef (set_gainNodesRef (delete t)
            (with_stopped t (length (sources w)) (with_voice t b m w0))) !! t = None).
  { unfold with_stopped. wsimpl. apply lookup_delete_eq. }
  split; [exact Hgone|].
  split; [unfold with_stopped; wsimpl; apply lookup_delete_eq|].
  intros n nd Hn Hown. destruct (active nd) eqn:Hact; [|reflexivity].
  pose proof (wf_active _ Hwf2 n nd Hn Hact) as Hr. rewrite Hown in Hr.
  congruence.
Qed.

Lemma replaying_and_stopping_the_piano :
  wf piano_playing /\
  trace_of (playTrackWebAudio (render piano_playing) 1 false piano_playing) =
    [SourceStop 0; SourceStart 1 1] /\
  trace_of (stopTrackWebAudio 1
    (world_of (playTrackWebAudio (render piano_playing) 1 false piano_playing))) =
    [SourceStop 1].
Proof.
  assert (Hwf : wf piano_playing).
  { apply (playAll_keeps _ (mkTask _ _)). apply wf_page_loaded. }
  destruct (stopTrackWebAudio_undoes_playTrackWebAudio (render piano_playing) 1
              false {| duration := 12 |} piano_playing Hwf)
    as (_ & _ & _ & _ & _ & Hstop & _).
  - vm_compute. discriminate.
  - reflexivity.
  - vm_compute. reflexivity.
  - split; [exact Hwf|]. split; [vm_compute; reflexivity|exact Hstop].
Defined.

(** ** Awaiting *)

Section AwaitFacts.

Lemma await_run what w turn rest :
  await what (mkTask w (turn :: rest)) =
    (mkTask (after_turn turn w) rest,
     Suspend what :: trace_of (forEach (meanwhile turn) perform w)
       ++ [Resume what (fulfilled turn)],
     settles turn).
Proof.
  unfold await, await_promise, after_turn, settles, fulfilled.
  cbn [schedule world]. unfold world_of, trace_of.
  destruct (forEach (meanwhile turn) perform w) as [[w' t] o].
  destruct (answer turn); reflexivity.
Qed.

Lemma settles_fulfilled turn p : answer turn = Fulfilled p -> settles turn = Normal p.
Proof. unfold settles. now intros ->. Qed.

Lemma settles_rejected turn : answer turn = Rejected -> settles turn = Throw Rejection.
Proof. unfold settles. now intros ->. Qed.

Lemma meanwhile_no_start turn w :
  Forall not_start (trace_of (forEach (meanwhile turn) perform w)).
Proof. apply says_forEach. intros a. apply perform_no_start. Qed.

Lemma generateTrack_run inst style w turn rest :
  generateTrack inst style (mkTask w (turn :: rest)) =
    (mkTask (after_turn turn w) rest,
     Suspend (AwGenerate inst style)
       :: trace_of (forEach (meanwhile turn) perform w)
       ++ [Resume (AwGenerate inst style) (fulfilled turn)],
     Normal (generated_url turn)).
Proof.
  unfold generateTrack. rewrite try_catch_unfold, bind_unfold, await_run.
  unfold settles, generated_url, fulfilled.
  destruct (answer turn); cbn [outcome_of world_of trace_of fst snd ret];
    rewrite ?app_nil_r; reflexivity.
Qed.

End AwaitFacts.

(** ** Loading a clip *)

Section LoadRun.

Lemma loadAudioBuffer_fulfilled r t u w t1 t2 t3 rest p1 p2 p3 :
  audioContextRef w <> None -> r_webAudioSupported r = true ->
  answer t1 = Fulfilled p1 -> answer t2 = Fulfilled p2 -> answer t3 = Fulfilled p3 ->
  exists tr,
    loadAudioBuffer r t u (mkTask w (t1 :: t2 :: t3 :: rest)) =
      (mkTask (set_audioBuffersRef (<[t := decoded p3]>) (after_turns [t1; t2; t3] w))
              rest,
       tr ++ [ConsoleLog (MsgBufferLoaded t)], Normal tt).
Proof.
  intros Hc Hs H1 H2 H3.
  unfold loadAudioBuffer. rewrite bind_getW, Hs.
  destruct (audioContextRef w) as [c|] eqn:Ec; [|congruence].
  rewrite bool_decide_eq_true_2 by (eexists; reflexivity).
  cbn [negb orb]. rewrite try_catch_unfold.
  rewrite bind_unfold, await_run, (settles_fulfilled _ _ H1).
  cbn [outcome_of world_of trace_of fst snd].
  rewrite bind_unfold, await_run, (settles_fulfilled _ _ H2).
  cbn [outcome_of world_of trace_of fst snd].
  rewrite bind_unfold, await_run, (settles_fulfilled _ _ H3).
  cbn [outcome_of world_of trace_of fst snd].
  rewrite bind_lift_modify.
  cbn [outcome_of world_of trace_of fst snd emit world schedule].
  eexists. rewrite ?app_comm_cons, ?app_assoc. reflexivity.
Qed.

End LoadRun.

(** X6. With an audio context and Web Audio, when the fetch, the read and the
    decode all succeed, [loadAudioBuffer] completes, has consumed exactly
    these three answers, and has stored the decoded clip under the track's
    identifier after everything the user did meanwhile: the clip is in the
    cache whatever happened to the track in between. Its last report is the
    "buffer loaded" line. *)
Theorem loadAudioBuffer_caches_the_decoded_clip r t u w t1 t2 t3 rest p1 p2 p3 :
  audioContextRef w <> None -> r_webAudioSupported r = true ->
  answer t1 = Fulfilled p1 -> answer t2 = Fulfilled p2 -> answer t3 = Fulfilled p3 ->
  outcome_of (loadAudioBuffer r t u (mkTask w (t1 :: t2 :: t3 :: rest))) = Normal tt /\
  world_of (loadAudioBuffer r t u (mkTask w (t1 :: t2 :: t3 :: rest))) =
    mkTask (set_audioBuffersRef (<[t := decoded p3]>) (after_turns [t1; t2; t3] w))
           rest /\
  audioBuffersRef
    (world (world_of (loadAudioBuffer r t u (mkTask w (t1 :: t2 :: t3 :: rest)))))
    !! t = Some (decoded p3) /\
  last (trace_of (loadAudioBuffer r t u (mkTask w (t1 :: t2 :: t3 :: rest)))) =
    Some (ConsoleLog (MsgBufferLoaded t)) /\
  Forall not_start
    (trace_of (loadAudioBuffer r t u (mkTask w (t1 :: t2 :: t3 :: rest)))).
Proof.
  intros Hc Hs H1 H2 H3.
  split; [|split; [|split; [|split]]]; [| | | |apply loadAudioBuffer_no_start].
  all: destruct (loadAudioBuffer_fulfilled r t u w t1 t2 t3 rest p1 p2 p3
                   Hc Hs H1 H2 H3) as [tr ->];
    cbn [outcome_of world_of trace_of fst snd world].
  - reflexivity.
  - reflexivity.
  - wsimpl. apply lookup_insert_eq.
  - apply last_snoc.
Qed.

Lemma loading_the_piano_clip :
  audioContextRef (page_loaded [piano] true) <> None /\
  audioBuffersRef
    (world (world_of (loadAudioBuffer (render (page_loaded [piano] true)) 1
       "blob:piano"
       (mkTask (page_loaded [piano] true) [fulfils 0; fulfils 0; fulfils 12]))))
    !! 1 = Some {| duration := 12 |}.
Proof.
  assert (Hc : audioContextRef (page_loaded [piano] true) <> None)
    by (vm_compute; discriminate).
  split; [exact Hc|].
  apply (loadAudioBuffer_caches_the_decoded_clip
           (render (page_loaded [piano] true)) 1 "blob:piano"
           (page_loaded [piano] true) (fulfils 0) (fulfils 0) (fulfils 12) []
           _ _ _ Hc eq_refl eq_refl eq_refl eq_refl).
Defined.

(** X7. When the fetch, the read or the decode fails, [loadAudioBuffer] still
    completes normally: it has consumed the answers up to the failure, its
    last report is the "failed to load" line, and it has changed nothing
    itself, so the cache holds what it held (up to what the user did
    meanwhile). *)
Theorem loadAudioBuffer_reports_a_failed_load r t u w oks bad rest :
  audioContextRef w <> None -> r_webAudioSupported r = true ->
  (length oks < 3)%nat -> Forall (fun turn => fulfilled turn = true) oks ->
  answer bad = Rejected ->
  outcome_of (loadAudioBuffer r t u (mkTask w (oks ++ bad :: rest))) = Normal tt /\
  world_of (loadAudioBuffer r t u (mkTask w (oks ++ bad :: rest))) =
    mkTask (after_turns (oks ++ [bad]) w) rest /\
  last (trace_of (loadAudioBuffer r t u (mkTask w (oks ++ bad :: rest)))) =
    Some (ConsoleError (MsgLoadFailed t)).
Proof.
  intros Hc Hs Hlen Hok Hbad.
  assert (Hf : forall turn, fulfilled turn = true -> exists p, settles turn = Normal p).
  { intros turn. unfold fulfilled, settles. destruct (answer turn); [eauto|discriminate]. }
  unfold loadAudioBuffer. rewrite bind_getW, Hs.
  destruct (audioContextRef w) as [c|] eqn:Ec; [|congruence].
  rewrite bool_decide_eq_true_2 by (eexists; reflexivity).
  cbn [negb orb]. rewrite try_catch_unfold.
  destruct oks as [|a [|b [|c0 oks]]]; cbn [app].
  - rewrite bind_unfold, await_run, (settles_rejected _ Hbad).
    cbn [outcome_of world_of trace_of fst snd emit after_turns fold_left].
    split; [reflexivity|]. split; [reflexivity|].
    rewrite ?app_comm_cons, ?app_assoc. apply last_snoc.
  - apply Forall_cons in Hok as [Ha _]. destruct (Hf a Ha) as [pa Hpa].
    rewrite bind_unfold, await_run, Hpa.
    cbn [outcome_of world_of trace_of fst snd].
    rewrite bind_unfold, await_run, (settles_rejected _ Hbad).
    cbn [outcome_of world_of trace_of fst snd emit after_turns fold_left].
    split; [reflexivity|]. split; [reflexivity|].
    rewrite ?app_comm_cons, ?app_assoc. apply last_snoc.
  - apply Forall_cons in Hok as [Ha Hok]. apply Forall_cons in Hok as [Hb _].
    destruct (Hf a Ha) as [pa Hpa]. destruct (Hf b Hb) as [pb Hpb].
    rewrite bind_unfold, await_run, Hpa.
    cbn [outcome_of world_of trace_of fst snd].
    rewrite bind_unfold, await_run, Hpb.
    cbn [outcome_of world_of trace_of fst snd].
    rewrite bind_unfold, await_run, (settles_rejected _ Hbad).
    cbn [outcome_of world_of trace_of fst snd emit after_turns fold_left].
    split; [reflexivity|]. split; [reflexivity|].
    rewrite ?app_comm_cons, ?app_assoc. apply last_snoc.
  - cbn [length] in Hlen. lia.
Qed.

Lemma failing_to_decode_the_piano_clip :
  audioContextRef (page_loaded [piano] true) <> None /\
  audioBuffersRef
    (world (world_of (loadAudioBuffer (render (page_loaded [piano] true)) 1
       "blob:piano"
       (mkTask (page_loaded [piano] true) [fulfils 0; fulfils 0; rejects]))))
    !! 1 = None /\
  last (trace_of (loadAudioBuffer (render (page_loaded [piano] true)) 1
       "blob:piano"
       (mkTask (page_loaded [piano] true) [fulfils 0; fulfils 0; rejects]))) =
    Some (ConsoleError (MsgLoadFailed 1)).
Proof.
  assert (Hc : audioContextRef (page_loaded [piano] true) <> None)
    by (vm_compute; discriminate).
  destruct (loadAudioBuffer_reports_a_failed_load
              (render (page_loaded [piano] true)) 1 "blob:piano"
              (page_loaded [piano] true) [fulfils 0; fulfils 0] rejects [])
    as (_ & Hw & Hl).
  - exact Hc.
  - reflexivity.
  - simpl. lia.
  - repeat constructor.
  - reflexivity.
  - split; [exact Hc|]. split; [|exact Hl].
    cbn [app] in Hw. rewrite Hw. vm_compute. reflexivity.
Defined.

(** ** Adding a track *)

Section NoThrow.

Lemma nt_ret {S A} (a : A) : never_throws (@ret S A a).
Proof. intros s e. discriminate. Qed.

Lemma nt_bind {S A B} (m : M S A) (k : A -> M S B) :
  never_throws m -> (forall a, never_throws (k a)) -> never_throws (bind m k).
Proof.
  intros Hm Hk s e. rewrite bind_unfold. specialize (Hm s).
  destruct (outcome_of (m s)) as [a|e0|];
    [apply Hk|now destruct (Hm e0)|discriminate].
Qed.

Lemma nt_lift_modify f : never_throws (lift (modify f)).
Proof. intros s e. discriminate. Qed.

Lemma nt_generateTrack inst style : never_throws (generateTrack inst style).
Proof.
  intros s e. unfold generateTrack. rewrite try_catch_unfold.
  destruct (outcome_of (bind _ _ s)) as [a|e0|] eqn:E;
    [rewrite E; discriminate|discriminate|rewrite E; discriminate].
Qed.

Lemma nt_loadAudioBuffer r t u : never_throws (loadAudioBuffer r t u).
Proof.
  intros s e. destruct (loadAudioBuffer_returns r t u s) as [H|[H _]];
    rewrite H; discriminate.
Qed.

Lemma nt_addTrack r now inst style : never_throws (addTrack r now inst style).
Proof.
  unfold addTrack. cbv zeta. destruct (List.find _ _); [apply nt_ret|].
  apply nt_bind; [apply nt_lift_modify|]. intros _.
  apply nt_bind; [apply nt_lift_modify|]. intros _.
  apply nt_bind; [apply nt_generateTrack|]. intros url.
  apply nt_bind; [apply nt_lift_modify|]. intros _.
  apply nt_bind; [|intros _; apply nt_lift_modify].
  destruct url as [u|]; [|apply nt_ret].
  destruct (_ && _); [apply nt_loadAudioBuffer|apply nt_ret].
Qed.

Lemma needs_generateTrack inst style : needs 1 (generateTrack inst style).
Proof.
  unfold generateTrack, await. apply (needs_try_catch 1 0).
  - apply (needs_bind 1 0); [apply needs_await|intros ?; apply needs_ret].
  - intros ?. apply needs_ret.
Qed.

Lemma needs_addTrack r now inst style : needs 4 (addTrack r now inst style).
Proof.
  unfold addTrack. cbv zeta.
  destruct (List.find _ _);
    [apply (needs_weaken 0); [lia|apply needs_ret]|].
  apply (needs_bind 0 4); [apply needs_lift, np_modify|]. intros _.
  apply (needs_bind 0 4); [apply needs_lift, np_modify|]. intros _.
  apply (needs_bind 1 3); [apply needs_generateTrack|]. intros url.
  apply (needs_bind 0 3); [apply needs_lift, np_modify|]. intros _.
  apply (needs_bind 3 0); [|intros _; apply needs_lift, np_modify].
  destruct url as [u|]; [|apply (needs_weaken 0); [lia|apply needs_ret]].
  destruct (_ && _);
    [apply needs_loadAudioBuffer|apply (needs_weaken 0); [lia|apply needs_ret]].
Qed.

End NoThrow.

(** X8. [addTrack] has no [try] of its own, but nothing it awaits can make it
    fail: [generateTrack] and [loadAudioBuffer] catch their errors. So the
    promise [addTrack] returns never rejects, whatever the answers and
    whatever the user does meanwhile, and with four answers (generation,
    fetch, read, decode) it has completed. *)
Theorem addTrack_never_rejects r now inst style s :
  (forall e, outcome_of (addTrack r now inst style s) <> Throw e) /\
  ((4 <= length (schedule s))%nat ->
   outcome_of (addTrack r now inst style s) = Normal tt).
Proof.
  split; [apply nt_addTrack|]. intros Hlen.
  destruct (needs_addTrack r now inst style s Hlen) as [Hp _].
  pose proof (nt_addTrack r now inst style s) as Ht.
  destruct (outcome_of (addTrack r now inst style s)) as [[]|e|];
    [reflexivity|now destruct (Ht e)|now destruct Hp].
Qed.

Lemma adding_the_piano_completes :
  (4 <= length (schedule (mkTask (page_loaded [] true)
     [generates "blob:piano"; rejects; fulfils 0; fulfils 0])))%nat /\
  outcome_of (addTrack (render (page_loaded [] true)) 7 "Piano" None
    (mkTask (page_loaded [] true)
       [generates "blob:piano"; rejects; fulfils 0; fulfils 0])) = Normal tt.
Proof.
  assert (Hlen : (4 <= length (schedule (mkTask (page_loaded [] true)
     [generates "blob:piano"; rejects; fulfils 0; fulfils 0])))%nat)
    by (simpl; lia).
  split; [exact Hlen|].
  exact (proj2 (addTrack_never_rejects (render (page_loaded [] true)) 7 "Piano"
                  None _) Hlen).
Defined.

Section AddTrackFacts.

Lemma after_quiet_turn turn w : meanwhile turn = [] -> after_turn turn w = w.
Proof. unfold after_turn. now intros ->. Qed.

Lemma with_track_url_fresh now url l :
  (forall x, In x l -> Track.id x <> now) -> with_track_url now url l = l.
Proof.
  unfold with_track_url. induction l as [|y l IH]; intros H; [reflexivity|].
  cbn [map]. rewrite IH by (intros x Hx; apply H; now right).
  destruct (Track.id y =? now) eqn:E; [|reflexivity].
  apply Z.eqb_eq in E. now destruct (H y (or_introl eq_refl)).
Qed.

Lemma with_track_url_loading name now url l :
  (forall x, In x l -> Track.id x <> now) ->
  with_track_url now url (l ++ [loadingTrack name now]) =
    l ++ [Track.mk name now url (Some false)].
Proof.
  intros H. unfold with_track_url. rewrite map_app.
  fold (with_track_url now url l). rewrite (with_track_url_fresh now url l H).
  cbn [map loadingTrack Track.id]. rewrite Z.eqb_refl. reflexivity.
Qed.

(** [addTrack] for a name the render does not show, up to the answer of the
    generation request. *)
Lemma addTrack_generated r now inst style w turn rest :
  List.find (fun t => String.eqb (Track.name t) (displayName inst style))
    (r_tracks r) = None ->
  addTrack r now inst style (mkTask w (turn :: rest)) =
    let name := displayName inst style in
    let url := generated_url turn in
    let w1 := set_tracks (with_track_url now url)
                (after_turn turn (with_loading_track name now w)) in
    let k :=
      _ <~ match url with
           | Some u =>
               if truthy url && r_webAudioSupported r
               then loadAudioBuffer r now u
               else ret tt
           | None => ret tt
           end;
      lift (modify (set_history (fun prev =>
        removelast prev ++ [if truthy url then HAdded name else HFailed name]))) in
    (world_of (k (mkTask w1 rest)),
     (Suspend (AwGenerate inst style)
        :: trace_of (forEach (meanwhile turn) perform (with_loading_track name now w))
        ++ [Resume (AwGenerate inst style) (fulfilled turn)])
     ++ trace_of (k (mkTask w1 rest)),
     outcome_of (k (mkTask w1 rest))).
Proof.
  intros Hfind. unfold addTrack. cbv zeta. rewrite Hfind.
  rewrite !bind_lift_modify. cbn [world schedule].
  fold (loadingTrack (displayName inst style) now).
  fold (with_loading_track (displayName inst style) now w).
  rewrite bind_unfold, generateTrack_run.
  cbn [outcome_of world_of trace_of fst snd].
  rewrite bind_lift_modify. cbn [world schedule loadingTrack Track.id].
  reflexivity.
Qed.

End AddTrackFacts.

(** X9. When the generation fails ([generateTrack] answers [null]), [addTrack]
    completes after that one answer without trying to load a clip: the cache
    is as the user left it, the entry of the new identifier stays on the
    list without a URL, and the failure line replaces whatever line is last
    in the history by then. If the user did nothing meanwhile and the
    identifier is new, the list is the old one followed by the entry without
    URL, and the history the old one followed by the failure line. *)
Theorem addTrack_failed_generation_keeps_the_entry r now inst style w turn rest :
  List.find (fun t => String.eqb (Track.name t) (displayName inst style))
    (r_tracks r) = None ->
  truthy (generated_url turn) = false ->
  outcome_of (addTrack r now inst style (mkTask w (turn :: rest))) = Normal tt /\
  schedule (world_of (addTrack r now inst style (mkTask w (turn :: rest)))) = rest /\
  tracks (world (world_of (addTrack r now inst style (mkTask w (turn :: rest))))) =
    with_track_url now (generated_url turn)
      (tracks (after_turn turn (with_loading_track (displayName inst style) now w))) /\
  history (world (world_of (addTrack r now inst style (mkTask w (turn :: rest))))) =
    removelast
      (history (after_turn turn (with_loading_track (displayName inst style) now w)))
    ++ [HFailed (displayName inst style)] /\
  audioBuffersRef
    (world (world_of (addTrack r now inst style (mkTask w (turn :: rest))))) =
    audioBuffersRef
      (after_turn turn (with_loading_track (displayName inst style) now w)) /\
  (meanwhile turn = [] -> absent now w ->
   tracks (world (world_of (addTrack r now inst style (mkTask w (turn :: rest))))) =
     tracks w ++ [Track.mk (displayName inst style) now (generated_url turn)
                    (Some false)] /\
   history (world (world_of (addTrack r now inst style (mkTask w (turn :: rest))))) =
     history w ++ [HFailed (displayName inst style)]).
Proof.
  intros Hfind Hurl. rewrite (addTrack_generated r now inst style w turn rest Hfind).
  cbv zeta. rewrite Hurl.
  assert (Hk : forall s : Task,
    match generated_url turn with
    | Some u => if false && r_webAudioSupported r then loadAudioBuffer r now u
                else ret tt
    | None => ret tt
    end s = (s, [], Normal tt)).
  { intros s. destruct (generated_url turn); reflexivity. }
  rewrite bind_unfold, Hk. cbn [outcome_of world_of trace_of fst snd lift modify
    world schedule].
  split; [reflexivity|]. split; [reflexivity|]. wsimpl.
  split; [reflexivity|]. split; [reflexivity|]. split; [reflexivity|].
  intros Hq Habs. rewrite (after_quiet_turn turn _ Hq).
  unfold with_loading_track. wsimpl.
  rewrite (with_track_url_loading _ _ _ _ Habs), removelast_last.
  split; reflexivity.
Qed.

Lemma a_failed_piano_generation :
  absent 7 (page_loaded [drums] true) /\
  tracks (world (world_of (addTrack (render (page_loaded [drums] true)) 7 "Piano"
    None (mkTask (page_loaded [drums] true) [rejects])))) =
    [drums; Track.mk "Piano" 7 None (Some false)] /\
  history (world (world_of (addTrack (render (page_loaded [drums] true)) 7 "Piano"
    None (mkTask (page_loaded [drums] true) [rejects])))) = [HFailed "Piano"].
Proof.
  assert (Habs : absent 7 (page_loaded [drums] true)).
  { intros x [<-|[]]. discriminate. }
  split; [exact Habs|].
  exact (proj2 (proj2 (proj2 (proj2 (proj2
    (addTrack_failed_generation_keeps_the_entry (render (page_loaded [drums] true))
       7 "Piano" None (page_loaded [drums] true) rejects [] eq_refl eq_refl)))))
    eq_refl Habs).
Defined.

(** X10. The undisturbed success: for a name the render does not show and a new
    identifier, with Web Audio and an audio context, when the generation
    answers with a URL and the fetch, the read and the decode succeed while
    the user does nothing, [addTrack] completes after these four answers;
    the list is the old one followed by the new track with its URL, unmuted,
    the history the old one followed by the success line (the "Adding" line
    is gone), the decoded clip is cached under the new identifier, and no
    voice is started. *)
Theorem addTrack_adds_the_generated_track r now inst style w tg t1 t2 t3 rest
    u p1 p2 p3 :
  List.find (fun t => String.eqb (Track.name t) (displayName inst style))
    (r_tracks r) = None ->
  absent now w ->
  r_webAudioSupported r = true -> audioContextRef w <> None ->
  generated_url tg = Some u -> truthy (Some u) = true ->
  answer t1 = Fulfilled p1 -> answer t2 = Fulfilled p2 -> answer t3 = Fulfilled p3 ->
  meanwhile tg = [] -> meanwhile t1 = [] -> meanwhile t2 = [] -> meanwhile t3 = [] ->
  outcome_of (addTrack r now inst style (mkTask w (tg :: t1 :: t2 :: t3 :: rest))) =
    Normal tt /\
  schedule (world_of (addTrack r now inst style
                        (mkTask w (tg :: t1 :: t2 :: t3 :: rest)))) = rest /\
  tracks (world (world_of (addTrack r now inst style
                             (mkTask w (tg :: t1 :: t2 :: t3 :: rest))))) =
    tracks w ++ [Track.mk (displayName inst style) now (Some u) (Some false)] /\
  history (world (world_of (addTrack r now inst style
                              (mkTask w (tg :: t1 :: t2 :: t3 :: rest))))) =
    history w ++ [HAdded (displayName inst style)] /\
  audioBuffersRef (world (world_of (addTrack r now inst style
                                      (mkTask w (tg :: t1 :: t2 :: t3 :: rest))))) =
    <[now := decoded p3]> (audioBuffersRef w) /\
  Forall not_start (trace_of (addTrack r now inst style
                                (mkTask w (tg :: t1 :: t2 :: t3 :: rest)))).
Proof.
  intros Hfind Habs Hs Hc Hu Htruthy H1 H2 H3 Hq Hq1 Hq2 Hq3.
  split; [|split; [|split; [|split; [|split]]]]; [| | | | |apply addTrack_no_start].
  all: rewrite (addTrack_generated r now inst style w tg _ Hfind); cbv zeta;
    rewrite Hu, Htruthy, Hs; cbn [andb];
    rewrite bind_unfold, (after_quiet_turn tg _ Hq).
  all: destruct (loadAudioBuffer_fulfilled r now u
         (set_tracks (with_track_url now (Some u))
            (with_loading_track (displayName inst style) now w))
         t1 t2 t3 rest p1 p2 p3 Hc Hs H1 H2 H3) as [tr ->].
  all: cbn [outcome_of world_of trace_of fst snd lift modify world schedule
            after_turns fold_left].
  all: rewrite ?(after_quiet_turn t1 _ Hq1), ?(after_quiet_turn t2 _ Hq2),
         ?(after_quiet_turn t3 _ Hq3).
  all: unfold with_loading_track; wsimpl.
  - reflexivity.
  - reflexivity.
  - apply with_track_url_loading, Habs.
  - now rewrite removelast_last.
  - reflexivity.
Qed.

Lemma adding_the_piano_to_the_drums :
  absent 7 (page_loaded [drums] true) /\
  tracks (world (world_of (addTrack (render (page_loaded [drums] true)) 7 "Piano"
    None (mkTask (page_loaded [drums] true)
            [generates "blob:piano"; fulfils 0; fulfils 0; fulfils 12])))) =
    [drums; Track.mk "Piano" 7 (Some "blob:piano") (Some false)] /\
  audioBuffersRef (world (world_of (addTrack (render (page_loaded [drums] true)) 7
    "Piano" None (mkTask (page_loaded [drums] true)
            [generates "blob:piano"; fulfils 0; fulfils 0; fulfils 12])))) !! 7 =
    Some {| duration := 12 |}.
Proof.
  assert (Habs : absent 7 (page_loaded [drums] true)).
  { intros x [<-|[]]. discriminate. }
  destruct (addTrack_adds_the_generated_track (render (page_loaded [drums] true))
    7 "Piano" None (page_loaded [drums] true) (generates "blob:piano")
    (fulfils 0) (fulfils 0) (fulfils 12) [] "blob:piano"
    {| decoded := {| duration := 0 |}; generated := None |}
    {| decoded := {| duration := 0 |}; generated := None |}
    {| decoded := {| duration := 12 |}; generated := None |}
    eq_refl Habs eq_refl) as (_ & _ & Ht & _ & Hb & _);
    try reflexivity.
  - vm_compute. discriminate.
  - split; [exact Habs|]. split; [exact Ht|]. rewrite Hb. apply lookup_insert_eq.
Defined.

(** ** Edge cases of [playAll] *)

(** X11. When no track of the render has a URL (an empty list, or tracks still
    being generated), [playAll] warns, shows the alert and does nothing
    else: it waits for nothing and changes nothing, [isPlayingAll]
    included. *)
Theorem playAll_without_playable_tracks r s :
  List.filter Track.has_url (r_tracks r) = [] ->
  playAll r s = (s, [ConsoleWarn MsgNoTracks; Alert], Normal tt).
Proof.
  intros H. unfold playAll. cbv zeta. rewrite H. cbn [length Nat.eqb].
  rewrite try_catch_unfold, bind_emit. cbn [outcome_of emit world_of trace_of fst snd].
  reflexivity.
Qed.

Lemma playAll_while_the_piano_is_generated :
  List.filter Track.has_url
    (r_tracks (render (page_loaded [loadingTrack "Piano" 7] true))) = [] /\
  trace_of (playAll (render (page_loaded [loadingTrack "Piano" 7] true))
              (mkTask (page_loaded [loadingTrack "Piano" 7] true) [])) =
    [ConsoleWarn MsgNoTracks; Alert].
Proof.
  split; [reflexivity|].
  now rewrite (playAll_without_playable_tracks
                 (render (page_loaded [loadingTrack "Piano" 7] true))
                 (mkTask (page_loaded [loadingTrack "Piano" 7] true) []) eq_refl).
Defined.

(** X12. When the audio context is suspended and [resume()] is rejected,
    [playAll] ends in its outer handler: it has consumed that one answer,
    loaded nothing and started nothing, its last report is the "PlayAll
    error" line, and [isPlayingAll] is false. *)
Theorem playAll_gives_up_when_resume_fails r w turn rest :
  wf w -> audioContextRef w = Some suspended ->
  List.filter Track.has_url (r_tracks r) <> [] ->
  answer turn = Rejected ->
  outcome_of (playAll r (mkTask w (turn :: rest))) = Normal tt /\
  schedule (world_of (playAll r (mkTask w (turn :: rest)))) = rest /\
  isPlayingAll (world (world_of (playAll r (mkTask w (turn :: rest))))) = false /\
  audioBuffersRef (world (world_of (playAll r (mkTask w (turn :: rest))))) =
    audioBuffersRef (after_turn turn (world_of (rewind_elements (r_tracks r) w))) /\
  last (trace_of (playAll r (mkTask w (turn :: rest)))) =
    Some (ConsoleError MsgPlayAll) /\
  Forall not_start (trace_of (playAll r (mkTask w (turn :: rest)))).
Proof.
  intros Hwf Hc Hne Hrej.
  destruct (rewind_elements_safe (r_tracks r) w Hwf) as [Hwf1 [[] Ho1]].
  pose proof (rewind_elements_keeps_context _ (r_tracks r) w Hc) as Hc1.
  assert (Hq1 : Forall not_start (trace_of (rewind_elements (r_tracks r) w))).
  { eapply Forall_impl; [apply rewind_elements_before_start|].
    intros [] H; try exact I; destruct H. }
  set (w1 := world_of (rewind_elements (r_tracks r) w)) in *.
  set (tr1 := trace_of (rewind_elements (r_tracks r) w)) in *.
  unfold playAll. cbv zeta.
  destruct (length (List.filter Track.has_url (r_tracks r)) =? 0)%nat eqn:E.
  { apply Nat.eqb_eq, length_zero_iff_nil in E. now destruct Hne. }
  change (forEach (r_tracks r) _) with (rewind_elements (r_tracks r)).
  rewrite try_catch_unfold.
  rewrite bind_unfold, lift_run.
  cbn [outcome_of world_of trace_of fst snd world schedule].
  rewrite Ho1. fold w1 tr1.
  rewrite bind_getW, Hc1.
  rewrite bind_unfold, bind_unfold, await_run, (settles_rejected _ Hrej).
  cbn [outcome_of world_of trace_of fst snd].
  rewrite bind_emit.
  cbn [outcome_of world_of trace_of fst snd lift modify world schedule].
  wsimpl.
  split; [reflexivity|]. split; [reflexivity|]. split; [reflexivity|].
  split; [reflexivity|]. split.
  - change (ConsoleError MsgPlayAll :: []) with ([ConsoleError MsgPlayAll]).
    rewrite ?app_comm_cons, ?app_assoc. apply last_snoc.
  - apply Forall_app. split; [|repeat constructor; exact I].
    apply Forall_app. split; [exact Hq1|].
    constructor; [exact I|]. apply Forall_app.
    split; [apply meanwhile_no_start|repeat constructor; exact I].
Qed.

Lemma playAll_of_the_piano_when_resume_fails :
  wf (page_loaded [piano] true) /\
  trace_of (playAll (render (page_loaded [piano] true))
              (mkTask (page_loaded [piano] true) [rejects])) =
    [Suspend AwResume; Resume AwResume false; ConsoleError MsgPlayAll] /\
  isPlayingAll (world (world_of (playAll (render (page_loaded [piano] true))
              (mkTask (page_loaded [piano] true) [rejects])))) = false.
Proof.
  destruct (playAll_gives_up_when_resume_fails (render (page_loaded [piano] true))
              (page_loaded [piano] true) rejects [])
    as (_ & _ & Hp & _).
  - apply wf_page_loaded.
  - reflexivity.
  - vm_compute. discriminate.
  - reflexivity.
  - split; [apply wf_page_loaded|]. split; [vm_compute; reflexivity|exact Hp].
Defined.

(** ** The HTML5 fallback of [playAll] *)

Section FallbackFacts.

Lemma ready_now_alter (f : AudioElement -> AudioElement) (n e : nat) w :
  (forall el, readyState (f el) = readyState el) ->
  ready_now (set_elements (alter f n) w) e = ready_now w e.
Proof.
  intros Hf. unfold ready_now. wsimpl.
  destruct (decide (n = e)) as [->|Hne].
  - rewrite list_lookup_alter_eq. destruct (elements w !! e) as [el|];
      cbn [fmap option_fmap option_map]; [now rewrite Hf|reflexivity].
  - now rewrite list_lookup_alter_ne.
Qed.

Lemma same_readiness_refl w : same_readiness w w.
Proof. repeat split. Qed.

Lemma same_readiness_alter (f : AudioElement -> AudioElement) (n : nat) w w' :
  (forall el, readyState (f el) = readyState el) ->
  same_readiness w w' -> same_readiness w (set_elements (alter f n) w').
Proof.
  intros Hf (H1 & H2 & H3 & H4). repeat split; wsimpl; try assumption.
  intros e. now rewrite ready_now_alter.
Qed.

Lemma rewind_elements_same_readiness l w :
  same_readiness w (world_of (rewind_elements l w)).
Proof.
  assert (H : keeps (same_readiness w) (rewind_elements l)).
  { unfold rewind_elements, element_pause, update_element. cbv zeta.
    repeat first
      [ keeps_step
      | apply keeps_modify; intros ? ?; apply same_readiness_alter;
        [intros ?; reflexivity|assumption] ]. }
  apply H, same_readiness_refl.
Qed.

Lemma prepare_elements_run l : forall w,
  exists w',
    prepare_elements l w = (w', [], Normal (registered_elements (audioRefs w) l)) /\
    same_readiness w w' /\ (wf w -> wf w').
Proof.
  induction l as [|t l IH]; intros w.
  - exists w. split; [reflexivity|]. split; [apply same_readiness_refl|auto].
  - cbn [prepare_elements]. rewrite bind_get.
    unfold registered_elements. cbn [omap list_omap].
    fold (registered_elements (audioRefs w) l).
    destruct (audioRefs w !! Track.id t) as [e|] eqn:He.
    + destruct (Track.has_url t).
      * unfold update_element. rewrite !bind_modify.
        set (w2 := set_elements (alter (set_el_muted (Track.is_muted t)) e)
                     (set_elements (alter (set_currentTime 0%float) e) w)).
        destruct (IH w2) as (w' & Hrun & Hsame & Hwf').
        exists w'. rewrite bind_unfold, Hrun.
        cbn [outcome_of world_of trace_of fst snd ret app].
        split; [reflexivity|]. split.
        -- destruct Hsame as (H1 & H2 & H3 & H4). repeat split; try assumption.
           intros e'. rewrite H4. unfold w2.
           now rewrite !ready_now_alter by (intros ?; reflexivity).
        -- intros Hwf. apply Hwf'. unfold w2.
           apply (wf_frame w); try reflexivity; exact Hwf.
      * destruct (IH w) as (w' & Hrun & Hsame & Hwf'). exists w'. auto.
    + destruct (IH w) as (w' & Hrun & Hsame & Hwf'). exists w'.
      split; [|auto]. rewrite Hrun. destruct (Track.has_url t); reflexivity.
Qed.

Lemma play_elements_run els : forall w,
  exists w',
    forEach els element_play w = (w', map ElementPlay els, Normal tt) /\
    isPlayingAll w' = isPlayingAll w.
Proof.
  induction els as [|e els IH]; intros w.
  - exists w. split; reflexivity.
  - cbn [forEach]. unfold element_play at 1, update_element.
    rewrite bind_assoc, bind_modify, bind_emit.
    destruct (IH (set_elements (alter (set_paused false) e) w)) as (w' & -> & Hp).
    exists w'. split; [reflexivity|exact Hp].
Qed.

Lemma forallb_ready_now w w' els :
  (forall e, ready_now w' e = ready_now w e) ->
  forallb (ready_now w') els = forallb (ready_now w) els.
Proof.
  intros H. induction els as [|e els IH]; [reflexivity|].
  cbn [forallb]. now rewrite H, IH.
Qed.

Lemma playAll_fallback r w sched :
  wf w -> audioContextRef w = None ->
  List.filter Track.has_url (r_tracks r) <> [] ->
  exists w2 tr0,
    wf w2 /\ Forall not_start tr0 /\ audioRefs w2 = audioRefs w /\
    isPlayingAll w2 = true /\ (forall e, ready_now w2 e = ready_now w e) /\
    (outcome_of (play_fallback (List.filter Track.has_url (r_tracks r))
                   (mkTask w2 sched)) = Normal tt ->
     playAll r (mkTask w sched) =
       (world_of (play_fallback (List.filter Track.has_url (r_tracks r))
                    (mkTask w2 sched)),
        tr0 ++ trace_of (play_fallback (List.filter Track.has_url (r_tracks r))
                           (mkTask w2 sched)),
        Normal tt)).
Proof.
  intros Hwf Hc Hne.
  destruct (rewind_elements_safe (r_tracks r) w Hwf) as [Hwf1 [[] Ho1]].
  destruct (rewind_elements_same_readiness (r_tracks r) w) as (Ha & Hc1 & _ & Hr).
  assert (Hq1 : Forall not_start (trace_of (rewind_elements (r_tracks r) w))).
  { eapply Forall_impl; [apply rewind_elements_before_start|].
    intros [] H; try exact I; destruct H. }
  set (w1 := world_of (rewind_elements (r_tracks r) w)) in *.
  set (tr1 := trace_of (rewind_elements (r_tracks r) w)) in *.
  exists (set_isPlayingAll true w1), tr1.
  split; [apply (wf_frame w1); try reflexivity; exact Hwf1|].
  split; [exact Hq1|]. split; [exact Ha|]. split; [reflexivity|].
  split; [exact Hr|]. intros Hres.
  unfold playAll. cbv zeta.
  destruct (length (List.filter Track.has_url (r_tracks r)) =? 0)%nat eqn:E.
  { apply Nat.eqb_eq, length_zero_iff_nil in E. now destruct Hne. }
  change (forEach (r_tracks r) _) with (rewind_elements (r_tracks r)).
  rewrite try_catch_unfold.
  rewrite bind_unfold, lift_run.
  cbn [outcome_of world_of trace_of fst snd world schedule].
  rewrite Ho1. fold w1 tr1.
  rewrite bind_getW, Hc1, Hc, bind_ret, bind_lift_modify.
  cbn [world schedule]. rewrite bind_getW.
  change (audioContextRef (set_isPlayingAll true w1)) with (audioContextRef w1).
  rewrite Hc1, Hc, andb_false_r, Hres. reflexivity.
Qed.

Lemma forallb_ready_true w els :
  (forall e, In e els -> ready_now w e = true) -> forallb (ready_now w) els = true.
Proof. intros H. apply forallb_forall. exact H. Qed.

Lemma forallb_ready_false w els e :
  In e els -> ready_now w e = false -> forallb (ready_now w) els = false.
Proof.
  intros Hin Hr. destruct (forallb (ready_now w) els) eqn:E; [|reflexivity].
  rewrite forallb_forall in E. rewrite (E e Hin) in Hr. discriminate.
Qed.

Lemma play_fallback_ready l w2 t1 t2 rest :
  (forall e, In e (registered_elements (audioRefs w2) l) -> ready_now w2 e = true) ->
  exists s' tr,
    play_fallback l (mkTask w2 (t1 :: t2 :: rest)) = (s', tr, Normal tt) /\
    element_plays tr = registered_elements (audioRefs w2) l /\
    started_tracks tr = [].
Proof.
  intros Hready. unfold play_fallback.
  destruct (prepare_elements_run l w2) as (w3 & Hrun & (Ha & _ & _ & Hr) & _).
  rewrite bind_unfold, lift_run. cbn [world schedule]. rewrite Hrun.
  cbn [outcome_of world_of trace_of fst snd app].
  set (els := registered_elements (audioRefs w2) l) in *.
  destruct (0 <? length els)%nat eqn:El; cbn [when].
  2:{ destruct els; [|discriminate]. eexists _, _. split; [reflexivity|].
      split; reflexivity. }
  rewrite try_catch_unfold, bind_getW.
  rewrite (forallb_ready_now w2 w3 els Hr), (forallb_ready_true w2 els Hready).
  rewrite bind_unfold, await_promise_run.
  assert (Hn1 : exists v, match answer t1 with
                          | Fulfilled v => Normal v
                          | Rejected => Normal no_payload
                          end = Normal v)
    by (destruct (answer t1); eauto).
  destruct Hn1 as [v1 ->]. cbn [outcome_of world_of trace_of fst snd].
  rewrite bind_unfold, lift_run. cbn [world schedule].
  destruct (play_elements_run els (after_turn t1 w3)) as (w4 & -> & _).
  cbn [outcome_of world_of trace_of fst snd].
  rewrite bind_unfold, await_promise_run.
  assert (Hn2 : exists v, match answer t2 with
                          | Fulfilled v => Normal v
                          | Rejected => Normal no_payload
                          end = Normal v)
    by (destruct (answer t2); eauto).
  destruct Hn2 as [v2 ->]. cbn [outcome_of world_of trace_of fst snd ret].
  eexists _, _. split; [reflexivity|].
  assert (Hq : forall what b (w0 : World) turn,
    Forall not_start (Suspend what :: trace_of (forEach (meanwhile turn) perform w0)
                        ++ [Resume what b])).
  { intros. constructor; [exact I|]. apply Forall_app.
    split; [apply meanwhile_no_start|repeat constructor; exact I]. }
  rewrite !element_plays_app, !started_tracks_app, element_plays_map.
  rewrite !(proj1 (not_start_no_plays _ (Hq _ _ _ _))),
          !(proj2 (not_start_no_plays _ (Hq _ _ _ _))).
  cbn [app]. rewrite !app_nil_r. split; [reflexivity|].
  clear. induction els as [|e els IH]; [reflexivity|exact IH].
Qed.

Lemma play_fallback_timeout l w2 t1 rest e :
  In e (registered_elements (audioRefs w2) l) -> ready_now w2 e = false ->
  answer t1 = Rejected ->
  exists w3 tr,
    play_fallback l (mkTask w2 (t1 :: rest)) =
      (mkTask (after_turn t1 w3) rest, tr ++ [ConsoleError MsgSyncPlayback],
       Normal tt) /\
    Forall not_start tr /\ isPlayingAll w3 = isPlayingAll w2.
Proof.
  intros Hin Hnot Hrej. unfold play_fallback.
  destruct (prepare_elements_run l w2) as (w3 & Hrun & (Ha & _ & Hp & Hr) & _).
  rewrite bind_unfold, lift_run. cbn [world schedule]. rewrite Hrun.
  cbn [outcome_of world_of trace_of fst snd app].
  set (els := registered_elements (audioRefs w2) l) in *.
  destruct (0 <? length els)%nat eqn:El; cbn [when].
  2:{ destruct els; [destruct Hin|discriminate]. }
  rewrite try_catch_unfold, bind_getW.
  rewrite (forallb_ready_now w2 w3 els Hr), (forallb_ready_false w2 els e Hin Hnot).
  rewrite bind_unfold, await_promise_run, Hrej.
  cbn [outcome_of world_of trace_of fst snd emit].
  exists w3. eexists. split; [reflexivity|]. split; [|exact Hp].
  constructor; [exact I|]. apply Forall_app.
  split; [apply meanwhile_no_start|repeat constructor; exact I].
Qed.

End FallbackFacts.

(** X13. Without an audio context [playAll] uses the audio elements. When every
    element registered for a playable track can play through already, the
    wait for readiness cannot fail, and with two answers [playAll]
    completes having called [play()] exactly once on each of these elements,
    in list order, whatever the user did meanwhile; no Web Audio node is
    started. *)
Theorem playAll_fallback_plays_every_ready_element r w t1 t2 rest :
  wf w -> audioContextRef w = None ->
  List.filter Track.has_url (r_tracks r) <> [] ->
  (forall e,
     In e (registered_elements (audioRefs w)
             (List.filter Track.has_url (r_tracks r))) ->
     ready_now w e = true) ->
  outcome_of (playAll r (mkTask w (t1 :: t2 :: rest))) = Normal tt /\
  element_plays (trace_of (playAll r (mkTask w (t1 :: t2 :: rest)))) =
    registered_elements (audioRefs w) (List.filter Track.has_url (r_tracks r)) /\
  started_tracks (trace_of (playAll r (mkTask w (t1 :: t2 :: rest)))) = [].
Proof.
  intros Hwf Hc Hne Hready.
  destruct (playAll_fallback r w (t1 :: t2 :: rest) Hwf Hc Hne)
    as (w2 & tr0 & Hwf2 & Hq0 & Ha & _ & Hr & Hrun).
  destruct (play_fallback_ready (List.filter Track.has_url (r_tracks r)) w2
              t1 t2 rest) as (s' & tr & Hres & Hplays & Hstarts).
  { intros e He. rewrite Hr. apply Hready. now rewrite <- Ha. }
  rewrite Hrun by now rewrite Hres. rewrite Hres.
  cbn [outcome_of world_of trace_of fst snd].
  rewrite element_plays_app, started_tracks_app, Hplays, Hstarts, Ha.
  destruct (not_start_no_plays tr0 Hq0) as [-> ->].
  repeat split.
Qed.

(** X14. Without an audio context, when some element registered for a playable
    track cannot play through yet and its wait is rejected (the 5 second
    timeout), [playAll] still completes normally: no element is played, the
    last report is the "Sync playback error" line, and, if the user did
    nothing meanwhile, [isPlayingAll] stays true although nothing plays. *)
Theorem playAll_fallback_timeout_plays_nothing r w t1 rest e :
  wf w -> audioContextRef w = None ->
  In e (registered_elements (audioRefs w)
          (List.filter Track.has_url (r_tracks r))) ->
  ready_now w e = false ->
  answer t1 = Rejected ->
  outcome_of (playAll r (mkTask w (t1 :: rest))) = Normal tt /\
  element_plays (trace_of (playAll r (mkTask w (t1 :: rest)))) = [] /\
  started_tracks (trace_of (playAll r (mkTask w (t1 :: rest)))) = [] /\
  last (trace_of (playAll r (mkTask w (t1 :: rest)))) =
    Some (ConsoleError MsgSyncPlayback) /\
  (meanwhile t1 = [] ->
   isPlayingAll (world (world_of (playAll r (mkTask w (t1 :: rest))))) = true).
Proof.
  intros Hwf Hc Hin Hnot Hrej.
  assert (Hne : List.filter Track.has_url (r_tracks r) <> []).
  { intros E. rewrite E in Hin. destruct Hin. }
  destruct (playAll_fallback r w (t1 :: rest) Hwf Hc Hne)
    as (w2 & tr0 & Hwf2 & Hq0 & Ha & Hp2 & Hr & Hrun).
  destruct (play_fallback_timeout (List.filter Track.has_url (r_tracks r)) w2
              t1 rest e) as (w3 & tr & Hres & Hq & Hp3); [| |exact Hrej|].
  { now rewrite Ha. }
  { now rewrite Hr. }
  rewrite Hrun by now rewrite Hres. rewrite Hres.
  cbn [outcome_of world_of trace_of fst snd world].
  assert (Hall : Forall not_start (tr0 ++ tr ++ [ConsoleError MsgSyncPlayback])).
  { apply Forall_app. split; [exact Hq0|]. apply Forall_app.
    split; [exact Hq|repeat constructor; exact I]. }
  destruct (not_start_no_plays _ Hall) as [-> ->].
  split; [reflexivity|]. split; [reflexivity|]. split; [reflexivity|].
  split; [rewrite app_assoc; apply last_snoc|].
  intros Hquiet. rewrite (after_quiet_turn t1 _ Hquiet). congruence.
Qed.

Lemma fallback_playAll_of_two_ready_elements :
  wf fallback_page_ready /\
  element_plays (trace_of (playAll (render fallback_page_ready)
    (mkTask fallback_page_ready [rejects; rejects]))) = [0%nat; 1%nat].
Proof.
  assert (Hwf : wf fallback_page_ready).
  { apply (safe_keeps wf _ (safe_forEach wf _ perform perform_safe)).
    apply wf_page_loaded. }
  destruct (playAll_fallback_plays_every_ready_element (render fallback_page_ready)
              fallback_page_ready rejects rejects [] Hwf) as (_ & Hp & _).
  - reflexivity.
  - vm_compute. discriminate.
  - intros e He. vm_compute in He. destruct He as [<-|[<-|[]]]; reflexivity.
  - split; [exact Hwf|]. rewrite Hp. vm_compute. reflexivity.
Defined.

Lemma fallback_playAll_with_an_unready_element :
  wf fallback_page /\
  ready_now fallback_page 0 = false /\
  element_plays (trace_of (playAll (render fallback_page)
    (mkTask fallback_page [rejects]))) = [] /\
  isPlayingAll (world (world_of (playAll (render fallback_page)
    (mkTask fallback_page [rejects])))) = true.
Proof.
  assert (Hwf : wf fallback_page).
  { apply (safe_keeps wf _ (safe_forEach wf _ perform perform_safe)).
    apply wf_page_loaded. }
  destruct (playAll_fallback_timeout_plays_nothing (render fallback_page)
              fallback_page rejects [] 0%nat Hwf) as (_ & Hp & _ & _ & Hplaying).
  - reflexivity.
  - vm_compute. left. reflexivity.
  - reflexivity.
  - reflexivity.
  - split; [exact Hwf|]. split; [reflexivity|]. split; [exact Hp|].
    apply Hplaying. reflexivity.
Defined.

(** ** The [ref] callback of an audio element *)

(** X15. Called with an element for a track that has no loop handler stored, the
    [ref] callback registers the element and the handler and adds one
    ['ended'] and one ['timeupdate'] listener to the element. Called with
    [null] afterwards, it unregisters both and takes the ['ended'] listener
    off again; the ['timeupdate'] listener stays on the element. No other
    track's registration and no other element changes. *)
Theorem audioRef_detach_undoes_attach track (el : nat) el0 w :
  loopHandlers w !! Track.id track = None ->
  elements w !! el = Some el0 ->
  audioRefs (world_of (audioRef_attach track el w)) !! Track.id track = Some el /\
  loopHandlers (world_of (audioRef_attach track el w)) !! Track.id track =
    Some (nextHandler w) /\
  elements (world_of (audioRef_attach track el w)) !! el =
    Some (set_timeupdateListeners (fun l => l ++ [S (nextHandler w)])
            (set_endedListeners (fun l => l ++ [nextHandler w]) el0)) /\
  audioRefs (world_of (audioRef_detach track
               (world_of (audioRef_attach track el w)))) !! Track.id track = None /\
  loopHandlers (world_of (audioRef_detach track
                  (world_of (audioRef_attach track el w)))) !! Track.id track = None /\
  elements (world_of (audioRef_detach track
              (world_of (audioRef_attach track el w)))) !! el =
    Some (set_timeupdateListeners (fun l => l ++ [S (nextHandler w)])
            (set_endedListeners
               (fun l => filter (fun h => h <> nextHandler w) (l ++ [nextHandler w]))
               el0)) /\
  (forall t', t' <> Track.id track ->
     audioRefs (world_of (audioRef_detach track
                  (world_of (audioRef_attach track el w)))) !! t' = audioRefs w !! t' /\
     loopHandlers (world_of (audioRef_detach track
                     (world_of (audioRef_attach track el w)))) !! t' =
       loopHandlers w !! t') /\
  (forall e' : nat, e' <> el ->
     elements (world_of (audioRef_detach track
                 (world_of (audioRef_attach track el w)))) !! e' = elements w !! e').
Proof.
  intros Hh He.
  assert (Hattach : audioRef_attach track el w =
    (set_elements (alter (set_timeupdateListeners (fun l => l ++ [S (nextHandler w)])) el)
       (set_elements (alter (set_endedListeners (fun l => l ++ [nextHandler w])) el)
          (set_loopHandlers (<[Track.id track := nextHandler w]>)
             (set_nextHandler (S (S (nextHandler w)))
                (set_audioRefs (<[Track.id track := el]>) w)))), [], Normal tt)).
  { unfold audioRef_attach, update_element. rewrite bind_modify, bind_get. wsimpl.
    rewrite Hh. rewrite bool_decide_eq_false_2 by (intros [? ?]; discriminate).
    cbn [negb when]. cbv zeta. wsimpl. mnorm. reflexivity. }
  rewrite Hattach. cbn [world_of fst]. wsimpl.
  rewrite !lookup_insert_eq, !list_lookup_alter_eq, He.
  cbn [fmap option_fmap option_map].
  split; [reflexivity|]. split; [reflexivity|]. split; [reflexivity|].
  unfold audioRef_detach, removeEndedListener, update_element.
  rewrite bind_get. wsimpl. rewrite !lookup_insert_eq. mnorm.
  unfold modify. wsimpl.
  rewrite !lookup_delete_eq, !list_lookup_alter_eq, He.
  cbn [fmap option_fmap option_map].
  split; [reflexivity|]. split; [reflexivity|]. split; [reflexivity|].
  split.
  - intros t' Ht'. rewrite !lookup_delete_ne, !lookup_insert_ne by congruence.
    split; reflexivity.
  - intros e' He'. rewrite !list_lookup_alter_ne by congruence. reflexivity.
Qed.

Lemma remounting_the_piano_element :
  loopHandlers fallback_page_stopped !! 1 = None /\
  endedListeners <$>
    elements (world_of (audioRef_attach piano 0 fallback_page_stopped)) !! 0%nat =
    Some [4%nat] /\
  endedListeners <$>
    elements (world_of (audioRef_detach piano
      (world_of (audioRef_attach piano 0 fallback_page_stopped)))) !! 0%nat =
    Some [] /\
  timeupdateListeners <$>
    elements (world_of (audioRef_detach piano
      (world_of (audioRef_attach piano 0 fallback_page_stopped)))) !! 0%nat =
    Some [1%nat; 5%nat].
Proof.
  assert (Hh : loopHandlers fallback_page_stopped !! Track.id piano = None)
    by (vm_compute; reflexivity).
  destruct (audioRef_detach_undoes_attach piano 0
              (mkElement "blob:piano" true 0 false 2 [] [1%nat])
              fallback_page_stopped Hh)
    as (_ & _ & H1 & _ & _ & H2 & _).
  - vm_compute. reflexivity.
  - split; [exact Hh|]. rewrite H1, H2. repeat split.
Defined.

(** ** Voice commands *)

Section VoiceFacts.
Variable toLowerCase : jsstring -> jsstring.
Variable canonicalize : N -> N.

Lemma own_property_in m key v :
  own_property m key = Some v -> In (key, v) m.
Proof.
  induction m as [|[k v0] m IH]; [discriminate|]. cbn [own_property].
  destruct (bool_decide (k = key)) eqn:E.
  - apply bool_decide_eq_true in E as ->. intros [= ->]. now left.
  - intros H. right. now apply IH.
Qed.

Lemma first_keyword_in m cleaned v :
  first_keyword m cleaned = Some v ->
  exists keyword, In (keyword, v) m /\ includes cleaned keyword = true.
Proof.
  induction m as [|[k v0] m IH]; [discriminate|]. cbn [first_keyword].
  destruct (includes cleaned k) eqn:E.
  - intros [= ->]. exists k. split; [now left|exact E].
  - intros H. destruct (IH H) as (k' & Hin & Hinc). exists k'. split; [now right|exact Hinc].
Qed.

Lemma instrumentMap_values keyword v :
  In (keyword, v) instrumentMap -> In v availableInstruments.
Proof.
  assert (H : forallb (fun kv => existsb (String.eqb kv.2) availableInstruments)
                instrumentMap = true) by (vm_compute; reflexivity).
  rewrite forallb_forall in H. intros Hin. specialize (H _ Hin).
  cbn [snd] in H. apply existsb_exists in H as (x & Hx & Heq).
  apply String.eqb_eq in Heq. now subst.
Qed.

Lemma matchInstrument_cases cleaned m :
  matchInstrument cleaned = Some m ->
  match m with
  | OwnString name => In name availableInstruments
  | Inherited p => In p object_prototype_properties /\ cleaned = p
  end.
Proof.
  unfold matchInstrument.
  assert (Hget : forall v, get_property instrumentMap cleaned = Some v ->
    match v with
    | OwnString name => In name availableInstruments
    | Inherited p => In p object_prototype_properties /\ cleaned = p
    end).
  { intros v. unfold get_property.
    destruct (own_property instrumentMap cleaned) as [name|] eqn:Eo.
    - intros [= <-]. apply own_property_in in Eo.
      now apply instrumentMap_values in Eo.
    - destruct (bool_decide _) eqn:Ed; [|discriminate].
      intros [= <-]. apply bool_decide_eq_true in Ed.
      split; [now apply list_elem_of_In|reflexivity]. }
  assert (Hfirst : OwnString <$> first_keyword instrumentMap cleaned = Some m ->
    match m with
    | OwnString name => In name availableInstruments
    | Inherited p => In p object_prototype_properties /\ cleaned = p
    end).
  { destruct (first_keyword instrumentMap cleaned) as [name|] eqn:Ef;
      [|discriminate].
    intros [= <-]. apply first_keyword_in in Ef as (k & Hin & _).
    now apply instrumentMap_values in Hin. }
  destruct cleaned as [|c cleaned']; [exact Hfirst|].
  destruct (get_property instrumentMap (c :: cleaned')) as [v|] eqn:Eg;
    [|exact Hfirst].
  intros [= <-]. now apply Hget.
Qed.

Lemma or_else_nil a : or_else a [] = a.
Proof. now destruct a. Qed.

End VoiceFacts.

(** X16. Whatever is said, the recognition callback either answers "couldn't
    understand" with the lower-cased transcript, or adds a track for one of
    the eight instruments of the page, with one exception: the table is
    read with [instrumentMap[phrase]], so a phrase that is the name of a
    member of [Object.prototype] selects that member instead of an
    instrument. A transcript that lower-cases to "constructor" does. *)
Theorem voice_command_selects_a_listed_instrument toLowerCase canonicalize :
  (forall t,
     match onresult toLowerCase canonicalize t with
     | VoiceAdded (OwnString name) _ => In name availableInstruments
     | VoiceAdded (Inherited p) _ =>
         In p object_prototype_properties /\
         trim (instrument (parseVoiceCommand canonicalize (toLowerCase t))) = p
     | VoiceNotUnderstood c => c = toLowerCase t
     end) /\
  (forall t,
     toLowerCase t = lit "constructor" ->
     onresult toLowerCase canonicalize t =
       VoiceAdded (Inherited (lit "constructor")) None).
Proof.
  split.
  - intros t. unfold onresult. cbv zeta. rewrite or_else_nil.
    destruct (matchInstrument _) as [m|] eqn:E; [|reflexivity].
    apply matchInstrument_cases in E. destruct m; exact E.
  - intros t Ht. unfold onresult. rewrite Ht. vm_compute. reflexivity.
Qed.

Lemma saying_constructor :
  map ascii_lower (lit "Constructor") = lit "constructor" /\
  onresult (map ascii_lower) ascii_upper (lit "Constructor") =
    VoiceAdded (Inherited (lit "constructor")) None.
Proof.
  assert (H : map ascii_lower (lit "Constructor") = lit "constructor")
    by (vm_compute; reflexivity).
  split; [exact H|].
  exact (proj2 (voice_command_selects_a_listed_instrument (map ascii_lower)
                  ascii_upper) (lit "Constructor") H).
Defined.

Section StyleFacts.
Variable canonicalize : N -> N.

Lemma detectStyle_first l command :
  Forall (fun s => s <> []) l ->
  match fst (detectStyle canonicalize l command) with
  | [] =>
      Forall (fun s => includes command s = false) l /\
      snd (detectStyle canonicalize l command) = command
  | st =>
      exists before after,
        l = before ++ st :: after /\ includes command st = true /\
        Forall (fun s => includes command s = false) before /\
        snd (detectStyle canonicalize l command) =
          trim (replace_all canonicalize st command)
  end.
Proof.
  induction 1 as [|s l Hs _ IH]; [split; [constructor|reflexivity]|].
  cbn [detectStyle]. destruct (includes command s) eqn:E.
  - cbn [fst snd]. destruct s as [|c s']; [now destruct Hs|].
    exists [], l. repeat split; [exact E|constructor].
  - destruct (fst (detectStyle canonicalize l command)) as [|c st'] eqn:Ed.
    + destruct IH as [IH1 IH2]. split; [now constructor|exact IH2].
    + destruct IH as (before & after & -> & Hinc & Hbefore & Hrem).
      exists (s :: before), after. repeat split; try assumption.
      now constructor.
Qed.

Lemma styles_not_empty : Forall (fun s : jsstring => s <> []) styles.
Proof. unfold styles. repeat constructor; discriminate. Qed.

Lemma startsWith_app s p q : startsWith s (p ++ q) = true -> startsWith s p = true.
Proof.
  revert s. induction p as [|a p IH]; intros s; [now destruct s|].
  destruct s as [|b s]; [discriminate|]. cbn [app startsWith].
  intros H. apply andb_true_iff in H as [-> H]. now apply IH.
Qed.

Lemma includes_app s p q : includes s (p ++ q) = true -> includes s p = true.
Proof.
  induction s as [|b s IH]; cbn [includes].
  - rewrite !orb_false_r. apply startsWith_app.
  - intros H. apply orb_true_iff in H as [H|H].
    + now rewrite (startsWith_app _ _ _ H).
    + rewrite (IH H). apply orb_true_r.
Qed.

Lemma parsed_style command :
  style (parseVoiceCommand canonicalize command) =
    match fst (detectStyle canonicalize styles command) with
    | [] => None
    | st => Some st
    end.
Proof.
  unfold parseVoiceCommand.
  destruct (detectStyle canonicalize styles command) as [[|c st] rem]; reflexivity.
Qed.

Lemma parsed_instrument command :
  instrument (parseVoiceCommand canonicalize command) =
    trim (or_else (snd (detectStyle canonicalize styles command)) command).
Proof.
  unfold parseVoiceCommand.
  destruct (detectStyle canonicalize styles command) as [[|c st] rem]; reflexivity.
Qed.

End StyleFacts.

(** X17. [parseVoiceCommand] reports the first style of its list that occurs in
    the command, wherever it occurs, and no style exactly when none occurs;
    in that case the instrument phrase is the trimmed command, otherwise it
    is what is left after cutting the style out and trimming, or the whole
    trimmed command when nothing is left. *)
Theorem parseVoiceCommand_reports_the_first_style canonicalize command :
  match style (parseVoiceCommand canonicalize command) with
  | Some st =>
      exists before after,
        styles = before ++ st :: after /\ includes command st = true /\
        Forall (fun s => includes command s = false) before /\
        instrument (parseVoiceCommand canonicalize command) =
          trim (or_else (trim (replace_all canonicalize st command)) command)
  | None =>
      Forall (fun s => includes command s = false) styles /\
      instrument (parseVoiceCommand canonicalize command) = trim command
  end.
Proof.
  rewrite parsed_style, parsed_instrument.
  pose proof (detectStyle_first canonicalize styles command styles_not_empty) as H.
  destruct (fst (detectStyle canonicalize styles command)) as [|c st].
  - destruct H as [H1 H2]. split; [exact H1|]. rewrite H2.
    now destruct command.
  - destruct H as (before & after & E & Hinc & Hb & Hrem).
    exists before, after. rewrite Hrem. repeat split; assumption.
Qed.

(** X18. The style "funky" is never reported: "funk" stands before it in the
    list and occurs in every command in which "funky" occurs, so a "funky"
    command is filed under "funk". *)
Theorem funky_is_never_the_style canonicalize command :
  style (parseVoiceCommand canonicalize command) <> Some (lit "funky").
Proof.
  rewrite parsed_style. intros Hst.
  pose proof (detectStyle_first canonicalize styles command styles_not_empty) as H.
  destruct (fst (detectStyle canonicalize styles command)) as [|c st];
    [discriminate|].
  assert (Hd : c :: st = lit "funky") by congruence. rewrite Hd in H. clear Hst Hd.
  destruct H as (before & after & E & Hinc & Hb & _).
  assert (Hfunk : includes command (lit "funk") = true).
  { apply (includes_app command (lit "funk") (lit "y")). exact Hinc. }
  destruct before as [|b0 [|b1 [|b2 [|b3 before']]]]; cbn [app] in E.
  - apply (f_equal (fun l => nth 0 l [])) in E. vm_compute in E. discriminate.
  - apply (f_equal (fun l => nth 1 l [])) in E. vm_compute in E. discriminate.
  - apply (f_equal (fun l => nth 2 l [])) in E. vm_compute in E. discriminate.
  - apply (f_equal (fun l => nth 3 l [])) in E. vm_compute in E. discriminate.
  - apply (f_equal (fun l => nth 3 l [])) in E. cbn [nth styles] in E. subst b3.
    do 3 apply Forall_cons in Hb as [_ Hb]. apply Forall_cons in Hb as [Hb _].
    congruence.
Qed.

Section BlankFacts.
Variable canonicalize : N -> N.

Lemma trimStart_whitespace s :
  Forall (fun c => is_whitespace c = true) (trimStart s) ->
  Forall (fun c => is_whitespace c = true) s.
Proof.
  induction s as [|c s IH]; [constructor|]. cbn [trimStart].
  destruct (is_whitespace c) eqn:E; [|auto].
  intros H. constructor; [exact E|now apply IH].
Qed.

Lemma trim_nil_whitespace s :
  trim s = [] -> Forall (fun c => is_whitespace c = true) s.
Proof.
  unfold trim. intros H.
  apply (f_equal (@rev N)) in H. rewrite rev_involutive in H. cbn [rev] in H.
  apply trimStart_whitespace. rewrite <- (rev_involutive (trimStart s)).
  apply Forall_rev, trimStart_whitespace. rewrite H. constructor.
Qed.

Lemma startsWith_head s a p : startsWith s (a :: p) = true -> In a s.
Proof.
  destruct s as [|b s]; [discriminate|]. cbn [startsWith].
  intros H. apply andb_true_iff in H as [H _]. apply N.eqb_eq in H. now left.
Qed.

Lemma includes_head s a p : includes s (a :: p) = true -> In a s.
Proof.
  induction s as [|b s IH]; cbn [includes].
  - rewrite orb_false_r. apply startsWith_head.
  - intros H. apply orb_true_iff in H as [H|H].
    + now apply startsWith_head in H.
    + right. now apply IH.
Qed.

Lemma styles_start_with_a_letter st :
  In st styles -> exists a p, st = a :: p /\ is_whitespace a = false.
Proof.
  assert (H : forallb (fun st => match st with
                                 | a :: _ => negb (is_whitespace a)
                                 | [] => false
                                 end) styles = true) by (vm_compute; reflexivity).
  rewrite forallb_forall in H. intros Hin. specialize (H st Hin).
  destruct st as [|a p]; [discriminate|]. exists a, p.
  split; [reflexivity|]. now apply negb_true_iff in H.
Qed.

Lemma whitespace_includes_no_style command st :
  Forall (fun c => is_whitespace c = true) command -> In st styles ->
  includes command st = false.
Proof.
  intros Hws Hin. destruct (styles_start_with_a_letter st Hin) as (a & p & -> & Ha).
  destruct (includes command (a :: p)) eqn:E; [|reflexivity].
  apply includes_head in E. rewrite Forall_forall in Hws.
  apply list_elem_of_In, Hws in E. congruence.
Qed.

Lemma detectStyle_none l command :
  (forall st, In st l -> includes command st = false) ->
  detectStyle canonicalize l command = ([], command).
Proof.
  induction l as [|s l IH]; intros H; [reflexivity|]. cbn [detectStyle].
  rewrite (H s (or_introl eq_refl)). apply IH. intros st Hst. apply H. now right.
Qed.

End BlankFacts.

(** X19. A transcript that is empty or all white space once lower-cased is never
    taken for an instrument: the callback answers "couldn't understand". *)
Theorem blank_voice_command_is_not_understood toLowerCase canonicalize t :
  trim (toLowerCase t) = [] ->
  onresult toLowerCase canonicalize t = VoiceNotUnderstood (toLowerCase t).
Proof.
  intros Hblank. unfold onresult, parseVoiceCommand. cbv zeta.
  rewrite detectStyle_none.
  - cbn [instrument style]. rewrite or_else_nil.
    replace (or_else (toLowerCase t) (toLowerCase t)) with (toLowerCase t)
      by now destruct (toLowerCase t).
    rewrite Hblank. reflexivity.
  - intros st Hst. apply whitespace_includes_no_style; [|exact Hst].
    now apply trim_nil_whitespace.
Qed.

Lemma saying_nothing :
  trim (map ascii_lower (lit "   ")) = [] /\
  onresult (map ascii_lower) ascii_upper (lit "   ") =
    VoiceNotUnderstood (lit "   ").
Proof.
  assert (H : trim (map ascii_lower (lit "   ")) = []) by (vm_compute; reflexivity).
  split; [exact H|].
  exact (blank_voice_command_is_not_understood (map ascii_lower) ascii_upper
           (lit "   ") H).
Defined.

(** X20. Said alone, every keyword of the table that contains no style word
    selects its own instrument, without a style. (Three keywords contain a
    style word: "electric bass", "electric guitar" and "acoustic guitar".) *)
Theorem instrument_keyword_alone_selects_its_instrument
    toLowerCase canonicalize t keyword inst :
  In (keyword, inst) instrumentMap ->
  mentions_no_style keyword = true ->
  toLowerCase t = keyword ->
  onresult toLowerCase canonicalize t = VoiceAdded (OwnString inst) None.
Proof.
  intros Hin Hns Ht. unfold onresult. rewrite Ht. clear Ht.
  unfold instrumentMap in Hin.
  repeat (destruct Hin as [Hin|Hin];
          [injection Hin as <- <-;
           first [ vm_compute in Hns; discriminate | vm_compute; reflexivity ]|]).
  destruct Hin.
Qed.

Lemma saying_sax :
  In (lit "sax", "Saxophone") instrumentMap /\
  mentions_no_style (lit "sax") = true /\
  onresult (map ascii_lower) ascii_upper (lit "Sax") =
    VoiceAdded (OwnString "Saxophone") None.
Proof.
  assert (Hin : In (lit "sax", "Saxophone") instrumentMap).
  { unfold instrumentMap. do 25 right. left. reflexivity. }
  assert (Hns : mentions_no_style (lit "sax") = true) by (vm_compute; reflexivity).
  split; [exact Hin|]. split; [exact Hns|].
  apply (instrument_keyword_alone_selects_its_instrument (map ascii_lower)
           ascii_upper (lit "Sax") (lit "sax") "Saxophone" Hin Hns).
  vm_compute. reflexivity.
Defined.

Section FoldingFacts.
Variables canon1 canon2 : N -> N.

Lemma matches_here_ext p s :
  (forall a b, In a p -> In b s ->
     (canon1 a =? canon1 b)%N = (canon2 a =? canon2 b)%N) ->
  matches_here canon1 p s = matches_here canon2 p s.
Proof.
  revert s. induction p as [|a p IH]; intros s H; [now destruct s|].
  destruct s as [|b s]; [reflexivity|]. cbn [matches_here].
  rewrite (H a b) by now left. f_equal. apply IH.
  intros a' b' Ha Hb. apply H; now right.
Qed.

Lemma cut_matches_ext p s skip :
  (forall a b, In a p -> In b s ->
     (canon1 a =? canon1 b)%N = (canon2 a =? canon2 b)%N) ->
  cut_matches canon1 p skip s = cut_matches canon2 p skip s.
Proof.
  revert skip. induction s as [|c s IH]; intros skip H; [reflexivity|].
  assert (Hs : forall a b, In a p -> In b s ->
                 (canon1 a =? canon1 b)%N = (canon2 a =? canon2 b)%N)
    by (intros a b Ha Hb; apply H; [exact Ha|now right]).
  cbn [cut_matches]. destruct skip as [|k]; [|now apply IH].
  rewrite (matches_here_ext p (c :: s) H).
  destruct (matches_here canon2 p (c :: s)); [now apply IH|].
  f_equal. now apply IH.
Qed.

Lemma replace_all_ext p s :
  (forall a b, In a p -> In b s ->
     (canon1 a =? canon1 b)%N = (canon2 a =? canon2 b)%N) ->
  replace_all canon1 p s = replace_all canon2 p s.
Proof.
  intros H. unfold replace_all. destruct p; [reflexivity|].
  now apply cut_matches_ext.
Qed.

Lemma detectStyle_ext l command :
  (forall st a b, In st l -> In a st -> In b command ->
     (canon1 a =? canon1 b)%N = (canon2 a =? canon2 b)%N) ->
  detectStyle canon1 l command = detectStyle canon2 l command.
Proof.
  induction l as [|st l IH]; intros H; [reflexivity|]. cbn [detectStyle].
  destruct (includes command st).
  - rewrite (replace_all_ext st command); [reflexivity|].
    intros a b. apply H. now left.
  - apply IH. intros st' a b Hst. apply H. now right.
Qed.

Lemma onresult_ext toLowerCase t :
  (forall st a b, In st styles -> In a st -> In b (toLowerCase t) ->
     (canon1 a =? canon1 b)%N = (canon2 a =? canon2 b)%N) ->
  onresult toLowerCase canon1 t = onresult toLowerCase canon2 t.
Proof.
  intros H. unfold onresult, parseVoiceCommand.
  now rewrite (detectStyle_ext styles (toLowerCase t) H).
Qed.

End FoldingFacts.

Section PairFacts.

Lemma in_concat_in {A} (x : A) (l : list A) (ll : list (list A)) :
  In l ll -> In x l -> In x (concat ll).
Proof. intros Hl Hx. apply in_concat. eauto. Qed.

Lemma style_in_alphabet st a : In st styles -> In a st -> In a voice_alphabet.
Proof.
  intros Hst Ha. unfold voice_alphabet. right. apply in_or_app. left.
  now apply (in_concat_in a st).
Qed.

Lemma keyword_in_alphabet keyword inst a :
  In (keyword, inst) instrumentMap -> In a keyword -> In a voice_alphabet.
Proof.
  intros Hk Ha. unfold voice_alphabet. right. apply in_or_app. right.
  apply (in_concat_in a keyword); [|exact Ha].
  apply in_map_iff. now exists (keyword, inst).
Qed.

Lemma all_pairs_selected :
  forallb (fun st => forallb (pair_selected st) instrumentMap) styles = true.
Proof. vm_compute. reflexivity. Qed.

End PairFacts.

(** X21. A style followed by a space and a keyword selects both: for every style
    of the list except "funky" and every keyword that contains no style
    word, the callback adds the keyword's instrument in that style. The
    regular expression compares code units after case folding; the folding
    is assumed not to identify two different code units of the style words,
    the keywords and the space. *)
Theorem style_and_keyword_select_both toLowerCase canonicalize t st keyword inst :
  (forall a b, In a voice_alphabet -> In b voice_alphabet ->
     canonicalize a = canonicalize b -> a = b) ->
  In st styles -> st <> lit "funky" ->
  In (keyword, inst) instrumentMap -> mentions_no_style keyword = true ->
  toLowerCase t = st ++ lit " " ++ keyword ->
  onresult toLowerCase canonicalize t = VoiceAdded (OwnString inst) (Some st).
Proof.
  intros Hinj Hst Hfunky Hk Hns Ht.
  rewrite (onresult_ext canonicalize (fun c => c) toLowerCase t).
  2:{ intros st' a b Hst' Ha Hb.
      assert (Ha' : In a voice_alphabet) by now apply (style_in_alphabet st').
      assert (Hb' : In b voice_alphabet).
      { rewrite Ht in Hb. apply in_app_or in Hb as [Hb|Hb];
          [now apply (style_in_alphabet st)|].
        apply in_app_or in Hb as [Hb|Hb];
          [|now apply (keyword_in_alphabet keyword inst)].
        destruct Hb as [<-|[]]. now left. }
      destruct (N.eqb_spec a b) as [->|Hne]; [apply N.eqb_refl|].
      apply N.eqb_neq. intros E. apply Hne. now apply Hinj. }
  pose proof all_pairs_selected as Hall.
  rewrite forallb_forall in Hall. specialize (Hall st Hst).
  rewrite forallb_forall in Hall. specialize (Hall (keyword, inst) Hk).
  unfold pair_selected in Hall. cbn [fst snd] in Hall. rewrite Hns in Hall.
  rewrite bool_decide_eq_false_2 in Hall by exact Hfunky. cbn [negb orb] in Hall.
  unfold onresult in *. rewrite Ht.
  destruct (matchInstrument _) as [[i|p]|]; try discriminate.
  destruct (style _) as [st'|]; try discriminate.
  apply andb_true_iff in Hall as [Hi Hs].
  apply String.eqb_eq in Hi. apply bool_decide_eq_true in Hs. now subst.
Qed.

Lemma saying_jazz_piano :
  (forall a b, In a voice_alphabet -> In b voice_alphabet ->
     ascii_upper a = ascii_upper b -> a = b) /\
  map ascii_lower (lit "Jazz Piano") = lit "jazz" ++ lit " " ++ lit "piano" /\
  onresult (map ascii_lower) ascii_upper (lit "Jazz Piano") =
    VoiceAdded (OwnString "Piano") (Some (lit "jazz")).
Proof.
  assert (Hinj : forall a b, In a voice_alphabet -> In b voice_alphabet ->
                   ascii_upper a = ascii_upper b -> a = b).
  { assert (H : forallb (fun a => forallb (fun b =>
                  implb (ascii_upper a =? ascii_upper b)%N (a =? b)%N)
                  voice_alphabet) voice_alphabet = true)
      by (vm_compute; reflexivity).
    intros a b Ha Hb E. rewrite forallb_forall in H. specialize (H a Ha).
    rewrite forallb_forall in H. specialize (H b Hb).
    rewrite E, N.eqb_refl in H. now apply N.eqb_eq in H. }
  assert (Hl : map ascii_lower (lit "Jazz Piano") =
               lit "jazz" ++ lit " " ++ lit "piano") by (vm_compute; reflexivity).
  split; [exact Hinj|]. split; [exact Hl|].
  apply (style_and_keyword_select_both (map ascii_lower) ascii_upper
           (lit "Jazz Piano") (lit "jazz") (lit "piano") "Piano" Hinj).
  - left. reflexivity.
  - vm_compute. discriminate.
  - left. reflexivity.
  - vm_compute. reflexivity.
  - exact Hl.
Defined.

(** ** The levels at which [playAll] starts the voices *)

Section LevelFacts.

Lemma level_of_with_voice t b m w :
  level_of (with_voice t b m w) t = Some (if m then 0%float else 1%float).
Proof.
  unfold level_of, with_voice. wsimpl. rewrite lookup_insert_eq, lookup_snoc.
  destruct m; reflexivity.
Qed.

Lemma level_of_with_voice_other t b m w k :
  wf w -> k <> t -> level_of (with_voice t b m w) k = level_of w k.
Proof.
  intros Hwf Hk. unfold level_of, with_voice. wsimpl.
  rewrite lookup_insert_ne by congruence.
  destruct (gainNodesRef w !! k) as [g|] eqn:Eg; [|reflexivity].
  rewrite lookup_app_l; [reflexivity|]. exact (wf_gain w Hwf k g Eg).
Qed.

Lemma start_step r x w :
  wf w -> has_context w -> r_webAudioSupported r = true ->
  buffered w x = true ->
  exists w' tr,
    playTrackWebAudio r (Track.id x) (Track.is_muted x) w = (w', tr, Normal tt) /\
    wf w' /\ has_context w' /\ audioBuffersRef w' = audioBuffersRef w /\
    level_of w' (Track.id x) =
      Some (if Track.is_muted x then 0%float else 1%float) /\
    (forall k, k <> Track.id x -> level_of w' k = level_of w k).
Proof.
  intros Hwf Hc Hs Hb. unfold buffered in Hb.
  apply bool_decide_eq_true in Hb as [b Hb].
  destruct (sourceNodesRef w !! Track.id x) as [n|] eqn:Hn.
  - destruct (wf_source w Hwf _ n Hn) as (nd & g & Hnd & _ & Hst & _).
    rewrite (playTrackWebAudio_restart r _ _ b n nd w Hc Hs Hb Hn Hnd Hst).
    assert (Hwf0 : wf (with_stopped (Track.id x) n w)) by now apply wf_with_stopped.
    eexists _, _. split; [reflexivity|]. split.
    { apply wf_with_voice; [exact Hwf0|].
      unfold with_stopped. wsimpl. apply lookup_delete_eq. }
    split; [exact Hc|]. split; [reflexivity|].
    split; [apply level_of_with_voice|].
    intros k Hk. now rewrite level_of_with_voice_other.
  - rewrite (playTrackWebAudio_fresh r _ _ b w Hc Hs Hb Hn).
    eexists _, _. split; [reflexivity|].
    split; [now apply wf_with_voice|].
    split; [exact Hc|]. split; [reflexivity|].
    split; [apply level_of_with_voice|].
    intros k Hk. now rewrite level_of_with_voice_other.
Qed.

Lemma start_loaded_cons r x l w :
  start_loaded r (x :: l) w =
    bind (if Track.has_url x && buffered w x
          then playTrackWebAudio r (Track.id x) (Track.is_muted x)
          else emit (ConsoleWarn (MsgCannotPlay (Track.name x))))
      (fun _ => start_loaded r l) w.
Proof.
  unfold start_loaded. cbn [forEach]. rewrite bind_assoc, bind_get.
  reflexivity.
Qed.

Lemma start_loaded_level_frame r l : forall w k,
  wf w -> has_context w -> r_webAudioSupported r = true ->
  ~ In k (map Track.id l) ->
  level_of (world_of (start_loaded r l w)) k = level_of w k.
Proof.
  induction l as [|x l IH]; intros w k Hwf Hc Hs Hk; [reflexivity|].
  rewrite start_loaded_cons, bind_unfold.
  assert (Hkx : k <> Track.id x) by (intros ->; apply Hk; now left).
  assert (Hkl : ~ In k (map Track.id l)) by (intros H; apply Hk; now right).
  destruct (Track.has_url x && buffered w x) eqn:E.
  - apply andb_true_iff in E as [_ Hb].
    destruct (start_step r x w Hwf Hc Hs Hb)
      as (w' & tr & -> & Hwf' & Hc' & _ & _ & Hother).
    cbn [outcome_of world_of trace_of fst snd].
    rewrite (IH w' k Hwf' Hc' Hs Hkl). now apply Hother.
  - cbn [emit outcome_of world_of trace_of fst snd]. now apply IH.
Qed.

Lemma start_loaded_levels r l : forall w,
  wf w -> has_context w -> r_webAudioSupported r = true ->
  (forall t, In t l -> Track.has_url t = true) ->
  NoDup (map Track.id l) ->
  forall t, In t l -> buffered w t = true ->
    level_of (world_of (start_loaded r l w)) (Track.id t) =
      Some (if Track.is_muted t then 0%float else 1%float).
Proof.
  induction l as [|x l IH]; intros w Hwf Hc Hs Hu Hnd t Hin Hb; [destruct Hin|].
  apply NoDup_cons in Hnd as [Hx Hnd].
  assert (Hx' : ~ In (Track.id x) (map Track.id l))
    by (intros H; apply Hx; now apply list_elem_of_In).
  rewrite start_loaded_cons, bind_unfold.
  assert (Hu' : forall t0, In t0 l -> Track.has_url t0 = true)
    by (intros t0 H0; apply Hu; now right).
  destruct (Track.has_url x && buffered w x) eqn:E.
  - apply andb_true_iff in E as [_ Hbx].
    destruct (start_step r x w Hwf Hc Hs Hbx)
      as (w' & tr & -> & Hwf' & Hc' & Hbuf & Hlevel & _).
    cbn [outcome_of world_of trace_of fst snd].
    destruct Hin as [<-|Hin].
    + rewrite (start_loaded_level_frame r l w' _ Hwf' Hc' Hs Hx'). exact Hlevel.
    + apply (IH w' Hwf' Hc' Hs Hu' Hnd t Hin).
      unfold buffered in *. now rewrite Hbuf.
  - cbn [emit outcome_of world_of trace_of fst snd].
    destruct Hin as [<-|Hin].
    + rewrite (Hu x (or_introl eq_refl)), Hb in E. discriminate.
    + now apply (IH w Hwf Hc Hs Hu' Hnd t Hin).
Qed.

End LevelFacts.

(** X22. On the Web Audio path, with the audio context running, every awaited
    load answered and distinct identifiers, [playAll] starts each playable
    track that has a cached clip at the level of the mute flag its render
    shows: 0 when muted, 1 otherwise. A mute pressed while [playAll] was
    loading changes the stored flag but not this level. *)
Theorem playAll_starts_each_voice_at_its_mute_level r s t :
  wf (world s) -> audioContextRef (world s) = Some running ->
  r_webAudioSupported r = true ->
  (3 * length (List.filter Track.has_url (r_tracks r)) <= length (schedule s))%nat ->
  NoDup (map Track.id (List.filter Track.has_url (r_tracks r))) ->
  In t (List.filter Track.has_url (r_tracks r)) ->
  buffered (world (world_of (playAll r s))) t = true ->
  level_of (world (world_of (playAll r s))) (Track.id t) =
    Some (if Track.is_muted t then 0%float else 1%float).
Proof.
  intros Hwf Hc Hs Hlen Hnd Hin Hb.
  assert (Hne : List.filter Track.has_url (r_tracks r) <> [])
    by (intros E; rewrite E in Hin; destruct Hin).
  destruct (playAll_webaudio_run r s Hwf Hc Hs Hne Hlen)
    as (s1 & tr1 & [Hwf1 Hc1] & _ & Hrun).
  rewrite Hrun in *. cbn [world_of fst world] in *.
  assert (Hu : forall t0, In t0 (List.filter Track.has_url (r_tracks r)) ->
                          Track.has_url t0 = true).
  { intros t0 Ht0. apply filter_In in Ht0. tauto. }
  destruct (start_loaded_trace r _ (world s1) Hwf1 Hc1 Hs Hu) as (_ & _ & _ & H3).
  apply (start_loaded_levels r _ (world s1) Hwf1 Hc1 Hs Hu Hnd t Hin).
  unfold buffered in *. now rewrite <- H3.
Qed.

Lemma a_mute_pressed_while_loading_is_not_heard :
  wf piano_without_drums /\
  tracks (world (world_of (playAll (render piano_without_drums)
    (mkTask piano_without_drums
       [{| meanwhile := [AToggleMute 1]; answer := Rejected |};
        rejects; rejects; rejects; rejects; rejects])))) =
    [Track.with_muted true piano; drums] /\
  level_of (world (world_of (playAll (render piano_without_drums)
    (mkTask piano_without_drums
       [{| meanwhile := [AToggleMute 1]; answer := Rejected |};
        rejects; rejects; rejects; rejects; rejects])))) 1 = Some 1%float.
Proof.
  assert (Hwf : wf piano_without_drums).
  { apply (playAll_keeps _ (mkTask _ _)). apply wf_page_loaded. }
  split; [exact Hwf|]. split; [vm_compute; reflexivity|].
  apply (playAll_starts_each_voice_at_its_mute_level (render piano_without_drums)
           (mkTask piano_without_drums
              [{| meanwhile := [AToggleMute 1]; answer := Rejected |};
               rejects; rejects; rejects; rejects; rejects]) piano Hwf).
  - vm_compute. reflexivity.
  - reflexivity.
  - vm_compute. lia.
  - vm_compute. repeat constructor; intros H; inversion H; subst;
      match goal with H' : _ ∈ [] |- _ => inversion H' end.
  - left. reflexivity.
  - vm_compute. reflexivity.
Defined.

(** ** [playAll] when every clip is cached *)

Section CachedFacts.

Lemma load_missing_cached r l : forall n w sched,
  (forall t, In t l -> buffered w t = true) ->
  load_missing r l n (mkTask w sched) =
    (mkTask w sched, [], Normal (n + length l)%nat).
Proof.
  induction l as [|t l IH]; intros n w sched H.
  - cbn [load_missing ret length]. now rewrite Nat.add_0_r.
  - cbn [load_missing]. rewrite bind_getW.
    pose proof (H t (or_introl eq_refl)) as Hb. unfold buffered in Hb. rewrite Hb.
    rewrite IH by (intros t0 H0; apply H; now right).
    cbn [length]. now rewrite Nat.add_succ_r.
Qed.

Lemma rewind_elements_keeps_buffers l w :
  audioBuffersRef (world_of (rewind_elements l w)) = audioBuffersRef w.
Proof.
  assert (H : keeps (fun w' => audioBuffersRef w' = audioBuffersRef w)
                (rewind_elements l)).
  { unfold rewind_elements, element_pause, update_element. cbv zeta.
    repeat first [keeps_step | apply keeps_modify; intros ? H; exact H]. }
  now apply H.
Qed.

Lemma rewind_elements_no_suspend l : says not_suspend (rewind_elements l).
Proof.
  unfold rewind_elements, element_pause, update_element. says_tac; exact I.
Qed.

End CachedFacts.

(** X23. On the Web Audio path, with the audio context running, when the
    clip of every playable track of the render is in the cache, [playAll]
    waits for nothing: it completes without consuming an answer and without
    a suspension, warns about no track, and starts one voice per playable
    track, in list order. *)
Theorem playAll_with_cached_clips_waits_for_nothing r w sched :
  wf w -> audioContextRef w = Some running -> r_webAudioSupported r = true ->
  List.filter Track.has_url (r_tracks r) <> [] ->
  (forall t, In t (List.filter Track.has_url (r_tracks r)) -> buffered w t = true) ->
  outcome_of (playAll r (mkTask w sched)) = Normal tt /\
  schedule (world_of (playAll r (mkTask w sched))) = sched /\
  Forall not_suspend (trace_of (playAll r (mkTask w sched))) /\
  started_tracks (trace_of (playAll r (mkTask w sched))) =
    map Track.id (List.filter Track.has_url (r_tracks r)) /\
  cannot_play_warnings (trace_of (playAll r (mkTask w sched))) = [].
Proof.
  intros Hwf Hc Hs Hne Hcached.
  set (playable := List.filter Track.has_url (r_tracks r)) in *.
  destruct (rewind_elements_safe (r_tracks r) w Hwf) as [Hwf1 [[] Ho1]].
  pose proof (rewind_elements_keeps_context _ (r_tracks r) w Hc) as Hc1.
  pose proof (rewind_elements_before_start (r_tracks r) w) as Ht1.
  pose proof (rewind_elements_no_suspend (r_tracks r) w) as Hq1.
  pose proof (rewind_elements_keeps_buffers (r_tracks r) w) as Hb1.
  set (w1 := world_of (rewind_elements (r_tracks r) w)) in *.
  set (tr1 := trace_of (rewind_elements (r_tracks r) w)) in *.
  set (w2 := set_isPlayingAll true w1).
  assert (Hwf2 : wf w2) by (apply (wf_frame w1); try reflexivity; exact Hwf1).
  assert (Hc2 : has_context w2).
  { unfold has_context, w2. change (audioContextRef w1 <> None).
    rewrite Hc1. discriminate. }
  assert (Hsame : forall t, buffered w2 t = buffered w t).
  { intros t. unfold buffered, w2.
    change (audioBuffersRef (set_isPlayingAll true w1)) with (audioBuffersRef w1).
    now rewrite Hb1. }
  assert (Hu : forall t, In t playable -> Track.has_url t = true).
  { intros t Ht. apply filter_In in Ht. tauto. }
  destruct (start_loaded_trace r playable w2 Hwf2 Hc2 Hs Hu)
    as (Ho4 & Hst & Hwarn & _).
  pose proof (start_loaded_no_suspend r playable w2) as Hq4.
  assert (Hrun : playAll r (mkTask w sched) =
    (mkTask (world_of (start_loaded r playable w2)) sched,
     tr1 ++ trace_of (start_loaded r playable w2), Normal tt)).
  { unfold playAll. cbv zeta. fold playable.
    destruct (length playable =? 0)%nat eqn:E.
    { apply Nat.eqb_eq, length_zero_iff_nil in E. now destruct Hne. }
    change (forEach (r_tracks r) _) with (rewind_elements (r_tracks r)).
    rewrite try_catch_unfold, bind_unfold, lift_run.
    cbn [outcome_of world_of trace_of fst snd world schedule].
    rewrite Ho1. fold w1 tr1.
    rewrite bind_getW, Hc1, bind_ret, bind_lift_modify.
    cbn [world schedule]. rewrite bind_getW.
    change (audioContextRef (set_isPlayingAll true w1)) with (audioContextRef w1).
    rewrite Hs, Hc1. cbn [andb].
    rewrite bool_decide_eq_true_2 by (eexists; reflexivity).
    fold w2. rewrite bind_unfold, load_missing_cached
      by (intros t Ht; rewrite Hsame; now apply Hcached).
    cbn [outcome_of world_of trace_of fst snd]. rewrite lift_run.
    cbn [world schedule]. rewrite Ho4.
    cbn [outcome_of world_of trace_of fst snd app]. reflexivity. }
  rewrite Hrun. cbn [outcome_of world_of trace_of fst snd schedule].
  split; [reflexivity|]. split; [reflexivity|].
  split; [apply Forall_app; split; assumption|].
  destruct (before_start_nothing tr1 Ht1) as [E1 E2].
  unfold started_tracks, cannot_play_warnings in *.
  rewrite !omap_app, E1, E2, Hst, Hwarn. cbn [app].
  assert (Hall : List.filter (buffered w2) playable = playable).
  { clear -Hsame Hcached. induction playable as [|t l IH]; [reflexivity|].
    cbn [List.filter]. rewrite Hsame, (Hcached t (or_introl eq_refl)).
    f_equal. apply IH. intros t0 H0. apply Hcached. now right. }
  assert (Hnone : List.filter (fun t => negb (buffered w2 t)) playable = []).
  { clear -Hsame Hcached. induction playable as [|t l IH]; [reflexivity|].
    cbn [List.filter]. rewrite Hsame, (Hcached t (or_introl eq_refl)).
    cbn [negb]. apply IH. intros t0 H0. apply Hcached. now right. }
  rewrite Hall, Hnone. split; reflexivity.
Qed.

Lemma replaying_the_piano_needs_no_answer :
  wf piano_playing /\
  trace_of (playAll (render piano_playing) (mkTask piano_playing [])) =
    [SourceStop 0; SourceStart 1 1] /\
  outcome_of (playAll (render piano_playing) (mkTask piano_playing [])) = Normal tt.
Proof.
  assert (Hwf : wf piano_playing).
  { apply (playAll_keeps _ (mkTask _ _)). apply wf_page_loaded. }
  destruct (playAll_with_cached_clips_waits_for_nothing (render piano_playing)
              piano_playing [] Hwf) as (Ho & _).
  - vm_compute. reflexivity.
  - reflexivity.
  - vm_compute. discriminate.
  - intros t Ht. vm_compute in Ht. destruct Ht as [<-|[]]. vm_compute. reflexivity.
  - split; [exact Hwf|]. split; [vm_compute; reflexivity|exact Ho].
Defined.
